(** * EasyFullControl: command execution, progress tracking and location
      reconciliation of the fleet adapter

    A shallow embedding of
    [rmf_fleet_adapter/src/rmf_fleet_adapter/agv/EasyFullControl.cpp].

    - [double] is IEEE binary64: Rocq's primitive [float], with Eigen's
      2-vector formulas written out ([norm] is [sqrt (x*x + y*y)]).
    - [std::size_t] waypoint and lane indices of the graph are [nat]; the
      loop indices of [follow_new_path], which are subtracted and
      incremented, are [Z] modulo [2^64].
    - [rmf_traffic::Time] and [Duration] are nanosecond counts in [Z].
    - [std::shared_ptr] objects (activity identifiers, command data,
      stubborn overrides, the progress tracker) live in stores keyed by
      an identity; a [std::weak_ptr] is a key whose [lock()] consults the
      store.
    - the rxcpp worker is a FIFO list of tasks; each scheduled lambda is
      a constructor of [Task] and [run_task] is its body.
    - a call that throws ([std::function] empty, [vector::at] out of
      range) or reads outside a vector ends in [Throw].
    - yaml-cpp, rmf_battery, the lane events of the graph and the fleet
      handle are declared outside the file: [Configuration] and [dock]
      take their operations as parameters, and [EasyFleet] records the
      calls made on the fleet handle. *)

From Stdlib Require Import ZArith List Bool String Lia Floats.
From stdpp Require Import base option list gmap strings.

Open Scope Z_scope.

(* ================================================================== *)
(** ** Faults *)

Inductive fault : Type :=
| bad_function_call            (* calling an empty std::function *)
| out_of_range                 (* std::vector::at, Graph::get_waypoint *)
| out_of_bounds_read (i : Z)   (* operator[] outside the vector *)
| loop_bound_exceeded.         (* the embedding's bound on a loop; never
                                  reached, see [decompose_fuel] *)

Inductive outcome (A : Type) : Type :=
| Ok (a : A)
| Throw (e : fault).
Arguments Ok {A} a.
Arguments Throw {A} e.

Definition obind {A B} (m : outcome A) (k : A -> outcome B) : outcome B :=
  match m with
  | Ok a => k a
  | Throw e => Throw e
  end.

Notation "'do' x <- m ; k" := (obind m (fun x => k))
  (at level 10, x name, m at level 100, k at level 200).

Definition at_ {A} (l : list A) (i : nat) : outcome A :=
  match l !! i with
  | Some a => Ok a
  | None => Throw out_of_range
  end.

(* ================================================================== *)
(** ** Geometry: Eigen::Vector2d and Eigen::Vector3d over binary64 *)

Module Eigen.

Record Vector2d := V2 { vx : float; vy : float }.
Record Vector3d := V3 { px : float; py : float; yaw : float }.

Definition sub (a b : Vector2d) : Vector2d :=
  V2 (PrimFloat.sub (vx a) (vx b)) (PrimFloat.sub (vy a) (vy b)).

Definition scale (k : float) (a : Vector2d) : Vector2d :=
  V2 (PrimFloat.mul k (vx a)) (PrimFloat.mul k (vy a)).

Definition divs (a : Vector2d) (k : float) : Vector2d :=
  V2 (PrimFloat.div (vx a) k) (PrimFloat.div (vy a) k).

Definition dot (a b : Vector2d) : float :=
  PrimFloat.add (PrimFloat.mul (vx a) (vx b)) (PrimFloat.mul (vy a) (vy b)).

Definition norm (a : Vector2d) : float := PrimFloat.sqrt (dot a a).

(** [location.block<2,1>(0,0)] and [Vector2d(location[0], location[1])]. *)
Definition xy (l : Vector3d) : Vector2d := V2 (px l) (py l).

End Eigen.
Import Eigen.

(** The literal [0.001] of the source, as the binary64 value it denotes. *)
Definition min_velocity : float := 0x1.0624dd2f1a9fcp-10%float.

(** [std::max(a, b)] is [(a < b) ? b : a]. *)
Definition fmax (a b : float) : float := if PrimFloat.ltb a b then b else a.

(* ================================================================== *)
(** ** The navigation graph (rmf_traffic, read only) *)

(** [rmf_traffic::Time] and [rmf_traffic::Duration] count nanoseconds in
    a 64-bit integer; they are unbounded here, and the overflow of that
    count is not part of the embedding. *)
Definition Time := Z.
Definition Duration := Z.
Abbreviation PlanId := nat (only parsing).

Record GraphWaypoint := mkGraphWaypoint {
  get_location : Vector2d;
  get_map_name : string }.

(** A lane, reduced to [entry().waypoint_index()] and
    [exit().waypoint_index()]. *)
Record GraphLane := mkGraphLane {
  entry_waypoint_index : nat;
  exit_waypoint_index : nat }.

Record Graph := mkGraph {
  graph_waypoints : list GraphWaypoint;
  graph_lanes : list GraphLane;
  lanes_from_table : list (list nat);          (* lanes_from(wp) *)
  lane_from : nat -> nat -> option nat }.      (* index of lane_from(a, b) *)

Definition num_waypoints (g : Graph) : nat := length (graph_waypoints g).
Definition num_lanes (g : Graph) : nat := length (graph_lanes g).
Definition get_waypoint (g : Graph) (i : nat) : outcome GraphWaypoint :=
  at_ (graph_waypoints g) i.
Definition get_lane (g : Graph) (i : nat) : outcome GraphLane :=
  at_ (graph_lanes g) i.
Definition lanes_from (g : Graph) (wp : nat) : outcome (list nat) :=
  at_ (lanes_from_table g) wp.

Record VehicleTraits := mkTraits {
  linear_nominal_velocity : float;
  rotational_nominal_velocity : float }.

(** [planner->get_configuration()]: graph, lane closures, traits. *)
Record Planner := mkPlanner {
  graph : Graph;
  lane_closures : list nat;
  vehicle_traits : VehicleTraits }.

Definition is_closed (closed : list nat) (lane : nat) : bool :=
  existsb (Nat.eqb lane) closed.

(** [rmf_traffic::agv::Plan::Start(time, waypoint, orientation,
    location = nullopt, lane = nullopt)]. *)
Record PlanStart := mkStart {
  start_time : Time;
  start_waypoint : nat;
  start_orientation : float;
  start_location : option Vector2d;
  start_lane : option nat }.

Definition StartSet := list PlanStart.

Record TrajectoryWaypoint := mkSample {
  position : Vector3d;
  time : Time }.

Record Route := mkRoute {
  route_map : string;
  trajectory : list TrajectoryWaypoint }.

Record NavParams := mkNavParams {
  skip_rotation_commands : bool;
  max_merge_waypoint_distance : float;
  max_merge_lane_distance : float;
  min_lane_length : float }.

(* ================================================================== *)
(** ** The robot context *)

(** The three RCLCPP_ERROR sites of [update_location], the planner
    messages and the warning of [follow_new_path]. *)
Inductive LogEntry :=
| ErrPlannerUnavailable
| ErrWaypointOutsideGraph (wp n : nat)
| ErrInvalidLaneLeaving (lane wp n : nat)
| ErrLaneOutsideGraph (lane n : nat)
| WarnOverridePlannerUnavailable
| WarnInvalidPath
| ErrPlannerMissing
| ErrNoInitialMap.

(** A call [itinerary().cumulative_delay(plan_id, delay, threshold)]. *)
Record DelayCall := mkDelay {
  delay_plan : PlanId;
  delay_value : Duration;
  delay_threshold : Duration }.

(** The schedule participant, by its interface: the plan ids assigned,
    the routes set, and the delays reported, latest first. *)
Record Itinerary := mkItinerary {
  next_plan_id : PlanId;
  routes : list (PlanId * list Route);
  delays : list DelayCall }.

(** What the robot-side integrator hears from the adapter: the arrival
    estimates of [next_arrival_estimator] (target index, duration). *)
Record RobotContext := mkContext {
  planner : option Planner;
  location : StartSet;
  itinerary : Itinerary;
  now : Time;
  replan_requests : nat;
  arrival_estimates : list (Z * Duration);
  logger : list LogEntry }.

Definition set_location (s : StartSet) (c : RobotContext) : RobotContext :=
  mkContext (planner c) s (itinerary c) (now c) (replan_requests c)
    (arrival_estimates c) (logger c).

Definition log (e : LogEntry) (c : RobotContext) : RobotContext :=
  mkContext (planner c) (location c) (itinerary c) (now c)
    (replan_requests c) (arrival_estimates c) (e :: logger c).

Definition request_replan (c : RobotContext) : RobotContext :=
  mkContext (planner c) (location c) (itinerary c) (now c)
    (S (replan_requests c)) (arrival_estimates c) (logger c).

Definition set_itinerary (i : Itinerary) (c : RobotContext) : RobotContext :=
  mkContext (planner c) (location c) i (now c) (replan_requests c)
    (arrival_estimates c) (logger c).

Definition cumulative_delay (plan : PlanId) (delay thresh : Duration)
    (c : RobotContext) : RobotContext :=
  set_itinerary
    (mkItinerary (next_plan_id (itinerary c)) (routes (itinerary c))
       (mkDelay plan delay thresh :: delays (itinerary c))) c.

Definition report_arrival (target : Z) (dt : Duration) (c : RobotContext)
    : RobotContext :=
  mkContext (planner c) (location c) (itinerary c) (now c)
    (replan_requests c) ((target, dt) :: arrival_estimates c) (logger c).

Definition one_second : Duration := 1000000000.

(* ================================================================== *)
(** ** Command data *)

(** [ScheduleOverride]: the route, its plan id, and the weak pointer to
    the [StubbornOverride], here the key of that object. *)
Record ScheduleOverride := mkOverride {
  route : Route;
  plan_id : PlanId;
  stubborn : nat }.

(** The [arrival_estimator] closures that the file builds: the one of
    [follow_new_path] forwards to [next_arrival_estimator(target_index,
    dt)], the one of [dock] turns the estimate into a delay of the plan
    that was current when docking began, and a dock that was not found
    in the graph ignores the estimate. *)
Inductive ArrivalEstimator :=
| EstimateForTarget (target_index : Z)
| EstimateForDock (expected_arrival : Time) (plan : PlanId)
| EstimateIgnored.

Record Data := mkData {
  waypoints : list nat;
  lanes : list nat;
  final_orientation : option float;
  schedule_override : option ScheduleOverride;
  nav_params : NavParams;
  arrival_estimator : ArrivalEstimator }.

Definition call_arrival_estimator (e : ArrivalEstimator) (dt : Duration)
    (c : RobotContext) : RobotContext :=
  match e with
  | EstimateForTarget i => report_arrival i dt c
  | EstimateForDock expected plan =>
      cumulative_delay plan (now c + dt - expected) one_second c
  | EstimateIgnored => c
  end.

(* ================================================================== *)
(** ** LocationReconciler: [Data::update_location] and
       [Data::overridden_update] *)

Section Reconciler.

(** External to the repository: [rmf_traffic::agv::compute_plan_starts]
    and the conversions of [rmf_traffic::time]. *)
Variable compute_plan_starts :
  Graph -> string -> Vector3d -> Time -> float -> float -> float -> StartSet.
Variable from_seconds : float -> Duration.
Variable to_seconds : Duration -> float.

(** A loop body that may [return] from the enclosing function: [inl c]
    is the context at the early return, [inr a] the loop's result. *)
Definition flow (A : Type) : Type := outcome (RobotContext + A).

(** Lines 129-153: the hinted waypoints. *)
Fixpoint scan_waypoints (ctx : RobotContext) (g : Graph) (max_dist : float)
    (p : Vector2d) (wps : list nat) (on_waypoint : option (nat * float))
    : flow (option (nat * float)) :=
  match wps with
  | [] => Ok (inr on_waypoint)
  | wp :: rest =>
      if (num_waypoints g <=? wp)%nat then
        Ok (inl (log (ErrWaypointOutsideGraph wp (num_waypoints g)) ctx))
      else
        do w <- get_waypoint g wp;
        let dist := norm (sub p (get_location w)) in
        let on_waypoint' :=
          if PrimFloat.leb dist max_dist then
            match on_waypoint with
            | None => Some (wp, dist)
            | Some (_, best) =>
                if PrimFloat.ltb dist best then Some (wp, dist)
                else on_waypoint
            end
          else on_waypoint in
        scan_waypoints ctx g max_dist p rest on_waypoint'
  end.

(** Lines 161-187: the lanes leaving the matched waypoint. *)
Fixpoint scan_lanes_from (ctx : RobotContext) (g : Graph)
    (closed : list nat) (t : Time) (wp : nat) (yaw : float) (p : Vector2d)
    (ls : list nat) (starts : StartSet) : flow StartSet :=
  match ls with
  | [] => Ok (inr starts)
  | lane_id :: rest =>
      if (num_lanes g <=? lane_id)%nat then
        Ok (inl (log (ErrInvalidLaneLeaving lane_id wp (num_lanes g)) ctx))
      else if is_closed closed lane_id then
        scan_lanes_from ctx g closed t wp yaw p rest starts
      else
        do lane <- get_lane g lane_id;
        scan_lanes_from ctx g closed t wp yaw p rest
          (starts ++ [mkStart t (exit_waypoint_index lane) yaw (Some p)
                        (Some lane_id)])
  end.

(** Lines 212-223: the projection of [p] on a segment from [p0] to [p1];
    the result is [(lane_length, proj, dist_to_lane)]. *)
Definition project (p p0 p1 : Vector2d) : float * float * float :=
  let lane_length := norm (sub p1 p0) in
  let lane_u := divs (sub p1 p0) lane_length in
  let proj := dot (sub p p0) lane_u in
  let dist_to_lane := norm (sub (sub p p0) (scale proj lane_u)) in
  (lane_length, proj, dist_to_lane).

(** [proj < 0.0 || lane_length < proj]. *)
Definition outside_segment (lane_length proj : float) : bool :=
  PrimFloat.ltb proj 0%float || PrimFloat.ltb lane_length proj.

(** Lines 192-231: the hinted lanes. *)
Fixpoint scan_lanes (ctx : RobotContext) (g : Graph) (closed : list nat)
    (max_dist : float) (p : Vector2d) (ls : list nat)
    (on_lane : option (nat * float)) : flow (option (nat * float)) :=
  match ls with
  | [] => Ok (inr on_lane)
  | lane_id :: rest =>
      if (num_lanes g <=? lane_id)%nat then
        Ok (inl (log (ErrLaneOutsideGraph lane_id (num_lanes g)) ctx))
      else if is_closed closed lane_id then
        scan_lanes ctx g closed max_dist p rest on_lane
      else
        do lane <- get_lane g lane_id;
        do w0 <- get_waypoint g (entry_waypoint_index lane);
        do w1 <- get_waypoint g (exit_waypoint_index lane);
        let '(lane_length, proj, dist_to_lane) :=
          project p (get_location w0) (get_location w1) in
        if outside_segment lane_length proj then
          scan_lanes ctx g closed max_dist p rest on_lane
        else
          let on_lane' :=
            if PrimFloat.leb dist_to_lane max_dist then
              match on_lane with
              | None => Some (lane_id, dist_to_lane)
              | Some (_, best) =>
                  if PrimFloat.ltb dist_to_lane best
                  then Some (lane_id, dist_to_lane)
                  else on_lane
              end
            else on_lane in
          scan_lanes ctx g closed max_dist p rest on_lane'
  end.

(** Lines 233-247: the starts of a matched lane. *)
Definition lane_starts (g : Graph) (t : Time) (yaw : float) (p : Vector2d)
    (lane_id : nat) : outcome StartSet :=
  do lane <- get_lane g lane_id;
  let wp0 := entry_waypoint_index lane in
  let wp1 := exit_waypoint_index lane in
  let first := mkStart t wp1 yaw (Some p) (Some lane_id) in
  match lane_from g wp1 wp0 with
  | Some reverse_lane =>
      Ok [first; mkStart t wp0 yaw (Some p) (Some reverse_lane)]
  | None => Ok [first]
  end.

(** Lines 262-277: the arrival estimate. *)
Definition estimate_arrival (ctx : RobotContext) (pl : Planner) (d : Data)
    (l : Vector3d) : outcome RobotContext :=
  match last (waypoints d) with
  | None => Ok ctx
  | Some back =>
      do w <- get_waypoint (graph pl) back;
      let distance := norm (sub (get_location w) (xy l)) in
      let rotation :=
        match final_orientation d with
        | Some o => PrimFloat.abs (PrimFloat.sub (yaw l) o)
        | None => 0%float
        end in
      let v := fmax (linear_nominal_velocity (vehicle_traits pl))
                 min_velocity in
      let w := fmax (rotational_nominal_velocity (vehicle_traits pl))
                 min_velocity in
      let t := PrimFloat.add (PrimFloat.div distance v)
                 (PrimFloat.div rotation w) in
      Ok (call_arrival_estimator (arrival_estimator d) (from_seconds t) ctx)
  end.

(** Lines 289-315: the segments of the override's trajectory; [i0] is
    the index of the first sample of [samples]. *)
Fixpoint scan_segments (p : Vector2d) (i0 : nat)
    (samples : list TrajectoryWaypoint) (closest_lane : option (nat * float))
    : option (nat * float) :=
  match samples with
  | s0 :: ((s1 :: _) as rest) =>
      let '(lane_length, proj, dist_to_lane) :=
        project p (xy (position s0)) (xy (position s1)) in
      let closest_lane' :=
        if outside_segment lane_length proj then closest_lane
        else
          match closest_lane with
          | None => Some (i0, dist_to_lane)
          | Some (_, best) =>
              if PrimFloat.ltb dist_to_lane best then Some (i0, dist_to_lane)
              else closest_lane
          end in
      scan_segments p (S i0) rest closest_lane'
  | _ => closest_lane
  end.

(** Lines 340-350: the sample nearest to [p]. *)
Fixpoint scan_samples (p : Vector2d) (samples : list TrajectoryWaypoint)
    (closest_time : option (Time * float)) : option (Time * float) :=
  match samples with
  | [] => closest_time
  | wp :: rest =>
      let dist := norm (sub p (xy (position wp))) in
      let closest_time' :=
        match closest_time with
        | None => Some (time wp, dist)
        | Some (_, best) =>
            if PrimFloat.ltb dist best then Some (time wp, dist)
            else closest_time
        end in
      scan_samples p rest closest_time'
  end.

(** Lines 321-332: the time the plan expected the robot at the
    projection of [p] on the segment from [wp0] to [wp1]. *)
Definition expected_time (p : Vector2d) (wp0 wp1 : TrajectoryWaypoint)
    : Time :=
  let '(lane_length, proj, _) :=
    project p (xy (position wp0)) (xy (position wp1)) in
  let s := PrimFloat.div proj lane_length in
  let dt := to_seconds (time wp1 - time wp0) in
  time wp0 + from_seconds (PrimFloat.mul s dt).

(** Lines 317-360: the delay of the override's plan. *)
Definition override_delay (ctx : RobotContext) (p : Vector2d)
    (ov : ScheduleOverride) : outcome RobotContext :=
  let samples := trajectory (route ov) in
  match scan_segments p 0 samples None with
  | Some (i, _) =>
      do wp0 <- at_ samples i;
      do wp1 <- at_ samples (i + 1)%nat;
      Ok (cumulative_delay (plan_id ov)
            (now ctx - expected_time p wp0 wp1) one_second ctx)
  | None =>
      match scan_samples p samples None with
      | Some (t, _) =>
          Ok (cumulative_delay (plan_id ov) (now ctx - t) one_second ctx)
      | None => Ok ctx
      end
  end.

(** Lines 280-382. *)
Definition overridden_update (ctx : RobotContext) (d : Data) (map : string)
    (l : Vector3d) (ov : ScheduleOverride) : outcome RobotContext :=
  do ctx1 <- override_delay ctx (xy l) ov;
  match planner ctx1 with
  | None => Ok (log ErrPlannerUnavailable ctx1)
  | Some pl =>
      let starts :=
        compute_plan_starts (graph pl) map l (now ctx)
          (max_merge_waypoint_distance (nav_params d))
          (max_merge_lane_distance (nav_params d))
          (min_lane_length (nav_params d)) in
      Ok (set_location starts ctx1)
  end.

(** Lines 155-259: the start set, after the hinted waypoints were
    scanned with result [on_waypoint]. *)
Definition resolve_starts (ctx : RobotContext) (pl : Planner) (d : Data)
    (map : string) (l : Vector3d) (on_waypoint : option (nat * float))
    : flow StartSet :=
  let g := graph pl in
  let p := xy l in
  let t := now ctx in
  match on_waypoint with
  | Some (wp, _) =>
      do ls <- lanes_from g wp;
      scan_lanes_from ctx g (lane_closures pl) t wp (yaw l) p ls
        [mkStart t wp (yaw l) (Some p) None]
  | None =>
      do r <- scan_lanes ctx g (lane_closures pl)
                (max_merge_lane_distance (nav_params d)) p (lanes d) None;
      match r with
      | inl c => Ok (inl c)
      | inr (Some (lane_id, _)) =>
          do s <- lane_starts g t (yaw l) p lane_id;
          Ok (inr s)
      | inr None =>
          Ok (inr (compute_plan_starts g map l t
                     (max_merge_waypoint_distance (nav_params d))
                     (max_merge_lane_distance (nav_params d))
                     (min_lane_length (nav_params d))))
      end
  end.

(** Lines 100-278. *)
Definition update_location (ctx : RobotContext) (d : Data) (map : string)
    (l : Vector3d) : outcome RobotContext :=
  match schedule_override d with
  | Some ov => overridden_update ctx d map l ov
  | None =>
      match planner ctx with
      | None => Ok (log ErrPlannerUnavailable ctx)
      | Some pl =>
          do r <- scan_waypoints ctx (graph pl)
                    (max_merge_waypoint_distance (nav_params d)) (xy l)
                    (waypoints d) None;
          match r with
          | inl c => Ok c
          | inr on_waypoint =>
              do rs <- resolve_starts ctx pl d map l on_waypoint;
              match rs with
              | inl c => Ok c
              | inr starts =>
                  estimate_arrival (set_location starts ctx) pl d l
              end
          end
      end
  end.

End Reconciler.

(* ================================================================== *)
(** ** Commands, the worker and the progress tracker *)

Record Destination := mkDestination {
  dest_map : string;
  dest_position : Vector3d;
  dest_graph_index : option nat }.

(** The [begin] closures that the file builds: [follow_new_path] wraps
    [handle_nav_request(destination, execution)] and [dock] wraps
    [handle_dock(dock_name, execution)]. *)
Inductive BeginCallback :=
| NavigationRequest (destination : Destination)
| DockRequest (dock_name : string).

(** [CommandExecution::Implementation]: [data] and [identifier] are
    shared pointers (keys of the stores below); [finisher], once wired by
    the tracker, holds the tracker's [weak_from_this()]. *)
Record CommandExecution := mkCommand {
  data : nat;
  begin : option BeginCallback;
  finisher : option nat;
  identifier : nat }.

(** [StubbornOverride]: [stubbornness] is non-null while the object holds
    a copy of the context's stubbornness token. The object is owned by
    the [Stubbornness] handle given to the caller and by the scheduled
    lambda of [override_schedule] until that lambda has run. *)
Record StubbornOverride := mkStubborn {
  stubbornness : bool;
  held_by_handle : bool;
  held_by_task : bool }.

(** Modelled from the spec: [TriggerOnce] (declared outside this file),
    the fire-once completion token of section 4.3, a one-shot flag. *)
Record TriggerOnce := mkTrigger { triggered : bool }.

Record ProgressTracker := mkTracker {
  tracker_id : nat;
  reverse_queue : list CommandExecution;
  current_identifier : option nat;
  finished : TriggerOnce }.

(** The lambdas handed to [worker().schedule], with their captures. *)
Inductive Task :=
| FinishTask (data identifier : nat) (finisher : option nat)
| OverrideTask (stubborn data identifier : nat) (map : string)
    (path : list Vector3d)
| UpdatePositionTask (map_name : string) (position : Vector3d)
    (current_activity : option nat).

(** What the integrator's callbacks do with the execution they receive,
    before they return. *)
Inductive ApiCall :=
| CallFinished
| CallOverrideSchedule (map : string) (path : list Vector3d).

(** What the outside observes, latest first. *)
Inductive Observation :=
| BeginInvoked (identifier : nat)
| PathFinished (tracker : nat)
| StopRequested (identifier : nat).

(** The robot: its context (with [context_alive] false once every
    [w_context.lock()] fails), the worker's queue, the shared objects,
    and the [EasyCommandHandle] with the integrator's callbacks. *)
Record World := mkWorld {
  context : RobotContext;
  context_alive : bool;
  worker : list Task;
  identifiers : list (option nat);         (* update_fn: the data it captured *)
  datas : list Data;
  stubborn_overrides : list (option StubbornOverride);
  current_progress : option ProgressTracker;
  next_tracker : nat;
  params : NavParams;                      (* the shared NavParams *)
  handle_nav_request : Destination -> list ApiCall;
  handle_dock : string -> list ApiCall;
  observed : list Observation }.

Definition with_context (c : RobotContext) (w : World) : World :=
  mkWorld c (context_alive w) (worker w) (identifiers w) (datas w)
    (stubborn_overrides w) (current_progress w) (next_tracker w)
    (params w) (handle_nav_request w) (handle_dock w) (observed w).

Definition with_worker (q : list Task) (w : World) : World :=
  mkWorld (context w) (context_alive w) q (identifiers w) (datas w)
    (stubborn_overrides w) (current_progress w) (next_tracker w)
    (params w) (handle_nav_request w) (handle_dock w) (observed w).

Definition with_identifiers (i : list (option nat)) (w : World) : World :=
  mkWorld (context w) (context_alive w) (worker w) i (datas w)
    (stubborn_overrides w) (current_progress w) (next_tracker w)
    (params w) (handle_nav_request w) (handle_dock w) (observed w).

Definition with_datas (d : list Data) (w : World) : World :=
  mkWorld (context w) (context_alive w) (worker w) (identifiers w) d
    (stubborn_overrides w) (current_progress w) (next_tracker w)
    (params w) (handle_nav_request w) (handle_dock w) (observed w).

Definition with_stubborn_overrides (s : list (option StubbornOverride))
    (w : World) : World :=
  mkWorld (context w) (context_alive w) (worker w) (identifiers w) (datas w)
    s (current_progress w) (next_tracker w)
    (params w) (handle_nav_request w) (handle_dock w) (observed w).

Definition with_progress (p : option ProgressTracker) (w : World) : World :=
  mkWorld (context w) (context_alive w) (worker w) (identifiers w) (datas w)
    (stubborn_overrides w) p (next_tracker w)
    (params w) (handle_nav_request w) (handle_dock w) (observed w).

Definition with_next_tracker (n : nat) (w : World) : World :=
  mkWorld (context w) (context_alive w) (worker w) (identifiers w) (datas w)
    (stubborn_overrides w) (current_progress w) n
    (params w) (handle_nav_request w) (handle_dock w) (observed w).

Definition observe (o : Observation) (w : World) : World :=
  mkWorld (context w) (context_alive w) (worker w) (identifiers w) (datas w)
    (stubborn_overrides w) (current_progress w) (next_tracker w)
    (params w) (handle_nav_request w) (handle_dock w) (o :: observed w).

Definition schedule (t : Task) (w : World) : World :=
  with_worker (worker w ++ [t]) w.

(** The [update_fn] of an [ActivityIdentifier::Implementation]:
    [Some d] is the closure of [CommandExecution::make] over the data
    [d], [None] is [nullptr]. *)
Definition update_fn (w : World) (identifier : nat) : option nat :=
  match identifiers w !! identifier with
  | Some f => f
  | None => None
  end.

Definition clear_update_fn (identifier : nat) (w : World) : World :=
  with_identifiers (<[identifier := None]> (identifiers w)) w.

(** [CommandExecution::okay] (line 519). *)
Definition okay (w : World) (cmd : CommandExecution) : bool :=
  match update_fn w (identifier cmd) with
  | Some _ => true
  | None => false
  end.

(* ------------------------------------------------------------------ *)
(** *** Stubbornness *)

(** Modelled from the spec: [RobotContext::be_stubborn] (declared
    outside this file) hands out a copy of the context's stubbornness
    token, and the robot is stubborn while some copy is alive. The
    copies this file takes are the [stubbornness] fields of the live
    [StubbornOverride] objects. *)
Definition holds_token (o : option StubbornOverride) : bool :=
  match o with
  | Some so => stubbornness so
  | None => false
  end.

Definition is_stubborn (w : World) : bool :=
  existsb holds_token (stubborn_overrides w).

(** A shared pointer to the [StubbornOverride] goes away; the object is
    destroyed, and its token dropped, when no owner is left. *)
Definition settle (so : StubbornOverride) : option StubbornOverride :=
  if held_by_handle so || held_by_task so then Some so else None.

Definition drop_task_owner (sid : nat) (w : World) : World :=
  match stubborn_overrides w !! sid with
  | Some (Some so) =>
      with_stubborn_overrides
        (<[sid := settle (mkStubborn (stubbornness so) (held_by_handle so)
                            false)]> (stubborn_overrides w)) w
  | _ => w
  end.

(** Modelled from the spec: [Stubbornness::release] (declared outside
    this file) gives up the handle's pointer to the [StubbornOverride];
    a released handle holds nothing. *)
Definition release (sid : nat) (w : World) : World :=
  match stubborn_overrides w !! sid with
  | Some (Some so) =>
      with_stubborn_overrides
        (<[sid := settle (mkStubborn (stubbornness so) false
                            (held_by_task so))]> (stubborn_overrides w)) w
  | _ => w
  end.

(** [Data::release_stubbornness] (lines 88-98): [stubborn.lock()]
    succeeds while the object is in the store. *)
Definition release_stubbornness (d : Data) (w : World) : World :=
  match schedule_override d with
  | Some ov =>
      match stubborn_overrides w !! stubborn ov with
      | Some (Some so) =>
          with_stubborn_overrides
            (<[stubborn ov := Some (mkStubborn false (held_by_handle so)
                                      (held_by_task so))]>
               (stubborn_overrides w)) w
      | _ => w
      end
  | None => w
  end.

(* ------------------------------------------------------------------ *)
(** *** The calls of the integrator and the tasks they schedule *)

Section Execution.

Variable compute_plan_starts :
  Graph -> string -> Vector3d -> Time -> float -> float -> float -> StartSet.
Variable from_seconds : float -> Duration.
Variable to_seconds : Duration -> float.
(** External: [rmf_traffic::agv::Interpolate::positions]. *)
Variable interpolate_positions :
  VehicleTraits -> Time -> list Vector3d -> list TrajectoryWaypoint.

(** [CommandExecution::Implementation::finish] (lines 392-424), the part
    that runs in the caller: lock the context and schedule. *)
Definition finish (cmd : CommandExecution) (w : World) : World :=
  if context_alive w then
    schedule (FinishTask (data cmd) (identifier cmd) (finisher cmd)) w
  else w.

(** [CommandExecution::Implementation::override_schedule] (lines
    426-480), the part that runs in the caller; the result carries the
    key of the [StubbornOverride] behind the returned handle. *)
Definition override_schedule (cmd : CommandExecution) (map : string)
    (path : list Vector3d) (w : World) : nat * World :=
  let sid := length (stubborn_overrides w) in
  let w1 :=
    with_stubborn_overrides
      (stubborn_overrides w ++ [Some (mkStubborn false true (context_alive w))])
      w in
  (sid,
   if context_alive w then
     schedule (OverrideTask sid (data cmd) (identifier cmd) map path) w1
   else w1).

(** [EasyRobotUpdateHandle::update_position] (lines 1196-1240), the part
    that runs in the caller. *)
Definition update_position (map_name : string) (position : Vector3d)
    (current_activity : option nat) (w : World) : World :=
  schedule (UpdatePositionTask map_name position current_activity) w.

Definition api_call (cmd : CommandExecution) (c : ApiCall) (w : World)
    : World :=
  match c with
  | CallFinished => finish cmd w
  | CallOverrideSchedule map path => snd (override_schedule cmd map path w)
  end.

(** The calls that the integrator's callback makes for [cb]. *)
Definition script_of (w : World) (cb : BeginCallback) : list ApiCall :=
  match cb with
  | NavigationRequest d => handle_nav_request w d
  | DockRequest n => handle_dock w n
  end.

(** Invoking [begin(execution)]: the integrator's callback runs and
    makes its calls on the execution. *)
Definition invoke_begin (cb : BeginCallback) (cmd : CommandExecution)
    (w : World) : World :=
  fold_left (fun w' c => api_call cmd c w') (script_of w cb)
    (observe (BeginInvoked (identifier cmd)) w).

(** [TriggerOnce::trigger] on the tracker's [finished]. *)
Definition trigger (tr : ProgressTracker) (w : World) : World :=
  if triggered (finished tr) then with_progress (Some tr) w
  else
    observe (PathFinished (tracker_id tr))
      (with_progress
         (Some (mkTracker (tracker_id tr) (reverse_queue tr)
                  (current_identifier tr) (mkTrigger true))) w).

(** [ProgressTracker::next] (lines 630-657) on the tracker that
    [current_progress] owns. *)
Definition next (w : World) : World :=
  match current_progress w with
  | None => w
  | Some tr =>
      match last (reverse_queue tr) with
      | None =>
          trigger (mkTracker (tracker_id tr) (reverse_queue tr) None
                     (finished tr)) w
      | Some back =>
          let current_activity :=
            mkCommand (data back) (begin back) (Some (tracker_id tr))
              (identifier back) in
          let w1 :=
            with_progress
              (Some (mkTracker (tracker_id tr)
                       (removelast (reverse_queue tr))
                       (Some (identifier back)) (finished tr))) w in
          match begin back with
          | Some cb => invoke_begin cb current_activity w1
          | None => w1
          end
      end
  end.

(** The [finisher] closure wired by [next]: lock the weak pointer to
    the tracker, then [next()]. *)
Definition call_finisher (tid : nat) (w : World) : World :=
  match current_progress w with
  | Some tr => if (tracker_id tr =? tid)%nat then next w else w
  | None => w
  end.

(** [ProgressTracker::make] (lines 659-668), installed as
    [current_progress]. *)
Definition make_tracker (queue : list CommandExecution) (w : World) : World :=
  with_next_tracker (S (next_tracker w))
    (with_progress
       (Some (mkTracker (next_tracker w) (rev queue) None (mkTrigger false)))
       w).

Definition with_schedule_override (ov : ScheduleOverride) (d : Data) : Data :=
  mkData (waypoints d) (lanes d) (final_orientation d) (Some ov)
    (nav_params d) (arrival_estimator d).

Definition be_stubborn (sid : nat) (w : World) : World :=
  match stubborn_overrides w !! sid with
  | Some (Some so) =>
      with_stubborn_overrides
        (<[sid := Some (mkStubborn true (held_by_handle so)
                          (held_by_task so))]> (stubborn_overrides w)) w
  | _ => w
  end.

(** The lambda of [finish] (lines 403-422). *)
Definition run_finish (d i : nat) (fin : option nat) (w : World)
    : outcome World :=
  match update_fn w i with
  | None => Ok w
  | Some _ =>
      let w1 := clear_update_fn i w in
      do dt <- at_ (datas w1) d;
      match schedule_override dt with
      | Some _ =>
          let w2 := release_stubbornness dt w1 in
          Ok (with_context (request_replan (context w2)) w2)
      | None =>
          match fin with
          | None => Throw bad_function_call
          | Some tid => Ok (call_finisher tid w1)
          end
      end
  end.

(** The lambda of [override_schedule] (lines 442-476); when it has run,
    its capture of [stubborn] is gone. *)
Definition run_override (sid d i : nat) (map : string)
    (path : list Vector3d) (w : World) : outcome World :=
  do w' <-
    match update_fn w i with
    | None => Ok w
    | Some _ =>
        match planner (context w) with
        | None =>
            Ok (with_context (log WarnOverridePlannerUnavailable (context w))
                  w)
        | Some pl =>
            do dt <- at_ (datas w) d;
            let w1 := release_stubbornness dt w in
            let ctx := context w1 in
            let r :=
              mkRoute map
                (interpolate_positions (vehicle_traits pl) (now ctx) path) in
            let id := next_plan_id (itinerary ctx) in
            let ctx' :=
              set_itinerary
                (mkItinerary (S id) ((id, [r]) :: routes (itinerary ctx))
                   (delays (itinerary ctx))) ctx in
            let w2 := with_context ctx' w1 in
            let w3 :=
              with_datas
                (<[d := with_schedule_override (mkOverride r id sid) dt]>
                   (datas w2)) w2 in
            Ok (be_stubborn sid w3)
        end
    end;
  Ok (drop_task_owner sid w').

(** The lambda of [update_position] (lines 1208-1239). Without a
    current activity the start set is computed and goes out of scope.
    The world is that of a robot the fleet has registered: on lines
    1216-1217 the lambda reads the context through [updater->handle],
    which is null until the task scheduled by the callback of
    [add_robot] has run (see [more] and [update_battery_soc] for the
    handle itself); a report made before that is outside this
    definition. *)
Definition run_update_position (map_name : string) (position : Vector3d)
    (current_activity : option nat) (w : World) : outcome World :=
  match current_activity with
  | Some i =>
      match update_fn w i with
      | None => Throw bad_function_call
      | Some d =>
          if context_alive w then
            do dt <- at_ (datas w) d;
            do c <- update_location compute_plan_starts from_seconds
                      to_seconds (context w) dt map_name position;
            Ok (with_context c w)
          else Ok w
      end
  | None =>
      match planner (context w) with
      | None => Ok (with_context (log ErrPlannerUnavailable (context w)) w)
      | Some pl =>
          let starts :=
            compute_plan_starts (graph pl) map_name position
              (now (context w))
              (max_merge_waypoint_distance (params w))
              (max_merge_lane_distance (params w))
              (min_lane_length (params w)) in
          Ok w
      end
  end.

(** [EasyCommandHandle::stop] (lines 740-759). *)
Definition stop (w : World) : World :=
  match current_progress w with
  | None => w
  | Some tr =>
      match current_identifier tr with
      | None => w
      | Some i =>
          observe (StopRequested i)
            (with_progress None (clear_update_fn i w))
      end
  end.

Definition run_task (t : Task) (w : World) : outcome World :=
  match t with
  | FinishTask d i fin => run_finish d i fin w
  | OverrideTask sid d i map path => run_override sid d i map path w
  | UpdatePositionTask map_name position act =>
      run_update_position map_name position act w
  end.

(** The worker takes the task at the front of its queue and runs it. *)
Definition run_worker (w : World) : outcome World :=
  match worker w with
  | [] => Ok w
  | t :: q => run_task t (with_worker q w)
  end.

(** The worker runs until its queue is empty or [fuel] tasks have run. *)
Fixpoint drain (fuel : nat) (w : World) : outcome World :=
  match fuel with
  | O => Ok w
  | S n =>
      match worker w with
      | [] => Ok w
      | _ => do w' <- run_worker w; drain n w'
      end
  end.

(* ------------------------------------------------------------------ *)
(** *** [EasyCommandHandle::follow_new_path] (lines 762-981) *)

(** [rmf_traffic::agv::Plan::Waypoint], by the accessors used. *)
Record PlanWaypoint := mkPlanWaypoint {
  wp_position : Vector3d;
  wp_graph_index : option nat;
  wp_approach_lanes : list nat }.

(** [std::size_t] arithmetic. *)
Definition size_wrap (z : Z) : Z := z mod 2 ^ 64.

Definition size {A} (l : list A) : Z := Z.of_nat (length l).

(** [v[i]], unchecked. *)
Definition subscript {A} (v : list A) (i : Z) : outcome A :=
  if (0 <=? i) && (i <? size v) then
    match v !! Z.to_nat i with
    | Some a => Ok a
    | None => Throw (out_of_bounds_read i)
    end
  else Throw (out_of_bounds_read i).

(** Lines 801-810: the map of the first waypoint that is on the graph. *)
Fixpoint find_initial_map (g : Graph) (wps : list PlanWaypoint)
    : outcome (option string) :=
  match wps with
  | [] => Ok None
  | wp :: rest =>
      match wp_graph_index wp with
      | Some i => do w <- get_waypoint g i; Ok (Some (get_map_name w))
      | None => find_initial_map g rest
      end
  end.

(** Lines 828-862: [(found_connection, i0)] after the waypoints from
    index [i] on. *)
Fixpoint find_connection (current_location : StartSet) (i : Z)
    (wps : list PlanWaypoint) (acc : bool * Z) : bool * Z :=
  match wps with
  | [] => acc
  | wp :: rest =>
      let acc1 :=
        match wp_graph_index wp with
        | Some gi =>
            if existsb (fun l => (gi =? start_waypoint l)%nat)
                 current_location
            then (true, i) else acc
        | None => acc
        end in
      let acc2 :=
        if (0 <? i) &&
           existsb (fun lane =>
                      existsb (fun l => match start_lane l with
                                        | Some ll => (lane =? ll)%nat
                                        | None => false
                                        end) current_location)
             (wp_approach_lanes wp)
        then (true, i - 1) else acc1 in
      find_connection current_location (i + 1) rest acc2
  end.

(** Lines 892-905: the lanes and waypoints of one command. *)
Fixpoint collect_lanes (g : Graph) (ls : list nat)
    (cmd_wps cmd_lanes : list nat) : outcome (list nat * list nat) :=
  match ls with
  | [] => Ok (cmd_wps, cmd_lanes)
  | lane_id :: rest =>
      do lane <- get_lane g lane_id;
      let add wp (acc : list nat) :=
        if existsb (Nat.eqb wp) acc then acc else acc ++ [wp] in
      collect_lanes g rest
        (add (exit_waypoint_index lane)
           (add (entry_waypoint_index lane) cmd_wps))
        (cmd_lanes ++ [lane_id])
  end.

(** [CommandExecution::Implementation::make] (lines 482-504): fresh data
    and a fresh identifier whose [update_fn] captures the data. *)
Definition make_command (dt : Data) (b : BeginCallback) (w : World)
    : CommandExecution * World :=
  let d := length (datas w) in
  let i := length (identifiers w) in
  (mkCommand d (Some b) None i,
   with_identifiers (identifiers w ++ [Some d])
     (with_datas (datas w ++ [dt]) w)).

(** Lines 921-940: the target of the command that approaches [wp1] at
    index [i1]; with [skip_rotation_commands], a next waypoint on the
    same graph index, which only turns, is merged into it. The result is
    [(target_position, target_index, skip_next)]. *)
Definition rotation_target (skip : bool) (wps : list PlanWaypoint)
    (wp1 : PlanWaypoint) (i1 : Z) : outcome (Vector3d * Z * bool) :=
  let i2 := size_wrap (i1 + 1) in
  if skip && (i2 <? size wps) then
    do wp2 <- subscript wps i2;
    match wp_graph_index wp1, wp_graph_index wp2 with
    | Some a, Some b =>
        if (a =? b)%nat then Ok (wp_position wp2, i2, true)
        else Ok (wp_position wp1, i1, false)
    | _, _ => Ok (wp_position wp1, i1, false)
    end
  else Ok (wp_position wp1, i1, false).

(** Lines 878-975: the loop that builds the queue. *)
Fixpoint decompose (fuel : nat) (g : Graph) (wps : list PlanWaypoint)
    (initial_map : string) (i0 i1 : Z) (queue : list CommandExecution)
    (w : World) : outcome (list CommandExecution * World) :=
  if i1 <? size wps then
    match fuel with
    | O => Throw loop_bound_exceeded
    | S fuel' =>
        do wp0 <- subscript wps i0;
        do wp1 <- subscript wps i1;
        let cmd_wps0 :=
          match wp_graph_index wp0 with
          | Some gi => [gi]
          | None => []
          end in
        do cl <- collect_lanes g (wp_approach_lanes wp1) cmd_wps0 [];
        do map <-
          match wp_graph_index wp1 with
          | Some gi => do gw <- get_waypoint g gi; Ok (get_map_name gw)
          | None => Ok initial_map
          end;
        do target <-
          rotation_target (skip_rotation_commands (params w)) wps wp1 i1;
        let '(target_position, target_index, skip_next) := target in
        let destination :=
          mkDestination map target_position (wp_graph_index wp1) in
        let '(cmd, w') :=
          make_command
            (mkData (fst cl) (snd cl) (Some (yaw target_position)) None
               (params w) (EstimateForTarget target_index))
            (NavigationRequest destination) w in
        let i0' := if skip_next then size_wrap (i0 + 1) else i0 in
        let i1' := if skip_next then size_wrap (i1 + 1) else i1 in
        decompose fuel' g wps map (size_wrap (i0' + 1)) (size_wrap (i1' + 1))
          (queue ++ [cmd]) w'
    end
  else Ok (queue, w).

(** A bound on the iterations of [decompose]: [i1] grows each time. *)
Definition decompose_fuel (wps : list PlanWaypoint) : nat := length wps.

Definition follow_new_path (wps : list PlanWaypoint)
    (next_arrival_estimator path_finished_callback : bool) (w : World)
    : outcome World :=
  if negb (context_alive w) then Ok w
  else if (size wps =? 0) || negb next_arrival_estimator
          || negb path_finished_callback then
    Ok (with_context (log WarnInvalidPath (context w)) w)
  else
    match planner (context w) with
    | None => Ok (with_context (log ErrPlannerMissing (context w)) w)
    | Some pl =>
        let g := graph pl in
        do opt_initial_map <- find_initial_map g wps;
        match opt_initial_map with
        | None => Ok (with_context (log ErrNoInitialMap (context w)) w)
        | Some initial_map =>
            let '(found_connection, i0) :=
              find_connection (location (context w)) 0 wps (false, 0) in
            if negb found_connection then
              Ok (with_context (request_replan (context w)) w)
            else
              let i0 :=
                if size_wrap (size wps - 1) <=? i0
                then size_wrap (size wps - 2) else i0 in
              let i1 := size_wrap (i0 + 1) in
              do r <- decompose (decompose_fuel wps) g wps initial_map i0 i1
                        [] w;
              Ok (next (make_tracker (fst r) (snd r)))
        end
    end.

(* ------------------------------------------------------------------ *)
(** *** What can happen to the robot between two tasks *)

(** The worker runs its next task; the integrator makes a call on an
    execution, releases a stubbornness handle or reports a position; the
    adapter stops the robot or hands it a new path. ([dock], which
    makes a tracker of one command, is embedded on its own below and is
    not one of these events.) *)
Inductive Event :=
| WorkerRuns
| IntegratorCalls (cmd : CommandExecution) (c : ApiCall)
| IntegratorReleases (sid : nat)
| IntegratorUpdates (map_name : string) (position : Vector3d)
    (current_activity : option nat)
| AdapterStops
| AdapterFollowsNewPath (wps : list PlanWaypoint)
    (next_arrival_estimator path_finished_callback : bool).

Definition step (e : Event) (w : World) : outcome World :=
  match e with
  | WorkerRuns => run_worker w
  | IntegratorCalls cmd c => Ok (api_call cmd c w)
  | IntegratorReleases sid => Ok (release sid w)
  | IntegratorUpdates m p a => Ok (update_position m p a w)
  | AdapterStops => Ok (stop w)
  | AdapterFollowsNewPath wps e c => follow_new_path wps e c w
  end.

Fixpoint steps (es : list Event) (w : World) : outcome World :=
  match es with
  | [] => Ok w
  | e :: rest => do w' <- step e w; steps rest w'
  end.

End Execution.

(* ================================================================== *)
(** ** Vocabulary of the properties *)

(** What rmf_traffic guarantees of a graph: [lanes_from] is defined for
    every waypoint and lists lanes of the graph, and the two ends of
    every lane are waypoints of the graph. *)
Definition graph_ok (g : Graph) : bool :=
  (length (lanes_from_table g) =? num_waypoints g)%nat
  && forallb (forallb (fun lane => (lane <? num_lanes g)%nat))
       (lanes_from_table g)
  && forallb (fun ln => (entry_waypoint_index ln <? num_waypoints g)%nat
                        && (exit_waypoint_index ln <? num_waypoints g)%nat)
       (graph_lanes g).

(** The sample [p] is within [max_dist] of waypoint [wp], at distance
    [dist]. *)
Definition waypoint_matches (g : Graph) (max_dist : float) (p : Vector2d)
    (wp : nat) (dist : float) : Prop :=
  exists w, graph_waypoints g !! wp = Some w
    /\ dist = norm (sub p (get_location w))
    /\ PrimFloat.leb dist max_dist = true.

(** The sample [p] is accepted by the open lane [lane_id]: its
    projection is not outside the segment and its lateral distance
    [dist] is within [max_dist]. *)
Definition lane_matches (g : Graph) (closed : list nat) (max_dist : float)
    (p : Vector2d) (lane_id : nat) (dist : float) : Prop :=
  exists ln w0 w1,
    graph_lanes g !! lane_id = Some ln
    /\ graph_waypoints g !! entry_waypoint_index ln = Some w0
    /\ graph_waypoints g !! exit_waypoint_index ln = Some w1
    /\ is_closed closed lane_id = false
    /\ outside_segment
         (fst (fst (project p (get_location w0) (get_location w1))))
         (snd (fst (project p (get_location w0) (get_location w1)))) = false
    /\ dist = snd (project p (get_location w0) (get_location w1))
    /\ PrimFloat.leb dist max_dist = true.

(** The three ways of section 4.1 to resolve a location update. *)
Inductive Category :=
| HintedWaypoint (wp : nat) (dist : float)
| HintedLane (lane : nat) (dist : float)
| WholeGraph.

Definition same_category (a b : Category) : bool :=
  match a, b with
  | HintedWaypoint _ _, HintedWaypoint _ _ => true
  | HintedLane _ _, HintedLane _ _ => true
  | WholeGraph, WholeGraph => true
  | _, _ => false
  end.

(** [dist] is at most the distance of every candidate of [cands] that
    matches. *)
Definition nearest (matches : nat -> float -> Prop) (cands : list nat)
    (dist : float) : Prop :=
  forall c d, In c cands -> matches c d -> PrimFloat.leb dist d = true.

(** No candidate of [cands] that matches compares below [dist]: what the
    loops maintain with their [dist < best] test. *)
Definition unbeaten (matches : nat -> float -> Prop) (cands : list nat)
    (dist : float) : Prop :=
  forall c d, In c cands -> matches c d -> PrimFloat.ltb d dist = false.

Definition none_matches (matches : nat -> float -> Prop) (cands : list nat)
    : Prop :=
  forall c d, In c cands -> matches c d -> False.

(** When a category applies to an update with the hints of [d]. *)
Definition category_applies (pl : Planner) (d : Data) (p : Vector2d)
    (c : Category) : Prop :=
  let wm := waypoint_matches (graph pl)
              (max_merge_waypoint_distance (nav_params d)) p in
  let lm := lane_matches (graph pl) (lane_closures pl)
              (max_merge_lane_distance (nav_params d)) p in
  match c with
  | HintedWaypoint wp dist =>
      In wp (waypoints d) /\ wm wp dist /\ nearest wm (waypoints d) dist
  | HintedLane lane dist =>
      none_matches wm (waypoints d)
      /\ In lane (lanes d) /\ lm lane dist /\ nearest lm (lanes d) dist
  | WholeGraph =>
      none_matches wm (waypoints d) /\ none_matches lm (lanes d)
  end.

Definition lane_exit (g : Graph) (lane_id : nat) : nat :=
  match graph_lanes g !! lane_id with
  | Some ln => exit_waypoint_index ln
  | None => O
  end.

Definition lane_entry (g : Graph) (lane_id : nat) : nat :=
  match graph_lanes g !! lane_id with
  | Some ln => entry_waypoint_index ln
  | None => O
  end.

Definition lanes_leaving (g : Graph) (wp : nat) : list nat :=
  match lanes_from_table g !! wp with
  | Some ls => ls
  | None => []
  end.

(** The start set of section 4.1 for each category: on a waypoint, the
    waypoint itself and one start through every lane leaving it that is
    not closed; on a lane, its exit and, if the graph has the reverse
    lane, its entry through that lane. *)
Definition starts_on_waypoint (pl : Planner) (t : Time) (l : Vector3d)
    (wp : nat) : StartSet :=
  mkStart t wp (yaw l) (Some (xy l)) None
  :: map (fun lane_id =>
            mkStart t (lane_exit (graph pl) lane_id) (yaw l) (Some (xy l))
              (Some lane_id))
       (filter (fun lane_id => is_closed (lane_closures pl) lane_id = false)
          (lanes_leaving (graph pl) wp)).

Definition starts_on_lane (pl : Planner) (t : Time) (l : Vector3d)
    (lane_id : nat) : StartSet :=
  let g := graph pl in
  mkStart t (lane_exit g lane_id) (yaw l) (Some (xy l)) (Some lane_id)
  :: match lane_from g (lane_exit g lane_id) (lane_entry g lane_id) with
     | Some reverse_lane =>
         [mkStart t (lane_entry g lane_id) (yaw l) (Some (xy l))
            (Some reverse_lane)]
     | None => []
     end.

(** Segment [i] of the trajectory accepts the sample [p] at lateral
    distance [dist]. *)
Definition segment_matches (samples : list TrajectoryWaypoint)
    (p : Vector2d) (i : nat) (dist : float) : Prop :=
  exists s0 s1,
    samples !! i = Some s0 /\ samples !! S i = Some s1
    /\ outside_segment
         (fst (fst (project p (xy (position s0)) (xy (position s1)))))
         (snd (fst (project p (xy (position s0)) (xy (position s1)))))
       = false
    /\ dist = snd (project p (xy (position s0)) (xy (position s1))).

(** A plan whose approach lanes and graph indices are in the graph. *)
Definition plan_on_graph (g : Graph) (wps : list PlanWaypoint) : Prop :=
  Forall (fun wp =>
            Forall (fun lane => (lane < num_lanes g)%nat) (wp_approach_lanes wp)
            /\ (forall gi, wp_graph_index wp = Some gi ->
                           (gi < num_waypoints g)%nat)) wps.

(** The update function of an identifier was cleared. *)
Definition inert (w : World) (identifier : nat) : Prop :=
  identifiers w !! identifier = Some None.

(** NaN, by the specification of binary64. *)
Definition is_nan (x : float) : Prop := Prim2SF x = S754_nan.

(** The running best of a scan over the candidates seen so far. *)
Definition best_so_far (matches : nat -> float -> Prop) (seen : list nat)
    (best : option (nat * float)) : Prop :=
  match best with
  | Some (c, dist) => In c seen /\ matches c dist /\ unbeaten matches seen dist
  | None => none_matches matches seen
  end.

(* ------------------------------------------------------------------ *)
(** *** Runs of a progress tracker *)

(** The execution that the tracker [tid] passes to [begin]. *)
Definition wired (tid : nat) (c : CommandExecution) : CommandExecution :=
  mkCommand (data c) (begin c) (Some tid) (identifier c).

Definition begin_of (c : CommandExecution) : Observation :=
  BeginInvoked (identifier c).

Definition finish_task (tid : nat) (c : CommandExecution) : Task :=
  FinishTask (data c) (identifier c) (Some tid).

(** A command as [make] leaves it (live, no schedule override) whose
    integrator, when begun, calls [finished()] any number of times and
    nothing else. *)
Definition finishing_command (w : World) (c : CommandExecution) : Prop :=
  update_fn w (identifier c) <> None
  /\ (exists dt, datas w !! data c = Some dt /\ schedule_override dt = None)
  /\ (exists cb, begin c = Some cb
        /\ Forall (fun a => a = CallFinished) (script_of w cb)).

(** A task of [update_position]. *)
Definition is_report (t : Task) : Prop :=
  exists map_name position current_activity,
    t = UpdatePositionTask map_name position current_activity.

(** A task of [finished()] on a command of an earlier path: its
    identifier is none of [queue] and its finisher holds another tracker
    than [tid]. *)
Definition is_stale (tid : nat) (queue : list CommandExecution) (t : Task)
    : Prop :=
  exists d i tid',
    t = FinishTask d i (Some tid')
    /\ ~ In i (map identifier queue) /\ tid' <> tid.

(** A task of [finished()] whose finisher holds the tracker [tid]. *)
Definition is_finish_of (tid : nat) (t : Task) : Prop :=
  exists c, t = finish_task tid c.

(** A task that a run of tracker [tid] leaves in the worker's queue: a
    position report, the [finished()] of a command of an earlier path,
    or the [finished()] of one of the commands [cs]. *)
Definition tracker_task (tid : nat) (queue cs : list CommandExecution)
    (t : Task) : Prop :=
  is_report t \/ is_stale tid queue t
  \/ exists c, In c cs /\ t = finish_task tid c.

(** [begin] calls [finished()] before it returns. *)
Definition finishes_in_begin (w : World) (c : CommandExecution) : Prop :=
  exists cb, begin c = Some cb /\ script_of w cb <> [].

Section TrackerRun.

Variable compute_plan_starts :
  Graph -> string -> Vector3d -> Time -> float -> float -> float -> StartSet.
Variable from_seconds : float -> Duration.
Variable to_seconds : Duration -> float.
Variable interpolate_positions :
  VehicleTraits -> Time -> list Vector3d -> list TrajectoryWaypoint.

Variable queue : list CommandExecution.
Variable w0 : World.

(** The runs of a tracker made of [queue] in the world [w0]: it is made
    and started, the worker runs tasks, and the integrator calls
    [finished()] on executions that were begun or that belong to an
    earlier path, reports positions, with or without an activity, and
    releases stubbornness handles. *)
Inductive tracker_run : World -> Prop :=
| run_start : tracker_run (next (make_tracker queue w0))
| run_task_step w w' :
    tracker_run w ->
    run_worker compute_plan_starts from_seconds to_seconds
      interpolate_positions w = Ok w' ->
    tracker_run w'
| run_finished w c :
    tracker_run w -> In c queue -> In (begin_of c) (observed w) ->
    tracker_run (finish (wired (next_tracker w0) c) w)
| run_stale w c tid' :
    tracker_run w ->
    ~ In (identifier c) (map identifier queue) -> tid' <> next_tracker w0 ->
    tracker_run (finish (wired tid' c) w)
| run_report w map_name position current_activity :
    tracker_run w ->
    tracker_run (update_position map_name position current_activity w)
| run_release w sid :
    tracker_run w -> tracker_run (release sid w).

(** Where a run stands: some commands were begun and all but the last of
    them have finished, or the queue is exhausted and the completion was
    triggered. *)
Inductive phase (w : World) : Prop :=
| Running done cur todo :
    queue = done ++ cur :: todo ->
    current_progress w
    = Some (mkTracker (next_tracker w0) (rev todo) (Some (identifier cur))
              (mkTrigger false)) ->
    observed w = rev (map begin_of (done ++ [cur])) ++ observed w0 ->
    (forall c, In c done -> update_fn w (identifier c) = None) ->
    (forall c, In c (cur :: todo) -> update_fn w (identifier c) <> None) ->
    Forall (tracker_task (next_tracker w0) queue (done ++ [cur])) (worker w) ->
    phase w
| Completed :
    current_progress w
    = Some (mkTracker (next_tracker w0) [] None (mkTrigger true)) ->
    observed w
    = PathFinished (next_tracker w0) :: rev (map begin_of queue)
        ++ observed w0 ->
    (forall c, In c queue -> update_fn w (identifier c) = None) ->
    Forall (tracker_task (next_tracker w0) queue queue) (worker w) ->
    phase w.

Definition stable (w : World) : Prop :=
  context_alive w = true
  /\ datas w = datas w0
  /\ handle_nav_request w = handle_nav_request w0
  /\ handle_dock w = handle_dock w0.

(** The tasks in the worker's queue plus the calls of [finished()] that
    the begins still to come will make. *)
Definition script_length (c : CommandExecution) : nat :=
  match begin c with
  | Some cb => length (script_of w0 cb)
  | None => O
  end.

Definition work_left (w : World) : nat :=
  (length (worker w)
   + list_sum (map script_length
                 match current_progress w with
                 | Some tr => reverse_queue tr
                 | None => []
                 end))%nat.

(** The current command has a [finished()] task waiting. *)
Definition prompt (w : World) : Prop :=
  forall tr c,
    current_progress w = Some tr ->
    current_identifier tr = Some (identifier c) ->
    In c queue ->
    In (finish_task (next_tracker w0) c) (worker w).

End TrackerRun.

(* ------------------------------------------------------------------ *)
(** *** Concrete robots *)

Module Scenario.


(** Stand-ins for the functions of rmf_traffic, to evaluate the embedding
    on concrete inputs: a whole-graph search that finds waypoint 0, and
    conversions that drop the fraction of a second. *)
Definition found_start : PlanStart :=
  mkStart 0 0%nat 0%float None None.
Definition compute_plan_starts
    (g : Graph) (map_name : string) (l : Vector3d) (t : Time)
    (max_wp max_lane min_len : float) : StartSet := [found_start].
Definition from_seconds (s : float) : Duration :=
  match Prim2SF s with
  | S754_finite false m e => Z.shiftl (Z.pos m) e * one_second
  | S754_finite true m e => - (Z.shiftl (Z.pos m) e * one_second)
  | _ => 0
  end.
Definition to_seconds (d : Duration) : float :=
  PrimFloat.of_uint63 (Uint63.of_Z (d / one_second)).
Definition interpolate_positions (tr : VehicleTraits) (t : Time)
    (path : list Vector3d) : list TrajectoryWaypoint :=
  map (fun p => mkSample p t) path.

(** Three waypoints on map L1: lanes 0 -> 1, 0 -> 2 and 1 -> 0; lane 1
    is closed. *)
Definition graph1 : Graph :=
  mkGraph
    [mkGraphWaypoint (V2 0 0) "L1"; mkGraphWaypoint (V2 10 0) "L1";
     mkGraphWaypoint (V2 0 10) "L1"]
    [mkGraphLane 0 1; mkGraphLane 0 2; mkGraphLane 1 0]
    [[0; 1]; [2]; []]%nat
    (fun a b => match a, b with
                | 0, 1 => Some 0 | 0, 2 => Some 1 | 1, 0 => Some 2
                | _, _ => None
                end)%nat.

(** The defaults of section 6: 0.1, 1.0 and 1e-8. *)
Definition nav1 : NavParams :=
  mkNavParams true 0x1.999999999999ap-4 1 0x1.5798ee2308c3ap-27.

Definition planner1 : Planner := mkPlanner graph1 [1%nat] (mkTraits 1 1).

Definition context1 : RobotContext :=
  mkContext (Some planner1) [] (mkItinerary 0%nat [] []) 100 0%nat [] [].


(** The robot at waypoint 0, hinted at waypoint 0 and lane 0. *)
Definition data_at_waypoint : Data :=
  mkData [0%nat] [0%nat] None None nav1 (EstimateForTarget 1).

(** The robot half way along lane 0, half a metre off it, hinted at the
    far waypoint 1 and at lanes 0 and 2. *)
Definition data_on_lane : Data :=
  mkData [1%nat] [0%nat; 2%nat] None None nav1 (EstimateForTarget 1).

(** A hint at waypoint 0, where the robot is, and at a lane 7 that the
    graph does not have. *)
Definition data_stale_lane : Data :=
  mkData [0%nat] [7%nat] None None nav1 (EstimateForTarget 1).

(** A hint at a waypoint 5 that the graph does not have. *)
Definition data_stale_waypoint : Data :=
  mkData [5%nat] [0%nat] None None nav1 (EstimateForTarget 1).

Definition destination1 : Destination :=
  mkDestination "L1" (V3 10 0 0) (Some 1%nat).
Definition destination2 : Destination :=
  mkDestination "L1" (V3 0 10 0) (Some 2%nat).

(** Two commands as [make] leaves them. *)
Definition command0 : CommandExecution :=
  mkCommand 0 (Some (NavigationRequest destination1)) None 0.
Definition command1 : CommandExecution :=
  mkCommand 1 (Some (NavigationRequest destination2)) None 1.
Definition queue2 : list CommandExecution := [command0; command1].

(** The robot with the two commands made: its integrator answers every
    request with one call of [finished()]. *)
Definition world0 : World :=
  mkWorld context1 true [] [Some 0%nat; Some 1%nat]
    [data_at_waypoint; data_on_lane] [] None 0 nav1
    (fun _ => [CallFinished]) (fun _ => [CallFinished]) [].

(** The same robot with an integrator that, asked to go to waypoint 1,
    overrides the schedule and then calls [finished()]. *)
Definition world_override : World :=
  mkWorld context1 true [] [Some 0%nat; Some 1%nat]
    [data_at_waypoint; data_on_lane] [] None 0 nav1
    (fun d => match dest_graph_index d with
              | Some 1%nat =>
                  [CallOverrideSchedule "L1" [V3 0 0 0; V3 10 0 0];
                   CallFinished]
              | _ => [CallFinished]
              end)
    (fun _ => [CallFinished]) [].

(** The same robot with an integrator that makes no call while a
    request is handed to it. *)
Definition world_quiet : World :=
  mkWorld context1 true [] [Some 0%nat; Some 1%nat]
    [data_at_waypoint; data_on_lane] [] None 0 nav1
    (fun _ => []) (fun _ => []) [].

(** [world0] after the tracker of [queue2] was made and started. *)
Definition world_started : World := next (make_tracker queue2 world0).

(** [world0] after [command0], wired to tracker 0, had its schedule
    overridden and the worker installed the override. *)
Definition world_installed : World :=
  match
    run_worker compute_plan_starts from_seconds to_seconds
      interpolate_positions
      (snd (override_schedule (wired 0 command0) "L1"
              [V3 0 0 0; V3 10 0 0] world0))
  with
  | Ok w => w
  | Throw _ => world0
  end.

(** The robot at waypoint 0 according to its location. *)
Definition world_at_0 : World :=
  mkWorld
    (mkContext (Some planner1) [mkStart 0 0%nat 0%float None None]
       (mkItinerary 0 [] []) 100 0 [] [])
    true [] [] [] [] None 0 nav1
    (fun _ => [CallFinished]) (fun _ => [CallFinished]) [].

Definition single_waypoint : PlanWaypoint :=
  mkPlanWaypoint (V3 0 0 0) (Some 0%nat) [].

End Scenario.

(* ------------------------------------------------------------------ *)
(** *** Vocabulary of paths, docking and fleets *)

(** An event other than a new path. *)
Definition keeps_tracker (e : Event) : bool :=
  match e with
  | AdapterFollowsNewPath _ _ _ => false
  | _ => true
  end.

(** The worker runs, or the integrator calls [finished()] on [cmd]. *)
Definition finishing (cmd : CommandExecution) (e : Event) : Prop :=
  e = WorkerRuns \/ e = IntegratorCalls cmd CallFinished.

(** The tracker [tid] is not the current one, and was made before. *)
Definition replaced (tid : nat) (w : World) : Prop :=
  (tid < next_tracker w)%nat
  /\ forall tr, current_progress w = Some tr -> (tid < tracker_id tr)%nat.

(** The worlds differ at most in the identifiers and the data. *)
Definition same_robot (w w' : World) : Prop :=
  context w' = context w /\ context_alive w' = context_alive w
  /\ worker w' = worker w /\ stubborn_overrides w' = stubborn_overrides w
  /\ current_progress w' = current_progress w
  /\ next_tracker w' = next_tracker w /\ params w' = params w
  /\ handle_nav_request w' = handle_nav_request w
  /\ handle_dock w' = handle_dock w /\ observed w' = observed w.

(** The commands [added] are as [make] left them in [w'], one after the
    other from [w]: each has an identifier and data of its own, its
    update function is set, and its data have no schedule override. *)
Definition newly_made (w w' : World) (added : list CommandExecution) : Prop :=
  same_robot w w'
  /\ identifiers w' = identifiers w ++ map (fun c => Some (data c)) added
  /\ map identifier added = seq (length (identifiers w)) (length added)
  /\ map data added = seq (length (datas w)) (length added)
  /\ (exists dts,
        datas w' = datas w ++ dts /\ length dts = length added
        /\ Forall (fun dt => schedule_override dt = None
                             /\ nav_params dt = params w) dts)
  /\ Forall (fun c => finisher c = None
                      /\ exists dest, begin c = Some (NavigationRequest dest))
       added.

(** The command [c] approaches waypoint [ti] of the plan [wps]: its
    destination and final orientation are that waypoint's, on the map of
    the waypoint [i1] that it leaves for, and its arrival estimates are
    reported for index [ti]. *)
Definition targets (wps : list PlanWaypoint) (w' : World)
    (c : CommandExecution) (ti : Z) : Prop :=
  exists dt wp dest,
    datas w' !! data c = Some dt
    /\ arrival_estimator dt = EstimateForTarget ti
    /\ begin c = Some (NavigationRequest dest)
    /\ 0 <= ti /\ wps !! Z.to_nat ti = Some wp
    /\ dest_position dest = wp_position wp
    /\ final_orientation dt = Some (yaw (wp_position wp)).

(** Waypoints [i] and [i + 1] of the plan are on the same waypoint of
    the graph: the second only turns the robot. *)
Definition turns_in_place (wps : list PlanWaypoint) (i : Z) : Prop :=
  exists a b gi,
    wps !! Z.to_nat i = Some a /\ wps !! Z.to_nat (i + 1) = Some b
    /\ wp_graph_index a = Some gi /\ wp_graph_index b = Some gi.

(** The targets [tis] take the waypoints from [lo] up to [n] in order:
    each command takes the next waypoint, or the next two when rotation
    commands are skipped and the second only turns the robot. *)
Fixpoint covers (skip : bool) (wps : list PlanWaypoint) (lo : Z)
    (tis : list Z) (n : Z) : Prop :=
  match tis with
  | [] => lo = n
  | t :: rest =>
      (t = lo /\ (skip = true -> t + 1 < n -> ~ turns_in_place wps lo)
       \/ (skip = true /\ t = lo + 1 /\ t < n /\ turns_in_place wps lo))
      /\ covers skip wps (t + 1) rest n
  end.

(** The plan does not meet the robot's location: no waypoint of the
    plan is the waypoint of a start, and no approach lane of a waypoint
    after the first is the lane of a start. *)
Definition disconnected (loc : StartSet) (wps : list PlanWaypoint) : Prop :=
  (forall wp gi l, In wp wps -> wp_graph_index wp = Some gi -> In l loc ->
                   start_waypoint l <> gi)
  /\ (forall wp lane l, In wp (tail wps) -> In lane (wp_approach_lanes wp) ->
                        In l loc -> start_lane l <> Some lane).

(** What a location update leaves alone: the planner, the clock, the
    replan requests, and the plans of the itinerary. *)
Definition steady (c c' : RobotContext) : Prop :=
  planner c' = planner c /\ now c' = now c
  /\ replan_requests c' = replan_requests c
  /\ next_plan_id (itinerary c') = next_plan_id (itinerary c)
  /\ routes (itinerary c') = routes (itinerary c).

(** At most one entry was added, at the front. *)
Definition at_most_one_more {A} (l l' : list A) : Prop :=
  l' = l \/ exists a, l' = a :: l.

(** The distance from [p] to a sample of the trajectory. *)
Definition sample_distance (p : Vector2d) (s : TrajectoryWaypoint) : float :=
  norm (sub p (xy (position s))).

(** No sample of [samples] compares closer to [p] than [s]. *)
Definition closest_sample (p : Vector2d) (samples : list TrajectoryWaypoint)
    (s : TrajectoryWaypoint) : Prop :=
  In s samples
  /\ forall s', In s' samples ->
       PrimFloat.ltb (sample_distance p s') (sample_distance p s) = false.

(* ------------------------------------------------------------------ *)
(** *** [EasyCommandHandle::dock] (lines 984-1138) *)

(** [rmf_traffic::agv::Graph::Lane::Event], by the overloads of
    [Executor::execute]. *)
Inductive LaneEvent :=
| DoorOpen
| DoorClose
| LiftSessionBegin
| LiftDoorOpen
| LiftSessionEnd
| LiftMove
| Wait
| Dock (dock_name : string).

(** [DockFinder] (lines 985-1011). *)
Record DockFinder := mkDockFinder {
  looking_for : string;
  found : bool }.

Definition execute (event : LaneEvent) (finder : DockFinder) : DockFinder :=
  match event with
  | Dock dock_name =>
      if String.eqb (looking_for finder) dock_name
      then mkDockFinder (looking_for finder) true
      else finder
  | _ => finder
  end.

(** The two messages that [dock] logs. *)
Inductive DockMessage :=
| ErrDockPlannerUnavailable
| WarnDockNotFound.

Section Docking.

Variable from_seconds : float -> Duration.
(** External: [Participant::current_plan_id] of the itinerary. *)
Variable current_plan_id : Itinerary -> PlanId.
(** [graph.get_lane(i).entry().event()] and [.exit().event()], which
    [GraphLane] leaves out; [None] is the null event. *)
Variable entry_event : Graph -> nat -> option LaneEvent.
Variable exit_event : Graph -> nat -> option LaneEvent.

(** Lines 1046-1064: the lanes from [i] on, [count] of them. *)
Fixpoint find_dock (g : Graph) (finder : DockFinder) (i count : nat)
    : option nat :=
  match count with
  | O => None
  | S count' =>
      let finder1 :=
        match entry_event g i with
        | Some event => execute event finder
        | None => finder
        end in
      let finder2 :=
        match exit_event g i with
        | Some event => execute event finder1
        | None => finder1
        end in
      if found finder2 then Some i
      else find_dock g finder2 (S i) count'
  end.

(** Lines 1066-1124: the data of the docking command. *)
Definition dock_data (w : World) (pl : Planner) (plan_id : PlanId)
    (found_lane : option nat) : outcome (option DockMessage * Data) :=
  match found_lane with
  | None =>
      Ok (Some WarnDockNotFound,
          mkData [] [] None None (params w) EstimateIgnored)
  | Some lane_id =>
      do lane <- get_lane (graph pl) lane_id;
      let i0 := entry_waypoint_index lane in
      let i1 := exit_waypoint_index lane in
      do wp0 <- get_waypoint (graph pl) i0;
      do wp1 <- get_waypoint (graph pl) i1;
      let dist := norm (sub (get_location wp1) (get_location wp0)) in
      let v := fmax (linear_nominal_velocity (vehicle_traits pl))
                 min_velocity in
      let dt := PrimFloat.div dist v in
      let expected_arrival := now (context w) + from_seconds dt in
      Ok (None,
          mkData [i0; i1] [lane_id] None None (params w)
            (EstimateForDock expected_arrival plan_id))
  end.

(** The result carries the message logged, if any. *)
Definition dock (dock_name : string) (w : World)
    : outcome (option DockMessage * World) :=
  if negb (context_alive w) then Ok (None, w)
  else
    let plan_id := current_plan_id (itinerary (context w)) in
    match planner (context w) with
    | None => Ok (Some ErrDockPlannerUnavailable, w)
    | Some pl =>
        let found_lane :=
          find_dock (graph pl) (mkDockFinder dock_name false) 0
            (num_lanes (graph pl)) in
        do r <- dock_data w pl plan_id found_lane;
        let '(cmd, w1) := make_command (snd r) (DockRequest dock_name) w in
        Ok (fst r, next (make_tracker [cmd] w1))
    end.

End Docking.

(** The lane has a docking event of that name at its entry or exit. *)
Definition docks_at (entry_event exit_event : Graph -> nat -> option LaneEvent)
    (g : Graph) (dock_name : string) (lane : nat) : Prop :=
  entry_event g lane = Some (Dock dock_name)
  \/ exit_event g lane = Some (Dock dock_name).

(* ------------------------------------------------------------------ *)
(** *** [EasyFullControl::add_robot] (lines 1990-2118) and
        [EasyRobotUpdateHandle] (lines 1150-1273) *)

(** [EasyFullControl::InitializeRobot] (lines 1915-1972). *)
Module InitializeRobot.
Record t := make {
  name : string;
  charger_name : string;
  map_name : string;
  location : Vector3d;
  battery_soc : float }.
End InitializeRobot.

Inductive FleetMessage :=
| InfoAddingRobot (robot_name : string)
| WarnPreviouslyAdded (robot_name : string)
| ErrNoStartSet (robot_name fleet_name map_name : string) (loc : Vector3d)
| ErrNullCallbacks (robot_name fleet_name : string)
| InfoRobotAdded (robot_name fleet_name : string).

Section EasyFleet.

(** The targets of the integrator's [std::function] callbacks; a null
    callback is [None]. *)
Context {NavigationCallback StopCallback DockCallback ActionExecutor : Type}.

Variable compute_plan_starts :
  Graph -> string -> Vector3d -> Time -> float -> float -> float -> StartSet.

(** [EasyCommandHandle] (lines 674-737), by its members; [w_context] is
    null until the fleet has registered the robot. *)
Record EasyCommandHandle := mkCommandHandle {
  handle_nav_params : NavParams;
  nav_request : NavigationCallback;
  stop_request : StopCallback;
  dock_request : DockCallback;
  w_context : option nat }.

(** A call [fleet_handle->add_robot(command, name, profile, start,
    handle_cb)]: the traits whose profile is passed, the start set, and
    the captures of [handle_cb]. *)
Record AddedRobot := mkAddedRobot {
  added_name : string;
  added_traits : VehicleTraits;
  added_start : StartSet;
  added_updater : nat;
  added_executor : ActionExecutor }.

(** The lambda that [handle_cb] schedules (lines 2096-2114). *)
Inductive FleetTask :=
| SetHandle (updater handle : nat) (robot_name fleet_name : string)
    (executor : ActionExecutor).

(** [EasyFullControl::Implementation] and what it shares: the command
    handles by robot name, the [Updater] of every
    [EasyRobotUpdateHandle] made (its [handle], null at first), the
    fleet's worker, and the calls made on the fleet handle and on the
    robot update handles, latest first. *)
Record EasyFleet := mkEasyFleet {
  fleet_name : string;
  fleet_planner : Planner;
  fleet_nav_params : NavParams;
  node_now : Time;
  cmd_handles : gmap string (option EasyCommandHandle);
  updaters : list (option nat);
  fleet_worker : list FleetTask;
  added_robots : list AddedRobot;
  action_executors : list (nat * ActionExecutor);
  battery_updates : list (nat * float);
  messages : list FleetMessage }.

Definition fleet_log (m : FleetMessage) (f : EasyFleet) : EasyFleet :=
  mkEasyFleet (fleet_name f) (fleet_planner f) (fleet_nav_params f)
    (node_now f) (cmd_handles f) (updaters f) (fleet_worker f)
    (added_robots f) (action_executors f) (battery_updates f)
    (m :: messages f).

Definition with_cmd_handles (h : gmap string (option EasyCommandHandle))
    (f : EasyFleet) : EasyFleet :=
  mkEasyFleet (fleet_name f) (fleet_planner f) (fleet_nav_params f)
    (node_now f) h (updaters f) (fleet_worker f)
    (added_robots f) (action_executors f) (battery_updates f) (messages f).

(** Lines 1990-2118; the result is the [EasyRobotUpdateHandle]
    returned, by the key of its [Updater], or [None] for [nullptr]. *)
Definition add_robot (initial_state : InitializeRobot.t)
    (handle_nav_request : option NavigationCallback)
    (handle_stop : option StopCallback)
    (handle_dock : option DockCallback)
    (action_executor : ActionExecutor) (f : EasyFleet)
    : option nat * EasyFleet :=
  let robot_name := InitializeRobot.name initial_state in
  let f := fleet_log (InfoAddingRobot robot_name) f in
  let graph := graph (fleet_planner f) in
  let traits := vehicle_traits (fleet_planner f) in
  match cmd_handles f !! robot_name with
  | Some _ => (None, fleet_log (WarnPreviouslyAdded robot_name) f)
  | None =>
      let f := with_cmd_handles (<[robot_name := None]> (cmd_handles f)) f in
      let starts :=
        compute_plan_starts graph (InitializeRobot.map_name initial_state)
          (InitializeRobot.location initial_state) (node_now f)
          (max_merge_waypoint_distance (fleet_nav_params f))
          (max_merge_lane_distance (fleet_nav_params f))
          (min_lane_length (fleet_nav_params f)) in
      match starts with
      | [] =>
          (None,
           fleet_log
             (ErrNoStartSet robot_name (fleet_name f)
                (InitializeRobot.map_name initial_state)
                (InitializeRobot.location initial_state)) f)
      | _ =>
          match handle_nav_request, handle_stop, handle_dock with
          | Some nav, Some stp, Some dck =>
              let cmd_handle :=
                mkCommandHandle (fleet_nav_params f) nav stp dck None in
              let easy_updater := length (updaters f) in
              (Some easy_updater,
               mkEasyFleet (fleet_name f) (fleet_planner f)
                 (fleet_nav_params f) (node_now f)
                 (<[robot_name := Some cmd_handle]> (cmd_handles f))
                 (updaters f ++ [None]) (fleet_worker f)
                 (mkAddedRobot robot_name traits starts easy_updater
                    action_executor :: added_robots f)
                 (action_executors f) (battery_updates f) (messages f))
          | _, _, _ =>
              (None, fleet_log (ErrNullCallbacks robot_name (fleet_name f)) f)
          end
      end
  end.

(** [handle_cb] (lines 2090-2115), called by the fleet handle with the
    robot's [RobotUpdateHandle] [updater], whose context is [context]. *)
Definition handle_cb (r : AddedRobot) (updater context : nat)
    (f : EasyFleet) : EasyFleet :=
  let handles :=
    match cmd_handles f !! added_name r with
    | Some (Some h) =>
        <[added_name r :=
            Some (mkCommandHandle (handle_nav_params h) (nav_request h)
                    (stop_request h) (dock_request h) (Some context))]>
          (cmd_handles f)
    | _ => cmd_handles f
    end in
  mkEasyFleet (fleet_name f) (fleet_planner f) (fleet_nav_params f)
    (node_now f) handles (updaters f)
    (fleet_worker f
     ++ [SetHandle (added_updater r) updater (added_name r) (fleet_name f)
           (added_executor r)])
    (added_robots f) (action_executors f) (battery_updates f) (messages f).

Definition run_fleet_task (t : FleetTask) (f : EasyFleet) : EasyFleet :=
  match t with
  | SetHandle u handle robot_name fleet executor =>
      mkEasyFleet (fleet_name f) (fleet_planner f) (fleet_nav_params f)
        (node_now f) (cmd_handles f) (<[u := Some handle]> (updaters f))
        (fleet_worker f) (added_robots f)
        ((handle, executor) :: action_executors f) (battery_updates f)
        (InfoRobotAdded robot_name fleet :: messages f)
  end.

Definition run_fleet_worker (f : EasyFleet) : EasyFleet :=
  match fleet_worker f with
  | [] => f
  | t :: q =>
      run_fleet_task t
        (mkEasyFleet (fleet_name f) (fleet_planner f) (fleet_nav_params f)
           (node_now f) (cmd_handles f) (updaters f) q (added_robots f)
           (action_executors f) (battery_updates f) (messages f))
  end.

(** [EasyRobotUpdateHandle::more] (lines 1252-1273). *)
Definition more (easy_updater : nat) (f : EasyFleet) : option nat :=
  match updaters f !! easy_updater with
  | Some handle => handle
  | None => None
  end.

(** [EasyRobotUpdateHandle::update_battery_soc] (lines 1243-1249). *)
Definition update_battery_soc (easy_updater : nat) (soc : float)
    (f : EasyFleet) : EasyFleet :=
  match updaters f !! easy_updater with
  | Some (Some handle) =>
      mkEasyFleet (fleet_name f) (fleet_planner f) (fleet_nav_params f)
        (node_now f) (cmd_handles f) (updaters f) (fleet_worker f)
        (added_robots f) (action_executors f)
        ((handle, soc) :: battery_updates f) (messages f)
  | _ => f
  end.

(** The name has an entry among the command handles. *)
Definition name_taken (robot_name : string) (f : EasyFleet) : Prop :=
  is_Some (cmd_handles f !! robot_name).

End EasyFleet.

(* ------------------------------------------------------------------ *)
(** *** [EasyFullControl::Configuration::from_config_files]
        (lines 1348-1688) *)

Module Configuration.

(** [rmf_task::requests::ChargeBatteryFactory] and [ParkRobotFactory];
    a null [finishing_request] is [None]. *)
Inductive RequestFactory := ChargeBatteryFactory | ParkRobotFactory.

(** [consider_all()] (lines 1141-1147), the only [ConsiderRequest] that
    the loader stores. *)
Inductive ConsiderRequest := consider_all.

Section Files.

(** yaml-cpp, by the operations the loader uses. A lookup or a
    conversion may throw; [defined] is [Node::IsDefined], of which
    [operator!] is the negation. *)
Context {Node Exception : Type}.
Variable LoadFile : string -> Exception + Node.
Variable defined : Node -> bool.
Variable get : Node -> string -> Exception + Node.
Variable at_index : Node -> nat -> Exception + Node.
Variable as_double : Node -> Exception + float.
Variable as_bool : Node -> Exception + bool.
Variable as_string : Node -> Exception + string.
Variable as_strings : Node -> Exception + list string.

(** rmf_battery and rmf_traffic, by the factories the loader calls. *)
Context {BatterySystem MechanicalSystem PowerSystem Graph : Type}.
Variable BatterySystem_make : float -> float -> float -> option BatterySystem.
Variable MechanicalSystem_make :
  float -> float -> float -> option MechanicalSystem.
Variable PowerSystem_make : float -> option PowerSystem.
Variable from_seconds : float -> Duration.

(** [VehicleTraits] as the loader builds it: the nominal velocity and
    acceleration of the two limits, the radii of the profile's circles
    and [set_reversible]. *)
Record Traits := mkVehicleTraits {
  linear : float * float;
  angular : float * float;
  footprint : float;
  vicinity : float;
  reversible : bool }.

Variable parse_graph : string -> Traits -> Exception + Graph.

Record SimpleMotionPowerSink := mkMotionSink {
  motion_battery : BatterySystem;
  motion_mechanical : MechanicalSystem }.

Record SimpleDevicePowerSink := mkDeviceSink {
  device_battery : BatterySystem;
  device_power : PowerSystem }.

(** [Configuration::Implementation] (lines 1282-1302). *)
Record Implementation := mkConfiguration {
  fleet_name : string;
  traits : Traits;
  graph : Graph;
  battery_system : BatterySystem;
  motion_sink : SimpleMotionPowerSink;
  ambient_sink : SimpleDevicePowerSink;
  tool_sink : SimpleDevicePowerSink;
  recharge_threshold : float;
  recharge_soc : float;
  account_for_battery_drain : bool;
  task_consideration : gmap string ConsiderRequest;
  action_consideration : gmap string ConsiderRequest;
  finishing_request : option RequestFactory;
  skip_rotation_commands : bool;
  server_uri : option string;
  max_delay : Duration;
  update_interval : Duration }.

(** How a statement of the loader ends: it goes on with a value, the
    function returns [nullptr], or an exception leaves it. *)
Inductive ending (A : Type) : Type :=
| Continue (a : A)
| ReturnNull
| Throws (e : Exception).
Arguments Continue {A} a.
Arguments ReturnNull {A}.
Arguments Throws {A} e.

(** A statement, over the lines written to [std::cout], latest first. *)
Definition loading (A : Type) : Type := list string -> ending A * list string.

Definition ret {A} (a : A) : loading A := fun out => (Continue a, out).

Definition bind {A B} (m : loading A) (k : A -> loading B) : loading B :=
  fun out =>
    match m out with
    | (Continue a, out') => k a out'
    | (ReturnNull, out') => (ReturnNull, out')
    | (Throws e, out') => (Throws e, out')
    end.

Notation "'let*' x ':=' m 'in' k" := (bind m (fun x => k))
  (at level 10, x name, m at level 100, k at level 200).

Definition print (line : string) : loading unit :=
  fun out => (Continue tt, line :: out).

Definition return_null {A} : loading A := fun out => (ReturnNull, out).

Definition try {A} (r : Exception + A) : loading A :=
  fun out =>
    match r with
    | inr a => (Continue a, out)
    | inl e => (Throws e, out)
    end.

(** [node[k1][k2]...]. *)
Fixpoint lookup_path (node : Node) (path : list string) : loading Node :=
  match path with
  | [] => ret node
  | key :: rest => let* child := try (get node key) in lookup_path child rest
  end.

(** [!node[k1]... || !node[k1']... || ...], evaluated left to right. *)
Fixpoint any_missing (node : Node) (paths : list (list string))
    : loading bool :=
  match paths with
  | [] => ret false
  | path :: rest =>
      let* child := lookup_path node path in
      if defined child then any_missing node rest else ret true
  end.

(** [if (missing) { std::cout << line; return nullptr; }]. *)
Definition require (node : Node) (paths : list (list string))
    (line : string) : loading unit :=
  let* missing := any_missing node paths in
  if missing then let* _ := print line in return_null else ret tt.

(** A value read from [node[key]] when given, with its default and the
    line printed otherwise. *)
Definition optional {A} (node : Node) (key : string)
    (convert : Node -> Exception + A) (default : A) (line : option string)
    : loading A :=
  let* missing := any_missing node [[key]] in
  if missing then
    match line with
    | Some l => let* _ := print l in ret default
    | None => ret default
    end
  else
    let* child := try (get node key) in try (convert child).

(** [parse_consideration] (lines 1566-1575). *)
Definition parse_consideration (task_capabilities : Node)
    (capability task : string)
    (task_consideration : gmap string ConsiderRequest)
    : loading (gmap string ConsiderRequest) :=
  let* c := try (get task_capabilities capability) in
  if defined c then
    let* accepted := try (as_bool c) in
    if accepted then ret (<[task := consider_all]> task_consideration)
    else ret task_consideration
  else ret task_consideration.

(** Lines 1594-1636: the finishing request named in the file. *)
Definition parse_finishing_request (finishing_request_string : string)
    : loading (option RequestFactory) :=
  if String.eqb finishing_request_string "charge" then
    let* _ :=
      print "Fleet is configured to perform ChargeBattery as finishing request"
    in ret (Some ChargeBatteryFactory)
  else if String.eqb finishing_request_string "park" then
    let* _ :=
      print "Fleet is configured to perform ParkRobot as finishing request"
    in ret (Some ParkRobotFactory)
  else if String.eqb finishing_request_string "nothing" then
    let* _ :=
      print "Fleet is not configured to perform any finishing request"
    in ret None
  else
    let* _ :=
      print ("Provided finishing request " ++ finishing_request_string
             ++ "is unsupported. The valid finishing requests are"
             ++ "[charge, park, nothing]. The task planner will default to [nothing].")%string
    in ret None.

Definition one_fifth : float := 0x1.999999999999ap-3%float.

Definition from_config_files (config_file nav_graph_path : string)
    (server_uri : option string) : loading Implementation :=
  let* fleet_config := try (LoadFile config_file) in
  let* _ :=
    require fleet_config [["rmf_fleet"]]
      "RMF fleet configuration is not provided in the configuration file" in
  let* rmf_fleet := try (get fleet_config "rmf_fleet") in
  (* Fleet name *)
  let* _ := require rmf_fleet [["name"]] "Fleet name is not provided" in
  let* name_node := try (get rmf_fleet "name") in
  let* fleet_name := try (as_string name_node) in
  (* Profile *)
  let* _ :=
    require rmf_fleet
      [["profile"]; ["profile"; "footprint"]; ["profile"; "vicinity"]]
      "Fleet profile is not provided" in
  let* profile := try (get rmf_fleet "profile") in
  let* footprint_node := try (get profile "footprint") in
  let* footprint_rad := try (as_double footprint_node) in
  let* vicinity_node := try (get profile "vicinity") in
  let* vicinity_rad := try (as_double vicinity_node) in
  (* Traits *)
  let* _ :=
    require rmf_fleet
      [["limits"]; ["limits"; "linear"]; ["limits"; "angular"]]
      "Fleet traits are not provided" in
  let* limits := try (get rmf_fleet "limits") in
  let* linear := try (get limits "linear") in
  let* linear0 := try (at_index linear 0) in
  let* v_nom := try (as_double linear0) in
  let* linear1 := try (at_index linear 1) in
  let* a_nom := try (as_double linear1) in
  let* angular := try (get limits "angular") in
  let* angular0 := try (at_index angular 0) in
  let* w_nom := try (as_double angular0) in
  let* angular1 := try (at_index angular 1) in
  let* b_nom := try (as_double angular1) in
  (* Reversibility *)
  let* reversible :=
    optional rmf_fleet "reversible" as_bool false
      (Some "Fleet reversibility is not provided, default to False") in
  let* _ :=
    if negb reversible then print " ===== We have an irreversible robot"
    else ret tt in
  let traits :=
    mkVehicleTraits (v_nom, a_nom) (w_nom, b_nom) footprint_rad vicinity_rad
      reversible in
  (* Graph *)
  let* graph := try (parse_graph nav_graph_path traits) in
  (* Battery system *)
  let* _ :=
    require rmf_fleet
      [["battery_system"]; ["battery_system"; "voltage"];
       ["battery_system"; "capacity"];
       ["battery_system"; "charging_current"]]
      "Fleet battery system is not provided" in
  let* battery := try (get rmf_fleet "battery_system") in
  let* voltage_node := try (get battery "voltage") in
  let* voltage := try (as_double voltage_node) in
  let* capacity_node := try (get battery "capacity") in
  let* capacity := try (as_double capacity_node) in
  let* charging_current_node := try (get battery "charging_current") in
  let* charging_current := try (as_double charging_current_node) in
  let* battery_system :=
    match BatterySystem_make voltage capacity charging_current with
    | Some b => ret b
    | None => let* _ := print "Invalid battery parameters" in return_null
    end in
  (* Mechanical system *)
  let* _ :=
    require rmf_fleet
      [["mechanical_system"]; ["mechanical_system"; "mass"];
       ["mechanical_system"; "moment_of_inertia"];
       ["mechanical_system"; "friction_coefficient"]]
      "Fleet mechanical system is not provided" in
  let* mechanical := try (get rmf_fleet "mechanical_system") in
  let* mass_node := try (get mechanical "mass") in
  let* mass := try (as_double mass_node) in
  let* moment_node := try (get mechanical "moment_of_inertia") in
  let* moment_of_inertia := try (as_double moment_node) in
  let* friction_node := try (get mechanical "friction_coefficient") in
  let* friction := try (as_double friction_node) in
  let* mechanical_system :=
    match MechanicalSystem_make mass moment_of_inertia friction with
    | Some m => ret m
    | None => let* _ := print "Invalid mechanical parameters" in return_null
    end in
  let motion_sink := mkMotionSink battery_system mechanical_system in
  (* Ambient power system *)
  let* _ :=
    require rmf_fleet [["ambient_system"]; ["ambient_system"; "power"]]
      "Fleet ambient system is not provided" in
  let* ambient_system := try (get rmf_fleet "ambient_system") in
  let* ambient_power_node := try (get ambient_system "power") in
  let* ambient_power_drain := try (as_double ambient_power_node) in
  let* ambient_power_system :=
    match PowerSystem_make ambient_power_drain with
    | Some p => ret p
    | None =>
        let* _ := print "Invalid values supplied for ambient power system" in
        return_null
    end in
  let ambient_sink := mkDeviceSink battery_system ambient_power_system in
  (* Tool power system *)
  let* _ :=
    require rmf_fleet [["tool_system"]; ["tool_system"; "power"]]
      "Fleet tool system is not provided" in
  let* tool_system := try (get rmf_fleet "tool_system") in
  let* tool_power_node := try (get ambient_system "power") in
  let* tool_power_drain := try (as_double tool_power_node) in
  let* tool_power_system :=
    match PowerSystem_make tool_power_drain with
    | Some p => ret p
    | None =>
        let* _ := print "Invalid values supplied for tool power system" in
        return_null
    end in
  let tool_sink := mkDeviceSink battery_system tool_power_system in
  (* Drain battery *)
  let* account_for_battery_drain :=
    optional rmf_fleet "account_for_battery_drain" as_bool true
      (Some "Account for battery drain is not provided, default to True") in
  (* Recharge threshold *)
  let* recharge_threshold :=
    optional rmf_fleet "recharge_threshold" as_double one_fifth
      (Some "Recharge threshold is not provided, default to 0.2") in
  (* Recharge state of charge *)
  let* recharge_soc :=
    optional rmf_fleet "recharge_soc" as_double one_fifth
      (Some "Recharge state of charge is not provided, default to 1.0") in
  (* Task capabilities *)
  let* _ :=
    require rmf_fleet
      [["task_capabilities"]; ["task_capabilities"; "loop"];
       ["task_capabilities"; "delivery"]; ["task_capabilities"; "clean"]]
      "Fleet task capabilities are not provided" in
  let* task_capabilities := try (get rmf_fleet "task_capabilities") in
  let* tasks1 := parse_consideration task_capabilities "loop" "patrol" ∅ in
  let* tasks2 :=
    parse_consideration task_capabilities "patrol" "patrol" tasks1 in
  let* tasks3 :=
    parse_consideration task_capabilities "clean" "clean" tasks2 in
  let* task_consideration :=
    parse_consideration task_capabilities "delivery" "delivery" tasks3 in
  (* Action considerations *)
  let* action_node := try (get task_capabilities "action") in
  let* action_consideration :=
    if defined action_node then
      let* action_node' := try (get task_capabilities "action") in
      let* actions := try (as_strings action_node') in
      ret (fold_left (fun m action => <[action := consider_all]> m) actions
             (∅ : gmap string ConsiderRequest))
    else ret ∅ in
  (* Finishing tasks *)
  let* finishing_request_string :=
    optional task_capabilities "finishing_request" as_string EmptyString
      (Some ("Finishing request is not provided. The valid finishing requests "
             ++ "are [charge, park, nothing]. The task planner will default to [nothing].")%string)
    in
  let* finishing_request := parse_finishing_request finishing_request_string in
  (* Ignore rotations within path commands *)
  let* skip_rotation_commands :=
    optional rmf_fleet "skip_rotation_commands" as_bool true None in
  (* Set the fleet state topic publish period *)
  let* fleet_state_frequency :=
    optional rmf_fleet "publish_fleet_state" as_double 2%float
      (Some "Fleet state publish frequency is not provided, default to 2.0") in
  let update_interval := PrimFloat.div 1 fleet_state_frequency in
  (* Set the maximum delay *)
  let* max_delay :=
    optional rmf_fleet "max_delay" as_double 10%float
      (Some "Maximum delay is not provided, default to 10.0") in
  ret (mkConfiguration fleet_name traits graph battery_system motion_sink
         ambient_sink tool_sink recharge_threshold recharge_soc
         account_for_battery_drain task_consideration action_consideration
         finishing_request skip_rotation_commands server_uri
         (from_seconds max_delay) (from_seconds update_interval)).


(** [node[k1][k2]...] without the output. *)
Fixpoint resolve (node : Node) (path : list string) : Exception + Node :=
  match path with
  | [] => inr node
  | key :: rest =>
      match get node key with
      | inr child => resolve child rest
      | inl e => inl e
      end
  end.

(** The node at [path] is given in the file. *)
Definition given (node : Node) (path : list string) : Prop :=
  exists child, resolve node path = inr child /\ defined child = true.

(** The finishing request of a name, as the constructor of the Python
    binding and [set_task_planner_params] read it. *)
Definition finishing_request_of (finishing_request_string : string)
    : option RequestFactory :=
  if String.eqb finishing_request_string "charge"
  then Some ChargeBatteryFactory
  else if String.eqb finishing_request_string "park"
  then Some ParkRobotFactory
  else None.

(** What the file must give below [rmf_fleet]. *)
Definition required : list (list string) :=
  [["name"];
   ["profile"]; ["profile"; "footprint"]; ["profile"; "vicinity"];
   ["limits"]; ["limits"; "linear"]; ["limits"; "angular"];
   ["battery_system"]; ["battery_system"; "voltage"];
   ["battery_system"; "capacity"]; ["battery_system"; "charging_current"];
   ["mechanical_system"]; ["mechanical_system"; "mass"];
   ["mechanical_system"; "moment_of_inertia"];
   ["mechanical_system"; "friction_coefficient"];
   ["ambient_system"]; ["ambient_system"; "power"];
   ["tool_system"]; ["tool_system"; "power"];
   ["task_capabilities"]; ["task_capabilities"; "loop"];
   ["task_capabilities"; "delivery"]; ["task_capabilities"; "clean"]].

(** The lines that precede a [return nullptr]. *)
Definition null_lines : list string :=
  ["RMF fleet configuration is not provided in the configuration file";
   "Fleet name is not provided";
   "Fleet profile is not provided";
   "Fleet traits are not provided";
   "Fleet battery system is not provided";
   "Invalid battery parameters";
   "Fleet mechanical system is not provided";
   "Invalid mechanical parameters";
   "Fleet ambient system is not provided";
   "Invalid values supplied for ambient power system";
   "Fleet tool system is not provided";
   "Invalid values supplied for tool power system";
   "Fleet task capabilities are not provided"].

(** The output only grows, at the front. *)
Definition extends (out out' : list string) : Prop :=
  exists lines, out' = lines ++ out.

(** A value that [optional] read: given in the file and converted, or
    the default with its line printed. *)
Definition read_or_default {A} (node : Node) (key : string)
    (convert : Node -> Exception + A) (default : A) (line : option string)
    (a : A) (out' : list string) : Prop :=
  exists child,
    get node key = inr child
    /\ ((defined child = false /\ a = default
         /\ forall l, line = Some l -> In l out')
        \/ (defined child = true /\ convert child = inr a)).

(** The file accepts the capability: the key is given and reads as
    true. *)
Definition accepted (task_capabilities : Node) (capability : string) : Prop :=
  exists c, get task_capabilities capability = inr c
            /\ defined c = true /\ as_bool c = inr true.

(** The statement only adds to the output, and when it returns
    [nullptr] the last line written is one of [null_lines]. *)
Definition explains {A} (m : loading A) : Prop :=
  forall out r out',
    m out = (r, out') ->
    match r with
    | ReturnNull =>
        exists line rest,
          out' = line :: rest /\ In line null_lines /\ extends out rest
    | _ => extends out out'
    end.

End Files.

Arguments Continue {Exception A} a.
Arguments ReturnNull {Exception A}.
Arguments Throws {Exception A} e.

End Configuration.

(* ------------------------------------------------------------------ *)
(** *** Concrete paths, docks, fleets and files *)

Module Samples.
Import Scenario.

(** A plan from waypoint 0, where [world_at_0] is, to waypoint 1 along
    lane 0. *)
Definition plan_0_1 : list PlanWaypoint :=
  [mkPlanWaypoint (V3 0 0 0) (Some 0%nat) [];
   mkPlanWaypoint (V3 10 0 0) (Some 1%nat) [0%nat]].

(** [world_quiet] after the tracker of [queue2] was made and started and
    [command0], begun and still current, had its schedule overridden and
    the worker installed the override: the robot is stubborn and the
    integrator holds the handle. *)
Definition world_overriding : World :=
  match
    run_worker compute_plan_starts from_seconds to_seconds
      interpolate_positions
      (snd (override_schedule (wired 0 command0) "L1"
              [V3 0 0 0; V3 10 0 0] (next (make_tracker queue2 world_quiet))))
  with
  | Ok w => w
  | Throw _ => world_quiet
  end.

(** A command whose identifier was never given out. *)
Definition command_gone : CommandExecution := mkCommand 0 None None 5.

(** An override along lane 0, from time 0 to time 10 s. *)
Definition override_0_1 : ScheduleOverride :=
  mkOverride
    (mkRoute "L1"
       [mkSample (V3 0 0 0) 0; mkSample (V3 10 0 0) (10 * one_second)])
    3 0.

(** Stand-ins for the schedule participant and the lane events of
    [graph1]: the plan before the next one is current; lane 0 passes a
    door and lane 2 docks at the charger. *)
Definition current_plan_id (it : Itinerary) : PlanId :=
  Nat.pred (next_plan_id it).
Definition entry_event (g : Graph) (lane : nat) : option LaneEvent :=
  match lane with
  | 0%nat => Some DoorOpen
  | 2%nat => Some (Dock "charger")
  | _ => None
  end.
Definition exit_event (g : Graph) (lane : nat) : option LaneEvent :=
  match lane with
  | 0%nat => Some DoorClose
  | _ => None
  end.

(** A fleet without robots, whose callbacks and executors go by name. *)
Definition fleet0 : @EasyFleet string string string string :=
  mkEasyFleet "fleet" planner1 nav1 100 ∅ [] [] [] [] [] [].
Definition robot1 : InitializeRobot.t :=
  InitializeRobot.make "robot1" "charger" "L1" (V3 0 0 0) 1.

(** A stand-in for yaml-cpp: a node is undefined, a scalar, a sequence
    or a map; looking into anything but a map or a sequence throws, and
    so does a conversion of the wrong kind. *)
#[local] Unset Elimination Schemes.
Inductive Yaml :=
| Undefined
| Text (s : string)
| Number (x : float)
| Boolean (b : bool)
| Sequence (items : list Yaml)
| Mapping (entries : list (string * Yaml)).
#[local] Set Elimination Schemes.

Fixpoint find_key (entries : list (string * Yaml)) (key : string) : Yaml :=
  match entries with
  | [] => Undefined
  | (k, v) :: rest => if String.eqb k key then v else find_key rest key
  end.

Definition defined (node : Yaml) : bool :=
  match node with
  | Undefined => false
  | _ => true
  end.
Definition get (node : Yaml) (key : string) : string + Yaml :=
  match node with
  | Mapping entries => inr (find_key entries key)
  | Undefined => inl "invalid node"%string
  | _ => inl "bad subscript"%string
  end.
Definition at_index (node : Yaml) (i : nat) : string + Yaml :=
  match node with
  | Sequence items => inr (nth i items Undefined)
  | Undefined => inl "invalid node"%string
  | _ => inl "bad subscript"%string
  end.
Definition as_double (node : Yaml) : string + float :=
  match node with
  | Number x => inr x
  | _ => inl "bad conversion"%string
  end.
Definition as_bool (node : Yaml) : string + bool :=
  match node with
  | Boolean b => inr b
  | _ => inl "bad conversion"%string
  end.
Definition as_string (node : Yaml) : string + string :=
  match node with
  | Text s => inr s
  | _ => inl "bad conversion"%string
  end.
Definition as_strings (node : Yaml) : string + list string :=
  match node with
  | Sequence items =>
      fold_right
        (fun item acc =>
           match item, acc with
           | Text s, inr l => inr (s :: l)
           | _, _ => inl "bad conversion"%string
           end) (inr []) items
  | _ => inl "bad conversion"%string
  end.

(** A fleet file that gives every required key, a frequency and a
    finishing request, and leaves the other optional keys out; its tool
    system draws 50 W where the ambient system draws 20 W. *)
Definition rmf_fleet_yaml : list (string * Yaml) :=
  [("name", Text "tinyRobot");
   ("profile", Mapping [("footprint", Number 0.5); ("vicinity", Number 1)]);
   ("limits",
    Mapping [("linear", Sequence [Number 0.5; Number 0.75]);
             ("angular", Sequence [Number 0.5; Number 2])]);
   ("battery_system",
    Mapping [("voltage", Number 12); ("capacity", Number 24);
             ("charging_current", Number 5)]);
   ("mechanical_system",
    Mapping [("mass", Number 20); ("moment_of_inertia", Number 10);
             ("friction_coefficient", Number 0.25)]);
   ("ambient_system", Mapping [("power", Number 20)]);
   ("tool_system", Mapping [("power", Number 50)]);
   ("publish_fleet_state", Number 10);
   ("task_capabilities",
    Mapping [("loop", Boolean true); ("delivery", Boolean false);
             ("clean", Boolean true);
             ("action", Sequence [Text "teleop"]);
             ("finishing_request", Text "park")])]%string.

(** The files: [config.yaml] holds the fleet above, [nameless.yaml] the
    same fleet without its name. *)
Definition LoadFile (file : string) : string + Yaml :=
  if String.eqb file "config.yaml"
  then inr (Mapping [("rmf_fleet"%string, Mapping rmf_fleet_yaml)])
  else if String.eqb file "nameless.yaml"
  then inr (Mapping [("rmf_fleet"%string, Mapping (tail rmf_fleet_yaml))])
  else inl "bad file"%string.

(** Stand-ins for rmf_battery: a system is its parameters, which must be
    positive. *)
Definition positive (x : float) : bool := PrimFloat.ltb 0 x.
Definition BatterySystem_make (voltage capacity charging_current : float)
    : option (float * float * float) :=
  if positive voltage && positive capacity && positive charging_current
  then Some (voltage, capacity, charging_current) else None.
Definition MechanicalSystem_make (mass moment_of_inertia friction : float)
    : option (float * float * float) :=
  if positive mass && positive moment_of_inertia && positive friction
  then Some (mass, moment_of_inertia, friction) else None.
Definition PowerSystem_make (nominal_power : float) : option float :=
  if positive nominal_power then Some nominal_power else None.
Definition parse_graph (path : string) (traits : Configuration.Traits)
    : string + Graph := inr graph1.

Definition load (config_file : string)
    : Configuration.loading Configuration.Implementation :=
  Configuration.from_config_files LoadFile defined get at_index as_double
    as_bool as_string as_strings BatterySystem_make MechanicalSystem_make
    PowerSystem_make from_seconds parse_graph config_file "nav.yaml" None.

End Samples.

(* ================================================================== *)
(** ** Binary64 comparisons *)

Module Binary64.

Ltac case_compare :=
  repeat match goal with
  | |- context [IntDef.Z.compare ?a ?b] =>
      let E := fresh "E" in
      destruct (IntDef.Z.compare a b) eqn:E;
      [ apply (proj1 (Z.compare_eq_iff a b)) in E
      | apply (proj1 (Z.compare_lt_iff a b)) in E
      | apply (proj1 (Z.compare_gt_iff a b)) in E ]
  | |- context [PosDef.Pos.compare_cont Eq ?a ?b] =>
      let E := fresh "E" in
      destruct (PosDef.Pos.compare_cont Eq a b) eqn:E;
      [ apply (proj1 (Pos.compare_eq_iff a b)) in E
      | apply (proj1 (Pos.compare_lt_iff a b)) in E
      | apply (proj1 (Pos.compare_gt_iff a b)) in E ]
  end.

Lemma SFcompare_Lt_trans x y z :
  SFcompare x y = Some Lt -> SFcompare y z = Some Lt -> SFcompare x z = Some Lt.
Proof.
  destruct x as [sx|sx| |sx mx ex], y as [sy|sy| |sy my ey],
    z as [sz|sz| |sz mz ez]; simpl;
    repeat match goal with s : bool |- _ => destruct s end; simpl;
    try congruence; case_compare; cbn [CompOpp]; try congruence; try lia.
Qed.

Lemma SFcompare_antisym x y :
  SFcompare y x = option_map CompOpp (SFcompare x y).
Proof.
  destruct x as [sx|sx| |sx mx ex], y as [sy|sy| |sy my ey]; simpl;
    repeat match goal with s : bool |- _ => destruct s end; simpl;
    try reflexivity; case_compare; cbn [CompOpp]; try congruence; try lia.
Qed.

Lemma ltb_trans (x y z : float) :
  PrimFloat.ltb x y = true -> PrimFloat.ltb y z = true -> PrimFloat.ltb x z = true.
Proof.
  rewrite !ltb_spec. unfold SFltb.
  destruct (SFcompare (Prim2SF x) (Prim2SF y)) as [[]|] eqn:E1; try discriminate.
  destruct (SFcompare (Prim2SF y) (Prim2SF z)) as [[]|] eqn:E2; try discriminate.
  intros _ _. now rewrite (SFcompare_Lt_trans _ _ _ E1 E2).
Qed.

Lemma ltb_irrefl (x : float) : PrimFloat.ltb x x = false.
Proof.
  rewrite ltb_spec. unfold SFltb.
  destruct (Prim2SF x) as [s|s| |s m e]; simpl; try destruct s; try reflexivity;
  case_compare; try reflexivity; lia.
Qed.


Lemma leb_not_nan (x y : float) :
  PrimFloat.leb x y = true -> ~ is_nan x /\ ~ is_nan y.
Proof.
  rewrite leb_spec. unfold SFleb, is_nan.
  destruct (Prim2SF x), (Prim2SF y); simpl; try discriminate; split; discriminate.
Qed.

Lemma leb_ltb_false (x y : float) :
  PrimFloat.leb x y = true -> PrimFloat.ltb y x = false.
Proof.
  rewrite leb_spec, ltb_spec. unfold SFleb, SFltb.
  rewrite (SFcompare_antisym (Prim2SF x) (Prim2SF y)).
  destruct (SFcompare (Prim2SF x) (Prim2SF y)) as [[]|]; simpl; congruence.
Qed.

Lemma ltb_false_leb (x y : float) :
  ~ is_nan x -> ~ is_nan y -> PrimFloat.ltb x y = false -> PrimFloat.leb y x = true.
Proof.
  unfold is_nan. rewrite ltb_spec, leb_spec. unfold SFltb, SFleb.
  rewrite (SFcompare_antisym (Prim2SF x) (Prim2SF y)).
  intros Hx Hy.
  destruct (SFcompare (Prim2SF x) (Prim2SF y)) as [[]|] eqn:E; simpl; try congruence.
  destruct (Prim2SF x), (Prim2SF y); simpl in E; congruence.
Qed.

Lemma mul_nan_l (x y : float) : is_nan x -> is_nan (PrimFloat.mul x y).
Proof. unfold is_nan. intros H. rewrite mul_spec, H. reflexivity. Qed.

Lemma sub_nan_r (x y : float) : is_nan y -> is_nan (PrimFloat.sub x y).
Proof.
  unfold is_nan. intros H. rewrite sub_spec, H. unfold SF64sub, SFsub.
  destruct (Prim2SF x); reflexivity.
Qed.

Lemma mul_nan_both (x : float) : is_nan x -> is_nan (PrimFloat.mul x x).
Proof. apply mul_nan_l. Qed.

Lemma add_nan_l (x y : float) : is_nan x -> is_nan (PrimFloat.add x y).
Proof. unfold is_nan. intros H. rewrite add_spec, H. reflexivity. Qed.

Lemma sqrt_nan (x : float) : is_nan x -> is_nan (PrimFloat.sqrt x).
Proof. unfold is_nan. intros H. rewrite sqrt_spec, H. reflexivity. Qed.

Lemma mul_nan_r (x y : float) : is_nan y -> is_nan (PrimFloat.mul x y).
Proof.
  unfold is_nan. intros H. rewrite mul_spec, H. unfold SF64mul, SFmul.
  destruct (Prim2SF x); reflexivity.
Qed.

Lemma div_nan_r (x y : float) : is_nan y -> is_nan (PrimFloat.div x y).
Proof.
  unfold is_nan. intros H. rewrite div_spec, H. unfold SF64div, SFdiv.
  destruct (Prim2SF x); reflexivity.
Qed.

Lemma zero_not_nan : ~ is_nan 0%float.
Proof. unfold is_nan. vm_compute. discriminate. Qed.

Lemma is_nan_dec (x : float) : is_nan x \/ ~ is_nan x.
Proof. unfold is_nan. destruct (Prim2SF x); auto; right; discriminate. Qed.

Lemma ltb_false_trans (a b c : float) :
  PrimFloat.ltb a b = false -> PrimFloat.ltb c b = true ->
  PrimFloat.ltb a c = false.
Proof.
  intros Hab Hcb. destruct (PrimFloat.ltb a c) eqn:Hac; [|reflexivity].
  rewrite (ltb_trans _ _ _ Hac Hcb) in Hab. discriminate.
Qed.

End Binary64.

(* ================================================================== *)
(** ** Lookups *)

Lemma at_Ok {A} (l : list A) (i : nat) (a : A) :
  at_ l i = Ok a <-> l !! i = Some a.
Proof. unfold at_. destruct (l !! i); split; congruence. Qed.

Lemma at_lt {A} (l : list A) (i : nat) :
  (i < length l)%nat -> exists a, at_ l i = Ok a /\ l !! i = Some a.
Proof.
  intros H. destruct (lookup_lt_is_Some_2 l i H) as [a Ha].
  exists a. split; [now apply at_Ok | exact Ha].
Qed.

Lemma graph_ok_lanes_from (g : Graph) (wp : nat) :
  graph_ok g = true -> (wp < num_waypoints g)%nat ->
  exists ls, lanes_from g wp = Ok ls /\ lanes_leaving g wp = ls
    /\ Forall (fun lane => (lane < num_lanes g)%nat) ls.
Proof.
  unfold graph_ok. rewrite !andb_true_iff. intros [[Hlen Hfrom] _] Hwp.
  apply Nat.eqb_eq in Hlen.
  destruct (at_lt (lanes_from_table g) wp) as [ls [Hat Hls]]; [lia|].
  exists ls. unfold lanes_from, lanes_leaving. rewrite Hat, Hls.
  split; [reflexivity|]. split; [reflexivity|].
  rewrite forallb_forall in Hfrom.
  apply Forall_forall. intros lane Hin.
  assert (Hmem : In ls (lanes_from_table g)).
  { apply list_elem_of_In. eapply list_elem_of_lookup_2. exact Hls. }
  specialize (Hfrom ls Hmem). rewrite forallb_forall in Hfrom.
  apply Nat.ltb_lt. apply Hfrom. now apply list_elem_of_In.
Qed.

Lemma graph_ok_lane (g : Graph) (lane_id : nat) :
  graph_ok g = true -> (lane_id < num_lanes g)%nat ->
  exists ln w0 w1,
    graph_lanes g !! lane_id = Some ln
    /\ graph_waypoints g !! entry_waypoint_index ln = Some w0
    /\ graph_waypoints g !! exit_waypoint_index ln = Some w1.
Proof.
  unfold graph_ok. rewrite !andb_true_iff. intros [_ Hends] Hlane.
  destruct (lookup_lt_is_Some_2 (graph_lanes g) lane_id Hlane) as [ln Hln].
  rewrite forallb_forall in Hends.
  assert (Hmem : In ln (graph_lanes g)).
  { apply list_elem_of_In. eapply list_elem_of_lookup_2. exact Hln. }
  specialize (Hends ln Hmem). rewrite andb_true_iff, !Nat.ltb_lt in Hends.
  destruct Hends as [H0 H1].
  destruct (lookup_lt_is_Some_2 (graph_waypoints g) _ H0) as [w0 Hw0].
  destruct (lookup_lt_is_Some_2 (graph_waypoints g) _ H1) as [w1 Hw1].
  now exists ln, w0, w1.
Qed.

(* ================================================================== *)
(** ** The scans of [update_location] *)

Lemma waypoint_matches_fun g m p wp d1 d2 :
  waypoint_matches g m p wp d1 -> waypoint_matches g m p wp d2 -> d1 = d2.
Proof.
  intros [w1 [H1 [E1 _]]] [w2 [H2 [E2 _]]]. congruence.
Qed.

Lemma lane_matches_fun g cl m p lane d1 d2 :
  lane_matches g cl m p lane d1 -> lane_matches g cl m p lane d2 -> d1 = d2.
Proof.
  intros (ln & w0 & w1 & Hl & H0 & H1 & _ & _ & E & _)
         (ln' & w0' & w1' & Hl' & H0' & H1' & _ & _ & E' & _).
  congruence.
Qed.

(** One step of a nearest-candidate scan: the candidate [c] either
    matches at [dist] and is compared with the best, or does not match. *)
Lemma best_so_far_step (matches : nat -> float -> Prop)
    (Hfun : forall c d1 d2, matches c d1 -> matches c d2 -> d1 = d2)
    seen best c dist :
  best_so_far matches seen best ->
  matches c dist ->
  best_so_far matches (seen ++ [c])
    match best with
    | None => Some (c, dist)
    | Some (_, b) => if PrimFloat.ltb dist b then Some (c, dist) else best
    end.
Proof.
  intros Hbest Hm. destruct best as [[c0 b]|]; simpl in *.
  - destruct Hbest as [Hin [Hm0 Hnear]].
    destruct (PrimFloat.ltb dist b) eqn:Hlt; simpl.
    + split; [apply in_or_app; right; now left|]. split; [exact Hm|].
      intros c' d' Hin' Hm'. apply in_app_or in Hin'. destruct Hin' as [Hin'|[<-|[]]].
      * eapply Binary64.ltb_false_trans; [|exact Hlt]. now apply (Hnear c').
      * rewrite (Hfun _ _ _ Hm' Hm). apply Binary64.ltb_irrefl.
    + split; [apply in_or_app; now left|]. split; [exact Hm0|].
      intros c' d' Hin' Hm'. apply in_app_or in Hin'. destruct Hin' as [Hin'|[<-|[]]].
      * now apply (Hnear c').
      * now rewrite (Hfun _ _ _ Hm' Hm).
  - split; [apply in_or_app; right; now left|]. split; [exact Hm|].
    intros c' d' Hin' Hm'. apply in_app_or in Hin'. destruct Hin' as [Hin'|[<-|[]]].
    + destruct (Hbest c' d' Hin' Hm').
    + rewrite (Hfun _ _ _ Hm' Hm). apply Binary64.ltb_irrefl.
Qed.

Lemma best_so_far_skip (matches : nat -> float -> Prop) seen best c :
  best_so_far matches seen best ->
  (forall d, matches c d -> False) ->
  best_so_far matches (seen ++ [c]) best.
Proof.
  intros Hbest Hno. destruct best as [[c0 b]|]; simpl in *.
  - destruct Hbest as [Hin [Hm0 Hnear]].
    split; [apply in_or_app; now left|]. split; [exact Hm0|].
    intros c' d' Hin' Hm'. apply in_app_or in Hin'. destruct Hin' as [Hin'|[<-|[]]].
    + now apply (Hnear c').
    + destruct (Hno _ Hm').
  - intros c' d' Hin' Hm'. apply in_app_or in Hin'. destruct Hin' as [Hin'|[<-|[]]].
    + now apply (Hbest c' d').
    + now apply (Hno d').
Qed.

Lemma unbeaten_nearest (matches : nat -> float -> Prop) cands c dist :
  (forall c' d, matches c' d -> ~ is_nan d) ->
  matches c dist -> unbeaten matches cands dist -> nearest matches cands dist.
Proof.
  intros Hnum Hm Hun c' d Hin Hm'.
  apply Binary64.ltb_false_leb; eauto.
Qed.

Lemma waypoint_matches_number g m p wp d :
  waypoint_matches g m p wp d -> ~ is_nan d.
Proof.
  intros (w & _ & _ & Hle). now apply Binary64.leb_not_nan in Hle.
Qed.

Lemma lane_matches_number g cl m p lane d :
  lane_matches g cl m p lane d -> ~ is_nan d.
Proof.
  intros (ln & w0 & w1 & _ & _ & _ & _ & _ & _ & Hle).
  now apply Binary64.leb_not_nan in Hle.
Qed.

Lemma scan_waypoints_best ctx g m p wps :
  forall seen best,
  Forall (fun wp => (wp < num_waypoints g)%nat) wps ->
  best_so_far (waypoint_matches g m p) seen best ->
  exists r, scan_waypoints ctx g m p wps best = Ok (inr r)
    /\ best_so_far (waypoint_matches g m p) (seen ++ wps) r.
Proof.
  induction wps as [|wp rest IH]; intros seen best Hrange Hbest; simpl.
  - exists best. rewrite app_nil_r. now split.
  - inversion Hrange as [|? ? Hwp Hrest]; subst.
    destruct (Nat.leb_spec (num_waypoints g) wp) as [Hge|_]; [lia|].
    destruct (at_lt (graph_waypoints g) wp Hwp) as [w [Hat Hw]].
    unfold get_waypoint. rewrite Hat. simpl.
    replace (seen ++ wp :: rest) with ((seen ++ [wp]) ++ rest)
      by now rewrite <- app_assoc.
    destruct (PrimFloat.leb (norm (sub p (get_location w))) m) eqn:Hle.
    + apply IH; [exact Hrest|].
      apply best_so_far_step; [apply waypoint_matches_fun|exact Hbest|].
      now exists w.
    + apply IH; [exact Hrest|].
      apply best_so_far_skip; [exact Hbest|].
      intros d [w' [Hw' [-> Hle']]]. congruence.
Qed.

#[local] Arguments project : simpl never.
#[local] Arguments outside_segment : simpl never.

Lemma scan_lanes_from_starts ctx g closed t wp y p ls :
  forall starts,
  Forall (fun lane => (lane < num_lanes g)%nat) ls ->
  scan_lanes_from ctx g closed t wp y p ls starts
  = Ok (inr (starts ++
               map (fun lane_id =>
                      mkStart t (lane_exit g lane_id) y (Some p) (Some lane_id))
                 (filter (fun lane_id => is_closed closed lane_id = false) ls))).
Proof.
  induction ls as [|lane_id rest IH]; intros starts Hrange; simpl.
  - now rewrite app_nil_r.
  - inversion Hrange as [|? ? Hlane Hrest]; subst.
    destruct (Nat.leb_spec (num_lanes g) lane_id) as [Hge|_]; [lia|].
    rewrite filter_cons.
    destruct (is_closed closed lane_id) eqn:Hclosed.
    + rewrite decide_False by discriminate. now apply IH.
    + rewrite decide_True by reflexivity.
      destruct (at_lt (graph_lanes g) lane_id Hlane) as [ln [Hat Hln]].
      unfold get_lane. rewrite Hat. simpl. rewrite IH by exact Hrest.
      unfold lane_exit at 2. rewrite Hln. now rewrite <- app_assoc.
Qed.

Lemma scan_lanes_best ctx g closed m p ls :
  forall seen best,
  graph_ok g = true ->
  Forall (fun lane => (lane < num_lanes g)%nat) ls ->
  best_so_far (lane_matches g closed m p) seen best ->
  exists r, scan_lanes ctx g closed m p ls best = Ok (inr r)
    /\ best_so_far (lane_matches g closed m p) (seen ++ ls) r.
Proof.
  induction ls as [|lane_id rest IH]; intros seen best Hg Hrange Hbest; cbn [scan_lanes].
  - exists best. rewrite app_nil_r. now split.
  - inversion Hrange as [|? ? Hlane Hrest]; subst.
    destruct (Nat.leb_spec (num_lanes g) lane_id) as [Hge|_]; [lia|].
    replace (seen ++ lane_id :: rest) with ((seen ++ [lane_id]) ++ rest)
      by now rewrite <- app_assoc.
    destruct (is_closed closed lane_id) eqn:Hclosed.
    { apply IH; try assumption. apply best_so_far_skip; [exact Hbest|].
      intros d (ln & w0 & w1 & _ & _ & _ & Hc & _). congruence. }
    destruct (graph_ok_lane g lane_id Hg Hlane) as (ln & w0 & w1 & Hln & Hw0 & Hw1).
    unfold get_lane, get_waypoint.
    rewrite (proj2 (at_Ok _ _ _) Hln). cbn [obind].
    rewrite (proj2 (at_Ok _ _ _) Hw0). cbn [obind].
    rewrite (proj2 (at_Ok _ _ _) Hw1). cbn [obind].
    destruct (project p (get_location w0) (get_location w1))
      as [[lane_length proj] dist] eqn:Hproj.
    destruct (outside_segment lane_length proj) eqn:Hout.
    { apply IH; try assumption. apply best_so_far_skip; [exact Hbest|].
      intros d (ln' & w0' & w1' & Hln' & Hw0' & Hw1' & _ & Ho & _).
      assert (ln' = ln) by congruence. subst ln'.
      assert (w0' = w0) by congruence. assert (w1' = w1) by congruence.
      subst. rewrite Hproj in Ho. simpl in Ho. congruence. }
    destruct (PrimFloat.leb dist m) eqn:Hle.
    + apply IH; try assumption.
      apply best_so_far_step; [apply lane_matches_fun|exact Hbest|].
      exists ln, w0, w1. rewrite Hproj. simpl. now repeat split.
    + apply IH; try assumption. apply best_so_far_skip; [exact Hbest|].
      intros d (ln' & w0' & w1' & Hln' & Hw0' & Hw1' & _ & _ & Hd & Hle').
      assert (ln' = ln) by congruence. subst ln'.
      assert (w0' = w0) by congruence. assert (w1' = w1) by congruence.
      subst. rewrite Hproj in Hle'. simpl in Hle'. congruence.
Qed.

Lemma lane_starts_ok pl t (l : Vector3d) lane_id :
  (lane_id < num_lanes (graph pl))%nat ->
  lane_starts (graph pl) t (yaw l) (xy l) lane_id
  = Ok (starts_on_lane pl t l lane_id).
Proof.
  intros Hlane.
  destruct (at_lt (graph_lanes (graph pl)) lane_id Hlane) as [ln [Hat Hln]].
  unfold lane_starts, starts_on_lane, get_lane, lane_exit, lane_entry.
  rewrite Hat, Hln. simpl.
  now destruct (lane_from (graph pl) (exit_waypoint_index ln)
                  (entry_waypoint_index ln)).
Qed.

Section ReconcilerFacts.

Variable compute_plan_starts :
  Graph -> string -> Vector3d -> Time -> float -> float -> float -> StartSet.
Variable from_seconds : float -> Duration.
Variable to_seconds : Duration -> float.

Lemma call_arrival_estimator_frame e dt c :
  location (call_arrival_estimator e dt c) = location c
  /\ logger (call_arrival_estimator e dt c) = logger c
  /\ planner (call_arrival_estimator e dt c) = planner c.
Proof. destruct e; simpl; auto. Qed.

Lemma estimate_arrival_frame ctx pl d l :
  Forall (fun wp => (wp < num_waypoints (graph pl))%nat) (waypoints d) ->
  exists c', estimate_arrival from_seconds ctx pl d l = Ok c'
    /\ location c' = location ctx /\ logger c' = logger ctx.
Proof.
  intros Hrange. unfold estimate_arrival.
  destruct (last (waypoints d)) as [back|] eqn:Hlast.
  - assert (Hback : (back < num_waypoints (graph pl))%nat).
    { rewrite Forall_forall in Hrange. apply Hrange.
      rewrite last_lookup in Hlast.
      eapply list_elem_of_lookup_2. exact Hlast. }
    destruct (at_lt _ _ Hback) as [w [Hat _]].
    unfold get_waypoint. rewrite Hat. cbn [obind].
    eexists. split; [reflexivity|].
    split; apply call_arrival_estimator_frame.
  - exists ctx. auto.
Qed.

(** The starts on a waypoint: one on the waypoint, then one through each
    lane leaving it that is not closed, and none through a closed one. *)
Lemma starts_on_waypoint_lanes pl t l wp :
  map start_lane (starts_on_waypoint pl t l wp)
  = None :: map Some
      (filter (fun lane_id => is_closed (lane_closures pl) lane_id = false)
         (lanes_leaving (graph pl) wp)).
Proof.
  unfold starts_on_waypoint. cbn [map start_lane]. f_equal.
  rewrite map_map. reflexivity.
Qed.

Lemma starts_on_waypoint_excludes_closed pl t l wp lane s :
  is_closed (lane_closures pl) lane = true ->
  In s (starts_on_waypoint pl t l wp) ->
  start_lane s = Some lane -> False.
Proof.
  intros Hclosed Hin Hlane.
  assert (Hm : In (Some lane) (map start_lane (starts_on_waypoint pl t l wp))).
  { rewrite <- Hlane. now apply in_map. }
  rewrite starts_on_waypoint_lanes in Hm. destruct Hm as [Hm|Hm]; [discriminate|].
  apply in_map_iff in Hm. destruct Hm as [lane' [E Hin']].
  injection E as ->. apply list_elem_of_In, list_elem_of_filter in Hin'.
  destruct Hin' as [Hopen _]. congruence.
Qed.

Lemma category_exclusive pl d p c c' :
  category_applies pl d p c -> category_applies pl d p c' ->
  same_category c c' = true.
Proof.
  destruct c as [w dw|ln dl|], c' as [w' dw'|ln' dl'|]; simpl; try reflexivity.
  - intros (Hin & Hm & _) (Hnone & _). destruct (Hnone _ _ Hin Hm).
  - intros (Hin & Hm & _) (Hnone & _). destruct (Hnone _ _ Hin Hm).
  - intros (Hnone & _) (Hin & Hm & _). destruct (Hnone _ _ Hin Hm).
  - intros (_ & Hin & Hm & _) (_ & Hnone). destruct (Hnone _ _ Hin Hm).
  - intros (Hnone & _) (Hin & Hm & _). destruct (Hnone _ _ Hin Hm).
  - intros (_ & Hnone) (_ & Hin & Hm & _). destruct (Hnone _ _ Hin Hm).
Qed.

(** C5. A location update without a schedule override, on a graph that
    holds the command's hints, is resolved by exactly one of the three
    categories: a hinted waypoint within [max_merge_waypoint_distance]
    that no other hinted waypoint beats; else a hinted lane that accepts
    the sample and that no other beats; else the whole-graph search.
    When a hinted waypoint matches, the location written is the start on
    that waypoint followed by one start through each lane leaving it that
    is not closed. *)
Theorem update_location_uses_one_category ctx pl d map_name l :
  schedule_override d = None ->
  planner ctx = Some pl ->
  graph_ok (graph pl) = true ->
  Forall (fun wp => (wp < num_waypoints (graph pl))%nat) (waypoints d) ->
  Forall (fun lane => (lane < num_lanes (graph pl))%nat) (lanes d) ->
  exists ctx' c,
    update_location compute_plan_starts from_seconds to_seconds ctx d map_name l
    = Ok ctx'
    /\ category_applies pl d (xy l) c
    /\ (forall c', category_applies pl d (xy l) c' ->
                   same_category c c' = true)
    /\ location ctx' =
         match c with
         | HintedWaypoint wp _ => starts_on_waypoint pl (now ctx) l wp
         | HintedLane lane _ => starts_on_lane pl (now ctx) l lane
         | WholeGraph =>
             compute_plan_starts (graph pl) map_name l (now ctx)
               (max_merge_waypoint_distance (nav_params d))
               (max_merge_lane_distance (nav_params d))
               (min_lane_length (nav_params d))
         end.
Proof.
  intros Hov Hpl Hg Hwps Hlanes. unfold update_location. rewrite Hov, Hpl.
  destruct (scan_waypoints_best ctx (graph pl)
              (max_merge_waypoint_distance (nav_params d)) (xy l)
              (waypoints d) [] None Hwps) as [on_waypoint [Hscan Hbest]].
  { intros c dd []. }
  rewrite Hscan. cbn [obind]. rewrite app_nil_l in Hbest.
  unfold resolve_starts.
  destruct on_waypoint as [[wp dist]|].
  - destruct Hbest as (Hin & Hm & Hnear).
    assert (Hwp : (wp < num_waypoints (graph pl))%nat).
    { rewrite Forall_forall in Hwps. now apply Hwps, list_elem_of_In. }
    destruct (graph_ok_lanes_from _ _ Hg Hwp) as (ls & Hfrom & Hleave & Hls).
    rewrite Hfrom. cbn [obind].
    rewrite scan_lanes_from_starts by exact Hls. cbn [obind].
    destruct (estimate_arrival_frame
                (set_location
                   ([mkStart (now ctx) wp (yaw l) (Some (xy l)) None] ++
                    map (fun lane_id =>
                           mkStart (now ctx) (lane_exit (graph pl) lane_id)
                             (yaw l) (Some (xy l)) (Some lane_id))
                      (filter (fun lane_id =>
                                 is_closed (lane_closures pl) lane_id = false)
                         ls)) ctx) pl d l Hwps) as (c' & Hc' & Hloc & _).
    apply (unbeaten_nearest _ _ wp) in Hnear;
      [|apply waypoint_matches_number|exact Hm].
    exists c', (HintedWaypoint wp dist). split; [exact Hc'|].
    split; [now repeat split|].
    split; [intros c2; apply category_exclusive; now repeat split|].
    rewrite Hloc. unfold starts_on_waypoint. now rewrite Hleave.
  - destruct (scan_lanes_best ctx (graph pl) (lane_closures pl)
                (max_merge_lane_distance (nav_params d)) (xy l) (lanes d)
                [] None Hg Hlanes) as [on_lane [Hscan2 Hbest2]].
    { intros c dd []. }
    rewrite Hscan2. cbn [obind]. rewrite app_nil_l in Hbest2.
    destruct on_lane as [[lane dist]|].
    + destruct Hbest2 as (Hin & Hm & Hnear).
      assert (Hlane : (lane < num_lanes (graph pl))%nat).
      { rewrite Forall_forall in Hlanes. now apply Hlanes, list_elem_of_In. }
      rewrite lane_starts_ok by exact Hlane. cbn [obind].
      destruct (estimate_arrival_frame
                  (set_location (starts_on_lane pl (now ctx) l lane) ctx)
                  pl d l Hwps) as (c' & Hc' & Hloc & _).
      apply (unbeaten_nearest _ _ lane) in Hnear;
        [|apply lane_matches_number|exact Hm].
      exists c', (HintedLane lane dist). split; [exact Hc'|].
      split; [now repeat split|].
      split; [intros c2; apply category_exclusive; now repeat split|].
      now rewrite Hloc.
    + cbn [obind].
      match goal with
      | |- context [estimate_arrival _ (set_location ?s ctx) _ _ _] =>
          destruct (estimate_arrival_frame (set_location s ctx) pl d l Hwps)
            as (c' & Hc' & Hloc & _)
      end.
      exists c', WholeGraph. split; [exact Hc'|].
      split; [now split|].
      split; [intros c2; apply category_exclusive; now split|].
      now rewrite Hloc.
Qed.

(** The projection of [project] is NaN when the segment length is, and
    the lateral distance is NaN when the projection is. *)
Lemma project_nan p p0 p1 :
  let '(lane_length, proj, dist) := project p p0 p1 in
  (is_nan lane_length -> is_nan proj)
  /\ (is_nan proj -> is_nan dist).
Proof.
  unfold project, norm, dot, sub, scale, divs. cbn [vx vy]. split; intros H.
  - apply Binary64.add_nan_l, Binary64.mul_nan_r, Binary64.div_nan_r, H.
  - apply Binary64.sqrt_nan, Binary64.add_nan_l, Binary64.mul_nan_l,
      Binary64.sub_nan_r, Binary64.mul_nan_l, H.
Qed.

(** What the two comparisons of the loop accept lies within the segment:
    an accepted projection is at least zero and at most the length. *)
Lemma accepted_within_segment p p0 p1 max_dist :
  let '(lane_length, proj, dist) := project p p0 p1 in
  outside_segment lane_length proj = false ->
  PrimFloat.leb dist max_dist = true ->
  PrimFloat.leb 0 proj = true /\ PrimFloat.leb proj lane_length = true.
Proof.
  pose proof (project_nan p p0 p1) as Hnan.
  destruct (project p p0 p1) as [[lane_length proj] dist].
  destruct Hnan as [Hlen Hproj]. unfold outside_segment.
  rewrite orb_false_iff. intros [Hneg Hlong] Hle.
  apply Binary64.leb_not_nan in Hle. destruct Hle as [Hdist _].
  assert (Hp : ~ is_nan proj) by tauto.
  assert (Hl : ~ is_nan lane_length) by tauto.
  split; apply Binary64.ltb_false_leb; auto using Binary64.zero_not_nan.
Qed.

(** The scan of the hinted lanes, in the terms of the code. When no
    hinted waypoint matches, the hinted lanes decide. A lane
    is accepted only if it is hinted and not closed, the projection of
    the sample lies between zero and the lane's length, and the lateral
    distance is within [max_merge_lane_distance]; the accepted lane that
    wins has no accepted lane strictly nearer. On a match the location
    written is the start for the lane's exit waypoint through the lane
    and, exactly when the graph has a lane from the exit back to the
    entry, a second start for the entry waypoint through that lane;
    without a match the whole-graph search decides. *)
Lemma update_location_scans_lanes ctx pl d map_name l :
  schedule_override d = None ->
  planner ctx = Some pl ->
  graph_ok (graph pl) = true ->
  Forall (fun wp => (wp < num_waypoints (graph pl))%nat) (waypoints d) ->
  Forall (fun lane => (lane < num_lanes (graph pl))%nat) (lanes d) ->
  none_matches
    (waypoint_matches (graph pl) (max_merge_waypoint_distance (nav_params d))
       (xy l)) (waypoints d) ->
  let g := graph pl in
  let max_dist := max_merge_lane_distance (nav_params d) in
  let t := now ctx in
  exists ctx' on_lane,
    update_location compute_plan_starts from_seconds to_seconds ctx d
      map_name l = Ok ctx'
    /\ scan_lanes ctx g (lane_closures pl) max_dist (xy l) (lanes d) None
       = Ok (inr on_lane)
    /\ match on_lane with
       | Some (lane, dist) =>
           In lane (lanes d)
           /\ is_closed (lane_closures pl) lane = false
           /\ (exists ln w0 w1,
                 graph_lanes g !! lane = Some ln
                 /\ graph_waypoints g !! entry_waypoint_index ln = Some w0
                 /\ graph_waypoints g !! exit_waypoint_index ln = Some w1
                 /\ let '(lane_length, proj, lateral) :=
                      project (xy l) (get_location w0) (get_location w1) in
                    PrimFloat.leb 0 proj = true
                    /\ PrimFloat.leb proj lane_length = true
                    /\ lateral = dist
                    /\ PrimFloat.leb dist max_dist = true)
           /\ nearest (lane_matches g (lane_closures pl) max_dist (xy l))
                (lanes d) dist
           /\ location ctx' =
                mkStart t (lane_exit g lane) (yaw l) (Some (xy l)) (Some lane)
                :: match lane_from g (lane_exit g lane) (lane_entry g lane) with
                   | Some reverse_lane =>
                       [mkStart t (lane_entry g lane) (yaw l) (Some (xy l))
                          (Some reverse_lane)]
                   | None => []
                   end
       | None =>
           none_matches (lane_matches g (lane_closures pl) max_dist (xy l))
             (lanes d)
           /\ location ctx' =
                compute_plan_starts g map_name l t
                  (max_merge_waypoint_distance (nav_params d))
                  max_dist (min_lane_length (nav_params d))
       end.
Proof.
  intros Hov Hpl Hg Hwps Hlanes Hnone g max_dist t.
  unfold update_location. rewrite Hov, Hpl.
  destruct (scan_waypoints_best ctx (graph pl)
              (max_merge_waypoint_distance (nav_params d)) (xy l)
              (waypoints d) [] None Hwps) as [on_waypoint [Hscan Hbest]].
  { intros c dd []. }
  rewrite Hscan. cbn [obind]. rewrite app_nil_l in Hbest.
  destruct on_waypoint as [[wp dist]|].
  { destruct Hbest as (Hin & Hm & _). destruct (Hnone _ _ Hin Hm). }
  unfold resolve_starts.
  destruct (scan_lanes_best ctx (graph pl) (lane_closures pl)
              (max_merge_lane_distance (nav_params d)) (xy l) (lanes d)
              [] None Hg Hlanes) as [on_lane [Hscan2 Hbest2]].
  { intros c dd []. }
  fold g max_dist t in Hscan2 |- *. rewrite Hscan2. cbn [obind].
  rewrite app_nil_l in Hbest2.
  destruct on_lane as [[lane dist]|].
  - destruct Hbest2 as (Hin & Hm & Hnear).
    assert (Hlane : (lane < num_lanes (graph pl))%nat).
    { rewrite Forall_forall in Hlanes. now apply Hlanes, list_elem_of_In. }
    unfold g. rewrite lane_starts_ok by exact Hlane. cbn [obind].
    destruct (estimate_arrival_frame
                (set_location (starts_on_lane pl (now ctx) l lane) ctx)
                pl d l Hwps) as (c' & Hc' & Hloc & _).
    apply (unbeaten_nearest _ _ lane) in Hnear;
      [|apply lane_matches_number|exact Hm].
    exists c', (Some (lane, dist)). split; [exact Hc'|]. split; [reflexivity|].
    split; [exact Hin|].
    destruct Hm as (ln & w0 & w1 & Hln & Hw0 & Hw1 & Hopen & Hin_seg & Hd & Hle).
    split; [exact Hopen|]. split.
    + exists ln, w0, w1. repeat (split; [assumption|]).
      pose proof (accepted_within_segment (xy l) (get_location w0)
                    (get_location w1) max_dist) as Hseg.
      destruct (project (xy l) (get_location w0) (get_location w1))
        as [[lane_length proj] lateral].
      cbn [fst snd] in Hin_seg, Hd. subst dist.
      destruct (Hseg Hin_seg Hle) as [H0 H1]. now repeat split.
    + split; [exact Hnear|]. now rewrite Hloc.
  - cbn [obind].
    match goal with
    | |- context [estimate_arrival _ (set_location ?s ctx) _ _ _] =>
        destruct (estimate_arrival_frame (set_location s ctx) pl d l Hwps)
          as (c' & Hc' & Hloc & _)
    end.
    exists c', None. split; [exact Hc'|]. split; [reflexivity|].
    split; [exact Hbest2|]. now rewrite Hloc.
Qed.
(** C6. When no hinted waypoint matches, the hinted lanes decide. With
    the sample at [(x, y)] and a lane from [(x0, y0)] to [(x1, y1)], the
    length of the lane is [sqrt ((x1-x0)^2 + (y1-y0)^2)], the projection
    of the sample is the dot product of [(x-x0, y-y0)] with the lane's
    unit vector, and the lateral distance is the norm of what is left of
    [(x-x0, y-y0)] without the projection along the unit vector. A lane
    is accepted when it is hinted and not closed, the projection lies
    between zero and the length, and the lateral distance is within
    [max_merge_lane_distance]. The lane that wins is accepted and no
    accepted lane is nearer; the location written is the start for its
    exit waypoint through the lane and, exactly when the graph has a lane
    from the exit back to the entry, a second start for the entry
    waypoint through that lane. When no lane is accepted the whole-graph
    search decides. *)
Theorem update_location_on_hinted_lane ctx pl d map_name l :
  schedule_override d = None ->
  planner ctx = Some pl ->
  graph_ok (graph pl) = true ->
  Forall (fun wp => (wp < num_waypoints (graph pl))%nat) (waypoints d) ->
  Forall (fun lane => (lane < num_lanes (graph pl))%nat) (lanes d) ->
  none_matches
    (waypoint_matches (graph pl) (max_merge_waypoint_distance (nav_params d))
       (xy l)) (waypoints d) ->
  let g := graph pl in
  let max_dist := max_merge_lane_distance (nav_params d) in
  let t := now ctx in
  let length_of := fun x0 y0 x1 y1 : float =>
    (sqrt ((x1 - x0) * (x1 - x0) + (y1 - y0) * (y1 - y0)))%float in
  let projection_of := fun x y x0 y0 x1 y1 : float =>
    ((x - x0) * ((x1 - x0) / length_of x0 y0 x1 y1)
     + (y - y0) * ((y1 - y0) / length_of x0 y0 x1 y1))%float in
  let lateral_of := fun x y x0 y0 x1 y1 : float =>
    let proj := projection_of x y x0 y0 x1 y1 in
    let ex := (x - x0 - proj * ((x1 - x0) / length_of x0 y0 x1 y1))%float in
    let ey := (y - y0 - proj * ((y1 - y0) / length_of x0 y0 x1 y1))%float in
    (sqrt (ex * ex + ey * ey))%float in
  let accepts := fun (lane : nat) (dist : float) =>
    In lane (lanes d)
    /\ is_closed (lane_closures pl) lane = false
    /\ exists ln w0 w1,
         graph_lanes g !! lane = Some ln
         /\ graph_waypoints g !! entry_waypoint_index ln = Some w0
         /\ graph_waypoints g !! exit_waypoint_index ln = Some w1
         /\ let x0 := vx (get_location w0) in
            let y0 := vy (get_location w0) in
            let x1 := vx (get_location w1) in
            let y1 := vy (get_location w1) in
            PrimFloat.leb 0 (projection_of (px l) (py l) x0 y0 x1 y1) = true
            /\ PrimFloat.leb (projection_of (px l) (py l) x0 y0 x1 y1)
                 (length_of x0 y0 x1 y1) = true
            /\ dist = lateral_of (px l) (py l) x0 y0 x1 y1
            /\ PrimFloat.leb dist max_dist = true in
  exists ctx',
    update_location compute_plan_starts from_seconds to_seconds ctx d
      map_name l = Ok ctx'
    /\ ((exists lane dist,
           accepts lane dist
           /\ (forall lane' dist', accepts lane' dist' ->
                                   PrimFloat.leb dist dist' = true)
           /\ location ctx' =
                mkStart t (lane_exit g lane) (yaw l) (Some (xy l)) (Some lane)
                :: match lane_from g (lane_exit g lane) (lane_entry g lane) with
                   | Some reverse_lane =>
                       [mkStart t (lane_entry g lane) (yaw l) (Some (xy l))
                          (Some reverse_lane)]
                   | None => []
                   end)
        \/ ((forall lane dist, ~ accepts lane dist)
            /\ location ctx' =
                 compute_plan_starts g map_name l t
                   (max_merge_waypoint_distance (nav_params d))
                   max_dist (min_lane_length (nav_params d)))).
Proof.
  intros Hov Hpl Hg Hwps Hlanes Hnone g max_dist t length_of projection_of
    lateral_of accepts.
  assert (Hproj : forall p0 p1,
            project (xy l) p0 p1
            = (length_of (vx p0) (vy p0) (vx p1) (vy p1),
               projection_of (px l) (py l) (vx p0) (vy p0) (vx p1) (vy p1),
               lateral_of (px l) (py l) (vx p0) (vy p0) (vx p1) (vy p1)))
    by reflexivity.
  assert (Hm : forall lane dist,
            accepts lane dist
            <-> In lane (lanes d)
                /\ lane_matches g (lane_closures pl) max_dist (xy l) lane dist).
  { intros lane dist. unfold accepts, lane_matches. split.
    - intros (Hin & Hopen & ln & w0 & w1 & Hln & Hw0 & Hw1 & H0 & H1 & Hd & Hle).
      split; [exact Hin|]. exists ln, w0, w1.
      repeat (split; [assumption|]). rewrite Hproj. cbn [fst snd].
      split; [|split; [exact Hd|exact Hle]].
      unfold outside_segment. apply orb_false_iff.
      split; apply Binary64.leb_ltb_false; assumption.
    - intros (Hin & ln & w0 & w1 & Hln & Hw0 & Hw1 & Hopen & Hseg & Hd & Hle).
      split; [exact Hin|]. split; [exact Hopen|]. exists ln, w0, w1.
      repeat (split; [assumption|]).
      pose proof (accepted_within_segment (xy l) (get_location w0)
                    (get_location w1) max_dist) as Hacc.
      rewrite Hproj in Hacc, Hseg, Hd. cbn [fst snd] in Hseg, Hd.
      subst dist. destruct (Hacc Hseg Hle) as [A B]. cbv zeta. auto. }
  destruct (update_location_scans_lanes ctx pl d map_name l Hov Hpl Hg Hwps
              Hlanes Hnone)
    as (ctx' & on_lane & Hup & _ & Hcase).
  exists ctx'. split; [exact Hup|].
  destruct on_lane as [[lane dist]|].
  - destruct Hcase as (Hin & Hopen & (ln & w0 & w1 & Hln & Hw0 & Hw1 & Hgeo)
                       & Hnear & Hloc).
    left. exists lane, dist. split; [|split; [|exact Hloc]].
    + split; [exact Hin|]. split; [exact Hopen|]. exists ln, w0, w1.
      repeat (split; [assumption|]).
      rewrite Hproj in Hgeo.
      destruct Hgeo as (A & B & C & D). cbv zeta.
      split; [exact A|]. split; [exact B|]. split; [symmetry; exact C|exact D].
    + intros lane' dist' Hacc. apply Hm in Hacc. destruct Hacc as [Hin' Hm'].
      exact (Hnear lane' dist' Hin' Hm').
  - destruct Hcase as [Hnone' Hloc]. right. split; [|exact Hloc].
    intros lane dist Hacc. apply Hm in Hacc. destruct Hacc as [Hin' Hm'].
    exact (Hnone' lane dist Hin' Hm').
Qed.


End ReconcilerFacts.



Section DroppedUpdates.

Variable compute_plan_starts :
  Graph -> string -> Vector3d -> Time -> float -> float -> float -> StartSet.
Variable from_seconds : float -> Duration.
Variable to_seconds : Duration -> float.

Lemma scan_waypoints_outside ctx g m p wps :
  forall best,
  Exists (fun wp => (num_waypoints g <= wp)%nat) wps ->
  exists wp, In wp wps /\ (num_waypoints g <= wp)%nat
    /\ scan_waypoints ctx g m p wps best
       = Ok (inl (log (ErrWaypointOutsideGraph wp (num_waypoints g)) ctx)).
Proof.
  induction wps as [|wp rest IH]; intros best Hex; [inversion Hex|].
  cbn [scan_waypoints].
  destruct (Nat.leb_spec (num_waypoints g) wp) as [Hge|Hlt].
  - exists wp. split; [now left|]. now split.
  - inversion Hex as [? ? Hhd|? ? Htl]; subst; [lia|].
    destruct (at_lt (graph_waypoints g) wp Hlt) as [w [Hat _]].
    unfold get_waypoint. rewrite Hat. cbn [obind].
    destruct (IH (if PrimFloat.leb (norm (sub p (get_location w))) m
                  then match best with
                       | Some (_, b) =>
                           if PrimFloat.ltb (norm (sub p (get_location w))) b
                           then Some (wp, norm (sub p (get_location w)))
                           else best
                       | None => Some (wp, norm (sub p (get_location w)))
                       end
                  else best) Htl) as (wp' & Hin & Hge' & Hscan).
    exists wp'. split; [now right|]. split; [exact Hge'|].
    rewrite <- Hscan. now destruct best as [[? ?]|].
Qed.

Lemma scan_lanes_outside ctx g closed m p ls :
  forall best,
  graph_ok g = true ->
  Exists (fun lane => (num_lanes g <= lane)%nat) ls ->
  exists lane, In lane ls /\ (num_lanes g <= lane)%nat
    /\ scan_lanes ctx g closed m p ls best
       = Ok (inl (log (ErrLaneOutsideGraph lane (num_lanes g)) ctx)).
Proof.
  induction ls as [|lane_id rest IH]; intros best Hg Hex; [inversion Hex|].
  cbn [scan_lanes].
  destruct (Nat.leb_spec (num_lanes g) lane_id) as [Hge|Hlt].
  - exists lane_id. split; [now left|]. now split.
  - inversion Hex as [? ? Hhd|? ? Htl]; subst; [lia|].
    assert (Hrec : forall b, exists lane, In lane (lane_id :: rest)
              /\ (num_lanes g <= lane)%nat
              /\ scan_lanes ctx g closed m p rest b
                 = Ok (inl (log (ErrLaneOutsideGraph lane (num_lanes g)) ctx))).
    { intros b. destruct (IH b Hg Htl) as (lane & Hin & Hge & Hscan).
      exists lane. split; [now right|]. now split. }
    destruct (is_closed closed lane_id); [apply Hrec|].
    destruct (graph_ok_lane g lane_id Hg Hlt) as (ln & w0 & w1 & Hln & Hw0 & Hw1).
    unfold get_lane, get_waypoint.
    rewrite (proj2 (at_Ok _ _ _) Hln). cbn [obind].
    rewrite (proj2 (at_Ok _ _ _) Hw0). cbn [obind].
    rewrite (proj2 (at_Ok _ _ _) Hw1). cbn [obind].
    destruct (project p (get_location w0) (get_location w1))
      as [[lane_length proj] dist].
    destruct (outside_segment lane_length proj); apply Hrec.
Qed.

(** C9, as the code has it. Without a schedule override and with the
    planner available, an update is dropped with nothing but the error
    logged (location, itinerary, arrival estimates and replan requests
    as they were) when a hinted waypoint is outside the graph, or when
    no hinted waypoint matches and a hinted lane is outside the graph. *)
Theorem update_location_drops_outside_hints ctx pl d map_name l :
  schedule_override d = None ->
  planner ctx = Some pl ->
  Exists (fun wp => (num_waypoints (graph pl) <= wp)%nat) (waypoints d)
  \/ (graph_ok (graph pl) = true
      /\ Forall (fun wp => (wp < num_waypoints (graph pl))%nat) (waypoints d)
      /\ none_matches
           (waypoint_matches (graph pl)
              (max_merge_waypoint_distance (nav_params d)) (xy l))
           (waypoints d)
      /\ Exists (fun lane => (num_lanes (graph pl) <= lane)%nat) (lanes d)) ->
  exists e,
    update_location compute_plan_starts from_seconds to_seconds ctx d
      map_name l = Ok (log e ctx)
    /\ ((exists wp, In wp (waypoints d)
           /\ e = ErrWaypointOutsideGraph wp (num_waypoints (graph pl)))
        \/ (exists lane, In lane (lanes d)
            /\ e = ErrLaneOutsideGraph lane (num_lanes (graph pl)))).
Proof.
  intros Hov Hpl Hcase. unfold update_location. rewrite Hov, Hpl.
  destruct Hcase as [Hwp|(Hg & Hwps & Hnone & Hlane)].
  - destruct (scan_waypoints_outside ctx (graph pl)
                (max_merge_waypoint_distance (nav_params d)) (xy l)
                (waypoints d) None Hwp) as (wp & Hin & _ & Hscan).
    rewrite Hscan. cbn [obind]. eexists. split; [reflexivity|].
    left. now exists wp.
  - destruct (scan_waypoints_best ctx (graph pl)
                (max_merge_waypoint_distance (nav_params d)) (xy l)
                (waypoints d) [] None Hwps) as [on_waypoint [Hscan Hbest]].
    { intros c dd []. }
    rewrite Hscan. cbn [obind]. rewrite app_nil_l in Hbest.
    destruct on_waypoint as [[wp dist]|].
    { destruct Hbest as (Hin & Hm & _). destruct (Hnone _ _ Hin Hm). }
    unfold resolve_starts.
    destruct (scan_lanes_outside ctx (graph pl) (lane_closures pl)
                (max_merge_lane_distance (nav_params d)) (xy l) (lanes d)
                None Hg Hlane) as (lane & Hin & _ & Hscan2).
    rewrite Hscan2. cbn [obind]. eexists. split; [reflexivity|].
    right. now exists lane.
Qed.

End DroppedUpdates.

Lemma update_fn_clear w i : update_fn (clear_update_fn i w) i = None.
Proof.
  unfold update_fn, clear_update_fn. cbn [identifiers with_identifiers].
  destruct (decide (i < length (identifiers w))%nat) as [Hlt|Hge].
  - now rewrite list_lookup_insert_eq.
  - rewrite list_insert_ge by lia. now rewrite lookup_ge_None_2 by lia.
Qed.

Lemma update_fn_clear_ne w i j :
  i <> j -> update_fn (clear_update_fn i w) j = update_fn w j.
Proof.
  intros Hne. unfold update_fn, clear_update_fn.
  cbn [identifiers with_identifiers]. now rewrite list_lookup_insert_ne.
Qed.

(* ================================================================== *)
(** ** Updates under a schedule override *)

(** The segment that [scan_segments] keeps is a segment of the
    trajectory. *)
Lemma scan_segments_index p samples :
  forall i0 best i d,
  scan_segments p i0 samples best = Some (i, d) ->
  best = Some (i, d)
  \/ (i0 <= i /\ S i < i0 + length samples)%nat.
Proof.
  induction samples as [|s0 rest IH]; intros i0 best i d; cbn [scan_segments].
  - intros ->. now left.
  - destruct rest as [|s1 rest']; [intros ->; now left|].
    destruct (project p (xy (position s0)) (xy (position s1)))
      as [[lane_length proj] dist].
    intros H. apply IH in H. cbn [length] in *.
    destruct H as [H|H]; [|right; lia].
    destruct (outside_segment lane_length proj); [now left|].
    destruct best as [[b bd]|].
    + destruct (PrimFloat.ltb dist bd); [|now left].
      injection H as <- <-. right. lia.
    + injection H as <- <-. right. lia.
Qed.

Section OverriddenUpdate.

Variable compute_plan_starts :
  Graph -> string -> Vector3d -> Time -> float -> float -> float -> StartSet.
Variable from_seconds : float -> Duration.
Variable to_seconds : Duration -> float.

(** The delay of an overridden update: never a fault, and at most one
    call of [cumulative_delay], for the override's plan with a threshold
    of one second. *)
Lemma override_delay_reports ctx p ov :
  exists ctx',
    override_delay from_seconds to_seconds ctx p ov = Ok ctx'
    /\ (ctx' = ctx
        \/ exists delay,
             ctx' = cumulative_delay (plan_id ov) delay one_second ctx).
Proof.
  unfold override_delay.
  destruct (scan_segments p 0 (trajectory (route ov)) None) as [[i d]|] eqn:Hscan.
  - apply scan_segments_index in Hscan. destruct Hscan as [Hscan|[_ Hi]];
      [discriminate|].
    destruct (at_lt (trajectory (route ov)) i) as [wp0 [H0 _]]; [lia|].
    destruct (at_lt (trajectory (route ov)) (i + 1)) as [wp1 [H1 _]]; [lia|].
    rewrite H0, H1. cbn [obind]. eexists. split; [reflexivity|].
    right. now eexists.
  - destruct (scan_samples p (trajectory (route ov)) None) as [[t d]|].
    + eexists. split; [reflexivity|]. right. now eexists.
    + exists ctx. auto.
Qed.

(** With the planner available, an overridden update writes the start
    set of the whole-graph search as the location. *)
Lemma overridden_update_writes_location ctx d map_name l ov pl :
  planner ctx = Some pl ->
  exists ctx',
    overridden_update compute_plan_starts from_seconds to_seconds ctx d
      map_name l ov = Ok ctx'
    /\ location ctx'
       = compute_plan_starts (graph pl) map_name l (now ctx)
           (max_merge_waypoint_distance (nav_params d))
           (max_merge_lane_distance (nav_params d))
           (min_lane_length (nav_params d)).
Proof.
  intros Hpl. unfold overridden_update.
  destruct (override_delay_reports ctx (xy l) ov) as (c1 & Hc1 & Hcase).
  rewrite Hc1. cbn [obind].
  assert (Hp : planner c1 = Some pl).
  { destruct Hcase as [->|[delay ->]]; [exact Hpl|exact Hpl]. }
  rewrite Hp. eexists. split; reflexivity.
Qed.

End OverriddenUpdate.

Lemma segment_matches_fun samples p i d1 d2 :
  segment_matches samples p i d1 -> segment_matches samples p i d2 -> d1 = d2.
Proof.
  intros (s0 & s1 & H0 & H1 & _ & ->) (s0' & s1' & H0' & H1' & _ & ->).
  congruence.
Qed.

Lemma scan_segments_best full p rest :
  forall i0 best,
  drop i0 full = rest ->
  best_so_far (segment_matches full p) (seq 0 i0) best ->
  best_so_far (segment_matches full p) (seq 0 (i0 + (length rest - 1)))
    (scan_segments p i0 rest best).
Proof.
  induction rest as [|s0 rest IH]; intros i0 best Hdrop Hbest;
    cbn [scan_segments length].
  - now rewrite Nat.add_0_r.
  - destruct rest as [|s1 rest'].
    { cbn [length]. now rewrite Nat.add_0_r. }
    assert (H0 : full !! i0 = Some s0).
    { rewrite <- (Nat.add_0_r i0), <- lookup_drop, Hdrop. reflexivity. }
    assert (H1 : full !! S i0 = Some s1).
    { rewrite <- (Nat.add_1_r i0), <- lookup_drop, Hdrop. reflexivity. }
    assert (Hnext : drop (S i0) full = s1 :: rest').
    { rewrite <- (Nat.add_1_l i0), Nat.add_comm, <- drop_drop, Hdrop.
      reflexivity. }
    replace (i0 + (S (length (s1 :: rest')) - 1))%nat
      with (S i0 + (length (s1 :: rest') - 1))%nat by (cbn [length]; lia).
    destruct (project p (xy (position s0)) (xy (position s1)))
      as [[lane_length proj] dist] eqn:Hproj.
    apply IH; [exact Hnext|]. rewrite seq_S. cbn [Nat.add].
    destruct (outside_segment lane_length proj) eqn:Hout.
    + apply best_so_far_skip; [exact Hbest|].
      intros d (s0' & s1' & H0' & H1' & Ho & _).
      assert (s0' = s0) by congruence. assert (s1' = s1) by congruence.
      subst. rewrite Hproj in Ho. cbn [fst snd] in Ho. congruence.
    + apply best_so_far_step; [apply segment_matches_fun|exact Hbest|].
      exists s0, s1. rewrite Hproj. cbn [fst snd]. auto.
Qed.

(** Where no accepted distance is NaN, the segment kept is the nearest
    of those that accept the sample; a NaN distance breaks this, see
    [zero_length_segment_shadows_closest]. *)
Lemma scan_segments_nearest samples p i dist :
  (forall j d, segment_matches samples p j d -> ~ is_nan d) ->
  scan_segments p 0 samples None = Some (i, dist) ->
  segment_matches samples p i dist
  /\ nearest (segment_matches samples p) (seq 0 (length samples - 1)) dist.
Proof.
  intros Hnum Hscan.
  pose proof (scan_segments_best samples p samples 0 None eq_refl) as H.
  rewrite Hscan in H. cbn [Nat.add] in H.
  destruct H as (_ & Hm & Hun); [intros c d []|].
  split; [exact Hm|]. now apply (unbeaten_nearest _ _ i).
Qed.

Section UpdatePosition.

Variable compute_plan_starts :
  Graph -> string -> Vector3d -> Time -> float -> float -> float -> StartSet.
Variable from_seconds : float -> Duration.
Variable to_seconds : Duration -> float.

(** C1, at the failing input. Once the update function of an activity
    identifier is cleared, as [finish] and [stop] clear it, the task of
    [update_position] for that identifier calls the empty function and
    throws [std::bad_function_call]. *)
Theorem update_position_after_clear_throws map_name position i w :
  run_update_position compute_plan_starts from_seconds to_seconds
    map_name position (Some i) (clear_update_fn i w)
  = Throw bad_function_call.
Proof.
  unfold run_update_position. now rewrite update_fn_clear.
Qed.

(** C8, at the failing input. Without a current activity the task of
    [update_position] leaves the location as it was, whatever start set
    [compute_plan_starts] resolves. *)
Theorem update_position_without_activity_keeps_location map_name position w :
  exists w',
    run_update_position compute_plan_starts from_seconds to_seconds
      map_name position None w = Ok w'
    /\ location (context w') = location (context w).
Proof.
  unfold run_update_position. destruct (planner (context w)).
  - now exists w.
  - eexists. split; reflexivity.
Qed.

(** C7, at the failing input. The override's trajectory turns in place
    from 0 s to 1 s and then drives from (0,0) to (10,0) until 11 s; the
    robot is at (5,0). The driving segment, segment 1, accepts the
    sample at lateral distance 0, and its time offset would be half of
    its ten seconds. But the turning segment, of length 0, was scanned
    first: its projection and distance are NaN, no comparison rejects
    it, and no later distance is less than NaN. The segment kept is
    segment 0, which is not the nearest, and the delay reported is
    computed from a NaN offset on it. *)
Theorem zero_length_segment_shadows_closest :
  let s0 := mkSample (V3 0 0 0) 0 in
  let s1 := mkSample (V3 0 0 1) 1000000000 in
  let s2 := mkSample (V3 10 0 1) 11000000000 in
  let ov := mkOverride (mkRoute "L1" [s0; s1; s2]) 5 0 in
  let p := V2 5 0 in
  segment_matches [s0; s1; s2] p 1 0
  /\ expected_time from_seconds to_seconds p s1 s2
     = 1000000000 + from_seconds (PrimFloat.mul 0.5 (to_seconds 10000000000))
  /\ (exists dist,
        scan_segments p 0 [s0; s1; s2] None = Some (0%nat, dist)
        /\ is_nan dist
        /\ PrimFloat.leb dist 0 = false)
  /\ (exists s,
        is_nan s
        /\ override_delay from_seconds to_seconds Scenario.context1 p ov
           = Ok (cumulative_delay 5
                   (100 - (0 + from_seconds
                                 (PrimFloat.mul s (to_seconds 1000000000))))
                   one_second Scenario.context1)).
Proof.
  cbv zeta. split.
  { eexists _, _. split; [reflexivity|]. split; [reflexivity|].
    split; vm_compute; reflexivity. }
  split; [reflexivity|]. split.
  - eexists. split; [vm_compute; reflexivity|]. split; vm_compute; reflexivity.
  - exists (PrimFloat.div (PrimFloat.div 0 0) 0)%float.
    split; [vm_compute; reflexivity|]. reflexivity.
Qed.

End UpdatePosition.

(* ================================================================== *)
(** ** Commands: what each operation leaves alone *)

Lemma api_call_identifiers cmd c w :
  identifiers (api_call cmd c w) = identifiers w
  /\ datas (api_call cmd c w) = datas w
  /\ context (api_call cmd c w) = context w
  /\ context_alive (api_call cmd c w) = context_alive w
  /\ current_progress (api_call cmd c w) = current_progress w
  /\ observed (api_call cmd c w) = observed w.
Proof.
  destruct c; unfold api_call, finish, override_schedule; cbn [snd];
    destruct (context_alive w) eqn:Ha; cbn; rewrite ?Ha; auto 10.
Qed.

Lemma script_identifiers cmd script :
  forall w,
  let w' := fold_left (fun w0 c => api_call cmd c w0) script w in
  identifiers w' = identifiers w
  /\ datas w' = datas w
  /\ context w' = context w
  /\ context_alive w' = context_alive w
  /\ current_progress w' = current_progress w
  /\ observed w' = observed w.
Proof.
  induction script as [|c rest IH]; intros w; cbn [fold_left]; [auto 10|].
  specialize (IH (api_call cmd c w)). cbv zeta in IH.
  destruct IH as (H1 & H2 & H3 & H4 & H5 & H6).
  destruct (api_call_identifiers cmd c w) as (K1 & K2 & K3 & K4 & K5 & K6).
  cbv zeta. repeat split; congruence.
Qed.

Lemma invoke_begin_frame cb cmd w :
  identifiers (invoke_begin cb cmd w) = identifiers w
  /\ datas (invoke_begin cb cmd w) = datas w
  /\ context (invoke_begin cb cmd w) = context w
  /\ context_alive (invoke_begin cb cmd w) = context_alive w
  /\ current_progress (invoke_begin cb cmd w) = current_progress w
  /\ observed (invoke_begin cb cmd w)
     = BeginInvoked (identifier cmd) :: observed w.
Proof.
  unfold invoke_begin.
  match goal with
  | |- context [fold_left ?f ?s ?w0] =>
      pose proof (script_identifiers cmd s w0) as H
  end.
  cbv zeta in H. destruct H as (H1 & H2 & H3 & H4 & H5 & H6).
  repeat split; try (etransitivity; [eassumption|reflexivity]).
Qed.

Lemma next_frame w :
  identifiers (next w) = identifiers w
  /\ datas (next w) = datas w
  /\ context (next w) = context w
  /\ context_alive (next w) = context_alive w.
Proof.
  unfold next. destruct (current_progress w) as [tr|]; [|auto].
  destruct (last (reverse_queue tr)) as [back|].
  - destruct (begin back) as [cb|]; [|cbn; auto].
    match goal with
    | |- context [invoke_begin cb ?c ?w0] =>
        destruct (invoke_begin_frame cb c w0) as (H1 & H2 & H3 & H4 & _)
    end.
    rewrite H1, H2, H3, H4. cbn. auto.
  - unfold trigger. cbn [finished triggered].
    destruct (triggered (finished tr)); cbn; auto.
Qed.

Lemma call_finisher_frame tid w :
  identifiers (call_finisher tid w) = identifiers w
  /\ datas (call_finisher tid w) = datas w
  /\ context (call_finisher tid w) = context w
  /\ context_alive (call_finisher tid w) = context_alive w.
Proof.
  unfold call_finisher. destruct (current_progress w) as [tr|]; [|auto].
  destruct (tracker_id tr =? tid)%nat; [apply next_frame|auto].
Qed.

Lemma release_stubbornness_frame dt w :
  identifiers (release_stubbornness dt w) = identifiers w
  /\ datas (release_stubbornness dt w) = datas w
  /\ context (release_stubbornness dt w) = context w
  /\ worker (release_stubbornness dt w) = worker w
  /\ current_progress (release_stubbornness dt w) = current_progress w
  /\ observed (release_stubbornness dt w) = observed w.
Proof.
  unfold release_stubbornness. destruct (schedule_override dt) as [ov|]; [|auto 10].
  destruct (stubborn_overrides w !! stubborn ov) as [[so|]|]; cbn; auto 10.
Qed.

Lemma drop_task_owner_identifiers sid w :
  identifiers (drop_task_owner sid w) = identifiers w.
Proof.
  unfold drop_task_owner.
  now destruct (stubborn_overrides w !! sid) as [[so|]|].
Qed.

Lemma be_stubborn_identifiers sid w :
  identifiers (be_stubborn sid w) = identifiers w.
Proof.
  unfold be_stubborn. now destruct (stubborn_overrides w !! sid) as [[so|]|].
Qed.

Lemma update_fn_ext w w' i :
  identifiers w' = identifiers w -> update_fn w' i = update_fn w i.
Proof. unfold update_fn. now intros ->. Qed.

Lemma update_fn_clear_inert w i j :
  update_fn w j = None -> update_fn (clear_update_fn i w) j = None.
Proof.
  intros H. destruct (decide (i = j)) as [->|Hne].
  - apply update_fn_clear.
  - now rewrite update_fn_clear_ne.
Qed.

Lemma inert_update_fn w j : inert w j -> update_fn w j = None.
Proof. unfold inert, update_fn. now intros ->. Qed.

Lemma inert_grows w w' ext j :
  identifiers w' = identifiers w ++ ext -> inert w j -> inert w' j.
Proof.
  unfold inert. intros -> H. now apply lookup_app_l_Some.
Qed.

Lemma inert_ext w w' j :
  identifiers w' = identifiers w -> inert w j -> inert w' j.
Proof. unfold inert. now intros ->. Qed.

Lemma inert_clear w i j : inert w j -> inert (clear_update_fn i w) j.
Proof.
  unfold inert, clear_update_fn. cbn [identifiers with_identifiers].
  intros H. destruct (decide (i = j)) as [->|Hne].
  - apply list_lookup_insert_eq. eapply lookup_lt_Some. exact H.
  - now rewrite list_lookup_insert_ne.
Qed.

Lemma live_clear w i dk :
  update_fn w i = Some dk -> inert (clear_update_fn i w) i.
Proof.
  unfold update_fn, inert, clear_update_fn.
  cbn [identifiers with_identifiers].
  destruct (identifiers w !! i) as [f|] eqn:E; [|discriminate]. intros _.
  apply list_lookup_insert_eq. eapply lookup_lt_Some. exact E.
Qed.

(** [follow_new_path] makes new identifiers and leaves the others. *)
Lemma decompose_identifiers g wps fuel :
  forall initial_map i0 i1 queue w q w',
  decompose fuel g wps initial_map i0 i1 queue w = Ok (q, w') ->
  exists ext, identifiers w' = identifiers w ++ ext.
Proof.
  induction fuel as [|fuel IH]; intros initial_map i0 i1 queue w q w';
    cbn [decompose]; destruct (i1 <? size wps);
    try discriminate;
    try (intros [= <- <-]; exists []; now rewrite app_nil_r).
  repeat match goal with
         | |- obind ?m _ = _ -> _ =>
             destruct m as [?|?]; cbn [obind]; [|discriminate]
         end.
  match goal with
  | t : (Vector3d * Z * bool)%type |- _ => destruct t as [[tp ti] sk]
  end.
  unfold make_command. intros H. apply IH in H. destruct H as [ext H].
  cbn [identifiers with_identifiers with_datas] in H.
  rewrite <- app_assoc in H. eexists. exact H.
Qed.

Lemma follow_new_path_identifiers wps e c w w' :
  follow_new_path wps e c w = Ok w' ->
  exists ext, identifiers w' = identifiers w ++ ext.
Proof.
  unfold follow_new_path.
  destruct (negb (context_alive w));
    [intros [= <-]; exists []; now rewrite app_nil_r|].
  destruct ((size wps =? 0) || negb e || negb c);
    [intros [= <-]; exists []; cbn; now rewrite app_nil_r|].
  destruct (planner (context w)) as [pl|];
    [|intros [= <-]; exists []; cbn; now rewrite app_nil_r].
  destruct (find_initial_map (graph pl) wps) as [[initial_map|]|];
    cbn [obind];
    [|intros [= <-]; exists []; cbn; now rewrite app_nil_r|discriminate].
  destruct (find_connection (location (context w)) 0 wps (false, 0))
    as [found i0].
  destruct (negb found);
    [intros [= <-]; exists []; cbn; now rewrite app_nil_r|].
  match goal with
  | |- obind ?m _ = _ -> _ => destruct m as [[q w1]|] eqn:Hdec; cbn [obind];
                              [|discriminate]
  end.
  intros [= <-]. apply decompose_identifiers in Hdec.
  destruct Hdec as [ext Hext]. exists ext.
  destruct (next_frame (make_tracker q w1)) as (-> & _). exact Hext.
Qed.

Section Inert.

Variable compute_plan_starts :
  Graph -> string -> Vector3d -> Time -> float -> float -> float -> StartSet.
Variable from_seconds : float -> Duration.
Variable to_seconds : Duration -> float.
Variable interpolate_positions :
  VehicleTraits -> Time -> list Vector3d -> list TrajectoryWaypoint.

Lemma run_finish_inert d i fin w w' j :
  inert w j -> run_finish d i fin w = Ok w' -> inert w' j.
Proof.
  intros Hj. unfold run_finish. destruct (update_fn w i); [|congruence].
  destruct (at_ (datas (clear_update_fn i w)) d) as [dt|]; cbn [obind];
    [|discriminate].
  destruct (schedule_override dt).
  - intros [= <-]. apply (inert_ext (clear_update_fn i w));
      [|now apply inert_clear].
    cbn [identifiers with_context]. apply release_stubbornness_frame.
  - destruct fin as [tid|]; [|discriminate]. intros [= <-].
    apply (inert_ext (clear_update_fn i w)); [|now apply inert_clear].
    apply call_finisher_frame.
Qed.

Lemma run_override_identifiers sid d i map_name path w w' :
  run_override interpolate_positions sid d i map_name path w = Ok w' ->
  identifiers w' = identifiers w.
Proof.
  unfold run_override. destruct (update_fn w i).
  - destruct (planner (context w)) as [pl|]; cbn [obind].
    + destruct (at_ (datas w) d) as [dt|]; cbn [obind]; [|discriminate].
      intros [= <-]. rewrite drop_task_owner_identifiers, be_stubborn_identifiers.
      cbn [identifiers with_datas with_context].
      apply release_stubbornness_frame.
    + intros [= <-]. now rewrite drop_task_owner_identifiers.
  - cbn [obind]. intros [= <-]. now rewrite drop_task_owner_identifiers.
Qed.

Lemma run_update_position_identifiers map_name position act w w' :
  run_update_position compute_plan_starts from_seconds to_seconds
    map_name position act w = Ok w' ->
  identifiers w' = identifiers w.
Proof.
  unfold run_update_position. destruct act as [i|].
  - destruct (update_fn w i) as [dk|]; [|discriminate].
    destruct (context_alive w); [|now intros [= <-]].
    destruct (at_ (datas w) dk) as [dt|]; cbn [obind]; [|discriminate].
    destruct (update_location _ _ _ _ _ _ _); cbn [obind]; [|discriminate].
    now intros [= <-].
  - destruct (planner (context w)); now intros [= <-].
Qed.

(** A cleared update function stays cleared, whatever happens. *)
Lemma step_inert e w w' j :
  inert w j ->
  step compute_plan_starts from_seconds to_seconds interpolate_positions e w
  = Ok w' ->
  inert w' j.
Proof.
  intros Hj. destruct e; cbn [step].
  - unfold run_worker. destruct (worker w) as [|t q]; [now intros [= <-]|].
    destruct t; cbn [run_task].
    + now apply run_finish_inert.
    + intros H. apply run_override_identifiers in H.
      now apply (inert_ext (with_worker q w)).
    + intros H. apply run_update_position_identifiers in H.
      now apply (inert_ext (with_worker q w)).
  - intros [= <-]. apply (inert_ext w); [|exact Hj].
    apply api_call_identifiers.
  - intros [= <-]. apply (inert_ext w); [|exact Hj].
    unfold release. now destruct (stubborn_overrides w !! sid) as [[so|]|].
  - intros [= <-]. exact Hj.
  - intros [= <-]. unfold stop. destruct (current_progress w) as [tr|]; [|exact Hj].
    destruct (current_identifier tr) as [i|]; [|exact Hj].
    apply (inert_ext (clear_update_fn i w)); [reflexivity|].
    now apply inert_clear.
  - intros H. apply follow_new_path_identifiers in H. destruct H as [ext H].
    now apply (inert_grows w w' ext).
Qed.

Lemma steps_inert es :
  forall w w' j,
  inert w j ->
  steps compute_plan_starts from_seconds to_seconds interpolate_positions es w
  = Ok w' ->
  inert w' j.
Proof.
  induction es as [|e rest IH]; intros w w' j Hj; cbn [steps].
  - now intros [= <-].
  - destruct (step _ _ _ _ e w) as [w1|] eqn:Hstep; cbn [obind]; [|discriminate].
    intros H. eapply IH; [|exact H]. eapply step_inert; eassumption.
Qed.



End Inert.

(* ================================================================== *)
(** ** Stubbornness *)

Lemma is_stubborn_false_iff w :
  is_stubborn w = false
  <-> forall sid so, stubborn_overrides w !! sid = Some (Some so) ->
                     stubbornness so = false.
Proof.
  unfold is_stubborn. split.
  - intros H sid so Hso.
    destruct (stubbornness so) eqn:E; [|reflexivity].
    assert (Hex : existsb holds_token (stubborn_overrides w) = true).
    { apply existsb_exists. exists (Some so). split; [|exact E].
      apply list_elem_of_In. eapply list_elem_of_lookup_2. exact Hso. }
    congruence.
  - intros H. apply not_true_is_false. intros Hex.
    apply existsb_exists in Hex. destruct Hex as [[so|] [Hin Htok]];
      [|discriminate].
    apply list_elem_of_In, list_elem_of_lookup_1 in Hin. destruct Hin as [sid Hsid].
    cbn [holds_token] in Htok. rewrite (H sid so Hsid) in Htok. discriminate.
Qed.

Lemma release_stubbornness_lookup dt ov w sid :
  schedule_override dt = Some ov ->
  stubborn_overrides (release_stubbornness dt w) !! sid
  = if decide (sid = stubborn ov) then
      match stubborn_overrides w !! sid with
      | Some (Some so) =>
          Some (Some (mkStubborn false (held_by_handle so) (held_by_task so)))
      | o => o
      end
    else stubborn_overrides w !! sid.
Proof.
  intros Hov. unfold release_stubbornness. rewrite Hov.
  destruct (decide (sid = stubborn ov)) as [->|Hne].
  - destruct (stubborn_overrides w !! stubborn ov) as [[so|]|] eqn:E;
      cbn [stubborn_overrides with_stubborn_overrides]; rewrite ?E; try reflexivity.
    rewrite list_lookup_insert_eq; [reflexivity|].
    eapply lookup_lt_Some. exact E.
  - destruct (stubborn_overrides w !! stubborn ov) as [[so|]|];
      cbn [stubborn_overrides with_stubborn_overrides]; try reflexivity.
    now rewrite list_lookup_insert_ne.
Qed.

Lemma release_stubbornness_idempotent dt w :
  release_stubbornness dt (release_stubbornness dt w)
  = release_stubbornness dt w.
Proof.
  unfold release_stubbornness at 1.
  destruct (schedule_override dt) as [ov|] eqn:Hov; [|reflexivity].
  rewrite (release_stubbornness_lookup dt ov w _ Hov).
  rewrite decide_True by reflexivity.
  destruct (stubborn_overrides w !! stubborn ov) as [[so|]|] eqn:E;
    try reflexivity.
  unfold release_stubbornness. rewrite Hov, E.
  cbn [stubborn_overrides with_stubborn_overrides held_by_handle held_by_task].
  rewrite list_insert_insert_eq. destruct w; reflexivity.
Qed.

Lemma release_lookup sid' w sid :
  stubborn_overrides (release sid' w) !! sid
  = if decide (sid = sid') then
      match stubborn_overrides w !! sid with
      | Some (Some so) =>
          Some (settle (mkStubborn (stubbornness so) false (held_by_task so)))
      | o => o
      end
    else stubborn_overrides w !! sid.
Proof.
  unfold release. destruct (decide (sid = sid')) as [->|Hne].
  - destruct (stubborn_overrides w !! sid') as [[so|]|] eqn:E;
      cbn [stubborn_overrides with_stubborn_overrides]; rewrite ?E; try reflexivity.
    rewrite list_lookup_insert_eq; [reflexivity|].
    eapply lookup_lt_Some. exact E.
  - destruct (stubborn_overrides w !! sid') as [[so|]|];
      cbn [stubborn_overrides with_stubborn_overrides]; try reflexivity.
    now rewrite list_lookup_insert_ne.
Qed.

Lemma release_idempotent sid w : release sid (release sid w) = release sid w.
Proof.
  unfold release at 1. rewrite release_lookup, decide_True by reflexivity.
  destruct (stubborn_overrides w !! sid) as [[so|]|] eqn:E; try reflexivity.
  unfold settle. cbn [held_by_handle held_by_task stubbornness orb].
  destruct (held_by_task so) eqn:Ht; [|reflexivity].
  unfold release. rewrite E. unfold settle.
  cbn [held_by_handle held_by_task stubbornness orb
       stubborn_overrides with_stubborn_overrides]. rewrite Ht.
  rewrite list_insert_insert_eq. destruct w; reflexivity.
Qed.

(** Releasing the handle never makes the robot stubborn. *)
Lemma release_keeps_not_stubborn sid w :
  is_stubborn w = false -> is_stubborn (release sid w) = false.
Proof.
  rewrite !is_stubborn_false_iff. intros H sid' so.
  rewrite release_lookup. destruct (decide (sid' = sid)) as [->|Hne]; [|apply H].
  destruct (stubborn_overrides w !! sid) as [[so0|]|] eqn:E; try discriminate.
  unfold settle. cbn [held_by_handle held_by_task orb].
  destruct (held_by_task so0); [|discriminate].
  intros [= <-]. cbn [stubbornness]. now apply (H sid).
Qed.

Lemma release_stubbornness_with_context dt c w :
  release_stubbornness dt (with_context c w)
  = with_context c (release_stubbornness dt w).
Proof.
  unfold release_stubbornness. destruct (schedule_override dt) as [ov|];
    [|reflexivity].
  cbn [stubborn_overrides with_context].
  now destruct (stubborn_overrides w !! stubborn ov) as [[so|]|].
Qed.

(** When a live command with a schedule override finishes, the
    stubbornness that the override installed is released, also while the
    caller still holds the handle: the [StubbornOverride] holds no token
    afterwards, and the robot is not stubborn unless another object holds
    a token. If the caller had released the handle and the object is
    gone, finishing changes no stubbornness. Releasing again is harmless:
    a second automatic release changes nothing, and an explicit release
    leaves the robot not stubborn and is itself idempotent. *)
Lemma finish_releases_stubbornness d i fin w dk dt ov :
  update_fn w i = Some dk ->
  datas w !! d = Some dt ->
  schedule_override dt = Some ov ->
  exists w1,
    run_finish d i fin w = Ok w1
    /\ (forall so, stubborn_overrides w1 !! stubborn ov = Some (Some so) ->
                   stubbornness so = false)
    /\ ((forall sid so, sid <> stubborn ov ->
           stubborn_overrides w !! sid = Some (Some so) ->
           stubbornness so = false) ->
        is_stubborn w1 = false)
    /\ (stubborn_overrides w !! stubborn ov = Some None ->
        stubborn_overrides w1 = stubborn_overrides w)
    /\ release_stubbornness dt w1 = w1
    /\ (is_stubborn w1 = false ->
        is_stubborn (release (stubborn ov) w1) = false)
    /\ release (stubborn ov) (release (stubborn ov) w1)
       = release (stubborn ov) w1.
Proof.
  intros Hlive Hdata Hov.
  exists (with_context (request_replan (context w))
            (release_stubbornness dt (clear_update_fn i w))).
  split.
  { unfold run_finish. rewrite Hlive.
    cbn [datas clear_update_fn with_identifiers].
    rewrite (proj2 (at_Ok _ _ _) Hdata). cbn [obind]. rewrite Hov.
    do 2 f_equal. cbn [context with_context].
    destruct (release_stubbornness_frame dt (clear_update_fn i w))
      as (_ & _ & -> & _). reflexivity. }
  assert (Hlook : forall sid,
            stubborn_overrides
              (with_context (request_replan (context w))
                 (release_stubbornness dt (clear_update_fn i w))) !! sid
            = if decide (sid = stubborn ov) then
                match stubborn_overrides w !! sid with
                | Some (Some so) =>
                    Some (Some (mkStubborn false (held_by_handle so)
                                  (held_by_task so)))
                | o => o
                end
              else stubborn_overrides w !! sid).
  { intros sid. cbn [stubborn_overrides with_context].
    now rewrite (release_stubbornness_lookup dt ov _ sid Hov). }
  split.
  { intros so. rewrite Hlook, decide_True by reflexivity.
    destruct (stubborn_overrides w !! stubborn ov) as [[so0|]|];
      try discriminate. now intros [= <-]. }
  split.
  { intros Hothers. apply is_stubborn_false_iff. intros sid so.
    rewrite Hlook. destruct (decide (sid = stubborn ov)) as [->|Hne].
    - destruct (stubborn_overrides w !! stubborn ov) as [[so0|]|];
        try discriminate. now intros [= <-].
    - now apply Hothers. }
  split.
  { intros Hgone. cbn [stubborn_overrides with_context].
    unfold release_stubbornness. rewrite Hov.
    cbn [stubborn_overrides clear_update_fn with_identifiers].
    now rewrite Hgone. }
  split.
  { rewrite release_stubbornness_with_context.
    now rewrite release_stubbornness_idempotent. }
  split; [apply release_keeps_not_stubborn|apply release_idempotent].
Qed.
(* ------------------------------------------------------------------ *)
(** *** A command that is stopped while it overrides the schedule *)

Section StoppedOverride.

Variable compute_plan_starts :
  Graph -> string -> Vector3d -> Time -> float -> float -> float -> StartSet.
Variable from_seconds : float -> Duration.
Variable to_seconds : Duration -> float.
Variable interpolate_positions :
  VehicleTraits -> Time -> list Vector3d -> list TrajectoryWaypoint.

(** C4, at the failing inputs. The current command is live, its schedule
    override is installed and its stubbornness object holds the token,
    so the robot is stubborn; then the adapter calls [stop()]. However
    often the integrator calls [finished()] on the command afterwards
    and however long the worker runs, every task of [finished()]
    returns at its first test: the command's data keep the override, the
    stubbornness object keeps its token and the robot stays stubborn,
    and no replan is requested. *)
Theorem stop_leaves_the_override_stubborn cmd w tr dt ov so :
  current_progress w = Some tr ->
  current_identifier tr = Some (identifier cmd) ->
  update_fn w (identifier cmd) = Some (data cmd) ->
  datas w !! data cmd = Some dt ->
  schedule_override dt = Some ov ->
  stubborn_overrides w !! stubborn ov = Some (Some so) ->
  stubbornness so = true ->
  Forall (fun t => t = FinishTask (data cmd) (identifier cmd) (finisher cmd))
    (worker w) ->
  is_stubborn w = true
  /\ forall es,
       Forall (finishing cmd) es ->
       exists w',
         steps compute_plan_starts from_seconds to_seconds
           interpolate_positions es (stop w) = Ok w'
         /\ okay w' cmd = false
         /\ datas w' = datas w
         /\ stubborn_overrides w' = stubborn_overrides w
         /\ is_stubborn w' = true
         /\ context w' = context w.
Proof.
  intros Hp Hi Hlive Hdata Hov Hso Htoken Hwork.
  assert (Hst : forall w', stubborn_overrides w' = stubborn_overrides w ->
                           is_stubborn w' = true).
  { intros w' E. unfold is_stubborn. rewrite E. apply existsb_exists.
    exists (Some so). split; [|exact Htoken].
    apply list_elem_of_In. eapply list_elem_of_lookup_2. exact Hso. }
  split; [now apply Hst|].
  assert (Hstop : stop w
                  = observe (StopRequested (identifier cmd))
                      (with_progress None (clear_update_fn (identifier cmd) w))).
  { unfold stop. now rewrite Hp, Hi. }
  assert (Hgen : forall es w1,
            Forall (finishing cmd) es ->
            inert w1 (identifier cmd) ->
            datas w1 = datas w ->
            stubborn_overrides w1 = stubborn_overrides w ->
            context w1 = context w ->
            Forall (fun t => t = FinishTask (data cmd) (identifier cmd)
                                   (finisher cmd)) (worker w1) ->
            exists w',
              steps compute_plan_starts from_seconds to_seconds
                interpolate_positions es w1 = Ok w'
              /\ okay w' cmd = false
              /\ datas w' = datas w
              /\ stubborn_overrides w' = stubborn_overrides w
              /\ is_stubborn w' = true
              /\ context w' = context w).
  { induction es as [|e rest IH]; intros w1 Hes Hinert Hd Hs Hc Hw;
      cbn [steps].
    - exists w1. split; [reflexivity|]. unfold okay.
      rewrite (inert_update_fn _ _ Hinert). repeat split; auto.
    - inversion Hes as [|? ? [->| ->] Hrest]; subst; cbn [step].
      + unfold run_worker. destruct (worker w1) as [|t q] eqn:Eq.
        * cbn [obind]. apply IH; auto. now rewrite Eq.
        * inversion Hw as [|? ? -> Hq]; subst. cbn [run_task].
          unfold run_finish.
          replace (update_fn (with_worker q w1) (identifier cmd))
            with (update_fn w1 (identifier cmd)) by reflexivity.
          rewrite (inert_update_fn _ _ Hinert). cbn [obind].
          apply IH; auto.
      + cbn [obind api_call]. apply IH; auto.
        * unfold finish. destruct (context_alive w1); [|exact Hinert].
          exact Hinert.
        * unfold finish. now destruct (context_alive w1).
        * unfold finish. now destruct (context_alive w1).
        * unfold finish. now destruct (context_alive w1).
        * unfold finish. destruct (context_alive w1); [|exact Hw].
          unfold schedule. cbn [worker with_worker].
          apply Forall_app. split; [exact Hw|]. now constructor. }
  intros es Hes. rewrite Hstop. apply Hgen; auto.
  apply (inert_ext (clear_update_fn (identifier cmd) w)); [reflexivity|].
  now apply (live_clear w _ (data cmd)).
Qed.

End StoppedOverride.


(* ================================================================== *)
(** ** The progress tracker *)


Lemma finishing_script_frame cmd script :
  forall w,
  context_alive w = true ->
  Forall (fun a => a = CallFinished) script ->
  let w' := fold_left (fun w1 c => api_call cmd c w1) script w in
  worker w'
  = worker w ++ repeat (FinishTask (data cmd) (identifier cmd) (finisher cmd))
                  (length script)
  /\ identifiers w' = identifiers w
  /\ datas w' = datas w
  /\ context_alive w' = true
  /\ current_progress w' = current_progress w
  /\ observed w' = observed w
  /\ handle_nav_request w' = handle_nav_request w
  /\ handle_dock w' = handle_dock w.
Proof.
  induction script as [|a rest IH]; intros w Ha Hall; cbn [fold_left length repeat].
  - rewrite app_nil_r. auto 10.
  - inversion Hall as [|? ? -> Hrest]; subst.
    assert (Hf : api_call cmd CallFinished w
                 = schedule (FinishTask (data cmd) (identifier cmd)
                               (finisher cmd)) w).
    { unfold api_call, finish. now rewrite Ha. }
    rewrite Hf.
    specialize (IH (schedule (FinishTask (data cmd) (identifier cmd)
                                (finisher cmd)) w) Ha Hrest).
    cbv zeta in IH. destruct IH as (K1 & K2 & K3 & K4 & K5 & K6 & K7 & K8).
    cbv zeta. rewrite K1, K2, K3, K4, K5, K6, K7, K8.
    cbn [worker schedule with_worker]. rewrite <- app_assoc.
    cbn [app]. auto 10.
Qed.

Lemma last_rev_cons {A} (c : A) (l : list A) : last (rev (c :: l)) = Some c.
Proof. cbn [rev]. apply last_snoc. Qed.

Lemma removelast_rev_cons {A} (c : A) (l : list A) :
  removelast (rev (c :: l)) = rev l.
Proof. cbn [rev]. apply removelast_last. Qed.

(** [next] when a command is left: it is popped, made current and begun. *)
Lemma next_begins tid c todo cur trig cb w :
  current_progress w = Some (mkTracker tid (rev (c :: todo)) cur trig) ->
  context_alive w = true ->
  begin c = Some cb ->
  Forall (fun a => a = CallFinished) (script_of w cb) ->
  current_progress (next w)
  = Some (mkTracker tid (rev todo) (Some (identifier c)) trig)
  /\ observed (next w) = begin_of c :: observed w
  /\ worker (next w)
     = worker w ++ repeat (finish_task tid c) (length (script_of w cb))
  /\ identifiers (next w) = identifiers w
  /\ datas (next w) = datas w
  /\ context_alive (next w) = true
  /\ handle_nav_request (next w) = handle_nav_request w
  /\ handle_dock (next w) = handle_dock w.
Proof.
  intros Hcur Ha Hb Hscript. unfold next. rewrite Hcur.
  cbn [reverse_queue tracker_id finished].
  rewrite last_rev_cons, removelast_rev_cons, Hb. unfold invoke_begin.
  match goal with
  | |- context [fold_left ?f ?s ?w1] =>
      pose proof (finishing_script_frame
                    (mkCommand (data c) (Some cb) (Some tid) (identifier c))
                    s w1) as H;
      change s with (script_of w cb) in *
  end.
  cbv zeta in H. specialize (H Ha Hscript).
  destruct H as (K1 & K2 & K3 & K4 & K5 & K6 & K7 & K8).
  rewrite K1, K2, K3, K4, K5, K6, K7, K8. cbn. auto 10.
Qed.

(** [next] on an empty queue: the completion is triggered, once. *)
Lemma next_completes tid cur w :
  current_progress w = Some (mkTracker tid [] cur (mkTrigger false)) ->
  current_progress (next w) = Some (mkTracker tid [] None (mkTrigger true))
  /\ observed (next w) = PathFinished tid :: observed w
  /\ worker (next w) = worker w
  /\ identifiers (next w) = identifiers w
  /\ datas (next w) = datas w
  /\ context_alive (next w) = context_alive w
  /\ handle_nav_request (next w) = handle_nav_request w
  /\ handle_dock (next w) = handle_dock w.
Proof.
  intros Hcur. unfold next. rewrite Hcur. cbn. auto 10.
Qed.

Lemma NoDup_map_same {A B} (f : A -> B) (l : list A) (a b : A) :
  NoDup (map f l) -> In a l -> In b l -> f a = f b -> a = b.
Proof.
  induction l as [|x l IH]; intros Hnd Ha Hb Hf; [destruct Ha|].
  cbn [map] in Hnd. apply NoDup_cons in Hnd. destruct Hnd as [Hx Hnd].
  destruct Ha as [->|Ha], Hb as [->|Hb].
  - reflexivity.
  - exfalso. apply Hx. rewrite Hf. apply list_elem_of_In. now apply in_map.
  - exfalso. apply Hx. rewrite <- Hf. apply list_elem_of_In. now apply in_map.
  - now apply IH.
Qed.

Section TrackerFacts.

Variable compute_plan_starts :
  Graph -> string -> Vector3d -> Time -> float -> float -> float -> StartSet.
Variable from_seconds : float -> Duration.
Variable to_seconds : Duration -> float.
Variable interpolate_positions :
  VehicleTraits -> Time -> list Vector3d -> list TrajectoryWaypoint.

Variable queue : list CommandExecution.
Variable w0 : World.

Hypothesis Halive : context_alive w0 = true.
Hypothesis Hpending :
  Forall (fun t => is_report t \/ is_stale (next_tracker w0) queue t)
    (worker w0).
Hypothesis Hdistinct : NoDup (map identifier queue).
Hypothesis Hcmds : Forall (finishing_command w0) queue.
Hypothesis Hfresh : Forall (fun c => ~ In (begin_of c) (observed w0)) queue.

Let tid := next_tracker w0.

Lemma queue_command c :
  In c queue -> finishing_command w0 c.
Proof.
  intros Hin. rewrite Forall_forall in Hcmds. now apply Hcmds, list_elem_of_In.
Qed.

Lemma script_stable w cb :
  stable w0 w -> script_of w cb = script_of w0 cb.
Proof.
  intros (_ & _ & Hn & Hd). unfold script_of. now rewrite Hn, Hd.
Qed.

Lemma list_sum_rev (l : list nat) : list_sum (rev l) = list_sum l.
Proof.
  induction l as [|x l IH]; [reflexivity|].
  cbn [rev]. rewrite list_sum_app, IH. simpl. lia.
Qed.

Lemma identifier_not_later done cur todo c :
  queue = done ++ cur :: todo -> In c todo ->
  identifier c <> identifier cur.
Proof.
  intros Hq Hin Heq. rewrite Hq, map_app in Hdistinct. cbn [map] in Hdistinct.
  apply NoDup_app in Hdistinct. destruct Hdistinct as (_ & _ & Hnd).
  apply NoDup_cons in Hnd. destruct Hnd as [Hcur _]. apply Hcur.
  rewrite <- Heq. apply list_elem_of_In. now apply in_map.
Qed.

Lemma identifier_not_earlier done cur todo c :
  queue = done ++ cur :: todo -> In c done ->
  identifier c <> identifier cur.
Proof.
  intros Hq Hin Heq. rewrite Hq, map_app in Hdistinct. cbn [map] in Hdistinct.
  apply NoDup_app in Hdistinct. destruct Hdistinct as (_ & Hsep & _).
  apply (Hsep (identifier c)).
  - apply list_elem_of_In. now apply in_map.
  - rewrite Heq. left.
Qed.

Lemma tracker_task_mono (cs cs' : list CommandExecution) t :
  (forall c, In c cs -> In c cs') ->
  tracker_task tid queue cs t -> tracker_task tid queue cs' t.
Proof.
  intros Hsub [H|[H|(c & Hc & ->)]]; [now left|right; now left|].
  right. right. exists c. auto.
Qed.

(** A finish task wired to this tracker is neither a report nor stale. *)
Lemma finish_of_tracker_task cs t :
  is_finish_of tid t -> tracker_task tid queue cs t ->
  exists c, In c cs /\ t = finish_task tid c.
Proof.
  intros (c0 & ->) [(m & p & a & H)|[(d & i & tid' & H & _ & Hne)|H]].
  - discriminate H.
  - unfold finish_task in H. injection H as _ _ H. now destruct Hne.
  - exact H.
Qed.

(** What [phase] reads of the world. *)
Lemma phase_frame w w1 :
  phase queue w0 w ->
  current_progress w1 = current_progress w ->
  observed w1 = observed w ->
  (forall c, In c queue ->
     update_fn w1 (identifier c) = update_fn w (identifier c)) ->
  (forall cs, Forall (tracker_task tid queue cs) (worker w) ->
              Forall (tracker_task tid queue cs) (worker w1)) ->
  phase queue w0 w1.
Proof.
  intros Hph Hp Ho Hfn Hwk.
  destruct Hph as [done cur todo Hq Hcur Hobs Hdone Hlive Hwork
                  |Hcur Hobs Hdone Hwork].
  - apply (Running queue w0 w1 done cur todo); auto; try congruence.
    + intros c Hc. rewrite Hfn; [now apply Hdone|].
      rewrite Hq. apply in_or_app. now left.
    + intros c Hc. rewrite Hfn; [now apply Hlive|].
      rewrite Hq. apply in_or_app. now right.
  - apply Completed; auto; try congruence.
    intros c Hc. rewrite Hfn; auto.
Qed.

(** Advancing the tracker after the commands [done] with [todo] left. *)
Lemma advance done todo w cur :
  queue = done ++ todo ->
  stable w0 w ->
  current_progress w = Some (mkTracker tid (rev todo) cur (mkTrigger false)) ->
  observed w = rev (map begin_of done) ++ observed w0 ->
  (forall c, In c done -> update_fn w (identifier c) = None) ->
  (forall c, In c todo -> update_fn w (identifier c) <> None) ->
  Forall (tracker_task tid queue done) (worker w) ->
  stable w0 (next w) /\ phase queue w0 (next w)
  /\ work_left w0 (next w) = work_left w0 w
  /\ (Forall (finishes_in_begin w0) queue -> prompt queue w0 (next w))
  /\ (Forall (is_finish_of tid) (worker w) ->
      Forall (is_finish_of tid) (worker (next w))).
Proof.
  intros Hq (Ha & Hd & Hn & Hk) Hcur Hobs Hdone Htodo Hwork.
  destruct todo as [|c todo].
  - destruct (next_completes tid cur w Hcur)
      as (K1 & K2 & K3 & K4 & K5 & K6 & K7 & K8).
    rewrite app_nil_r in Hq. subst done.
    split; [unfold stable; rewrite K5, K6, K7, K8; auto|].
    split.
    { apply Completed; [exact K1|now rewrite K2, Hobs| |now rewrite K3].
      intros c Hin. rewrite (update_fn_ext w); [now apply Hdone|exact K4]. }
    split.
    { unfold work_left. now rewrite K1, K3, Hcur. }
    split; [|now rewrite K3].
    intros _ tr c. rewrite K1. intros [= <-]. discriminate.
  - assert (Hc : In c queue) by (rewrite Hq; apply in_or_app; right; now left).
    destruct (queue_command c Hc) as (_ & _ & cb & Hb & Hscript).
    assert (Hst : script_of w cb = script_of w0 cb)
      by (unfold script_of; now rewrite Hn, Hk).
    rewrite <- Hst in Hscript.
    destruct (next_begins tid c todo cur (mkTrigger false) cb w Hcur Ha Hb
                Hscript) as (K1 & K2 & K3 & K4 & K5 & K6 & K7 & K8).
    split; [unfold stable; rewrite K5, K6, K7, K8; auto|].
    split.
    { apply (Running queue w0 (next w) done c todo); [exact Hq|exact K1| | | |].
      - rewrite K2, Hobs, map_app, rev_app_distr. reflexivity.
      - intros c' Hin. rewrite (update_fn_ext w); [now apply Hdone|exact K4].
      - intros c' Hin. rewrite (update_fn_ext w); [now apply Htodo|exact K4].
      - rewrite K3. apply Forall_app. split.
        + eapply Forall_impl; [exact Hwork|]. intros t.
          apply tracker_task_mono. intros x Hx. apply in_or_app. now left.
        + apply Forall_forall. intros t Ht. apply list_elem_of_In in Ht.
          apply repeat_spec in Ht. right. right. exists c.
          split; [apply in_or_app; right; now left|exact Ht]. }
    split.
    { unfold work_left. rewrite K1, K3, Hcur, length_app, repeat_length.
      cbn [reverse_queue]. rewrite !map_rev, !list_sum_rev.
      cbn [map]. unfold script_length at 2. rewrite Hb, Hst. simpl list_sum. lia. }
    split.
    { intros Hsync tr c'. rewrite K1. intros [= <-]. cbn [current_identifier].
      intros [= Hid] Hc'.
      assert (c' = c) by (apply (NoDup_map_same identifier queue); auto).
      subst c'. rewrite K3. apply in_or_app. right.
      rewrite Forall_forall in Hsync.
      destruct (Hsync c (proj2 (list_elem_of_In _ _) Hc)) as (cb' & Hb' & Hne).
      assert (cb' = cb) by congruence. subst cb'. rewrite Hst.
      destruct (script_of w0 cb); [congruence|]. now left. }
    intros Hown. rewrite K3. apply Forall_app. split; [exact Hown|].
    apply Forall_forall. intros t Ht. apply list_elem_of_In in Ht.
    apply repeat_spec in Ht. now exists c.
Qed.

Lemma start_phase :
  stable w0 (next (make_tracker queue w0))
  /\ phase queue w0 (next (make_tracker queue w0))
  /\ (Forall (finishes_in_begin w0) queue ->
      prompt queue w0 (next (make_tracker queue w0)))
  /\ (worker w0 = [] ->
      Forall (is_finish_of tid) (worker (next (make_tracker queue w0)))).
Proof.
  assert (Hw : worker (make_tracker queue w0) = worker w0) by reflexivity.
  destruct (advance [] queue (make_tracker queue w0) None)
    as (H1 & H2 & _ & H4 & H5); try reflexivity; auto.
  - unfold stable. cbn. auto.
  - intros c [].
  - intros c Hin. apply (queue_command c Hin).
  - rewrite Hw. eapply Forall_impl; [exact Hpending|].
    intros t [Ht|Ht]; [now left|right; now left].
  - split; [exact H1|]. split; [exact H2|]. split; [exact H4|].
    intros Hidle. apply H5. rewrite Hw, Hidle. constructor.
Qed.

Lemma run_finish_inert_task c w :
  update_fn w (identifier c) = None ->
  run_task compute_plan_starts from_seconds to_seconds interpolate_positions
    (finish_task tid c) w = Ok w.
Proof.
  intros H. unfold finish_task. cbn [run_task]. unfold run_finish.
  now rewrite H.
Qed.

(** The worker runs one task of a tracker run. *)
Lemma run_worker_phase w :
  stable w0 w -> phase queue w0 w ->
  (forall t, head (worker w) = Some t -> is_finish_of tid t) ->
  exists w',
    run_worker compute_plan_starts from_seconds to_seconds
      interpolate_positions w = Ok w'
    /\ stable w0 w' /\ phase queue w0 w'
    /\ (worker w <> [] -> S (work_left w0 w') = work_left w0 w)
    /\ (Forall (finishes_in_begin w0) queue ->
        prompt queue w0 w -> prompt queue w0 w')
    /\ (Forall (is_finish_of tid) (worker w) ->
        Forall (is_finish_of tid) (worker w')).
Proof.
  intros Hst Hph Hhead. unfold run_worker.
  destruct (worker w) as [|t rest] eqn:Hw.
  { exists w. split; [reflexivity|]. split; [exact Hst|]. split; [exact Hph|].
    split; [intros H; now destruct H|]. rewrite Hw. auto. }
  specialize (Hhead t eq_refl).
  assert (Hown : Forall (is_finish_of tid) (t :: rest) ->
                 Forall (is_finish_of tid) rest)
    by (intros H; now inversion H).
  assert (Hlen : forall w1, worker w1 = rest ->
            current_progress w1 = current_progress w ->
            S (work_left w0 w1) = work_left w0 w).
  { intros w1 H1 H2. unfold work_left. rewrite H1, H2, Hw. reflexivity. }
  destruct Hst as (Ha & Hd & Hn & Hk).
  assert (Hst1 : stable w0 (with_worker rest w)) by (unfold stable; auto).
  destruct Hph as [done cur todo Hq Hcur Hobs Hdone Hlive Hwork
                  |Hcur Hobs Hdone Hwork].
  - rewrite Hw in Hwork. apply Forall_cons in Hwork.
    destruct Hwork as [Ht Hrest].
    destruct (finish_of_tracker_task _ t Hhead Ht) as (c & Hc & ->).
    destruct (update_fn w (identifier c)) as [dk|] eqn:Hfn.
    + (* the current command finishes *)
      assert (c = cur).
      { apply in_app_or in Hc. destruct Hc as [Hc|[<-|[]]]; [|reflexivity].
        rewrite (Hdone c Hc) in Hfn. discriminate. }
      subst c.
      assert (Hcq : In cur queue)
        by (rewrite Hq; apply in_or_app; right; now left).
      destruct (queue_command cur Hcq) as (_ & (dt & Hdt & Hno) & _).
      unfold finish_task. cbn [run_task]. unfold run_finish.
      change (update_fn (with_worker rest w) (identifier cur))
        with (update_fn w (identifier cur)). rewrite Hfn.
      cbn [datas clear_update_fn with_identifiers with_worker].
      rewrite Hd, (proj2 (at_Ok _ _ _) Hdt). cbn [obind]. rewrite Hno.
      unfold call_finisher.
      cbn [current_progress clear_update_fn with_identifiers with_worker].
      rewrite Hcur. cbn [tracker_id]. fold tid. rewrite Nat.eqb_refl.
      destruct (advance (done ++ [cur]) todo
                  (clear_update_fn (identifier cur) (with_worker rest w))
                  (Some (identifier cur))) as (H1 & H2 & H3 & H4 & H5).
      * now rewrite <- app_assoc.
      * unfold stable. cbn. auto.
      * exact Hcur.
      * exact Hobs.
      * intros c Hin. apply in_app_or in Hin. destruct Hin as [Hin|[<-|[]]].
        -- apply update_fn_clear_inert. now apply Hdone.
        -- apply update_fn_clear.
      * intros c Hin. rewrite update_fn_clear_ne.
        -- apply Hlive. now right.
        -- intros E. now apply (identifier_not_later done cur todo c Hq Hin).
      * exact Hrest.
      * eexists. split; [reflexivity|]. split; [exact H1|]. split; [exact H2|].
        split; [intros _; rewrite H3; now apply Hlen|].
        split; [intros Hs _; now apply H4|].
        intros Hall. apply H5, Hown, Hall.
    + (* a stale task of a command that has finished *)
      rewrite run_finish_inert_task by exact Hfn.
      eexists. split; [reflexivity|]. split; [exact Hst1|].
      split; [now apply (Running queue w0 _ done cur todo)|].
      split; [intros _; now apply Hlen|].
      split; [|exact Hown].
      intros _ Hp tr c' Htr Hid Hc'.
      specialize (Hp tr c' Htr Hid Hc'). rewrite Hw in Hp.
      destruct Hp as [Hp|Hp]; [|exact Hp].
      exfalso. unfold finish_task in Hp. injection Hp as _ Hi.
      cbn [current_progress with_worker] in Htr. rewrite Hcur in Htr.
      injection Htr as <-. cbn [current_identifier] in Hid.
      injection Hid as Hid. apply (Hlive cur); [now left|].
      now rewrite Hid, <- Hi.
  - rewrite Hw in Hwork. apply Forall_cons in Hwork.
    destruct Hwork as [Ht Hrest].
    destruct (finish_of_tracker_task _ t Hhead Ht) as (c & Hc & ->).
    rewrite run_finish_inert_task by now apply Hdone.
    eexists. split; [reflexivity|]. split; [exact Hst1|].
    split; [now apply Completed|].
    split; [intros _; now apply Hlen|].
    split; [|exact Hown].
    intros _ _ tr c' Htr. cbn [current_progress with_worker] in Htr.
    rewrite Hcur in Htr. injection Htr as <-. discriminate.
Qed.

(** The worker runs a position report or the [finished()] of a command
    of an earlier path. *)
Lemma run_other_phase w w' t rest :
  stable w0 w -> phase queue w0 w ->
  worker w = t :: rest ->
  is_report t \/ is_stale tid queue t ->
  run_worker compute_plan_starts from_seconds to_seconds
    interpolate_positions w = Ok w' ->
  stable w0 w' /\ phase queue w0 w'.
Proof.
  intros (Ha & Hd & Hn & Hk) Hph Hw Ht. unfold run_worker. rewrite Hw.
  assert (Hph1 : phase queue w0 (with_worker rest w)).
  { apply (phase_frame w); auto. intros cs. rewrite Hw. cbn [worker with_worker].
    intros H. now inversion H. }
  assert (Hst1 : stable w0 (with_worker rest w)) by (unfold stable; auto).
  set (w1 := with_worker rest w) in *.
  destruct Ht as [(m & p & a & ->)|(d & i & tid' & -> & Hi & Hne)];
    cbn [run_task].
  - assert (Hc : forall c, stable w0 (with_context c w1)
                           /\ phase queue w0 (with_context c w1)).
    { intros c. split; [exact Hst1|]. apply (phase_frame w1); auto. }
    unfold run_update_position. destruct a as [i|].
    + destruct (update_fn w1 i) as [dk|]; [|discriminate].
      destruct (context_alive w1); [|intros [= <-]; now split].
      destruct (at_ _ dk) as [dt|]; cbn [obind]; [|discriminate].
      destruct (update_location _ _ _ _ _ _ _) as [c|]; cbn [obind];
        [|discriminate].
      intros [= <-]. apply Hc.
    + destruct (planner (context w1)); intros [= <-]; [now split|apply Hc].
  - assert (Hclear : forall c, In c queue ->
              update_fn (clear_update_fn i w1) (identifier c)
              = update_fn w1 (identifier c)).
    { intros c Hc. apply update_fn_clear_ne. intros ->. apply Hi.
      now apply in_map. }
    assert (Hph2 : phase queue w0 (clear_update_fn i w1))
      by (apply (phase_frame w1); auto).
    unfold run_finish. destruct (update_fn w1 i) as [dk|];
      [|intros [= <-]; now split].
    destruct (at_ _ d) as [dt|]; cbn [obind]; [|discriminate].
    destruct (schedule_override dt) as [ov|].
    + intros [= <-]. split; [|apply (phase_frame (clear_update_fn i w1)); auto].
      * unfold release_stubbornness.
        destruct (schedule_override dt) as [ov'|]; [|exact Hst1].
        destruct (stubborn_overrides _ !! stubborn ov') as [[so|]|];
          exact Hst1.
      * cbn [current_progress with_context].
        apply (release_stubbornness_frame dt (clear_update_fn i w1)).
      * cbn [observed with_context].
        apply (release_stubbornness_frame dt (clear_update_fn i w1)).
      * intros c Hc. apply update_fn_ext. cbn [identifiers with_context].
        apply (release_stubbornness_frame dt (clear_update_fn i w1)).
      * intros cs. cbn [worker with_context].
        now rewrite (proj1 (proj2 (proj2 (proj2
                      (release_stubbornness_frame dt (clear_update_fn i w1)))))).
    + intros [= <-]. unfold call_finisher.
      assert (Hid : exists tr, current_progress (clear_update_fn i w1) = Some tr
                               /\ tracker_id tr = tid).
      { destruct Hph2 as [done cur todo _ Hcur _ _ _ _|Hcur _ _ _];
          rewrite Hcur; eexists; split; reflexivity. }
      destruct Hid as (tr & -> & Hid). rewrite Hid.
      destruct (Nat.eqb_spec tid tid') as [E|_]; [now destruct Hne|].
      split; [exact Hst1|exact Hph2].
Qed.

(** The integrator calls [finished()] on an execution that was begun. *)
Lemma finished_phase w c :
  stable w0 w -> phase queue w0 w ->
  In c queue -> In (begin_of c) (observed w) ->
  stable w0 (finish (wired tid c) w)
  /\ phase queue w0 (finish (wired tid c) w).
Proof.
  intros (Ha & Hd & Hn & Hk) Hph Hc Hbegun.
  unfold finish. rewrite Ha. cbn [wired data identifier finisher].
  split; [unfold stable; cbn; auto|].
  assert (Hnew : forall l, In c l ->
            tracker_task tid queue l (finish_task tid c))
    by (intros l Hl; right; right; now exists c).
  destruct Hph as [done cur todo Hq Hcur Hobs Hdone Hlive Hwork
                  |Hcur Hobs Hdone Hwork].
  - apply (Running queue w0 _ done cur todo); auto.
    cbn [worker schedule with_worker]. apply Forall_app. split; [exact Hwork|].
    apply Forall_cons. split; [|constructor]. apply Hnew.
    rewrite Hobs in Hbegun. apply in_app_or in Hbegun.
    destruct Hbegun as [Hb|Hb].
    + apply in_rev, in_map_iff in Hb. destruct Hb as (c' & Hid & Hin).
      assert (c' = c).
      { apply (NoDup_map_same identifier queue); auto.
        - rewrite Hq. apply in_app_or in Hin. apply in_or_app.
          destruct Hin as [Hin|[<-|[]]]; [now left|right; now left].
        - unfold begin_of in Hid. congruence. }
      now subst c'.
    + exfalso. rewrite Forall_forall in Hfresh.
      now apply (Hfresh c (proj2 (list_elem_of_In _ _) Hc)).
  - apply Completed; auto.
    cbn [worker schedule with_worker]. apply Forall_app. split; [exact Hwork|].
    apply Forall_cons. split; [|constructor]. now apply Hnew.
Qed.

(** The integrator makes a call that schedules the task [t], a report
    or the [finished()] of a command of an earlier path. *)
Lemma scheduled_phase w t :
  stable w0 w -> phase queue w0 w ->
  is_report t \/ is_stale tid queue t ->
  stable w0 (schedule t w) /\ phase queue w0 (schedule t w).
Proof.
  intros Hst Hph Ht. split; [exact Hst|].
  apply (phase_frame w); auto.
  intros cs Hwork. cbn [worker schedule with_worker]. apply Forall_app.
  split; [exact Hwork|]. apply Forall_cons. split; [|constructor].
  destruct Ht as [Ht|Ht]; [now left|right; now left].
Qed.

Lemma released_phase w sid :
  stable w0 w -> phase queue w0 w ->
  stable w0 (release sid w) /\ phase queue w0 (release sid w).
Proof.
  intros Hst Hph. unfold release.
  destruct (stubborn_overrides w !! sid) as [[so|]|]; try now split.
  split; [exact Hst|]. apply (phase_frame w); auto.
Qed.

Lemma tracker_run_phase w :
  tracker_run compute_plan_starts from_seconds to_seconds
    interpolate_positions queue w0 w ->
  stable w0 w /\ phase queue w0 w.
Proof.
  induction 1 as [|w w' Hrun [Hst Hph] Hstep|w c Hrun [Hst Hph] Hc Hb
                  |w c tid' Hrun [Hst Hph] Hc Hne|w m p a Hrun [Hst Hph]
                  |w sid Hrun [Hst Hph]].
  - destruct start_phase as (H1 & H2 & _). now split.
  - destruct (worker w) as [|t rest] eqn:Hw.
    { unfold run_worker in Hstep. rewrite Hw in Hstep.
      injection Hstep as <-. now split. }
    assert (Ht : exists cs, tracker_task tid queue cs t).
    { destruct Hph as [done cur todo _ _ _ _ _ Hwork|_ _ _ Hwork];
        rewrite Hw in Hwork; apply Forall_cons in Hwork;
        destruct Hwork as [Ht _]; eexists; exact Ht. }
    destruct Ht as (cs & [Ht|[Ht|(c & _ & ->)]]).
    + apply (run_other_phase w w' t rest); auto.
    + apply (run_other_phase w w' t rest); auto.
    + destruct (run_worker_phase w Hst Hph) as (w1 & Hw1 & H1 & H2 & _).
      { rewrite Hw. intros t [= <-]. now exists c. }
      assert (w1 = w') by congruence. subst w1. now split.
  - now apply finished_phase.
  - unfold finish. destruct Hst as (Ha & Hst). rewrite Ha.
    apply scheduled_phase; [unfold stable; auto|exact Hph|].
    right. exists (data c), (identifier c), tid'. auto.
  - apply scheduled_phase; auto. left. now exists m, p, a.
  - now apply released_phase.
Qed.

(** With every [begin] calling [finished()], the worker runs dry with
    the queue exhausted and the completion triggered. *)
Lemma drain_completes n :
  forall w,
  Forall (finishes_in_begin w0) queue ->
  stable w0 w -> phase queue w0 w -> prompt queue w0 w ->
  Forall (is_finish_of tid) (worker w) ->
  (work_left w0 w <= n)%nat ->
  exists w',
    drain compute_plan_starts from_seconds to_seconds interpolate_positions
      n w = Ok w'
    /\ worker w' = []
    /\ observed w'
       = PathFinished tid :: rev (map begin_of queue) ++ observed w0.
Proof.
  assert (Hend : forall w, phase queue w0 w -> prompt queue w0 w ->
            worker w = [] ->
            observed w
            = PathFinished tid :: rev (map begin_of queue) ++ observed w0).
  { intros w Hph Hp Hw.
    destruct Hph as [done cur todo Hq Hcur Hobs Hdone Hlive Hwork
                    |Hcur Hobs Hdone Hwork]; [|exact Hobs].
    exfalso. specialize (Hp _ cur Hcur eq_refl). rewrite Hw in Hp.
    apply Hp. rewrite Hq. apply in_or_app. right. now left. }
  induction n as [|n IH]; intros w Hsync Hst Hph Hp Hown Hleft; cbn [drain].
  - assert (Hw : worker w = []).
    { unfold work_left in Hleft. destruct (worker w); [reflexivity|].
      cbn [length] in Hleft. lia. }
    exists w. auto.
  - destruct (worker w) as [|t rest] eqn:Hw.
    + exists w. auto.
    + destruct (run_worker_phase w Hst Hph)
        as (w1 & Hw1 & H1 & H2 & H3 & H4 & H5).
      { rewrite Hw. intros t' [= <-]. now inversion Hown. }
      rewrite <- Hw in Hown.
      rewrite Hw1. cbn [obind]. apply IH; auto.
      assert (S (work_left w0 w1) = work_left w0 w)
        by (apply H3; congruence).
      lia.
Qed.

Lemma in_removelast {A} (l : list A) (x : A) : In x (removelast l) -> In x l.
Proof.
  induction l as [|a l IH]; [intros []|].
  cbn [removelast]. destruct l as [|b l]; [intros []|].
  intros [->|H]; [now left|right; now apply IH].
Qed.

(** A command that finishes while a schedule override is installed. *)
Lemma finish_with_override d i fin w dk dt ov :
  update_fn w i = Some dk ->
  datas w !! d = Some dt ->
  schedule_override dt = Some ov ->
  exists w1,
    run_finish d i fin w = Ok w1
    /\ update_fn w1 i = None
    /\ run_finish d i fin w1 = Ok w1
    /\ current_progress w1 = current_progress w
    /\ observed w1 = observed w
    /\ replan_requests (context w1) = S (replan_requests (context w))
    /\ stubborn_overrides w1
       = match stubborn_overrides w !! stubborn ov with
         | Some (Some so) =>
             <[stubborn ov := Some (mkStubborn false (held_by_handle so)
                                      (held_by_task so))]>
               (stubborn_overrides w)
         | _ => stubborn_overrides w
         end.
Proof.
  intros Hlive Hdata Hov. unfold run_finish. rewrite Hlive.
  cbn [datas clear_update_fn with_identifiers].
  rewrite (proj2 (at_Ok _ _ _) Hdata). cbn [obind].
  fold (clear_update_fn i w). rewrite Hov.
  destruct (release_stubbornness_frame dt (clear_update_fn i w))
    as (Hi & _ & Hc & _ & Hp & Ho).
  assert (Hnone : forall c,
            update_fn (with_context c
                         (release_stubbornness dt (clear_update_fn i w))) i
            = None).
  { intros c. rewrite (update_fn_ext (clear_update_fn i w)); [|exact Hi].
    apply update_fn_clear. }
  eexists. split; [reflexivity|].
  split; [apply Hnone|].
  split; [now rewrite Hnone|].
  cbn [stubborn_overrides context current_progress observed with_context].
  rewrite Hc, Hp, Ho. repeat split.
  unfold release_stubbornness. rewrite Hov.
  cbn [stubborn_overrides clear_update_fn with_identifiers].
  now destruct (stubborn_overrides w !! stubborn ov) as [[so|]|].
Qed.

(** C3, as the code has it. A tracker is made of a queue of commands
    that are live, have no schedule override and whose integrator only
    calls [finished()], and is started; the tasks that the worker still
    holds are position reports and the [finished()] of commands of
    earlier paths. Then, in any order, the worker runs tasks and the
    integrator calls [finished()] on executions that were begun or that
    belong to an earlier path, reports positions and releases
    stubbornness handles; the path is not stopped or replaced and no
    schedule is overridden. At every moment the begins observed are
    those of a prefix [begun] of the queue, once each and in queue
    order; the completion is observed at most once, after every begin,
    and only when nothing is pending; every begun command but the last
    has finished; when every begun command has finished, all were begun
    and the completion was triggered; and the worker's next task, when
    it is a [finished()] of this tracker, does not throw. When the
    worker holds no task at the start and every [begin] calls
    [finished()] before it returns, running the worker until it is idle
    begins all the commands in order and triggers the completion once.
    In any world, the [finished()] of a live command whose data has a
    schedule override clears the command, so that another [finished()]
    does nothing, marks the override's stubbornness as released and
    requests one replan, and leaves the tracker and what was observed
    as they were: no [begin] is invoked and no completion fires. *)
Theorem tracker_begins_each_command_in_turn :
  (forall w,
     tracker_run compute_plan_starts from_seconds to_seconds
       interpolate_positions queue w0 w ->
     exists begun pending fired,
       queue = begun ++ pending
       /\ observed w
          = (if fired : bool then [PathFinished (next_tracker w0)] else [])
            ++ rev (map begin_of begun) ++ observed w0
       /\ (fired = true -> pending = [])
       /\ (forall c, In c (removelast begun) ->
                     update_fn w (identifier c) = None)
       /\ ((forall c, In c begun -> update_fn w (identifier c) = None) ->
           pending = [] /\ fired = true)
       /\ ((forall t, head (worker w) = Some t ->
                      is_finish_of (next_tracker w0) t) ->
           exists w',
             run_worker compute_plan_starts from_seconds to_seconds
               interpolate_positions w = Ok w'))
  /\ (worker w0 = [] ->
      Forall (finishes_in_begin w0) queue ->
      exists n w,
        drain compute_plan_starts from_seconds to_seconds
          interpolate_positions n (next (make_tracker queue w0)) = Ok w
        /\ worker w = []
        /\ observed w
           = PathFinished (next_tracker w0) :: rev (map begin_of queue)
               ++ observed w0)
  /\ (forall w d i fin dk dt ov,
        update_fn w i = Some dk ->
        datas w !! d = Some dt ->
        schedule_override dt = Some ov ->
        exists w1,
          run_finish d i fin w = Ok w1
          /\ update_fn w1 i = None
          /\ run_finish d i fin w1 = Ok w1
          /\ current_progress w1 = current_progress w
          /\ observed w1 = observed w
          /\ replan_requests (context w1)
             = S (replan_requests (context w))
          /\ stubborn_overrides w1
             = match stubborn_overrides w !! stubborn ov with
               | Some (Some so) =>
                   <[stubborn ov := Some (mkStubborn false (held_by_handle so)
                                            (held_by_task so))]>
                     (stubborn_overrides w)
               | _ => stubborn_overrides w
               end).
Proof.
  split; [|split].
  - intros w Hrun. destruct (tracker_run_phase w Hrun) as [Hst Hph].
    assert (Hnext : (forall t, head (worker w) = Some t ->
                               is_finish_of (next_tracker w0) t) ->
              exists w',
                run_worker compute_plan_starts from_seconds to_seconds
                  interpolate_positions w = Ok w').
    { intros Hhead.
      destruct (run_worker_phase w Hst Hph Hhead) as (w' & Hw' & _).
      now exists w'. }
    destruct Hph as [done cur todo Hq Hcur Hobs Hdone Hlive Hwork
                    |Hcur Hobs Hdone Hwork].
    + exists (done ++ [cur]), todo, false.
      split; [now rewrite <- app_assoc|]. split; [exact Hobs|].
      split; [discriminate|]. split.
      { intros c. rewrite removelast_last. apply Hdone. }
      split; [|exact Hnext].
      intros Hall. exfalso. apply (Hlive cur); [now left|].
      apply Hall. apply in_or_app. right. now left.
    + exists queue, [], true.
      split; [now rewrite app_nil_r|]. split; [exact Hobs|].
      split; [reflexivity|]. split.
      { intros c Hin. apply Hdone. now apply in_removelast. }
      split; [auto|exact Hnext].
  - intros Hidle Hsync. destruct start_phase as (Hst & Hph & Hp & Hown).
    exists (work_left w0 (next (make_tracker queue w0))).
    apply drain_completes; auto.
  - intros w d i fin dk dt ov. apply finish_with_override.
Qed.

End TrackerFacts.

(* ================================================================== *)
(** ** [follow_new_path] *)

(** C10, at the failing inputs. A plan of exactly one waypoint that
    passes validation (callbacks given, planner present, the waypoint on
    the graph and matching the robot's location) sets [i0] to
    [size() - 2], which wraps around to [2^64 - 1]; [i1] wraps to 0, the
    loop is entered and reads [waypoints[2^64 - 1]]. *)
Theorem follow_new_path_single_waypoint_reads_outside w wp pl gi gw :
  context_alive w = true ->
  planner (context w) = Some pl ->
  wp_graph_index wp = Some gi ->
  graph_waypoints (graph pl) !! gi = Some gw ->
  existsb (fun l => (gi =? start_waypoint l)%nat) (location (context w))
  = true ->
  follow_new_path [wp] true true w = Throw (out_of_bounds_read (2 ^ 64 - 1)).
Proof.
  intros Ha Hpl Hgi Hgw Hloc. unfold follow_new_path.
  rewrite Ha, Hpl. cbn [negb size length Z.of_nat orb].
  change (Z.of_nat 1 =? 0) with false. cbn [orb find_initial_map].
  rewrite Hgi. unfold get_waypoint. rewrite (proj2 (at_Ok _ _ _) Hgw).
  cbn [obind find_connection]. rewrite Hgi, Hloc.
  change (0 <? 0) with false. cbn [andb negb].
  reflexivity.
Qed.

Lemma size_wrap_small z : 0 <= z < 2 ^ 64 -> size_wrap z = z.
Proof. intros H. unfold size_wrap. now apply Z.mod_small. Qed.

Lemma subscript_ok {A} (v : list A) (i : Z) :
  0 <= i < size v -> exists a, subscript v i = Ok a /\ In a v.
Proof.
  intros [H0 H1]. unfold subscript.
  destruct (Z.leb_spec 0 i); [|lia]. destruct (Z.ltb_spec i (size v)); [|lia].
  cbn [andb]. unfold size in H1.
  destruct (lookup_lt_is_Some_2 v (Z.to_nat i)) as [a Ha]; [lia|].
  rewrite Ha. exists a. split; [reflexivity|].
  apply list_elem_of_In. eapply list_elem_of_lookup_2. exact Ha.
Qed.

Lemma collect_lanes_ok g ls :
  forall cmd_wps cmd_lanes,
  Forall (fun lane => (lane < num_lanes g)%nat) ls ->
  exists r, collect_lanes g ls cmd_wps cmd_lanes = Ok r.
Proof.
  induction ls as [|lane_id rest IH]; intros cmd_wps cmd_lanes Hls;
    cbn [collect_lanes].
  - now eexists.
  - inversion Hls as [|? ? Hlane Hrest]; subst.
    destruct (at_lt (graph_lanes g) lane_id Hlane) as [ln [Hat _]].
    unfold get_lane. rewrite Hat. cbn [obind]. now apply IH.
Qed.

Lemma rotation_target_ok skip wps wp1 i1 :
  0 <= i1 -> size wps + 1 < 2 ^ 64 -> i1 < size wps ->
  exists tp ti sk,
    rotation_target skip wps wp1 i1 = Ok (tp, ti, sk)
    /\ (sk = true -> i1 + 1 < size wps).
Proof.
  intros H0 Hbig H1. unfold rotation_target.
  rewrite size_wrap_small by lia.
  destruct skip; cbn [andb]; [|repeat eexists; discriminate].
  destruct (Z.ltb_spec (i1 + 1) (size wps)) as [Hlt|Hge];
    [|repeat eexists; discriminate].
  destruct (subscript_ok wps (i1 + 1)) as [wp2 [Hwp2 _]]; [lia|].
  rewrite Hwp2. cbn [obind].
  destruct (wp_graph_index wp1) as [a|]; [|repeat eexists; discriminate].
  destruct (wp_graph_index wp2) as [b|]; [|repeat eexists; discriminate].
  destruct (a =? b)%nat; repeat eexists; auto; discriminate.
Qed.

(** The loop of [follow_new_path] stays within the waypoints. *)
Lemma decompose_in_bounds g wps :
  plan_on_graph g wps -> size wps + 1 < 2 ^ 64 ->
  forall fuel initial_map i0 i1 queue w,
  0 <= i0 -> i1 = i0 + 1 -> i1 <= size wps ->
  size wps - i1 <= Z.of_nat fuel ->
  exists added w',
    decompose fuel g wps initial_map i0 i1 queue w = Ok (queue ++ added, w')
    /\ (i1 < size wps -> added <> []).
Proof.
  intros Hplan Hbig. induction fuel as [|fuel IH];
    intros initial_map i0 i1 queue w H0 H1 Hle Hfuel; cbn [decompose].
  - destruct (Z.ltb_spec i1 (size wps)); [lia|].
    exists [], w. rewrite app_nil_r. split; [reflexivity|lia].
  - destruct (Z.ltb_spec i1 (size wps)) as [Hlt|Hge].
    2:{ exists [], w. rewrite app_nil_r. split; [reflexivity|lia]. }
    destruct (subscript_ok wps i0) as [wp0 [Hwp0 _]]; [lia|].
    destruct (subscript_ok wps i1) as [wp1 [Hwp1 Hin1]]; [lia|].
    rewrite Hwp0, Hwp1. cbn [obind].
    unfold plan_on_graph in Hplan. rewrite Forall_forall in Hplan.
    destruct (Hplan wp1 (proj2 (list_elem_of_In _ _) Hin1)) as [Hlanes Hgi].
    match goal with
    | |- context [collect_lanes g ?ls ?a ?b] =>
        destruct (collect_lanes_ok g ls a b Hlanes) as [cl Hcl]
    end.
    rewrite Hcl. cbn [obind].
    assert (Hmap : exists m,
              match wp_graph_index wp1 with
              | Some gi => do gw <- get_waypoint g gi; Ok (get_map_name gw)
              | None => Ok initial_map
              end = Ok m).
    { destruct (wp_graph_index wp1) as [gi|]; [|now eexists].
      destruct (at_lt (graph_waypoints g) gi (Hgi gi eq_refl)) as [gw [Hat _]].
      unfold get_waypoint. rewrite Hat. cbn [obind]. now eexists. }
    destruct Hmap as [m Hm]. rewrite Hm. cbn [obind].
    destruct (rotation_target_ok (skip_rotation_commands (params w)) wps wp1 i1)
      as (tp & ti & sk & Htarget & Hsk); [lia|lia|lia|].
    rewrite Htarget. cbn [obind].
    match goal with
    | |- context [make_command ?dt ?b w] =>
        destruct (make_command dt b w) as [cmd w1]
    end.
    destruct sk.
    + specialize (Hsk eq_refl).
      rewrite !(size_wrap_small (i0 + 1)), !(size_wrap_small (i1 + 1)) by lia.
      rewrite !size_wrap_small by lia.
      destruct (IH m (i0 + 1 + 1) (i1 + 1 + 1) (queue ++ [cmd]) w1)
        as (added & w' & Hrec & _); try lia.
      exists (cmd :: added), w'. rewrite Hrec, <- app_assoc.
      split; [reflexivity|discriminate].
    + rewrite !size_wrap_small by lia.
      destruct (IH m (i0 + 1) (i1 + 1) (queue ++ [cmd]) w1)
        as (added & w' & Hrec & _); try lia.
      exists (cmd :: added), w'. rewrite Hrec, <- app_assoc.
      split; [reflexivity|discriminate].
Qed.

Lemma find_connection_range loc wps :
  forall i acc,
  0 <= i -> 0 <= snd acc <= Z.max 0 (i - 1) ->
  0 <= snd (find_connection loc i wps acc)
       <= Z.max 0 (i + size wps - 1).
Proof.
  induction wps as [|wp rest IH]; intros i acc Hi Hacc; cbn [find_connection].
  - unfold size. cbn [length Z.of_nat]. lia.
  - unfold size in *. cbn [length]. rewrite Nat2Z.inj_succ.
    match goal with
    | |- context [find_connection loc (i + 1) rest ?a] =>
        specialize (IH (i + 1) a)
    end.
    replace (i + Z.succ (Z.of_nat (length rest)) - 1)
      with (i + 1 + Z.of_nat (length rest) - 1) by lia.
    apply IH; [lia|].
    destruct (Z.ltb_spec 0 i); cbn [andb];
      repeat match goal with
             | |- context [match ?x with _ => _ end] => destruct x
             end; cbn [snd]; lia.
Qed.

(** Plans of two or more waypoints: when validation passes on a graph
    that holds the plan, every waypoint read is within the plan and the
    tracker is started on a queue that is not empty. *)
Lemma follow_new_path_in_bounds wps w pl initial_map i0 :
  context_alive w = true ->
  planner (context w) = Some pl ->
  plan_on_graph (graph pl) wps ->
  2 <= size wps -> size wps + 1 < 2 ^ 64 ->
  find_initial_map (graph pl) wps = Ok (Some initial_map) ->
  find_connection (location (context w)) 0 wps (false, 0) = (true, i0) ->
  exists queue w1,
    follow_new_path wps true true w = Ok (next (make_tracker queue w1))
    /\ queue <> [].
Proof.
  intros Ha Hpl Hplan Hsize Hbig Hmap Hconn. unfold follow_new_path.
  rewrite Ha, Hpl. cbn [negb orb].
  destruct (Z.eqb_spec (size wps) 0); [lia|]. cbn [orb].
  rewrite Hmap. cbn [obind]. rewrite Hconn. cbn [negb].
  pose proof (find_connection_range (location (context w)) wps 0 (false, 0))
    as Hr.
  rewrite Hconn in Hr. cbn [snd] in Hr.
  assert (Hi0 : 0 <= i0 <= size wps - 1) by lia.
  rewrite (size_wrap_small (size wps - 1)) by lia.
  rewrite (size_wrap_small (size wps - 2)) by lia.
  set (j := if size wps - 1 <=? i0 then size wps - 2 else i0).
  assert (Hj : 0 <= j <= size wps - 2).
  { unfold j. destruct (Z.leb_spec (size wps - 1) i0); lia. }
  rewrite (size_wrap_small (j + 1)) by lia.
  destruct (decompose_in_bounds (graph pl) wps Hplan Hbig
              (decompose_fuel wps) initial_map j (j + 1) [] w)
    as (added & w' & Hdec & Hne); try lia.
  { unfold decompose_fuel, size. lia. }
  rewrite Hdec. cbn [obind fst snd app].
  exists added, w'. split; [reflexivity|]. apply Hne. lia.
Qed.

(* ================================================================== *)
(** ** Stopping and replacing a path *)


Section Lifecycle.

Variable compute_plan_starts :
  Graph -> string -> Vector3d -> Time -> float -> float -> float -> StartSet.
Variable from_seconds : float -> Duration.
Variable to_seconds : Duration -> float.
Variable interpolate_positions :
  VehicleTraits -> Time -> list Vector3d -> list TrajectoryWaypoint.

Lemma run_task_idle t w w' :
  current_progress w = None ->
  run_task compute_plan_starts from_seconds to_seconds interpolate_positions
    t w = Ok w' ->
  current_progress w' = None /\ observed w' = observed w.
Proof.
  intros Hp. destruct t as [d i fin|sid d i m path|m p act]; cbn [run_task].
  - unfold run_finish. destruct (update_fn w i); [|now intros [= <-]].
    destruct (at_ _ d) as [dt|]; cbn [obind]; [|discriminate].
    destruct (schedule_override dt) as [ov|].
    + intros [= <-]. cbn [current_progress observed with_context].
      destruct (release_stubbornness_frame dt (clear_update_fn i w))
        as (_ & _ & _ & _ & -> & ->). now split.
    + destruct fin as [tid|]; [|discriminate]. intros [= <-].
      unfold call_finisher. cbn [current_progress clear_update_fn with_identifiers].
      rewrite Hp. now split.
  - unfold run_override. destruct (update_fn w i).
    + destruct (planner (context w)).
      * destruct (at_ _ d) as [dt|]; cbn [obind]; [|discriminate].
        intros [= <-]. unfold drop_task_owner, be_stubborn.
        destruct (release_stubbornness_frame dt w)
          as (_ & _ & _ & _ & Hq & Ho).
        repeat match goal with
               | |- context [match ?x with _ => _ end] => destruct x
               end; cbn; rewrite ?Hq, ?Ho; now split.
      * cbn [obind]. intros [= <-]. unfold drop_task_owner.
        repeat match goal with
               | |- context [match ?x with _ => _ end] => destruct x
               end; cbn; now split.
    + cbn [obind]. intros [= <-]. unfold drop_task_owner.
      repeat match goal with
             | |- context [match ?x with _ => _ end] => destruct x
             end; cbn; now split.
  - unfold run_update_position. destruct act as [i|].
    + destruct (update_fn w i) as [d|]; [|discriminate].
      destruct (context_alive w); [|now intros [= <-]].
      destruct (at_ _ d) as [dt|]; cbn [obind]; [|discriminate].
      destruct (update_location _ _ _ _ _ _ _) as [c|]; cbn [obind];
        [|discriminate].
      now intros [= <-].
    + destruct (planner (context w)); now intros [= <-].
Qed.

Lemma step_idle e w w' :
  keeps_tracker e = true ->
  current_progress w = None ->
  step compute_plan_starts from_seconds to_seconds interpolate_positions e w
  = Ok w' ->
  current_progress w' = None /\ observed w' = observed w.
Proof.
  intros He Hp. destruct e as [|cmd c|sid|m p a| |wps e c]; cbn [step];
    try discriminate He.
  - unfold run_worker. destruct (worker w) as [|t q]; [now intros [= <-]|].
    intros H. apply run_task_idle in H; [|exact Hp]. exact H.
  - intros [= <-].
    destruct (api_call_identifiers cmd c w) as (_ & _ & _ & _ & -> & ->).
    now split.
  - intros [= <-]. unfold release.
    repeat match goal with
           | |- context [match ?x with _ => _ end] => destruct x
           end; cbn; now split.
  - now intros [= <-].
  - intros [= <-]. unfold stop. now rewrite Hp.
Qed.

Lemma steps_idle es :
  forall w w',
  forallb keeps_tracker es = true ->
  current_progress w = None ->
  steps compute_plan_starts from_seconds to_seconds interpolate_positions es w
  = Ok w' ->
  current_progress w' = None /\ observed w' = observed w.
Proof.
  induction es as [|e rest IH]; intros w w' Hes Hp; cbn [steps].
  - now intros [= <-].
  - cbn [forallb] in Hes. apply andb_prop in Hes as [He Hrest].
    destruct (step _ _ _ _ e w) as [w1|] eqn:Hstep; cbn [obind]; [|discriminate].
    destruct (step_idle e w w1 He Hp Hstep) as [Hp1 Ho1].
    intros H. destruct (IH w1 w' Hrest Hp1 H) as [Hp' Ho']. split; congruence.
Qed.

(** X1. [stop()] with a command in progress: the integrator's stop handler
    is called once for that command, whose [okay()] is false from then on,
    and the path is over: whatever tasks the worker still runs and whatever
    the integrator calls, reports or releases, no [begin] is invoked and no
    completion fires until a new path is given. A second [stop()] does
    nothing. *)
Theorem stop_ends_the_path w tr cmd dk :
  current_progress w = Some tr ->
  current_identifier tr = Some (identifier cmd) ->
  update_fn w (identifier cmd) = Some dk ->
  okay w cmd = true
  /\ observed (stop w) = StopRequested (identifier cmd) :: observed w
  /\ stop (stop w) = stop w
  /\ (forall es w',
        steps compute_plan_starts from_seconds to_seconds
          interpolate_positions es (stop w) = Ok w' ->
        okay w' cmd = false)
  /\ (forall es w',
        forallb keeps_tracker es = true ->
        steps compute_plan_starts from_seconds to_seconds
          interpolate_positions es (stop w) = Ok w' ->
        current_progress w' = None /\ observed w' = observed (stop w)).
Proof.
  intros Hp Hi Hlive.
  assert (Hstop : stop w
                  = observe (StopRequested (identifier cmd))
                      (with_progress None (clear_update_fn (identifier cmd) w))).
  { unfold stop. now rewrite Hp, Hi. }
  split; [unfold okay; now rewrite Hlive|].
  split; [now rewrite Hstop|].
  split; [rewrite Hstop; reflexivity|].
  split.
  - intros es w' Hsteps. unfold okay.
    rewrite (inert_update_fn w' (identifier cmd)); [reflexivity|].
    eapply steps_inert; [|exact Hsteps].
    rewrite Hstop. apply (inert_ext (clear_update_fn (identifier cmd) w));
      [reflexivity|]. now apply (live_clear w _ dk).
  - intros es w' Hes Hsteps. apply (steps_idle es (stop w) w' Hes); [|exact Hsteps].
    now rewrite Hstop.
Qed.

End Lifecycle.

Lemma next_tracker_id w :
  next_tracker (next w) = next_tracker w
  /\ match current_progress w with
     | Some tr =>
         exists tr', current_progress (next w) = Some tr'
                     /\ tracker_id tr' = tracker_id tr
     | None => current_progress (next w) = None
     end.
Proof.
  unfold next. destruct (current_progress w) as [tr|] eqn:Hp; [|now rewrite Hp].
  destruct (last (reverse_queue tr)) as [back|].
  - destruct (begin back) as [cb|].
    + destruct (invoke_begin_frame cb
                  (mkCommand (data back) (Some cb) (Some (tracker_id tr))
                     (identifier back))
                  (with_progress
                     (Some (mkTracker (tracker_id tr)
                              (removelast (reverse_queue tr))
                              (Some (identifier back)) (finished tr))) w))
        as (_ & _ & _ & _ & Hq & _).
      split.
      * unfold invoke_begin.
        generalize (script_of
                      (with_progress
                         (Some (mkTracker (tracker_id tr)
                                  (removelast (reverse_queue tr))
                                  (Some (identifier back)) (finished tr))) w) cb).
        intros script.
        assert (H : forall s w0,
                  next_tracker
                    (fold_left
                       (fun w' c =>
                          api_call
                            (mkCommand (data back) (Some cb)
                               (Some (tracker_id tr)) (identifier back)) c w')
                       s w0) = next_tracker w0).
        { induction s as [|c s IH]; intros w0; cbn [fold_left]; [reflexivity|].
          rewrite IH. destruct c; cbn [api_call]; unfold finish, override_schedule;
            cbn; now destruct (context_alive w0). }
        now rewrite H.
      * rewrite Hq. eexists. split; reflexivity.
    + split; [reflexivity|]. eexists. split; reflexivity.
  - unfold trigger. cbn [finished triggered]. split.
    + now destruct (triggered (finished tr)).
    + destruct (triggered (finished tr)); eexists; split; reflexivity.
Qed.

Lemma make_command_tracker dt b w :
  next_tracker (snd (make_command dt b w)) = next_tracker w
  /\ current_progress (snd (make_command dt b w)) = current_progress w.
Proof. now split. Qed.

Lemma decompose_tracker g wps fuel :
  forall initial_map i0 i1 queue w q w',
  decompose fuel g wps initial_map i0 i1 queue w = Ok (q, w') ->
  next_tracker w' = next_tracker w /\ current_progress w' = current_progress w.
Proof.
  induction fuel as [|fuel IH]; intros initial_map i0 i1 queue w q w';
    cbn [decompose].
  - destruct (i1 <? size wps); [discriminate|]. now intros [= _ <-].
  - destruct (i1 <? size wps); [|now intros [= _ <-]].
    destruct (subscript wps i0) as [wp0|]; cbn [obind]; [|discriminate].
    destruct (subscript wps i1) as [wp1|]; cbn [obind]; [|discriminate].
    destruct (collect_lanes _ _ _ _) as [cl|]; cbn [obind]; [|discriminate].
    destruct (match wp_graph_index wp1 with
              | Some gi => _
              | None => _
              end) as [m|]; cbn [obind]; [|discriminate].
    destruct (rotation_target _ _ _ _) as [[[tp ti] sk]|]; cbn [obind];
      [|discriminate].
    intros H. apply IH in H. exact H.
Qed.

Lemma replaced_new_tracker tid queue w :
  (tid < next_tracker w)%nat -> replaced tid (next (make_tracker queue w)).
Proof.
  intros Hlt. destruct (next_tracker_id (make_tracker queue w)) as [Hn Hp].
  cbn [current_progress make_tracker with_next_tracker with_progress] in Hp.
  destruct Hp as (tr' & Hp & Hid). split.
  - rewrite Hn. cbn. lia.
  - intros tr Htr. rewrite Hp in Htr. injection Htr as <-. rewrite Hid.
    cbn. exact Hlt.
Qed.

Section Replaced.

Variable compute_plan_starts :
  Graph -> string -> Vector3d -> Time -> float -> float -> float -> StartSet.
Variable from_seconds : float -> Duration.
Variable to_seconds : Duration -> float.
Variable interpolate_positions :
  VehicleTraits -> Time -> list Vector3d -> list TrajectoryWaypoint.

Lemma replaced_ext tid w w' :
  next_tracker w' = next_tracker w ->
  current_progress w' = current_progress w ->
  replaced tid w -> replaced tid w'.
Proof. intros Hn Hp [H1 H2]. split; [now rewrite Hn|now rewrite Hp]. Qed.

Lemma replaced_next tid w : replaced tid w -> replaced tid (next w).
Proof.
  intros [H1 H2]. destruct (next_tracker_id w) as [Hn Hp]. split.
  - now rewrite Hn.
  - intros tr Htr. destruct (current_progress w) as [tr0|].
    + destruct Hp as (tr' & Hp & Hid). rewrite Hp in Htr.
      injection Htr as <-. rewrite Hid. now apply H2.
    + rewrite Hp in Htr. discriminate.
Qed.

Lemma run_task_replaced tid t w w' :
  replaced tid w ->
  run_task compute_plan_starts from_seconds to_seconds interpolate_positions
    t w = Ok w' ->
  replaced tid w'.
Proof.
  intros Hr. destruct t as [d i fin|sid d i m path|m p act]; cbn [run_task].
  - unfold run_finish. destruct (update_fn w i); [|now intros [= <-]].
    destruct (at_ _ d) as [dt|]; cbn [obind]; [|discriminate].
    destruct (schedule_override dt) as [ov|].
    + intros [= <-]. eapply replaced_ext; [| |exact Hr].
      * unfold release_stubbornness.
        repeat match goal with
               | |- context [match ?x with _ => _ end] => destruct x
               end; reflexivity.
      * cbn [current_progress with_context].
        now destruct (release_stubbornness_frame dt (clear_update_fn i w))
          as (_ & _ & _ & _ & -> & _).
    + destruct fin as [tid'|]; [|discriminate]. intros [= <-].
      unfold call_finisher.
      assert (Hc : replaced tid (clear_update_fn i w))
        by (eapply replaced_ext; [| |exact Hr]; reflexivity).
      destruct (current_progress (clear_update_fn i w)); [|exact Hc].
      destruct (_ =? _)%nat; [now apply replaced_next|exact Hc].
  - unfold run_override. destruct (update_fn w i).
    + destruct (planner (context w)).
      * destruct (at_ _ d) as [dt|]; cbn [obind]; [|discriminate].
        intros [= <-]. eapply replaced_ext; [| |exact Hr];
          unfold drop_task_owner, be_stubborn, release_stubbornness;
          repeat match goal with
                 | |- context [match ?x with _ => _ end] => destruct x
                 end; reflexivity.
      * cbn [obind]. intros [= <-]. eapply replaced_ext; [| |exact Hr];
          unfold drop_task_owner;
          repeat match goal with
                 | |- context [match ?x with _ => _ end] => destruct x
                 end; reflexivity.
    + cbn [obind]. intros [= <-]. eapply replaced_ext; [| |exact Hr];
        unfold drop_task_owner;
        repeat match goal with
               | |- context [match ?x with _ => _ end] => destruct x
               end; reflexivity.
  - unfold run_update_position. destruct act as [i|].
    + destruct (update_fn w i) as [d|]; [|discriminate].
      destruct (context_alive w); [|now intros [= <-]].
      destruct (at_ _ d) as [dt|]; cbn [obind]; [|discriminate].
      destruct (update_location _ _ _ _ _ _ _) as [c|]; cbn [obind];
        [|discriminate].
      intros [= <-]. exact Hr.
    + destruct (planner (context w)); intros [= <-]; exact Hr.
Qed.

Lemma step_replaced tid e w w' :
  replaced tid w ->
  step compute_plan_starts from_seconds to_seconds interpolate_positions e w
  = Ok w' ->
  replaced tid w'.
Proof.
  intros Hr. destruct e as [|cmd c|sid|m p a| |wps e c]; cbn [step].
  - unfold run_worker. destruct (worker w) as [|t q]; [now intros [= <-]|].
    apply run_task_replaced. eapply replaced_ext; [| |exact Hr]; reflexivity.
  - intros [= <-]. eapply replaced_ext; [| |exact Hr].
    + destruct c; cbn [api_call]; unfold finish, override_schedule; cbn;
        now destruct (context_alive w).
    + now destruct (api_call_identifiers cmd c w) as (_ & _ & _ & _ & -> & _).
  - intros [= <-]. eapply replaced_ext; [| |exact Hr]; unfold release;
      repeat match goal with
             | |- context [match ?x with _ => _ end] => destruct x
             end; reflexivity.
  - intros [= <-]. exact Hr.
  - intros [= <-]. unfold stop. destruct (current_progress w) as [tr|] eqn:Hp;
      [|exact Hr].
    destruct (current_identifier tr); [|exact Hr].
    destruct Hr as [H1 _]. split; [exact H1|]. intros tr'. discriminate.
  - unfold follow_new_path. destruct (negb (context_alive w)); [now intros [= <-]|].
    destruct (_ || _); [now intros [= <-]|].
    destruct (planner (context w)) as [pl|]; [|now intros [= <-]].
    destruct (find_initial_map _ _) as [[im|]|]; cbn [obind];
      [|now intros [= <-]|discriminate].
    destruct (find_connection _ _ _ _) as [found i0].
    destruct (negb found); [now intros [= <-]|].
    destruct (decompose _ _ _ _ _ _ _ _) as [[q w1]|] eqn:Hd; cbn [obind];
      [|discriminate].
    intros [= <-]. cbn [fst snd]. apply replaced_new_tracker.
    apply decompose_tracker in Hd. destruct Hd as [-> _]. apply Hr.
Qed.

Lemma steps_replaced tid es :
  forall w w',
  replaced tid w ->
  steps compute_plan_starts from_seconds to_seconds interpolate_positions es w
  = Ok w' ->
  replaced tid w'.
Proof.
  induction es as [|e rest IH]; intros w w' Hr; cbn [steps].
  - now intros [= <-].
  - destruct (step _ _ _ _ e w) as [w1|] eqn:Hstep; cbn [obind]; [|discriminate].
    apply IH. eapply step_replaced; eassumption.
Qed.

(** X2. Once the path of tracker [tid] was stopped or replaced by a new
    path, a [finished()] of one of its commands only clears that command: at
    any later time, the task neither begins a command of the current path
    nor fires its completion. *)
Theorem finished_of_replaced_path tid w :
  (tid < next_tracker w)%nat ->
  (forall queue es w' d i dk dt,
     steps compute_plan_starts from_seconds to_seconds interpolate_positions
       es (next (make_tracker queue w)) = Ok w' ->
     update_fn w' i = Some dk ->
     datas w' !! d = Some dt ->
     schedule_override dt = None ->
     run_finish d i (Some tid) w' = Ok (clear_update_fn i w'))
  /\ (forall es w' d i dk dt,
        steps compute_plan_starts from_seconds to_seconds
          interpolate_positions es (stop w) = Ok w' ->
        (forall tr, current_progress w = Some tr ->
                    current_identifier tr <> None) ->
        update_fn w' i = Some dk ->
        datas w' !! d = Some dt ->
        schedule_override dt = None ->
        run_finish d i (Some tid) w' = Ok (clear_update_fn i w')).
Proof.
  intros Hlt.
  assert (Hrun : forall w' d i dk dt,
            replaced tid w' ->
            update_fn w' i = Some dk ->
            datas w' !! d = Some dt ->
            schedule_override dt = None ->
            run_finish d i (Some tid) w' = Ok (clear_update_fn i w')).
  { intros w' d i dk dt [_ Hr] Hlive Hdata Hov. unfold run_finish.
    rewrite Hlive. cbn [datas clear_update_fn with_identifiers].
    rewrite (proj2 (at_Ok _ _ _) Hdata). cbn [obind]. rewrite Hov.
    unfold call_finisher.
    change (current_progress (clear_update_fn i w')) with (current_progress w').
    destruct (current_progress w') as [tr|] eqn:Hp; [|reflexivity].
    specialize (Hr tr eq_refl).
    destruct (Nat.eqb_spec (tracker_id tr) tid); [lia|reflexivity]. }
  split.
  - intros queue es w' d i dk dt Hsteps. apply Hrun.
    eapply steps_replaced; [|exact Hsteps]. now apply replaced_new_tracker.
  - intros es w' d i dk dt Hsteps Hcur. apply Hrun.
    eapply steps_replaced; [|exact Hsteps].
    unfold stop. destruct (current_progress w) as [tr|] eqn:Hp.
    + destruct (current_identifier tr) eqn:Hi; [|now destruct (Hcur tr eq_refl)].
      split; [exact Hlt|]. intros tr'. discriminate.
    + split; [exact Hlt|]. intros tr'. rewrite Hp. discriminate.
Qed.

End Replaced.

(* ================================================================== *)
(** ** [override_schedule] *)


Lemma insert_at_end {A} (l : list A) (a b : A) :
  <[length l := b]> (l ++ [a]) = l ++ [b].
Proof.
  induction l as [|x l IH]; [reflexivity|]. cbn. f_equal. exact IH.
Qed.

Lemma lookup_at_end {A} (l : list A) (a : A) : (l ++ [a]) !! length l = Some a.
Proof. induction l as [|x l IH]; [reflexivity|exact IH]. Qed.

Section Overrides.

Variable compute_plan_starts :
  Graph -> string -> Vector3d -> Time -> float -> float -> float -> StartSet.
Variable from_seconds : float -> Duration.
Variable to_seconds : Duration -> float.
Variable interpolate_positions :
  VehicleTraits -> Time -> list Vector3d -> list TrajectoryWaypoint.

(** X3. [override_schedule] that cannot take effect: on a command that has
    finished or was stopped, when the planner is unavailable, or when the
    robot's context is gone. The caller still gets a handle, but once the
    worker has run the itinerary and the command's data are as they were and
    the robot is no more stubborn than before; only the missing planner is
    logged. *)
Theorem override_schedule_refused cmd map_name path w :
  worker w = [] ->
  update_fn w (identifier cmd) = None \/ planner (context w) = None
  \/ context_alive w = false ->
  exists w2,
    run_worker compute_plan_starts from_seconds to_seconds
      interpolate_positions
      (snd (override_schedule cmd map_name path w)) = Ok w2
    /\ fst (override_schedule cmd map_name path w)
       = length (stubborn_overrides w)
    /\ stubborn_overrides w2
       = stubborn_overrides w ++ [Some (mkStubborn false true false)]
    /\ is_stubborn w2 = is_stubborn w
    /\ datas w2 = datas w
    /\ itinerary (context w2) = itinerary (context w)
    /\ worker w2 = []
    /\ logger (context w2)
       = if context_alive w
         then match update_fn w (identifier cmd) with
              | Some _ => WarnOverridePlannerUnavailable :: logger (context w)
              | None => logger (context w)
              end
         else logger (context w).
Proof.
  intros Hidle Hcase. unfold override_schedule. cbn [fst snd].
  destruct (context_alive w) eqn:Ha.
  - unfold run_worker, schedule.
    cbn [worker with_worker with_stubborn_overrides]. rewrite Hidle.
    cbn [app run_task]. unfold run_override.
    set (w0 := with_worker [] _).
    assert (Hs0 : stubborn_overrides w0
                  = stubborn_overrides w ++ [Some (mkStubborn false true true)])
      by reflexivity.
    replace (update_fn w0 (identifier cmd)) with (update_fn w (identifier cmd))
      by reflexivity.
    assert (Hdrop : forall w1,
              stubborn_overrides w1
              = stubborn_overrides w ++ [Some (mkStubborn false true true)] ->
              stubborn_overrides (drop_task_owner (length (stubborn_overrides w)) w1)
              = stubborn_overrides w ++ [Some (mkStubborn false true false)]
              /\ datas (drop_task_owner (length (stubborn_overrides w)) w1)
                 = datas w1
              /\ context (drop_task_owner (length (stubborn_overrides w)) w1)
                 = context w1
              /\ worker (drop_task_owner (length (stubborn_overrides w)) w1)
                 = worker w1).
    { intros w1 H1. unfold drop_task_owner. rewrite H1, lookup_at_end.
      cbn [stubborn_overrides with_stubborn_overrides stubbornness
           held_by_handle settle orb datas context worker].
      now rewrite insert_at_end. }
    destruct (update_fn w (identifier cmd)) as [dk|] eqn:Hlive.
    + destruct Hcase as [Hc|[Hc|Hc]]; [discriminate| |discriminate].
      replace (planner (context w0)) with (planner (context w)) by reflexivity.
      rewrite Hc. cbn [obind]. eexists. split; [reflexivity|].
      destruct (Hdrop (with_context
                  (log WarnOverridePlannerUnavailable (context w0)) w0) Hs0)
        as (Hs & Hd & Hc' & Hw).
      split; [reflexivity|]. split; [exact Hs|]. split.
      { unfold is_stubborn. rewrite Hs, existsb_app. cbn. now rewrite orb_false_r. }
      split; [now rewrite Hd|]. split; [now rewrite Hc'|].
      split; [now rewrite Hw|]. now rewrite Hc'.
    + cbn [obind]. eexists. split; [reflexivity|].
      destruct (Hdrop w0 Hs0) as (Hs & Hd & Hc' & Hw).
      split; [reflexivity|]. split; [exact Hs|]. split.
      { unfold is_stubborn. rewrite Hs, existsb_app. cbn. now rewrite orb_false_r. }
      split; [now rewrite Hd|]. split; [now rewrite Hc'|].
      split; [now rewrite Hw|]. now rewrite Hc'.
  - unfold run_worker. cbn [worker with_stubborn_overrides]. rewrite Hidle.
    eexists. split; [reflexivity|]. split; [reflexivity|].
    split; [reflexivity|]. split.
    { unfold is_stubborn. cbn [stubborn_overrides with_stubborn_overrides].
      rewrite existsb_app. cbn. now rewrite orb_false_r. }
    repeat split. exact Hidle.
Qed.

(** X4. [override_schedule] on a live command with the planner available:
    once the worker has run, the route interpolated from the path is in the
    itinerary under a newly assigned plan id, the command's data carry the
    override, the stubbornness of an earlier override of the command is
    released and the robot is stubborn through the new one. A position
    update for the command then reports at most one delay, for that plan,
    and writes the start set of the whole-graph search, whatever the
    command's hints. *)
Theorem override_schedule_installs cmd map_name path w pl dt :
  worker w = [] ->
  context_alive w = true ->
  update_fn w (identifier cmd) = Some (data cmd) ->
  planner (context w) = Some pl ->
  datas w !! data cmd = Some dt ->
  let sid := length (stubborn_overrides w) in
  let id := next_plan_id (itinerary (context w)) in
  let r := mkRoute map_name
             (interpolate_positions (vehicle_traits pl) (now (context w))
                path) in
  let ov := mkOverride r id sid in
  exists w2,
    run_worker compute_plan_starts from_seconds to_seconds
      interpolate_positions
      (snd (override_schedule cmd map_name path w)) = Ok w2
    /\ fst (override_schedule cmd map_name path w) = sid
    /\ datas w2 = <[data cmd := with_schedule_override ov dt]> (datas w)
    /\ itinerary (context w2)
       = mkItinerary (S id) ((id, [r]) :: routes (itinerary (context w)))
           (delays (itinerary (context w)))
    /\ stubborn_overrides w2 !! sid = Some (Some (mkStubborn true true false))
    /\ is_stubborn w2 = true
    /\ (forall ov0 so,
          schedule_override dt = Some ov0 ->
          stubborn_overrides w2 !! stubborn ov0 = Some (Some so) ->
          stubborn ov0 <> sid ->
          stubbornness so = false)
    /\ (forall m l,
          exists w3,
            run_update_position compute_plan_starts from_seconds to_seconds
              m l (Some (identifier cmd)) w2 = Ok w3
            /\ location (context w3)
               = compute_plan_starts (graph pl) m l (now (context w))
                   (max_merge_waypoint_distance (nav_params dt))
                   (max_merge_lane_distance (nav_params dt))
                   (min_lane_length (nav_params dt))
            /\ (itinerary (context w3) = itinerary (context w2)
                \/ exists delay,
                     itinerary (context w3)
                     = mkItinerary (S id)
                         ((id, [r]) :: routes (itinerary (context w)))
                         (mkDelay id delay one_second
                          :: delays (itinerary (context w))))).
Proof.
  intros Hidle Ha Hlive Hpl Hdata sid id r ov.
  unfold override_schedule. cbn [fst snd]. rewrite Ha.
  unfold run_worker, schedule.
  cbn [worker with_worker with_stubborn_overrides]. rewrite Hidle.
  cbn [app run_task]. unfold run_override.
  set (w0 := with_worker [] _).
  assert (Hs0 : stubborn_overrides w0
                = stubborn_overrides w ++ [Some (mkStubborn false true true)])
    by reflexivity.
  replace (update_fn w0 (identifier cmd)) with (update_fn w (identifier cmd))
    by reflexivity.
  rewrite Hlive.
  replace (planner (context w0)) with (planner (context w)) by reflexivity.
  replace (datas w0) with (datas w) by reflexivity.
  rewrite Hpl, (proj2 (at_Ok _ _ _) Hdata). cbn [obind].
  destruct (release_stubbornness_frame dt w0)
    as (Hri & Hrd & Hrc & Hrw & Hrp & Hro).
  assert (E : forall c w1, datas (with_context c w1) = datas w1)
    by reflexivity.
  rewrite E, Hrc, Hrd. clear E.
  replace (context w0) with (context w) by reflexivity.
  replace (datas w0) with (datas w) by reflexivity.
  fold id. fold r. fold ov.
  set (w3 := with_datas (<[data cmd := with_schedule_override ov dt]> (datas w))
               (with_context
                  (set_itinerary
                     (mkItinerary (S id) ((id, [r]) :: routes (itinerary (context w)))
                        (delays (itinerary (context w)))) (context w))
                  (release_stubbornness dt w0))).
  assert (Hs3 : stubborn_overrides w3
                = stubborn_overrides (release_stubbornness dt w0)) by reflexivity.
  assert (Hlen : length (stubborn_overrides (release_stubbornness dt w0))
                 = S (length (stubborn_overrides w))).
  { unfold release_stubbornness. destruct (schedule_override dt) as [ov0|].
    - destruct (stubborn_overrides w0 !! stubborn ov0) as [[so|]|];
        cbn [stubborn_overrides with_stubborn_overrides w0 with_worker];
        rewrite ?length_insert, length_app; cbn; lia.
    - cbn [stubborn_overrides with_stubborn_overrides w0 with_worker].
      rewrite length_app. cbn. lia. }
  assert (Hnew : exists so,
            stubborn_overrides (release_stubbornness dt w0) !! sid
            = Some (Some so)
            /\ held_by_handle so = true /\ held_by_task so = true).
  { destruct (schedule_override dt) as [ov0|] eqn:Hov.
    - rewrite (release_stubbornness_lookup dt ov0 w0 sid Hov).
      cbn [stubborn_overrides w0 with_worker with_stubborn_overrides].
      unfold sid. rewrite lookup_at_end.
      destruct (decide _); eexists; split; try reflexivity; now split.
    - unfold release_stubbornness. rewrite Hov.
      cbn [stubborn_overrides w0 with_worker with_stubborn_overrides].
      unfold sid. rewrite lookup_at_end. eexists. split; [reflexivity|now split]. }
  destruct Hnew as (so & Hso & Hh & Ht).
  assert (Hbe : stubborn_overrides (be_stubborn sid w3)
                = <[sid := Some (mkStubborn true true true)]>
                    (stubborn_overrides (release_stubbornness dt w0))
                /\ datas (be_stubborn sid w3) = datas w3
                /\ context (be_stubborn sid w3) = context w3
                /\ identifiers (be_stubborn sid w3) = identifiers w3
                /\ context_alive (be_stubborn sid w3) = context_alive w3).
  { unfold be_stubborn. rewrite Hs3, Hso, Hh, Ht. now repeat split. }
  destruct Hbe as (Hbs & Hbd & Hbc & Hbi & Hba).
  assert (Hdrop : stubborn_overrides (drop_task_owner sid (be_stubborn sid w3))
                  = <[sid := Some (mkStubborn true true false)]>
                      (stubborn_overrides (release_stubbornness dt w0))
                  /\ datas (drop_task_owner sid (be_stubborn sid w3)) = datas w3
                  /\ context (drop_task_owner sid (be_stubborn sid w3))
                     = context w3
                  /\ identifiers (drop_task_owner sid (be_stubborn sid w3))
                     = identifiers w3
                  /\ context_alive (drop_task_owner sid (be_stubborn sid w3))
                     = context_alive w3).
  { unfold drop_task_owner. rewrite Hbs.
    rewrite list_lookup_insert_eq by (rewrite Hlen; unfold sid; lia).
    cbn [stubborn_overrides with_stubborn_overrides stubbornness held_by_handle
         settle orb datas context identifiers context_alive].
    rewrite list_insert_insert_eq. now repeat split. }
  destruct Hdrop as (Hds & Hdd & Hdc & Hdi & Hda).
  exists (drop_task_owner sid (be_stubborn sid w3)).
  split; [reflexivity|]. split; [reflexivity|].
  split; [now rewrite Hdd|]. split; [now rewrite Hdc|].
  assert (Hat : stubborn_overrides (drop_task_owner sid (be_stubborn sid w3))
                !! sid = Some (Some (mkStubborn true true false))).
  { rewrite Hds. apply list_lookup_insert_eq. rewrite Hlen. unfold sid. lia. }
  split; [exact Hat|]. split.
  { unfold is_stubborn. apply existsb_exists.
    exists (Some (mkStubborn true true false)). split; [|reflexivity].
    apply list_elem_of_In. eapply list_elem_of_lookup_2. exact Hat. }
  split.
  { intros ov0 so0 Hov Hlook Hne. rewrite Hds in Hlook.
    rewrite list_lookup_insert_ne in Hlook by congruence.
    rewrite (release_stubbornness_lookup dt ov0 w0 _ Hov) in Hlook.
    rewrite decide_True in Hlook by reflexivity.
    destruct (stubborn_overrides w0 !! stubborn ov0) as [[so1|]|];
      try discriminate. now injection Hlook as <-. }
  intros m l. unfold run_update_position.
  rewrite (update_fn_ext w _ (identifier cmd)), Hlive
    by (rewrite Hdi; cbn [identifiers w3 with_datas with_context];
        now rewrite Hri).
  rewrite Hda. cbn [context_alive w3 with_datas with_context].
  assert (Halive' : context_alive (release_stubbornness dt w0) = true).
  { unfold release_stubbornness.
    repeat match goal with
           | |- context [match ?x with _ => _ end] => destruct x
           end; exact Ha. }
  rewrite Halive', Hdd. cbn [datas w3 with_datas].
  assert (Hd' : (<[data cmd := with_schedule_override ov dt]> (datas w))
                !! data cmd = Some (with_schedule_override ov dt)).
  { apply list_lookup_insert_eq. now apply lookup_lt_Some in Hdata. }
  rewrite (proj2 (at_Ok _ _ _) Hd'). cbn [obind].
  unfold update_location. cbn [schedule_override with_schedule_override].
  rewrite Hdc. cbn [context w3 with_datas with_context].
  set (ctx := set_itinerary _ (context w)).
  destruct (override_delay_reports from_seconds to_seconds ctx (xy l) ov)
    as (c1 & Hc1 & Hcase).
  unfold overridden_update. rewrite Hc1. cbn [obind].
  assert (Hp1 : planner c1 = Some pl).
  { destruct Hcase as [->|[delay ->]]; exact Hpl. }
  rewrite Hp1. eexists. split; [reflexivity|]. split; [reflexivity|].
  cbn [context with_context itinerary set_location].
  destruct Hcase as [->|[delay ->]]; [now left|]. right. now exists delay.
Qed.

End Overrides.

(* ================================================================== *)
(** ** The queue of [follow_new_path] *)


Lemma same_robot_refl w : same_robot w w.
Proof. unfold same_robot. now repeat split. Qed.

Lemma newly_made_nil w : newly_made w w [].
Proof.
  split; [apply same_robot_refl|]. cbn. rewrite !app_nil_r.
  repeat split; auto. exists []. rewrite app_nil_r. now repeat split.
Qed.

Lemma newly_made_cons dt dest w w' added :
  schedule_override dt = None -> nav_params dt = params w ->
  newly_made (snd (make_command dt (NavigationRequest dest) w)) w' added ->
  newly_made w w'
    (fst (make_command dt (NavigationRequest dest) w) :: added).
Proof.
  intros Hov Hnav (Hsame & Hids & Hseq & Hdata & (dts & Hdts & Hlen & Hall) & Hcmds).
  cbn [make_command fst snd] in *.
  cbn [identifiers datas with_identifiers with_datas] in *.
  split.
  { destruct Hsame as (H1 & H2 & H3 & H4 & H5 & H6 & H7 & H8 & H9 & H10).
    unfold same_robot. now repeat split. }
  split; [rewrite Hids, <- app_assoc; reflexivity|].
  rewrite length_app in Hseq, Hdata. cbn [length] in Hseq, Hdata.
  rewrite Nat.add_1_r in Hseq, Hdata.
  split; [cbn [map length seq identifier]; now rewrite Hseq|].
  split; [cbn [map length seq data]; now rewrite Hdata|].
  split.
  - exists (dt :: dts). rewrite Hdts, <- app_assoc. cbn [length].
    split; [reflexivity|]. split; [now rewrite Hlen|].
    constructor; [now split|]. exact Hall.
  - constructor; [|exact Hcmds]. split; [reflexivity|]. now exists dest.
Qed.

Lemma decompose_newly_made g wps fuel :
  forall initial_map i0 i1 queue w q w',
  decompose fuel g wps initial_map i0 i1 queue w = Ok (q, w') ->
  exists added, q = queue ++ added /\ newly_made w w' added.
Proof.
  induction fuel as [|fuel IH]; intros initial_map i0 i1 queue w q w';
    cbn [decompose].
  - destruct (i1 <? size wps); [discriminate|]. intros [= <- <-].
    exists []. rewrite app_nil_r. split; [reflexivity|apply newly_made_nil].
  - destruct (i1 <? size wps).
    2:{ intros [= <- <-]. exists []. rewrite app_nil_r.
        split; [reflexivity|apply newly_made_nil]. }
    destruct (subscript wps i0) as [wp0|]; cbn [obind]; [|discriminate].
    destruct (subscript wps i1) as [wp1|]; cbn [obind]; [|discriminate].
    destruct (collect_lanes _ _ _ _) as [cl|]; cbn [obind]; [|discriminate].
    destruct (match wp_graph_index wp1 with
              | Some gi => _
              | None => _
              end) as [m|]; cbn [obind]; [|discriminate].
    destruct (rotation_target _ _ _ _) as [[[tp ti] sk]|]; cbn [obind];
      [|discriminate].
    match goal with
    | |- context [make_command ?dt (NavigationRequest ?dest) w] =>
        pose proof (newly_made_cons dt dest w) as Hcons;
        destruct (make_command dt (NavigationRequest dest) w) as [cmd w1]
    end.
    intros H. apply IH in H. destruct H as (added & -> & Hmade).
    exists (cmd :: added). rewrite <- app_assoc. split; [reflexivity|].
    cbn [fst snd] in Hcons. now apply Hcons.
Qed.

Lemma subscript_lookup {A} (v : list A) (i : Z) (a : A) :
  subscript v i = Ok a -> 0 <= i < size v /\ v !! Z.to_nat i = Some a.
Proof.
  unfold subscript. destruct (Z.leb_spec 0 i); [|discriminate].
  destruct (Z.ltb_spec i (size v)); [|discriminate]. cbn [andb].
  destruct (v !! Z.to_nat i) as [x|]; [|discriminate].
  intros [= <-]. split; [lia|reflexivity].
Qed.

Lemma rotation_target_cases skip wps wp1 i1 tp ti sk :
  0 <= i1 -> size wps + 1 < 2 ^ 64 -> i1 < size wps ->
  wps !! Z.to_nat i1 = Some wp1 ->
  rotation_target skip wps wp1 i1 = Ok (tp, ti, sk) ->
  (sk = false /\ ti = i1 /\ tp = wp_position wp1
   /\ (skip = true -> i1 + 1 < size wps -> ~ turns_in_place wps i1))
  \/ (sk = true /\ skip = true /\ ti = i1 + 1 /\ ti < size wps
      /\ turns_in_place wps i1
      /\ exists wp2, wps !! Z.to_nat ti = Some wp2 /\ tp = wp_position wp2).
Proof.
  intros H0 Hbig H1 Hwp1. unfold rotation_target.
  rewrite size_wrap_small by lia.
  destruct skip; cbn [andb].
  2:{ intros [= <- <- <-]. left. repeat split. discriminate. }
  destruct (Z.ltb_spec (i1 + 1) (size wps)) as [Hlt|Hge].
  2:{ intros [= <- <- <-]. left. repeat split. intros; lia. }
  destruct (subscript wps (i1 + 1)) as [wp2|] eqn:Hwp2; cbn [obind];
    [|discriminate].
  apply subscript_lookup in Hwp2. destruct Hwp2 as [_ Hwp2].
  assert (Hno : turns_in_place wps i1 ->
                exists gi, wp_graph_index wp1 = Some gi
                           /\ wp_graph_index wp2 = Some gi).
  { intros (a & b & gi & Ha & Hb & Hga & Hgb).
    rewrite Hwp1 in Ha. rewrite Hwp2 in Hb.
    injection Ha as <-. injection Hb as <-. now exists gi. }
  destruct (wp_graph_index wp1) as [a|] eqn:Ha.
  2:{ intros [= <- <- <-]. left. repeat split. intros _ _ Ht.
      destruct (Hno Ht) as (gi & H & _). discriminate H. }
  destruct (wp_graph_index wp2) as [b|] eqn:Hb.
  2:{ intros [= <- <- <-]. left. repeat split. intros _ _ Ht.
      destruct (Hno Ht) as (gi & _ & H). discriminate H. }
  destruct (Nat.eqb_spec a b) as [->|Hne].
  - intros [= <- <- <-]. right. repeat split; [exact Hlt| |].
    + exists wp1, wp2, b. auto.
    + now exists wp2.
  - intros [= <- <- <-]. left. repeat split. intros _ _ Ht.
    destruct (Hno Ht) as (gi & [= <-] & [= <-]). now apply Hne.
Qed.

Lemma targets_ext wps w w' c ti :
  (exists dts, datas w' = datas w ++ dts) ->
  targets wps w c ti -> targets wps w' c ti.
Proof.
  intros [dts Hd] (dt & wp & dest & H1 & H2).
  exists dt, wp, dest. split; [|exact H2].
  rewrite Hd. now apply lookup_app_l_Some.
Qed.

Lemma decompose_targets g wps :
  size wps + 1 < 2 ^ 64 ->
  forall fuel initial_map i0 i1 queue w q w',
  0 <= i0 -> i1 = i0 + 1 -> i1 <= size wps ->
  size wps - i1 <= Z.of_nat fuel ->
  decompose fuel g wps initial_map i0 i1 queue w = Ok (q, w') ->
  exists added tis,
    q = queue ++ added
    /\ Forall2 (targets wps w') added tis
    /\ covers (skip_rotation_commands (params w)) wps i1 tis (size wps).
Proof.
  intros Hbig. induction fuel as [|fuel IH];
    intros initial_map i0 i1 queue w q w' H0 H1 Hle Hfuel; cbn [decompose].
  - destruct (Z.ltb_spec i1 (size wps)); [lia|]. intros [= <- <-].
    exists [], []. rewrite app_nil_r. split; [reflexivity|].
    split; [constructor|]. cbn. lia.
  - destruct (Z.ltb_spec i1 (size wps)) as [Hlt|Hge].
    2:{ intros [= <- <-]. exists [], []. rewrite app_nil_r.
        split; [reflexivity|]. split; [constructor|]. cbn. lia. }
    destruct (subscript wps i0) as [wp0|]; cbn [obind]; [|discriminate].
    destruct (subscript wps i1) as [wp1|] eqn:Hwp1; cbn [obind];
      [|discriminate].
    apply subscript_lookup in Hwp1. destruct Hwp1 as [_ Hwp1].
    destruct (collect_lanes _ _ _ _) as [cl|]; cbn [obind]; [|discriminate].
    destruct (match wp_graph_index wp1 with
              | Some gi => _
              | None => _
              end) as [m|]; cbn [obind]; [|discriminate].
    destruct (rotation_target _ _ _ _) as [[[tp ti] sk]|] eqn:Htarget;
      cbn [obind]; [|discriminate].
    apply rotation_target_cases in Htarget; [|lia|lia|lia|exact Hwp1].
    cbn [make_command].
    set (dt := mkData (fst cl) (snd cl) (Some (yaw tp)) None (params w)
                 (EstimateForTarget ti)).
    set (dest := mkDestination m tp (wp_graph_index wp1)).
    set (cmd := mkCommand (length (datas w)) (Some (NavigationRequest dest))
                  None (length (identifiers w))).
    set (w1 := with_identifiers _ _).
    assert (Hcmd : forall wp, 0 <= ti -> wps !! Z.to_nat ti = Some wp ->
                              tp = wp_position wp -> targets wps w1 cmd ti).
    { intros wp Hti Hwp Htp. exists dt, wp, dest. split.
      - cbn [data cmd datas w1 with_identifiers with_datas].
        apply list_lookup_middle. reflexivity.
      - repeat split; auto. cbn [final_orientation dt]. now rewrite Htp. }
    assert (Hrec : forall j0 j1,
              0 <= j0 -> j1 = j0 + 1 -> j1 <= size wps ->
              size wps - j1 <= Z.of_nat fuel ->
              decompose fuel g wps m j0 j1 (queue ++ [cmd]) w1 = Ok (q, w') ->
              forall wp, 0 <= ti -> wps !! Z.to_nat ti = Some wp ->
                         tp = wp_position wp ->
              exists added tis,
                q = queue ++ cmd :: added
                /\ Forall2 (targets wps w') (cmd :: added) (ti :: tis)
                /\ covers (skip_rotation_commands (params w)) wps j1 tis
                     (size wps)).
    { intros j0 j1 Hj0 Hj1 Hjle Hjfuel Hdec wp Hti Hwp Htp.
      destruct (decompose_newly_made _ _ _ _ _ _ _ _ _ _ Hdec)
        as (added0 & _ & _ & _ & _ & _ & (dts & Hdts & _) & _).
      destruct (IH m j0 j1 (queue ++ [cmd]) w1 q w' Hj0 Hj1 Hjle Hjfuel Hdec)
        as (added & tis & -> & Hall & Hcov).
      exists added, tis. rewrite <- app_assoc. split; [reflexivity|].
      split; [|exact Hcov]. constructor; [|exact Hall].
      apply (targets_ext wps w1); [now exists dts|]. now apply (Hcmd wp). }
    destruct Htarget as [(-> & -> & Htp & Hno)
                        |(-> & Hskip & -> & Hlt2 & Hturn & wp2 & Hwp2 & Htp)].
    + rewrite !size_wrap_small by lia. intros Hdec.
      destruct (Hrec (i0 + 1) (i1 + 1)) with (wp := wp1)
        as (added & tis & Hq & Hall & Hcov); try lia; auto.
      exists (cmd :: added), (i1 :: tis). split; [exact Hq|].
      split; [exact Hall|]. cbn [covers]. split; [|exact Hcov].
      left. split; [reflexivity|exact Hno].
    + rewrite !(size_wrap_small (i0 + 1)), !(size_wrap_small (i1 + 1)) by lia.
      rewrite !size_wrap_small by lia. intros Hdec.
      destruct (Hrec (i0 + 1 + 1) (i1 + 1 + 1)) with (wp := wp2)
        as (added & tis & Hq & Hall & Hcov); try lia; auto.
      exists (cmd :: added), (i1 + 1 :: tis). split; [exact Hq|].
      split; [exact Hall|]. cbn [covers]. split; [|exact Hcov].
      right. now repeat split.
Qed.

Lemma newly_made_live w w' added c :
  newly_made w w' added -> In c added ->
  update_fn w' (identifier c) = Some (data c)
  /\ (length (identifiers w) <= identifier c)%nat
  /\ exists dt, datas w' !! data c = Some dt
                /\ schedule_override dt = None /\ nav_params dt = params w.
Proof.
  intros (_ & Hids & Hseq & Hdata & (dts & Hdts & Hlen & Hall) & _) Hin.
  apply list_elem_of_In, list_elem_of_lookup_1 in Hin. destruct Hin as [k Hk].
  assert (Hlt : (k < length added)%nat) by (now apply lookup_lt_Some in Hk).
  assert (Hi : identifier c = (length (identifiers w) + k)%nat).
  { assert (H : map identifier added !! k = Some (identifier c))
      by (now rewrite list_lookup_fmap, Hk).
    rewrite Hseq in H. apply lookup_seq in H. lia. }
  assert (Hd : data c = (length (datas w) + k)%nat).
  { assert (H : map data added !! k = Some (data c))
      by (now rewrite list_lookup_fmap, Hk).
    rewrite Hdata in H. apply lookup_seq in H. lia. }
  split; [|split; [lia|]].
  - unfold update_fn. rewrite Hids, Hi, lookup_app_r by lia.
    replace (length (identifiers w) + k - length (identifiers w))%nat with k
      by lia.
    now rewrite list_lookup_fmap, Hk.
  - destruct (lookup_lt_is_Some_2 dts k) as [dt Hdt]; [lia|].
    exists dt. rewrite Hdts, Hd, lookup_app_r by lia.
    replace (length (datas w) + k - length (datas w))%nat with k by lia.
    split; [exact Hdt|]. rewrite Forall_forall in Hall.
    apply Hall. eapply list_elem_of_lookup_2. exact Hdt.
Qed.

Lemma find_initial_map_found g wps :
  plan_on_graph g wps ->
  Exists (fun wp => wp_graph_index wp <> None) wps ->
  exists m, find_initial_map g wps = Ok (Some m).
Proof.
  intros Hplan Hex. induction Hex as [wp rest Hwp|wp rest Hex IH];
    cbn [find_initial_map]; inversion Hplan as [|? ? [_ Hgi] Hrest]; subst.
  - destruct (wp_graph_index wp) as [gi|]; [|now destruct Hwp].
    destruct (at_lt (graph_waypoints g) gi (Hgi gi eq_refl)) as [gw [Hat _]].
    unfold get_waypoint. rewrite Hat. cbn [obind]. now eexists.
  - destruct (wp_graph_index wp) as [gi|]; [|now apply IH].
    destruct (at_lt (graph_waypoints g) gi (Hgi gi eq_refl)) as [gw [Hat _]].
    unfold get_waypoint. rewrite Hat. cbn [obind]. now eexists.
Qed.

(** The queue that [follow_new_path] makes of an accepted plan. *)
Lemma follow_new_path_queue wps w pl i0 :
  context_alive w = true ->
  planner (context w) = Some pl ->
  plan_on_graph (graph pl) wps ->
  2 <= size wps -> size wps + 1 < 2 ^ 64 ->
  Exists (fun wp => wp_graph_index wp <> None) wps ->
  find_connection (location (context w)) 0 wps (false, 0) = (true, i0) ->
  exists queue w1 tis,
    follow_new_path wps true true w = Ok (next (make_tracker queue w1))
    /\ queue <> []
    /\ newly_made w w1 queue
    /\ (forall c, In c queue ->
          okay w1 c = true /\ update_fn w1 (identifier c) = Some (data c))
    /\ Forall2 (targets wps w1) queue tis
    /\ covers (skip_rotation_commands (params w)) wps
         (Z.min i0 (size wps - 2) + 1) tis (size wps).
Proof.
  intros Ha Hpl Hplan Hsize Hbig Hex Hconn.
  destruct (find_initial_map_found _ _ Hplan Hex) as [initial_map Hmap].
  unfold follow_new_path.
  rewrite Ha, Hpl. cbn [negb orb].
  destruct (Z.eqb_spec (size wps) 0); [lia|]. cbn [orb].
  rewrite Hmap. cbn [obind]. rewrite Hconn. cbn [negb].
  pose proof (find_connection_range (location (context w)) wps 0 (false, 0))
    as Hr.
  rewrite Hconn in Hr. cbn [snd] in Hr.
  assert (Hi0 : 0 <= i0 <= size wps - 1) by lia.
  rewrite (size_wrap_small (size wps - 1)) by lia.
  rewrite (size_wrap_small (size wps - 2)) by lia.
  replace (if size wps - 1 <=? i0 then size wps - 2 else i0)
    with (Z.min i0 (size wps - 2))
    by (destruct (Z.leb_spec (size wps - 1) i0); lia).
  set (j := Z.min i0 (size wps - 2)).
  assert (Hj : 0 <= j <= size wps - 2) by (unfold j; lia).
  rewrite (size_wrap_small (j + 1)) by lia.
  destruct (decompose_in_bounds (graph pl) wps Hplan Hbig
              (decompose_fuel wps) initial_map j (j + 1) [] w)
    as (added & w' & Hdec & Hne); try lia.
  { unfold decompose_fuel, size. lia. }
  rewrite Hdec. cbn [obind fst snd app].
  destruct (decompose_newly_made _ _ _ _ _ _ _ _ _ _ Hdec)
    as (added1 & Heq1 & Hmade).
  cbn [app] in Heq1. subst added1.
  destruct (decompose_targets (graph pl) wps Hbig (decompose_fuel wps)
              initial_map j (j + 1) [] w added w')
    as (added2 & tis & Heq2 & Hall & Hcov); try lia; auto.
  { unfold decompose_fuel, size. lia. }
  cbn [app] in Heq2. subst added2.
  exists added, w', tis. split; [reflexivity|]. split; [apply Hne; lia|].
  split; [exact Hmade|]. split; [|now split].
  intros c Hin. destruct (newly_made_live w w' added c Hmade Hin) as (Hu & _).
  unfold okay. rewrite Hu. now split.
Qed.

(** X5. A plan of two or more waypoints that passes validation. The queue
    takes the waypoints after the connection, which is moved back to the
    last but one when found on the last, in order up to the last: one
    command per waypoint, or per two when rotation commands are skipped and
    the second only turns the robot. Each command is made with an identifier
    and data of its own, live and without a schedule override, and the
    tracker of the queue is started. *)
Theorem follow_new_path_decomposes wps w pl i0 :
  context_alive w = true ->
  planner (context w) = Some pl ->
  plan_on_graph (graph pl) wps ->
  2 <= size wps -> size wps + 1 < 2 ^ 64 ->
  Exists (fun wp => wp_graph_index wp <> None) wps ->
  find_connection (location (context w)) 0 wps (false, 0) = (true, i0) ->
  exists queue w1 tis,
    follow_new_path wps true true w = Ok (next (make_tracker queue w1))
    /\ queue <> []
    /\ newly_made w w1 queue
    /\ (forall c, In c queue ->
          okay w1 c = true /\ update_fn w1 (identifier c) = Some (data c))
    /\ Forall2 (targets wps w1) queue tis
    /\ covers (skip_rotation_commands (params w)) wps
         (Z.min i0 (size wps - 2) + 1) tis (size wps).
Proof. exact (follow_new_path_queue wps w pl i0). Qed.

Section WholePath.

Variable compute_plan_starts :
  Graph -> string -> Vector3d -> Time -> float -> float -> float -> StartSet.
Variable from_seconds : float -> Duration.
Variable to_seconds : Duration -> float.
Variable interpolate_positions :
  VehicleTraits -> Time -> list Vector3d -> list TrajectoryWaypoint.

(** X6. An accepted path, handed to an integrator that answers every
    navigation request by calling [finished()] before it returns. The
    path is decomposed into the queue of its commands, which take the
    waypoints after the connection in order up to the last, and the
    tracker of that queue is started; once the worker has run its tasks,
    every command of the queue was begun, once and in queue order, and
    the completion of the path fired once, after the last begin. *)
Theorem accepted_path_runs_to_completion wps w pl i0 :
  context_alive w = true ->
  worker w = [] ->
  planner (context w) = Some pl ->
  plan_on_graph (graph pl) wps ->
  2 <= size wps -> size wps + 1 < 2 ^ 64 ->
  Exists (fun wp => wp_graph_index wp <> None) wps ->
  find_connection (location (context w)) 0 wps (false, 0) = (true, i0) ->
  (forall dest, handle_nav_request w dest <> []
                /\ Forall (fun a => a = CallFinished)
                     (handle_nav_request w dest)) ->
  exists queue w1 tis n w',
    follow_new_path wps true true w = Ok (next (make_tracker queue w1))
    /\ queue <> []
    /\ newly_made w w1 queue
    /\ Forall2 (targets wps w1) queue tis
    /\ covers (skip_rotation_commands (params w)) wps
         (Z.min i0 (size wps - 2) + 1) tis (size wps)
    /\ drain compute_plan_starts from_seconds to_seconds
         interpolate_positions n (next (make_tracker queue w1)) = Ok w'
    /\ worker w' = []
    /\ observed w'
       = PathFinished (next_tracker w) :: rev (map begin_of queue)
           ++ observed w.
Proof.
  intros Ha Hidle Hpl Hplan Hsize Hbig Hex Hconn Hint.
  destruct (follow_new_path_queue wps w pl i0 Ha Hpl Hplan Hsize Hbig
              Hex Hconn)
    as (queue & wd & tis & Hfollow & Hne & Hmade & _ & Htargets & Hcovers).
  pose proof Hmade as (Hsame & _ & Hseq & _ & _ & Hcmds).
  destruct Hsame as (Hc & Hal & Hwk & _ & _ & Hnt & _ & Hnav & _ & Hobs).
  assert (Hdistinct : NoDup (map identifier queue)).
  { rewrite Hseq. apply NoDup_ListNoDup, List.seq_NoDup. }
  assert (Hfin : Forall (finishing_command wd) queue).
  { rewrite Forall_forall. intros c Hin. apply list_elem_of_In in Hin.
    destruct (newly_made_live w wd queue c Hmade Hin)
      as (Hu & _ & dt & Hdt & Hov & _).
    split; [rewrite Hu; discriminate|]. split; [now exists dt|].
    rewrite Forall_forall in Hcmds.
    destruct (Hcmds c (proj2 (list_elem_of_In _ _) Hin)) as (_ & dest & Hb).
    exists (NavigationRequest dest). split; [exact Hb|].
    cbn [script_of]. rewrite Hnav. apply Hint. }
  assert (Hsync : Forall (finishes_in_begin wd) queue).
  { rewrite Forall_forall. intros c Hin.
    rewrite Forall_forall in Hcmds.
    destruct (Hcmds c Hin) as (_ & dest & Hb).
    exists (NavigationRequest dest). split; [exact Hb|].
    cbn [script_of]. rewrite Hnav. apply Hint. }
  assert (Hwd : worker wd = []) by congruence.
  assert (Hpend : Forall (fun t => is_report t
                                   \/ is_stale (next_tracker wd) queue t)
                    (worker wd)) by (rewrite Hwd; constructor).
  destruct (start_phase queue wd) as (Hst & Hph & Hp & Hown); auto;
    try congruence.
  destruct (drain_completes compute_plan_starts from_seconds to_seconds
              interpolate_positions queue wd Hdistinct Hfin
              (work_left wd (next (make_tracker queue wd)))
              (next (make_tracker queue wd)) Hsync Hst Hph (Hp Hsync)
              (Hown Hwd))
    as (w' & Hdrain & Hw' & Ho'); [lia|].
  exists queue, wd, tis, (work_left wd (next (make_tracker queue wd))), w'.
  split; [exact Hfollow|]. split; [exact Hne|]. split; [exact Hmade|].
  split; [exact Htargets|]. split; [exact Hcovers|].
  split; [exact Hdrain|]. split; [exact Hw'|]. now rewrite Ho', Hnt, Hobs.
Qed.

End WholePath.

(* ================================================================== *)
(** ** Paths that are not taken up *)


Lemma existsb_false {A} (f : A -> bool) (l : list A) :
  (forall x, In x l -> f x = false) -> existsb f l = false.
Proof.
  intros H. induction l as [|a l IH]; [reflexivity|]. cbn [existsb].
  rewrite (H a) by now left. apply IH. intros x Hx. apply H. now right.
Qed.

Lemma find_connection_none loc wps :
  forall i acc,
  0 <= i -> fst acc = false ->
  (forall wp gi l, In wp wps -> wp_graph_index wp = Some gi -> In l loc ->
                   start_waypoint l <> gi) ->
  (forall wp lane l,
     In wp (if 0 <? i then wps else tail wps) ->
     In lane (wp_approach_lanes wp) -> In l loc ->
     start_lane l <> Some lane) ->
  fst (find_connection loc i wps acc) = false.
Proof.
  induction wps as [|wp rest IH]; intros i acc Hi Hacc Hwp Hlane;
    cbn [find_connection]; [exact Hacc|].
  apply IH; [lia| | |].
  - assert (H1 : match wp_graph_index wp with
                 | Some gi =>
                     if existsb (fun l => (gi =? start_waypoint l)%nat) loc
                     then (true, i) else acc
                 | None => acc
                 end = acc).
    { destruct (wp_graph_index wp) as [gi|] eqn:Hgi; [|reflexivity].
      rewrite existsb_false; [reflexivity|].
      intros l Hl. apply Nat.eqb_neq. intros ->.
      now apply (Hwp wp (start_waypoint l) l (or_introl eq_refl) Hgi Hl). }
    rewrite H1. destruct (Z.ltb_spec 0 i) as [Hpos|Hzero]; cbn [andb];
      [|exact Hacc].
    rewrite existsb_false; [exact Hacc|].
    intros lane Hin. apply existsb_false. intros l Hl.
    destruct (start_lane l) as [ll|] eqn:Hll; [|reflexivity].
    apply Nat.eqb_neq. intros ->.
    apply (Hlane wp ll l); auto. now left.
  - intros wp' gi l Hin. apply Hwp. now right.
  - intros wp' lane l Hin. apply Hlane.
    destruct (Z.ltb_spec 0 (i + 1)); [|lia].
    destruct (0 <? i); [now right|exact Hin].
Qed.

Lemma find_initial_map_none g wps :
  Forall (fun wp => wp_graph_index wp = None) wps ->
  find_initial_map g wps = Ok None.
Proof.
  induction 1 as [|wp rest Hwp _ IH]; cbn [find_initial_map]; [reflexivity|].
  now rewrite Hwp.
Qed.

(** X7. A path that is not taken up. In the order in which the code tests:
    with the robot's context gone nothing happens; an empty plan or a
    missing callback is a warning; a missing planner, or a plan without a
    waypoint on the graph, is an error; and a plan that does not meet the
    robot's location asks for a replan. In each case the tracker of the path
    before, the worker's queue and the commands are left as they were: the
    previous path is not stopped. *)
Theorem follow_new_path_rejected wps e c w :
  (context_alive w = false -> follow_new_path wps e c w = Ok w)
  /\ (context_alive w = true ->
      wps = [] \/ e = false \/ c = false ->
      follow_new_path wps e c w
      = Ok (with_context (log WarnInvalidPath (context w)) w))
  /\ (context_alive w = true -> wps <> [] ->
      planner (context w) = None ->
      follow_new_path wps true true w
      = Ok (with_context (log ErrPlannerMissing (context w)) w))
  /\ (forall pl,
        context_alive w = true -> wps <> [] ->
        planner (context w) = Some pl ->
        Forall (fun wp => wp_graph_index wp = None) wps ->
        follow_new_path wps true true w
        = Ok (with_context (log ErrNoInitialMap (context w)) w))
  /\ (forall pl,
        context_alive w = true ->
        planner (context w) = Some pl ->
        plan_on_graph (graph pl) wps ->
        Exists (fun wp => wp_graph_index wp <> None) wps ->
        disconnected (location (context w)) wps ->
        follow_new_path wps true true w
        = Ok (with_context (request_replan (context w)) w)).
Proof.
  assert (Hsize : wps <> [] -> (size wps =? 0) = false).
  { intros Hne. destruct wps; [now destruct Hne|]. reflexivity. }
  unfold follow_new_path. repeat split.
  - now intros ->.
  - intros -> [ -> | [ -> | -> ] ]; cbn [negb]; [reflexivity| |].
    + now rewrite orb_true_r.
    + now rewrite orb_true_r.
  - intros -> Hne ->. now rewrite (Hsize Hne).
  - intros pl -> Hne -> Hall. rewrite (Hsize Hne). cbn [negb orb].
    now rewrite find_initial_map_none.
  - intros pl -> -> Hplan Hex [Hwp Hlane].
    assert (Hne : wps <> []) by (intros ->; inversion Hex).
    rewrite (Hsize Hne). cbn [negb orb].
    destruct (find_initial_map_found _ _ Hplan Hex) as [m ->]. cbn [obind].
    pose proof (find_connection_none (location (context w)) wps 0 (false, 0)
                  ltac:(lia) eq_refl Hwp Hlane) as Hnone.
    destruct (find_connection _ _ _ _) as [found i0]. cbn [fst] in Hnone.
    now rewrite Hnone.
Qed.

(* ================================================================== *)
(** ** What a location update may change *)


Lemma steady_refl c : steady c c.
Proof. unfold steady. now repeat split. Qed.

Lemma steady_trans c1 c2 c3 : steady c1 c2 -> steady c2 c3 -> steady c1 c3.
Proof.
  intros (A1 & A2 & A3 & A4 & A5) (B1 & B2 & B3 & B4 & B5).
  unfold steady. repeat split; congruence.
Qed.

Lemma steady_log e c : steady c (log e c).
Proof. unfold steady. now repeat split. Qed.

Lemma steady_set_location s c : steady c (set_location s c).
Proof. unfold steady. now repeat split. Qed.

Lemma steady_cumulative_delay p dl th c : steady c (cumulative_delay p dl th c).
Proof. unfold steady. now repeat split. Qed.

Section Safety.

Variable compute_plan_starts :
  Graph -> string -> Vector3d -> Time -> float -> float -> float -> StartSet.
Variable from_seconds : float -> Duration.
Variable to_seconds : Duration -> float.

Lemma call_arrival_estimator_steady e dt c :
  steady c (call_arrival_estimator e dt c)
  /\ logger (call_arrival_estimator e dt c) = logger c
  /\ at_most_one_more (delays (itinerary c))
       (delays (itinerary (call_arrival_estimator e dt c))).
Proof.
  destruct e; cbn; unfold steady; repeat split; try (now left).
  right. now eexists.
Qed.

Lemma estimate_arrival_steady ctx pl d l :
  Forall (fun wp => (wp < num_waypoints (graph pl))%nat) (waypoints d) ->
  exists c', estimate_arrival from_seconds ctx pl d l = Ok c'
    /\ steady ctx c' /\ logger c' = logger ctx
    /\ at_most_one_more (delays (itinerary ctx)) (delays (itinerary c')).
Proof.
  intros Hwps. unfold estimate_arrival.
  destruct (last (waypoints d)) as [back|] eqn:Hlast.
  - assert (Hin : In back (waypoints d)).
    { destruct (waypoints d) as [|a rest] eqn:Hw; [discriminate|].
      rewrite <- Hw in *. apply last_Some in Hlast. destruct Hlast as [l' ->].
      apply in_or_app. right. now left. }
    rewrite Forall_forall in Hwps.
    destruct (at_lt (graph_waypoints (graph pl)) back
                (Hwps back (proj2 (list_elem_of_In _ _) Hin))) as [gw [Hat _]].
    unfold get_waypoint. rewrite Hat. cbn [obind].
    eexists. split; [reflexivity|]. apply call_arrival_estimator_steady.
  - exists ctx. split; [reflexivity|]. split; [apply steady_refl|].
    split; [reflexivity|now left].
Qed.

(** X8. [update_location] on a graph as rmf_traffic keeps it: whatever the
    hints, the position and the override, the update returns; it never asks
    for a replan and never touches the planner or the plans of the
    itinerary; it logs at most one message and reports at most one delay. *)
Theorem update_location_is_contained ctx d map_name l :
  (forall pl, planner ctx = Some pl -> graph_ok (graph pl) = true) ->
  exists ctx',
    update_location compute_plan_starts from_seconds to_seconds ctx d
      map_name l = Ok ctx'
    /\ steady ctx ctx'
    /\ at_most_one_more (logger ctx) (logger ctx')
    /\ at_most_one_more (delays (itinerary ctx)) (delays (itinerary ctx')).
Proof.
  intros Hg. unfold update_location.
  assert (Hlog : forall e,
            steady ctx (log e ctx)
            /\ at_most_one_more (logger ctx) (logger (log e ctx))
            /\ at_most_one_more (delays (itinerary ctx))
                 (delays (itinerary (log e ctx)))).
  { intros e. split; [apply steady_log|]. split; [right; now eexists|now left]. }
  destruct (schedule_override d) as [ov|].
  { unfold overridden_update.
    destruct (override_delay_reports from_seconds to_seconds ctx (xy l) ov)
      as (c1 & -> & Hcase). cbn [obind].
    assert (H1 : steady ctx c1
                 /\ logger c1 = logger ctx
                 /\ at_most_one_more (delays (itinerary ctx))
                      (delays (itinerary c1))).
    { destruct Hcase as [->|[delay ->]].
      - split; [apply steady_refl|]. split; [reflexivity|now left].
      - split; [apply steady_cumulative_delay|]. split; [reflexivity|].
        right. now eexists. }
    destruct H1 as (Hs & Hl & Hd).
    destruct (planner c1); eexists; (split; [reflexivity|]).
    - split; [eapply steady_trans; [exact Hs|apply steady_set_location]|].
      split; [left; exact Hl|exact Hd].
    - split; [eapply steady_trans; [exact Hs|apply steady_log]|].
      split; [|exact Hd]. right. cbn. rewrite Hl. now eexists. }
  destruct (planner ctx) as [pl|] eqn:Hpl.
  2:{ eexists. split; [reflexivity|]. apply Hlog. }
  specialize (Hg pl eq_refl).
  set (g := graph pl) in *.
  destruct (decide (Forall (fun wp => (wp < num_waypoints g)%nat)
                      (waypoints d))) as [Hwps|Hwps].
  2:{ apply not_Forall_Exists in Hwps; [|intros x; apply _].
      assert (Hex : Exists (fun wp => (num_waypoints g <= wp)%nat)
                      (waypoints d)).
      { eapply Exists_impl; [exact Hwps|]. cbn. intros. lia. }
      destruct (scan_waypoints_outside ctx g
                  (max_merge_waypoint_distance (nav_params d)) (xy l)
                  (waypoints d) None Hex) as (wp & _ & _ & ->).
      cbn [obind]. eexists. split; [reflexivity|]. apply Hlog. }
  destruct (scan_waypoints_best ctx g
              (max_merge_waypoint_distance (nav_params d)) (xy l)
              (waypoints d) [] None Hwps) as [on_waypoint [-> Hbest]].
  { intros c dd []. }
  cbn [obind]. rewrite app_nil_l in Hbest.
  assert (Hfinal : forall starts,
            exists ctx',
              estimate_arrival from_seconds (set_location starts ctx) pl d l
              = Ok ctx'
              /\ steady ctx ctx'
              /\ at_most_one_more (logger ctx) (logger ctx')
              /\ at_most_one_more (delays (itinerary ctx))
                   (delays (itinerary ctx'))).
  { intros starts.
    destruct (estimate_arrival_steady (set_location starts ctx) pl d l Hwps)
      as (c' & Hc' & Hs & Hl & Hd).
    exists c'. split; [exact Hc'|].
    split; [eapply steady_trans; [apply steady_set_location|exact Hs]|].
    split; [left; exact Hl|exact Hd]. }
  unfold resolve_starts. fold g.
  destruct on_waypoint as [[wp dist]|].
  - destruct Hbest as (Hin & (gw & Hgw & _) & _).
    assert (Hlt : (wp < num_waypoints g)%nat)
      by (now apply lookup_lt_Some in Hgw).
    destruct (graph_ok_lanes_from g wp Hg Hlt) as (ls & -> & _ & Hls).
    cbn [obind]. rewrite (scan_lanes_from_starts _ _ _ _ _ _ _ _ _ Hls).
    cbn [obind]. apply Hfinal.
  - destruct (decide (Forall (fun lane => (lane < num_lanes g)%nat)
                        (lanes d))) as [Hls|Hls].
    2:{ apply not_Forall_Exists in Hls; [|intros x; apply _].
        assert (Hex : Exists (fun lane => (num_lanes g <= lane)%nat) (lanes d)).
        { eapply Exists_impl; [exact Hls|]. cbn. intros. lia. }
        destruct (scan_lanes_outside ctx g (lane_closures pl)
                    (max_merge_lane_distance (nav_params d)) (xy l) (lanes d)
                    None Hg Hex) as (lane & _ & _ & ->).
        cbn [obind]. eexists. split; [reflexivity|]. apply Hlog. }
    destruct (scan_lanes_best ctx g (lane_closures pl)
                (max_merge_lane_distance (nav_params d)) (xy l) (lanes d)
                [] None Hg Hls) as [on_lane [-> Hlane]].
    { intros c dd []. }
    cbn [obind]. rewrite app_nil_l in Hlane.
    destruct on_lane as [[lane dist]|].
    + destruct Hlane as (_ & (ln & _ & _ & Hln & _) & _).
      assert (Hlt : (lane < num_lanes g)%nat)
        by (now apply lookup_lt_Some in Hln).
      unfold g. rewrite (lane_starts_ok pl (now ctx) l lane Hlt).
      cbn [obind]. apply Hfinal.
    + cbn [obind]. apply Hfinal.
Qed.

End Safety.

Lemma scan_samples_closest p samples :
  forall seen acc,
  match acc with
  | None => seen = []
  | Some (t, d) =>
      exists s, t = time s /\ d = sample_distance p s /\ closest_sample p seen s
  end ->
  match scan_samples p samples acc with
  | None => seen ++ samples = []
  | Some (t, d) =>
      exists s, t = time s /\ d = sample_distance p s
                /\ closest_sample p (seen ++ samples) s
  end.
Proof.
  induction samples as [|wp rest IH]; intros seen acc Hacc; cbn [scan_samples].
  - rewrite app_nil_r. exact Hacc.
  - replace (seen ++ wp :: rest) with ((seen ++ [wp]) ++ rest)
      by (now rewrite <- app_assoc).
    apply IH. fold (sample_distance p wp).
    destruct acc as [[t d]|].
    + destruct Hacc as (s & -> & -> & Hin & Hbest).
      destruct (PrimFloat.ltb (sample_distance p wp) (sample_distance p s))
        eqn:Hlt.
      * exists wp. split; [reflexivity|]. split; [reflexivity|]. split.
        { apply in_or_app. right. now left. }
        intros s' Hs'. apply in_app_or in Hs'. destruct Hs' as [Hs'|[<-|[]]].
        -- eapply Binary64.ltb_false_trans; [|exact Hlt]. now apply Hbest.
        -- apply Binary64.ltb_irrefl.
      * exists s. split; [reflexivity|]. split; [reflexivity|]. split.
        { apply in_or_app. now left. }
        intros s' Hs'. apply in_app_or in Hs'. destruct Hs' as [Hs'|[<-|[]]].
        -- now apply Hbest.
        -- exact Hlt.
    + subst seen. exists wp. split; [reflexivity|]. split; [reflexivity|].
      split; [now left|]. intros s' [<-|[]]. apply Binary64.ltb_irrefl.
Qed.

Section NearestSegment.

Variable from_seconds : float -> Duration.
Variable to_seconds : Duration -> float.

(** X9. The delay of an update under a schedule override whose trajectory
    gives no NaN distance (no two consecutive samples on one point): the
    nearest of the segments that accept the position gives the expected
    time; when no segment accepts it, a sample that none is closer than
    does; and an empty trajectory reports nothing. The delay is reported for
    the override's plan with a threshold of one second. *)
Theorem override_delay_uses_nearest ctx p ov :
  let samples := trajectory (route ov) in
  let segments := seq 0 (length samples - 1) in
  (forall j dd, segment_matches samples p j dd -> ~ is_nan dd) ->
  exists ctx',
    override_delay from_seconds to_seconds ctx p ov = Ok ctx'
    /\ ((exists i dist s0 s1,
           segment_matches samples p i dist
           /\ nearest (segment_matches samples p) segments dist
           /\ samples !! i = Some s0 /\ samples !! S i = Some s1
           /\ ctx' = cumulative_delay (plan_id ov)
                       (now ctx - expected_time from_seconds to_seconds p s0 s1)
                       one_second ctx)
        \/ (none_matches (segment_matches samples p) segments
            /\ exists s,
                 closest_sample p samples s
                 /\ ctx' = cumulative_delay (plan_id ov) (now ctx - time s)
                             one_second ctx)
        \/ (samples = [] /\ ctx' = ctx)).
Proof.
  intros samples segments Hnum. unfold override_delay. fold samples.
  pose proof (scan_segments_best samples p samples 0 None eq_refl) as Hbest.
  cbn [Nat.add] in Hbest.
  destruct (scan_segments p 0 samples None) as [[i dist]|] eqn:Hscan.
  - destruct (scan_segments_nearest samples p i dist Hnum Hscan) as [Hm Hnear].
    pose proof Hm as (s0 & s1 & H0 & H1 & _).
    rewrite (proj2 (at_Ok _ _ _) H0). cbn [obind].
    replace (i + 1)%nat with (S i) by lia.
    rewrite (proj2 (at_Ok _ _ _) H1). cbn [obind].
    eexists. split; [reflexivity|]. left. exists i, dist, s0, s1. auto.
  - assert (Hnone : none_matches (segment_matches samples p) segments).
    { apply Hbest. intros c d []. }
    pose proof (scan_samples_closest p samples [] None eq_refl) as Hs.
    cbn [app] in Hs.
    destruct (scan_samples p samples None) as [[t d]|].
    + destruct Hs as (s & -> & _ & Hclose).
      eexists. split; [reflexivity|]. right. left. split; [exact Hnone|].
      now exists s.
    + eexists. split; [reflexivity|]. right. right. now split.
Qed.

End NearestSegment.

(* ================================================================== *)
(** ** Docking *)


Lemma execute_found event finder :
  found finder = false ->
  looking_for (execute event finder) = looking_for finder
  /\ (found (execute event finder) = true
      <-> event = Dock (looking_for finder)).
Proof.
  intros Hf. destruct event; cbn [execute];
    try (split; [reflexivity|]; rewrite Hf; split; discriminate).
  destruct (String.eqb_spec (looking_for finder) dock_name) as [<-|Hne].
  - cbn. split; [reflexivity|]. now split.
  - split; [reflexivity|]. rewrite Hf. split; [discriminate|].
    intros [= E]. now destruct Hne.
Qed.

Section DockingFacts.

Variable compute_plan_starts :
  Graph -> string -> Vector3d -> Time -> float -> float -> float -> StartSet.
Variable from_seconds : float -> Duration.
Variable to_seconds : Duration -> float.
Variable interpolate_positions :
  VehicleTraits -> Time -> list Vector3d -> list TrajectoryWaypoint.
Variable current_plan_id : Itinerary -> PlanId.
Variable entry_event : Graph -> nat -> option LaneEvent.
Variable exit_event : Graph -> nat -> option LaneEvent.

Lemma find_dock_first g dock_name :
  forall count i finder,
  found finder = false -> looking_for finder = dock_name ->
  match find_dock entry_event exit_event g finder i count with
  | Some lane =>
      (i <= lane < i + count)%nat
      /\ docks_at entry_event exit_event g dock_name lane
      /\ forall j, (i <= j < lane)%nat ->
                   ~ docks_at entry_event exit_event g dock_name j
  | None =>
      forall j, (i <= j < i + count)%nat ->
                ~ docks_at entry_event exit_event g dock_name j
  end.
Proof.
  induction count as [|count IH]; intros i finder Hf Hl; cbn [find_dock].
  - intros j Hj. lia.
  - set (finder1 := match entry_event g i with
                    | Some event => execute event finder
                    | None => finder
                    end).
    set (finder2 := match exit_event g i with
                    | Some event => execute event finder1
                    | None => finder1
                    end).
    assert (H1 : looking_for finder1 = dock_name
                 /\ (found finder1 = true
                     <-> entry_event g i = Some (Dock dock_name))).
    { unfold finder1. destruct (entry_event g i) as [event|].
      - destruct (execute_found event finder Hf) as [-> Hiff].
        split; [exact Hl|]. rewrite Hiff, Hl. split; congruence.
      - split; [exact Hl|]. rewrite Hf. split; discriminate. }
    destruct H1 as [Hl1 Hf1].
    destruct (found finder2) eqn:Hf2.
    + split; [lia|]. split; [|intros j Hj; lia].
      unfold finder2 in Hf2. destruct (found finder1) eqn:Hfound1.
      * left. now apply Hf1.
      * destruct (exit_event g i) as [event|] eqn:Hexit; [|congruence].
        destruct (execute_found event finder1 Hfound1) as [_ Hiff].
        right. rewrite Hl1 in Hiff. rewrite Hexit. f_equal. now apply Hiff.
    + assert (Hl2 : looking_for finder2 = dock_name).
      { unfold finder2. destruct (exit_event g i) as [event|]; [|exact Hl1].
        destruct (found finder1) eqn:Hfound1.
        - destruct event; cbn [execute]; try exact Hl1.
          now destruct (String.eqb _ _).
        - destruct (execute_found event finder1 Hfound1) as [-> _]. exact Hl1. }
      assert (Hnot : ~ docks_at entry_event exit_event g dock_name i).
      { intros [He|He].
        - apply Hf1 in He. unfold finder2 in Hf2.
          destruct (exit_event g i) as [event|]; [|congruence].
          destruct event; cbn [execute] in Hf2; try congruence.
          destruct (String.eqb _ _); cbn in Hf2; congruence.
        - unfold finder2 in Hf2. rewrite He in Hf2. cbn [execute] in Hf2.
          rewrite Hl1, String.eqb_refl in Hf2. discriminate. }
      specialize (IH (S i) finder2 Hf2 Hl2).
      destruct (find_dock entry_event exit_event g finder2 (S i) count)
        as [lane|].
      * destruct IH as (Hr & Hd & Hfirst). split; [lia|]. split; [exact Hd|].
        intros j Hj. destruct (decide (j = i)) as [->|Hne]; [exact Hnot|].
        apply Hfirst. lia.
      * intros j Hj. destruct (decide (j = i)) as [->|Hne]; [exact Hnot|].
        apply IH. lia.
Qed.

Lemma dock_result dock_name w pl :
  context_alive w = true ->
  planner (context w) = Some pl ->
  graph_ok (graph pl) = true ->
  let g := graph pl in
  let id := length (identifiers w) in
  exists msg w1 dt,
    dock from_seconds current_plan_id entry_event exit_event dock_name w
    = Ok (msg, w1)
    /\ w1 = next (make_tracker
                    [mkCommand (length (datas w))
                       (Some (DockRequest dock_name)) None id]
                    (with_identifiers
                       (identifiers w ++ [Some (length (datas w))])
                       (with_datas (datas w ++ [dt]) w)))
    /\ identifiers w1 = identifiers w ++ [Some (length (datas w))]
    /\ datas w1 = datas w ++ [dt]
    /\ observed w1 = BeginInvoked id :: observed w
    /\ context w1 = context w /\ context_alive w1 = true
    /\ (exists tr, current_progress w1 = Some tr
                   /\ tracker_id tr = next_tracker w
                   /\ reverse_queue tr = []
                   /\ current_identifier tr = Some id)
    /\ schedule_override dt = None /\ final_orientation dt = None
    /\ nav_params dt = params w
    /\ ((msg = Some WarnDockNotFound
         /\ (forall lane, (lane < num_lanes g)%nat ->
                          ~ docks_at entry_event exit_event g dock_name lane)
         /\ waypoints dt = [] /\ lanes dt = []
         /\ arrival_estimator dt = EstimateIgnored)
        \/ (exists lane w0 w1',
              msg = None
              /\ (lane < num_lanes g)%nat
              /\ docks_at entry_event exit_event g dock_name lane
              /\ (forall j, (j < lane)%nat ->
                            ~ docks_at entry_event exit_event g dock_name j)
              /\ waypoints dt = [lane_entry g lane; lane_exit g lane]
              /\ lanes dt = [lane]
              /\ graph_waypoints g !! lane_entry g lane = Some w0
              /\ graph_waypoints g !! lane_exit g lane = Some w1'
              /\ arrival_estimator dt
                 = EstimateForDock
                     (now (context w)
                      + from_seconds
                          (PrimFloat.div
                             (norm (sub (get_location w1') (get_location w0)))
                             (fmax (linear_nominal_velocity
                                      (vehicle_traits pl)) min_velocity)))
                     (current_plan_id (itinerary (context w))))).
Proof.
  intros Ha Hpl Hg g id. unfold dock. rewrite Ha, Hpl. cbn [negb]. fold g.
  pose proof (find_dock_first g dock_name (num_lanes g) 0
                (mkDockFinder dock_name false) eq_refl eq_refl) as Hfind.
  assert (Hnext : forall dt0,
            let cmd := mkCommand (length (datas w))
                         (Some (DockRequest dock_name)) None id in
            let w1 := with_identifiers
                        (identifiers w ++ [Some (length (datas w))])
                        (with_datas (datas w ++ [dt0]) w) in
            identifiers (next (make_tracker [cmd] w1))
            = identifiers w ++ [Some (length (datas w))]
            /\ datas (next (make_tracker [cmd] w1)) = datas w ++ [dt0]
            /\ observed (next (make_tracker [cmd] w1))
               = BeginInvoked id :: observed w
            /\ context (next (make_tracker [cmd] w1)) = context w
            /\ context_alive (next (make_tracker [cmd] w1)) = true
            /\ exists tr,
                 current_progress (next (make_tracker [cmd] w1)) = Some tr
                 /\ tracker_id tr = next_tracker w
                 /\ reverse_queue tr = []
                 /\ current_identifier tr = Some id).
  { intros dt0 cmd w1. unfold next.
    cbn [current_progress make_tracker with_next_tracker with_progress rev app
         reverse_queue last removelast begin cmd tracker_id finished data
         identifier].
    match goal with
    | |- context [invoke_begin ?cb ?c ?w0] =>
        destruct (invoke_begin_frame cb c w0) as (Hi & Hd & Hc & Hal & Hp & Ho)
    end.
    rewrite Hi, Hd, Hc, Hal, Hp, Ho. cbn. repeat split; [exact Ha|].
    eexists. now repeat split. }
  destruct (find_dock entry_event exit_event g (mkDockFinder dock_name false) 0
              (num_lanes g)) as [lane|].
  - destruct Hfind as (Hr & Hd & Hfirst).
    destruct (graph_ok_lane g lane Hg) as (ln & w0 & w1' & Hln & Hw0 & Hw1);
      [lia|].
    unfold dock_data. fold g. unfold get_lane, get_waypoint.
    rewrite (proj2 (at_Ok _ _ _) Hln). cbn [obind].
    rewrite (proj2 (at_Ok _ _ _) Hw0). cbn [obind].
    rewrite (proj2 (at_Ok _ _ _) Hw1). cbn [obind make_command fst snd].
    destruct (Hnext (mkData [entry_waypoint_index ln; exit_waypoint_index ln]
                       [lane] None None (params w)
                       (EstimateForDock
                          (now (context w)
                           + from_seconds
                               (PrimFloat.div
                                  (norm (sub (get_location w1')
                                           (get_location w0)))
                                  (fmax (linear_nominal_velocity
                                           (vehicle_traits pl)) min_velocity)))
                          (current_plan_id (itinerary (context w))))))
      as (Hi & Hdt & Ho & Hc & Hal & Htr).
    eexists _, _, _. split; [reflexivity|]. split; [reflexivity|].
    split; [exact Hi|]. split; [exact Hdt|]. split; [exact Ho|].
    split; [exact Hc|]. split; [exact Hal|].
    split; [exact Htr|]. split; [reflexivity|]. split; [reflexivity|].
    split; [reflexivity|]. right. exists lane, w0, w1'.
    assert (He : lane_entry g lane = entry_waypoint_index ln)
      by (unfold lane_entry; now rewrite Hln).
    assert (Hx : lane_exit g lane = exit_waypoint_index ln)
      by (unfold lane_exit; now rewrite Hln).
    rewrite He, Hx. cbn [waypoints lanes arrival_estimator].
    repeat split; auto; try lia. intros j Hj. apply Hfirst. lia.
  - cbn [dock_data obind make_command fst snd].
    destruct (Hnext (mkData [] [] None None (params w) EstimateIgnored))
      as (Hi & Hdt & Ho & Hc & Hal & Htr).
    eexists _, _, _. split; [reflexivity|]. split; [reflexivity|].
    split; [exact Hi|]. split; [exact Hdt|]. split; [exact Ho|].
    split; [exact Hc|]. split; [exact Hal|].
    split; [exact Htr|]. split; [reflexivity|]. split; [reflexivity|].
    split; [reflexivity|]. left. repeat split. intros lane Hlane. apply Hfind. lia.
Qed.


(** X10. [dock] with the planner available, on a graph as rmf_traffic keeps
    it: the path before is replaced by a tracker of one new command, which
    is begun at once. When the graph has a lane with a docking event of that
    name, the first such lane and its two waypoints are the hints of the
    command, and its arrival estimates become delays of the plan that was
    current, measured from the time the lane takes at nominal velocity. When
    it has none, a warning is logged and the command has no hints and
    ignores arrival estimates. *)
Theorem dock_makes_one_command dock_name w pl :
  context_alive w = true ->
  planner (context w) = Some pl ->
  graph_ok (graph pl) = true ->
  let g := graph pl in
  let id := length (identifiers w) in
  exists msg w1 dt,
    dock from_seconds current_plan_id entry_event exit_event dock_name w
    = Ok (msg, w1)
    /\ identifiers w1 = identifiers w ++ [Some (length (datas w))]
    /\ datas w1 = datas w ++ [dt]
    /\ observed w1 = BeginInvoked id :: observed w
    /\ (exists tr, current_progress w1 = Some tr
                   /\ tracker_id tr = next_tracker w
                   /\ reverse_queue tr = []
                   /\ current_identifier tr = Some id)
    /\ schedule_override dt = None /\ final_orientation dt = None
    /\ ((msg = Some WarnDockNotFound
         /\ (forall lane, (lane < num_lanes g)%nat ->
                          ~ docks_at entry_event exit_event g dock_name lane)
         /\ waypoints dt = [] /\ lanes dt = []
         /\ arrival_estimator dt = EstimateIgnored)
        \/ (exists lane w0 w1',
              msg = None
              /\ (lane < num_lanes g)%nat
              /\ docks_at entry_event exit_event g dock_name lane
              /\ (forall j, (j < lane)%nat ->
                            ~ docks_at entry_event exit_event g dock_name j)
              /\ waypoints dt = [lane_entry g lane; lane_exit g lane]
              /\ lanes dt = [lane]
              /\ graph_waypoints g !! lane_entry g lane = Some w0
              /\ graph_waypoints g !! lane_exit g lane = Some w1'
              /\ arrival_estimator dt
                 = EstimateForDock
                     (now (context w)
                      + from_seconds
                          (PrimFloat.div
                             (norm (sub (get_location w1') (get_location w0)))
                             (fmax (linear_nominal_velocity
                                      (vehicle_traits pl)) min_velocity)))
                     (current_plan_id (itinerary (context w))))).
Proof.
  intros Ha Hpl Hg g id.
  destruct (dock_result dock_name w pl Ha Hpl Hg)
    as (msg & w1 & dt & H1 & _ & H2 & H3 & H4 & _ & _ & H5 & H6 & H7 & _ & H8).
  exists msg, w1, dt. repeat (split; [assumption|]). exact H8.
Qed.

(** The start set of an update without a schedule override, on a graph
    as rmf_traffic keeps it and with hints inside it, is followed by the
    arrival estimate. *)
Lemma update_location_reaches_estimate ctx pl d map_name l :
  schedule_override d = None ->
  planner ctx = Some pl ->
  graph_ok (graph pl) = true ->
  Forall (fun wp => (wp < num_waypoints (graph pl))%nat) (waypoints d) ->
  Forall (fun lane => (lane < num_lanes (graph pl))%nat) (lanes d) ->
  exists starts,
    update_location compute_plan_starts from_seconds to_seconds ctx d
      map_name l
    = estimate_arrival from_seconds (set_location starts ctx) pl d l.
Proof.
  intros Hov Hpl Hg Hwps Hls. unfold update_location. rewrite Hov, Hpl.
  destruct (scan_waypoints_best ctx (graph pl)
              (max_merge_waypoint_distance (nav_params d)) (xy l)
              (waypoints d) [] None Hwps) as [on_waypoint [-> Hbest]].
  { intros c dd []. }
  cbn [obind]. rewrite app_nil_l in Hbest. unfold resolve_starts.
  destruct on_waypoint as [[wp dist]|].
  - destruct Hbest as (Hin & (gw & Hgw & _) & _).
    assert (Hlt : (wp < num_waypoints (graph pl))%nat)
      by (now apply lookup_lt_Some in Hgw).
    destruct (graph_ok_lanes_from (graph pl) wp Hg Hlt) as (ls & -> & _ & Hl).
    cbn [obind]. rewrite (scan_lanes_from_starts _ _ _ _ _ _ _ _ _ Hl).
    cbn [obind]. now eexists.
  - destruct (scan_lanes_best ctx (graph pl) (lane_closures pl)
                (max_merge_lane_distance (nav_params d)) (xy l) (lanes d)
                [] None Hg Hls) as [on_lane [-> Hlane]].
    { intros c dd []. }
    cbn [obind]. rewrite app_nil_l in Hlane.
    destruct on_lane as [[lane dist]|].
    + destruct Hlane as (_ & (ln & _ & _ & Hln & _) & _).
      assert (Hlt : (lane < num_lanes (graph pl))%nat)
        by (now apply lookup_lt_Some in Hln).
      rewrite (lane_starts_ok pl (now ctx) l lane Hlt).
      cbn [obind]. now eexists.
    + cbn [obind]. now eexists.
Qed.

(** X11. Position updates while docking. For a dock that the graph has,
    every update reports one delay for the plan that was current when
    docking began: the time still needed to the exit of the docking lane at
    nominal velocity, against the arrival expected at the start. For a dock
    that the graph does not have, every update is resolved by the search
    over the whole graph and nothing else is reported. *)
Theorem docking_position_updates dock_name w pl map_name l :
  context_alive w = true ->
  planner (context w) = Some pl ->
  graph_ok (graph pl) = true ->
  let g := graph pl in
  let v := fmax (linear_nominal_velocity (vehicle_traits pl)) min_velocity in
  let w_rot := fmax (rotational_nominal_velocity (vehicle_traits pl))
                 min_velocity in
  exists msg w1 w2,
    dock from_seconds current_plan_id entry_event exit_event dock_name w
    = Ok (msg, w1)
    /\ run_update_position compute_plan_starts from_seconds to_seconds
         map_name l (Some (length (identifiers w))) w1 = Ok w2
    /\ ((msg = Some WarnDockNotFound
         /\ context w2
            = set_location
                (compute_plan_starts g map_name l (now (context w))
                   (max_merge_waypoint_distance (params w))
                   (max_merge_lane_distance (params w))
                   (min_lane_length (params w)))
                (context w))
        \/ (exists lane w0 w1',
              msg = None
              /\ docks_at entry_event exit_event g dock_name lane
              /\ graph_waypoints g !! lane_entry g lane = Some w0
              /\ graph_waypoints g !! lane_exit g lane = Some w1'
              /\ itinerary (context w2)
                 = mkItinerary (next_plan_id (itinerary (context w)))
                     (routes (itinerary (context w)))
                     (mkDelay (current_plan_id (itinerary (context w)))
                        (now (context w)
                         + from_seconds
                             (PrimFloat.add
                                (PrimFloat.div
                                   (norm (sub (get_location w1') (xy l))) v)
                                (PrimFloat.div 0 w_rot))
                         - (now (context w)
                            + from_seconds
                                (PrimFloat.div
                                   (norm (sub (get_location w1')
                                            (get_location w0))) v)))
                        one_second
                      :: delays (itinerary (context w))))).
Proof.
  intros Ha Hpl Hg g v w_rot.
  destruct (dock_result dock_name w pl Ha Hpl Hg)
    as (msg & w1 & dt & Hdock & _ & Hids & Hdatas & _ & Hctx & Halive & _
        & Hov & Hfo & Hnp & Hcase).
  assert (Hu : update_fn w1 (length (identifiers w)) = Some (length (datas w))).
  { unfold update_fn. rewrite Hids. now rewrite list_lookup_middle. }
  assert (Hd : datas w1 !! length (datas w) = Some dt).
  { rewrite Hdatas. now apply list_lookup_middle. }
  unfold run_update_position.
  destruct Hcase as [(-> & _ & Hw & Hl & He)
                    |(lane & w0 & w1' & -> & Hlt & Hdk & _ & Hw & Hl & Hw0
                      & Hw1 & He)].
  - exists (Some WarnDockNotFound), w1,
      (with_context
         (set_location
            (compute_plan_starts g map_name l (now (context w))
               (max_merge_waypoint_distance (params w))
               (max_merge_lane_distance (params w))
               (min_lane_length (params w))) (context w)) w1).
    split; [exact Hdock|]. split; [|left; now split].
    rewrite Hu, Halive, (proj2 (at_Ok _ _ _) Hd). cbn [obind]. rewrite Hctx.
    unfold update_location. rewrite Hov, Hpl, Hw. cbn [scan_waypoints obind].
    unfold resolve_starts. rewrite Hl. cbn [scan_lanes obind].
    unfold estimate_arrival. rewrite Hw. cbn [last obind].
    rewrite Hnp. reflexivity.
  - assert (Hin_w : Forall (fun wp => (wp < num_waypoints g)%nat)
                      (waypoints dt)).
    { rewrite Hw. repeat constructor; eapply lookup_lt_Some; eassumption. }
    assert (Hin_l : Forall (fun ln => (ln < num_lanes g)%nat) (lanes dt)).
    { rewrite Hl. now repeat constructor. }
    destruct (update_location_reaches_estimate (context w) pl dt map_name l
                Hov Hpl Hg Hin_w Hin_l) as [starts Hup].
    assert (Hest : estimate_arrival from_seconds
                     (set_location starts (context w)) pl dt l
                   = Ok (call_arrival_estimator (arrival_estimator dt)
                           (from_seconds
                              (PrimFloat.add
                                 (PrimFloat.div
                                    (norm (sub (get_location w1') (xy l))) v)
                                 (PrimFloat.div 0 w_rot)))
                           (set_location starts (context w)))).
    { unfold estimate_arrival. rewrite Hw. cbn [last].
      unfold get_waypoint. unfold g in Hw1. rewrite (proj2 (at_Ok _ _ _) Hw1).
      cbn [obind]. rewrite Hfo. reflexivity. }
    eexists None, w1, _. split; [exact Hdock|]. split.
    { rewrite Hu, Halive, (proj2 (at_Ok _ _ _) Hd). cbn [obind].
      rewrite Hctx, Hup, Hest. cbn [obind]. reflexivity. }
    right. exists lane, w0, w1'. split; [reflexivity|]. split; [exact Hdk|].
    split; [exact Hw0|]. split; [exact Hw1|]. rewrite He. reflexivity.
Qed.

(** X12. Docking with an integrator that answers the dock request by calling
    [finished()] before it returns: once the worker has run, the dock
    handler was called once and the completion of the docking fired once,
    after it. *)
Theorem docking_runs_to_completion dock_name w pl :
  context_alive w = true ->
  worker w = [] ->
  planner (context w) = Some pl ->
  graph_ok (graph pl) = true ->
  handle_dock w dock_name <> [] ->
  Forall (fun a => a = CallFinished) (handle_dock w dock_name) ->
  exists msg w1 n w',
    dock from_seconds current_plan_id entry_event exit_event dock_name w
    = Ok (msg, w1)
    /\ drain compute_plan_starts from_seconds to_seconds
         interpolate_positions n w1 = Ok w'
    /\ worker w' = []
    /\ observed w'
       = PathFinished (next_tracker w)
         :: BeginInvoked (length (identifiers w)) :: observed w.
Proof.
  intros Ha Hidle Hpl Hg Hne Hall.
  destruct (dock_result dock_name w pl Ha Hpl Hg)
    as (msg & w1 & dt & Hdock & Hw1 & _ & _ & _ & _ & _ & _ & Hov & _).
  set (cmd := mkCommand (length (datas w)) (Some (DockRequest dock_name)) None
                (length (identifiers w))) in *.
  set (wd := with_identifiers _ _) in Hw1.
  assert (Hdistinct : NoDup (map identifier [cmd])).
  { cbn. apply NoDup_singleton. }
  assert (Hfin : Forall (finishing_command wd) [cmd]).
  { constructor; [|constructor]. split; [|split].
    - unfold update_fn. cbn [identifier cmd identifiers wd with_identifiers].
      now rewrite list_lookup_middle.
    - exists dt. split; [|exact Hov].
      cbn [data cmd datas wd with_identifiers with_datas].
      now apply list_lookup_middle.
    - exists (DockRequest dock_name). split; [reflexivity|exact Hall]. }
  assert (Hsync : Forall (finishes_in_begin wd) [cmd]).
  { constructor; [|constructor]. exists (DockRequest dock_name).
    split; [reflexivity|exact Hne]. }
  assert (Hpend : Forall (fun t => is_report t
                                   \/ is_stale (next_tracker wd) [cmd] t)
                    (worker wd)).
  { change (worker wd) with (worker w). rewrite Hidle. constructor. }
  destruct (start_phase [cmd] wd Ha Hpend Hdistinct Hfin)
    as (Hst & Hph & Hp & Hown).
  destruct (drain_completes compute_plan_starts from_seconds to_seconds
              interpolate_positions [cmd] wd Hdistinct Hfin
              (work_left wd (next (make_tracker [cmd] wd)))
              (next (make_tracker [cmd] wd)) Hsync Hst Hph (Hp Hsync)
              (Hown Hidle))
    as (w' & Hdrain & Hw' & Ho'); [lia|].
  exists msg, w1, (work_left wd (next (make_tracker [cmd] wd))), w'.
  split; [exact Hdock|]. rewrite Hw1. split; [exact Hdrain|].
  split; [exact Hw'|]. exact Ho'.
Qed.

End DockingFacts.

(* ================================================================== *)
(** ** Adding robots *)


Section EasyFleetFacts.

Context {NavigationCallback StopCallback DockCallback ActionExecutor : Type}.

Variable compute_plan_starts :
  Graph -> string -> Vector3d -> Time -> float -> float -> float -> StartSet.

Let Fleet : Type :=
  @EasyFleet NavigationCallback StopCallback DockCallback ActionExecutor.

Lemma add_robot_name initial_state nav stp dck executor (f : Fleet) :
  name_taken (InitializeRobot.name initial_state)
    (snd (add_robot compute_plan_starts initial_state nav stp dck executor f)).
Proof.
  unfold add_robot, name_taken. cbn [cmd_handles fleet_log].
  destruct (cmd_handles f !! InitializeRobot.name initial_state) as [h|] eqn:Hh.
  - cbn. rewrite Hh. now eexists.
  - destruct (compute_plan_starts _ _ _ _ _ _ _) as [|s starts].
    + cbn. rewrite lookup_insert_eq. now eexists.
    + destruct nav, stp, dck; cbn; rewrite ?lookup_insert_eq; now eexists.
Qed.

Lemma add_robot_keeps_names robot_name initial_state nav stp dck executor
    (f : Fleet) :
  name_taken robot_name f ->
  name_taken robot_name
    (snd (add_robot compute_plan_starts initial_state nav stp dck executor f)).
Proof.
  intros Ht.
  destruct (decide (InitializeRobot.name initial_state = robot_name))
    as [<-|Hne]; [apply add_robot_name|].
  unfold add_robot, name_taken in *. cbn [cmd_handles fleet_log].
  destruct (cmd_handles f !! InitializeRobot.name initial_state) as [h|];
    [exact Ht|].
  destruct (compute_plan_starts _ _ _ _ _ _ _) as [|s starts].
  - cbn. now rewrite lookup_insert_ne.
  - destruct nav, stp, dck; cbn; rewrite ?lookup_insert_ne by exact Hne;
      exact Ht.
Qed.

(** X13. [add_robot] keys the command handles by name before it validates
    the request. After a call for a name, accepted or not, the name is
    taken; a taken name stays taken whatever is added, registered, run or
    reported later; and a call for a taken name returns null and only logs.
    So a robot that was turned down for an empty start set or a null
    callback cannot be added by a later, valid call. *)
Theorem add_robot_takes_the_name robot_name :
  (forall initial_state nav stp dck executor (f : Fleet),
     InitializeRobot.name initial_state = robot_name ->
     name_taken robot_name
       (snd (add_robot compute_plan_starts initial_state nav stp dck
               executor f)))
  /\ (forall (f : Fleet),
        name_taken robot_name f ->
        (forall initial_state nav stp dck executor,
           name_taken robot_name
             (snd (add_robot compute_plan_starts initial_state nav stp dck
                     executor f)))
        /\ (forall r u c, name_taken robot_name (handle_cb r u c f))
        /\ name_taken robot_name (run_fleet_worker f)
        /\ (forall u soc, name_taken robot_name (update_battery_soc u soc f))
        /\ (forall initial_state nav stp dck executor,
              InitializeRobot.name initial_state = robot_name ->
              add_robot compute_plan_starts initial_state nav stp dck
                executor f
              = (None,
                 fleet_log (WarnPreviouslyAdded robot_name)
                   (fleet_log (InfoAddingRobot robot_name) f)))).
Proof.
  split.
  - intros initial_state nav stp dck executor f <-. apply add_robot_name.
  - intros f Ht. split; [|split; [|split; [|split]]].
    + intros. now apply add_robot_keeps_names.
    + intros r u c. unfold name_taken, handle_cb in *. cbn [cmd_handles].
      destruct (cmd_handles f !! added_name r) as [[h|]|]; try exact Ht.
      destruct (decide (added_name r = robot_name)) as [->|Hne].
      * rewrite lookup_insert_eq. now eexists.
      * now rewrite lookup_insert_ne.
    + unfold name_taken, run_fleet_worker in *.
      destruct (fleet_worker f) as [|[u h n fl e] q]; exact Ht.
    + intros u soc. unfold name_taken, update_battery_soc in *.
      destruct (updaters f !! u) as [[h|]|]; exact Ht.
    + intros initial_state nav stp dck executor Hname.
      destruct Ht as [h Hh].
      unfold add_robot. rewrite Hname. cbn [cmd_handles fleet_log].
      now rewrite Hh.
Qed.

(** X14. A valid request for a new name. The robot is handed to the fleet
    once, with the start set computed from its initial state, and the handle
    returned is new. Until the fleet has called back and the worker has run
    the task of the callback, [more()] is null and [update_battery_soc] is
    dropped without a trace; afterwards both reach the robot's update
    handle, and the action executor is set. *)
Theorem add_robot_registers initial_state nav stp dck executor (f : Fleet)
    s starts :
  let robot_name := InitializeRobot.name initial_state in
  cmd_handles f !! robot_name = None ->
  fleet_worker f = [] ->
  compute_plan_starts (graph (fleet_planner f))
    (InitializeRobot.map_name initial_state)
    (InitializeRobot.location initial_state) (node_now f)
    (max_merge_waypoint_distance (fleet_nav_params f))
    (max_merge_lane_distance (fleet_nav_params f))
    (min_lane_length (fleet_nav_params f)) = s :: starts ->
  exists f1 r,
    add_robot compute_plan_starts initial_state (Some nav) (Some stp)
      (Some dck) executor f = (Some (length (updaters f)), f1)
    /\ added_robots f1 = r :: added_robots f
    /\ added_name r = robot_name /\ added_start r = s :: starts
    /\ cmd_handles f1 !! robot_name
       = Some (Some (mkCommandHandle (fleet_nav_params f) nav stp dck None))
    /\ more (length (updaters f)) f1 = None
    /\ (forall soc, update_battery_soc (length (updaters f)) soc f1 = f1)
    /\ (forall handle context soc,
          let f2 := run_fleet_worker (handle_cb r handle context f1) in
          more (length (updaters f)) f2 = Some handle
          /\ battery_updates (update_battery_soc (length (updaters f)) soc f2)
             = (handle, soc) :: battery_updates f
          /\ action_executors f2 = (handle, executor) :: action_executors f
          /\ cmd_handles f2 !! robot_name
             = Some (Some (mkCommandHandle (fleet_nav_params f) nav stp dck
                             (Some context)))
          /\ messages f2
             = InfoRobotAdded robot_name (fleet_name f)
               :: InfoAddingRobot robot_name :: messages f).
Proof.
  intros robot_name Hfresh Hidle Hstarts. unfold add_robot. fold robot_name.
  cbn [cmd_handles fleet_log fleet_planner node_now fleet_nav_params
       with_cmd_handles].
  rewrite Hfresh, Hstarts. eexists _, _. split; [reflexivity|].
  cbn -[lookup insert].
  split; [reflexivity|]. split; [reflexivity|]. split; [reflexivity|].
  split; [now rewrite lookup_insert_eq|].
  split; [unfold more; cbn -[lookup insert]; now rewrite list_lookup_middle|].
  split.
  { intros soc. unfold update_battery_soc. cbn -[lookup insert].
    now rewrite list_lookup_middle. }
  intros handle context soc.
  unfold handle_cb, run_fleet_worker. cbn -[lookup insert].
  rewrite lookup_insert_eq, Hidle. cbn -[lookup insert].
  unfold more, update_battery_soc. cbn -[lookup insert].
  rewrite list_lookup_insert_eq by (rewrite length_app; cbn; lia).
  cbn -[lookup insert]. repeat split. now rewrite lookup_insert_eq.
Qed.

(** X15. A request for a new name that is turned down: without a start set
    for the initial state, or with a null callback. The fleet is not given
    the robot and no handle is made; one error is logged; but the name now
    has an entry, with a null command handle. *)
Theorem add_robot_turned_down initial_state nav stp dck executor (f : Fleet) :
  let robot_name := InitializeRobot.name initial_state in
  let starts :=
    compute_plan_starts (graph (fleet_planner f))
      (InitializeRobot.map_name initial_state)
      (InitializeRobot.location initial_state) (node_now f)
      (max_merge_waypoint_distance (fleet_nav_params f))
      (max_merge_lane_distance (fleet_nav_params f))
      (min_lane_length (fleet_nav_params f)) in
  cmd_handles f !! robot_name = None ->
  starts = [] \/ nav = None \/ stp = None \/ dck = None ->
  exists f1,
    add_robot compute_plan_starts initial_state nav stp dck executor f
    = (None, f1)
    /\ cmd_handles f1 = <[robot_name := None]> (cmd_handles f)
    /\ added_robots f1 = added_robots f
    /\ updaters f1 = updaters f
    /\ fleet_worker f1 = fleet_worker f
    /\ messages f1
       = (if decide (starts = [])
          then ErrNoStartSet robot_name (fleet_name f)
                 (InitializeRobot.map_name initial_state)
                 (InitializeRobot.location initial_state)
          else ErrNullCallbacks robot_name (fleet_name f))
         :: InfoAddingRobot robot_name :: messages f.
Proof.
  intros robot_name starts Hfresh Hcase. unfold add_robot. fold robot_name.
  cbn [cmd_handles fleet_log fleet_planner node_now fleet_nav_params
       with_cmd_handles]. fold starts.
  rewrite Hfresh. destruct starts as [|s rest] eqn:Hs.
  - eexists. split; [reflexivity|]. now repeat split.
  - destruct Hcase as [Hc| [ -> | [ -> | -> ] ] ]; [discriminate| | |].
    + eexists. split; [reflexivity|]. now repeat split.
    + destruct nav; eexists; (split; [reflexivity|]); now repeat split.
    + destruct nav, stp; eexists; (split; [reflexivity|]); now repeat split.
Qed.

End EasyFleetFacts.

(* ------------------------------------------------------------------ *)
(** *** Configuration files *)

Section ConfigurationFacts.

Import Configuration.

Context {Node Exception : Type}.
Variable LoadFile : string -> Exception + Node.
Variable defined : Node -> bool.
Variable get : Node -> string -> Exception + Node.
Variable at_index : Node -> nat -> Exception + Node.
Variable as_double : Node -> Exception + float.
Variable as_bool : Node -> Exception + bool.
Variable as_string : Node -> Exception + string.
Variable as_strings : Node -> Exception + list string.
Context {BatterySystem MechanicalSystem PowerSystem Graph : Type}.
Variable BatterySystem_make : float -> float -> float -> option BatterySystem.
Variable MechanicalSystem_make :
  float -> float -> float -> option MechanicalSystem.
Variable PowerSystem_make : float -> option PowerSystem.
Variable from_seconds : float -> Duration.
Variable parse_graph : string -> Traits -> Exception + Graph.

#[local] Abbreviation loading := (@Configuration.loading Exception).
#[local] Abbreviation ret := (Configuration.ret (Exception:=Exception)).
#[local] Abbreviation bind := (Configuration.bind (Exception:=Exception)).
#[local] Abbreviation try := (Configuration.try (Exception:=Exception)).
#[local] Abbreviation print := (Configuration.print (Exception:=Exception)).
#[local] Abbreviation return_null :=
  (Configuration.return_null (Exception:=Exception)).
#[local] Abbreviation lookup_path := (Configuration.lookup_path get).
#[local] Abbreviation any_missing := (Configuration.any_missing defined get).
#[local] Abbreviation require := (Configuration.require defined get).
#[local] Abbreviation optional := (Configuration.optional defined get).
#[local] Abbreviation parse_consideration :=
  (Configuration.parse_consideration defined get as_bool).
#[local] Abbreviation parse_finishing_request :=
  (Configuration.parse_finishing_request (Exception:=Exception)).
#[local] Abbreviation resolve := (Configuration.resolve get).
#[local] Abbreviation given := (Configuration.given defined get).
#[local] Abbreviation read_or_default :=
  (Configuration.read_or_default defined get).
#[local] Abbreviation accepted := (Configuration.accepted defined get as_bool).
#[local] Abbreviation from_config_files :=
  (Configuration.from_config_files LoadFile defined get at_index as_double
     as_bool as_string as_strings BatterySystem_make MechanicalSystem_make
     PowerSystem_make from_seconds parse_graph).

Lemma bind_Continue {A B} (m : loading A) (k : A -> loading B) out b out' :
  bind m k out = (Continue b, out') ->
  exists a out1, m out = (Continue a, out1) /\ k a out1 = (Continue b, out').
Proof.
  unfold bind. destruct (m out) as [[a| |e] out1]; try discriminate.
  intros H. now exists a, out1.
Qed.

Lemma try_Continue {A} (r : Exception + A) out a out' :
  try r out = (Continue a, out') -> r = inr a /\ out' = out.
Proof. unfold try. destruct r; [discriminate|]. now intros [= <- <-]. Qed.

Lemma ret_Continue {A} (x : A) out a out' :
  ret x out = (Continue a, out') -> a = x /\ out' = out.
Proof. unfold ret. now intros [= <- <-]. Qed.

Lemma lookup_path_Continue path :
  forall node out child out',
  lookup_path node path out = (Continue child, out') ->
  resolve node path = inr child /\ out' = out.
Proof.
  induction path as [|key rest IH]; intros node out child out';
    cbn [lookup_path resolve].
  - intros H. apply ret_Continue in H. now destruct H as [-> ->].
  - intros H. apply bind_Continue in H. destruct H as (c & o1 & H1 & H2).
    apply try_Continue in H1. destruct H1 as [-> ->]. now apply IH.
Qed.

Lemma any_missing_Continue node paths :
  forall out b out',
  any_missing node paths out = (Continue b, out') ->
  out' = out /\ (b = false -> Forall (given node) paths).
Proof.
  induction paths as [|path rest IH]; intros out b out'; cbn [any_missing].
  - intros H. apply ret_Continue in H. destruct H as [_ ->].
    split; [reflexivity|constructor].
  - intros H. apply bind_Continue in H. destruct H as (c & o1 & H1 & H2).
    apply lookup_path_Continue in H1. destruct H1 as [Hc ->].
    destruct (defined c) eqn:Hd.
    + apply IH in H2. destruct H2 as [-> Hall]. split; [reflexivity|].
      intros Hb. constructor; [now exists c|now apply Hall].
    + apply ret_Continue in H2. destruct H2 as [-> ->].
      split; [reflexivity|discriminate].
Qed.

Lemma require_Continue node paths line out u out' :
  require node paths line out = (Continue u, out') ->
  out' = out /\ Forall (given node) paths.
Proof.
  unfold require. intros H. apply bind_Continue in H.
  destruct H as (b & o1 & H1 & H2).
  apply any_missing_Continue in H1. destruct H1 as [-> Hall].
  destruct b.
  - apply bind_Continue in H2. destruct H2 as (? & ? & _ & H2). discriminate.
  - apply ret_Continue in H2. destruct H2 as [_ ->]. split; [reflexivity|].
    now apply Hall.
Qed.

Lemma optional_Continue {A} node key (convert : Node -> Exception + A)
    default line out a out' :
  optional node key convert default line out = (Continue a, out') ->
  exists child,
    get node key = inr child
    /\ ((defined child = false /\ a = default
         /\ out' = match line with Some l => l :: out | None => out end)
        \/ (defined child = true /\ convert child = inr a /\ out' = out)).
Proof.
  unfold optional. cbn [any_missing lookup_path]. intros H.
  apply bind_Continue in H. destruct H as (b & o1 & H1 & H2).
  apply bind_Continue in H1. destruct H1 as (c & o2 & H1 & H3).
  apply bind_Continue in H1. destruct H1 as (c' & o3 & H1 & H4).
  apply try_Continue in H1. destruct H1 as [Hget ->].
  apply ret_Continue in H4. destruct H4 as [-> ->].
  exists c'. split; [exact Hget|].
  destruct (defined c') eqn:Hd.
  - apply ret_Continue in H3. destruct H3 as [-> ->].
    apply bind_Continue in H2. destruct H2 as (c2 & o4 & H2 & H5).
    apply try_Continue in H2. destruct H2 as [Hget2 ->].
    apply try_Continue in H5. destruct H5 as [Hconv ->].
    right. rewrite Hget in Hget2. injection Hget2 as <-. auto.
  - apply ret_Continue in H3. destruct H3 as [-> ->]. left.
    destruct line as [l|].
    + apply bind_Continue in H2. destruct H2 as ([] & o4 & H2 & H5).
      unfold print in H2. injection H2 as <-.
      apply ret_Continue in H5. destruct H5 as [-> ->]. auto.
    + apply ret_Continue in H2. destruct H2 as [-> ->]. auto.
Qed.

Lemma parse_consideration_Continue tc capability task tasks out r out' :
  parse_consideration tc capability task tasks out = (Continue r, out') ->
  out' = out
  /\ exists c,
       get tc capability = inr c
       /\ ((defined c = true /\ as_bool c = inr true
            /\ r = <[task := consider_all]> tasks)
           \/ (r = tasks
               /\ (defined c = false \/ as_bool c = inr false))).
Proof.
  unfold parse_consideration. intros H.
  apply bind_Continue in H. destruct H as (c & o1 & H1 & H2).
  apply try_Continue in H1. destruct H1 as [Hget ->].
  destruct (defined c) eqn:Hd.
  - apply bind_Continue in H2. destruct H2 as (b & o2 & H2 & H3).
    apply try_Continue in H2. destruct H2 as [Hb ->].
    destruct b; apply ret_Continue in H3; destruct H3 as [-> ->];
      (split; [reflexivity|]); exists c; (split; [exact Hget|]); auto.
  - apply ret_Continue in H2. destruct H2 as [-> ->].
    split; [reflexivity|]. exists c. auto.
Qed.

Lemma parse_finishing_request_Continue s out :
  exists line,
    parse_finishing_request s out
    = (Continue (finishing_request_of s), line :: out).
Proof.
  unfold parse_finishing_request, finishing_request_of.
  destruct (String.eqb s "charge"); [now eexists|].
  destruct (String.eqb s "park"); [now eexists|].
  destruct (String.eqb s "nothing"); now eexists.
Qed.

Lemma extends_refl out : extends out out.
Proof. now exists []. Qed.

Lemma extends_cons l out : extends out (l :: out).
Proof. now exists [l]. Qed.

Lemma extends_trans o1 o2 o3 : extends o1 o2 -> extends o2 o3 -> extends o1 o3.
Proof.
  intros [l1 ->] [l2 ->]. exists (l2 ++ l1). now rewrite app_assoc.
Qed.

Lemma extends_In l o1 o2 : In l o1 -> extends o1 o2 -> In l o2.
Proof. intros Hin [lines ->]. apply in_or_app. now right. Qed.

Lemma optional_reads {A} node key (convert : Node -> Exception + A)
    default line out a out' :
  optional node key convert default line out = (Continue a, out') ->
  extends out out'
  /\ forall out'', extends out' out'' ->
       read_or_default node key convert default line a out''.
Proof.
  intros H. apply optional_Continue in H.
  destruct H as (child & Hget & [(Hd & -> & ->)|(Hd & Hc & ->)]).
  - split; [destruct line; [apply extends_cons|apply extends_refl]|].
    intros out'' Hext. exists child. split; [exact Hget|]. left.
    split; [exact Hd|]. split; [reflexivity|]. intros l ->.
    eapply extends_In; [|exact Hext]. now left.
  - split; [apply extends_refl|]. intros out'' _. exists child.
    split; [exact Hget|]. right. now split.
Qed.

#[local] Ltac tr H a Ha :=
  let o := fresh "o" in
  apply bind_Continue in H; destruct H as (a & o & Ha & H);
  apply try_Continue in Ha; destruct Ha as [Ha ->].

#[local] Ltac rq H Ha :=
  let u := fresh "u" in
  let o := fresh "o" in
  apply bind_Continue in H; destruct H as (u & o & Ha & H);
  apply require_Continue in Ha; destruct Ha as [-> Ha].

#[local] Ltac op H a o Hext Ha :=
  apply bind_Continue in H; destruct H as (a & o & Ha & H);
  apply optional_reads in Ha; destruct Ha as [Hext Ha].

#[local] Ltac mk H a :=
  let o := fresh "o" in
  let Ha := fresh "Hmake" in
  let E := fresh "Emake" in
  apply bind_Continue in H; destruct H as (a & o & Ha & H);
  match type of Ha with
  | (match ?x with _ => _ end) _ = _ =>
      destruct x eqn:E;
      [ apply ret_Continue in Ha; destruct Ha as [-> ->]
      | apply bind_Continue in Ha; destruct Ha as (? & ? & _ & Ha);
        discriminate Ha ]
  end.

#[local] Ltac pc H a Ha :=
  let o := fresh "o" in
  apply bind_Continue in H; destruct H as (a & o & Ha & H);
  apply parse_consideration_Continue in Ha; destruct Ha as [-> Ha].

#[local] Ltac chain :=
  solve [ apply extends_refl
        | eapply extends_trans; [eassumption|chain] ].

Lemma parse_consideration_keys tc capability task
    (tasks r : gmap string ConsiderRequest) :
  (exists c,
     get tc capability = inr c
     /\ ((defined c = true /\ as_bool c = inr true
          /\ r = <[task := consider_all]> tasks)
         \/ (r = tasks /\ (defined c = false \/ as_bool c = inr false)))) ->
  forall task',
    is_Some (r !! task')
    <-> (task' = task /\ accepted tc capability) \/ is_Some (tasks !! task').
Proof.
  intros (c & Hget & [(Hd & Hb & ->)|(-> & Hno)]) task'.
  - destruct (decide (task' = task)) as [->|Hne].
    + rewrite lookup_insert_eq. split; [|now eexists].
      intros _. left. split; [reflexivity|]. now exists c.
    + rewrite lookup_insert_ne by congruence. split; [now right|].
      intros [[Heq _]|H]; [now destruct Hne|exact H].
  - split; [now right|]. intros [[_ (c' & Hget' & Hd & Hb)]|H]; [|exact H].
    rewrite Hget in Hget'. injection Hget' as <-.
    destruct Hno as [Hno|Hno]; congruence.
Qed.

Lemma fold_insert_keys (actions : list string) :
  forall (m : gmap string ConsiderRequest) action,
  is_Some (fold_left (fun m a => <[a := consider_all]> m) actions m !! action)
  <-> In action actions \/ is_Some (m !! action).
Proof.
  induction actions as [|a rest IH]; intros m action; cbn [fold_left In].
  - split; [now right|]. now intros [[]|H].
  - rewrite IH. destruct (decide (action = a)) as [->|Hne].
    + rewrite lookup_insert_eq. split; [intros _; now left; left|].
      intros _. right. now eexists.
    + rewrite lookup_insert_ne by congruence. split.
      * intros [H|H]; [left; now right|now right].
      * intros [[H|H]|H]; [now destruct Hne|now left|now right].
Qed.

Lemma from_config_files_loaded config_file nav_graph_path uri out cfg out' :
  from_config_files config_file nav_graph_path uri out = (Continue cfg, out') ->
  exists fleet_config rmf_fleet task_capabilities,
    LoadFile config_file = inr fleet_config
    /\ given fleet_config ["rmf_fleet"]
    /\ get fleet_config "rmf_fleet" = inr rmf_fleet
    /\ Forall (given rmf_fleet) required
    /\ get rmf_fleet "task_capabilities" = inr task_capabilities
    /\ tool_sink cfg = ambient_sink cfg
    /\ device_battery (ambient_sink cfg) = battery_system cfg
    /\ motion_battery (motion_sink cfg) = battery_system cfg
    /\ server_uri cfg = uri
    /\ read_or_default rmf_fleet "reversible" as_bool false
         (Some "Fleet reversibility is not provided, default to False")
         (reversible (traits cfg)) out'
    /\ read_or_default rmf_fleet "account_for_battery_drain" as_bool true
         (Some "Account for battery drain is not provided, default to True")
         (account_for_battery_drain cfg) out'
    /\ read_or_default rmf_fleet "recharge_threshold" as_double one_fifth
         (Some "Recharge threshold is not provided, default to 0.2")
         (recharge_threshold cfg) out'
    /\ read_or_default rmf_fleet "recharge_soc" as_double one_fifth
         (Some "Recharge state of charge is not provided, default to 1.0")
         (recharge_soc cfg) out'
    /\ read_or_default rmf_fleet "skip_rotation_commands" as_bool true None
         (skip_rotation_commands cfg) out'
    /\ (exists frequency,
          read_or_default rmf_fleet "publish_fleet_state" as_double 2%float
            (Some "Fleet state publish frequency is not provided, default to 2.0")
            frequency out'
          /\ update_interval cfg = from_seconds (PrimFloat.div 1 frequency))
    /\ (exists seconds,
          read_or_default rmf_fleet "max_delay" as_double 10%float
            (Some "Maximum delay is not provided, default to 10.0")
            seconds out'
          /\ max_delay cfg = from_seconds seconds)
    /\ (exists name,
          read_or_default task_capabilities "finishing_request" as_string
            EmptyString
            (Some ("Finishing request is not provided. The valid finishing requests "
                   ++ "are [charge, park, nothing]. The task planner will default to [nothing].")%string)
            name out'
          /\ finishing_request cfg = finishing_request_of name)
    /\ (forall task,
          is_Some (task_consideration cfg !! task)
          <-> (task = "patrol"
               /\ (accepted task_capabilities "loop"
                   \/ accepted task_capabilities "patrol"))
              \/ (task = "clean" /\ accepted task_capabilities "clean")
              \/ (task = "delivery"
                  /\ accepted task_capabilities "delivery"))
    /\ (exists node,
          get task_capabilities "action" = inr node
          /\ ((defined node = false /\ action_consideration cfg = ∅)
              \/ (defined node = true
                  /\ exists actions,
                       as_strings node = inr actions
                       /\ forall action,
                            is_Some (action_consideration cfg !! action)
                            <-> In action actions))).
Proof.
  unfold from_config_files. intros H.
  tr H fleet_config Hload. rq H Hreq0. tr H rmf_fleet Hfleet.
  rq H Hreq1. tr H name_node Hname. tr H fleet_name0 Hfleet_name.
  rq H Hreq2. tr H profile Hprofile. tr H footprint_node Hfn.
  tr H footprint_rad Hfr. tr H vicinity_node Hvn. tr H vicinity_rad Hvr.
  rq H Hreq3. tr H limits Hlimits. tr H linear0 Hlin. tr H l0 Hl0.
  tr H v_nom Hv. tr H l1 Hl1. tr H a_nom Ha. tr H angular0 Hang.
  tr H a0 Ha0. tr H w_nom Hw. tr H a1 Ha1. tr H b_nom Hb.
  op H reversible0 o1 Hext1 Hrev.
  apply bind_Continue in H. destruct H as (uirr & o2 & Hirr & H).
  assert (Hext2 : extends o1 o2).
  { destruct (negb reversible0).
    - unfold print in Hirr. inversion Hirr. apply extends_cons.
    - apply ret_Continue in Hirr. destruct Hirr as [_ ->]. apply extends_refl. }
  clear Hirr. tr H graph0 Hgraph.
  rq H Hreq4. tr H battery Hbattery. tr H voltage_node Hvoltn.
  tr H voltage Hvolt. tr H capacity_node Hcapn. tr H capacity Hcap.
  tr H current_node Hcurn. tr H current Hcur. mk H battery_system0.
  rq H Hreq5. tr H mechanical Hmech. tr H mass_node Hmassn. tr H mass Hmass.
  tr H moment_node Hmomn. tr H moment Hmom. tr H friction_node Hfricn.
  tr H friction Hfric. mk H mechanical_system0.
  rq H Hreq6. tr H ambient_system Hamb. tr H ambient_node Hambn.
  tr H ambient_drain Hambd. mk H ambient_power.
  rq H Hreq7. tr H tool_system Htool. tr H tool_node Htooln.
  tr H tool_drain Htoold. mk H tool_power.
  op H account0 o3 Hext3 Hacc. op H threshold0 o4 Hext4 Hthr.
  op H soc0 o5 Hext5 Hsoc.
  rq H Hreq8. tr H task_capabilities Htc.
  pc H tasks1 Ht1. pc H tasks2 Ht2. pc H tasks3 Ht3. pc H tasks4 Ht4.
  tr H action_node Hactn.
  apply bind_Continue in H. destruct H as (actions0 & o6 & Hact & H).
  op H name0 o7 Hext7 Hfin.
  apply bind_Continue in H. destruct H as (fr & o8 & Hpfr & H).
  destruct (parse_finishing_request_Continue name0 o7) as [line Hline].
  rewrite Hline in Hpfr. injection Hpfr as <- <-.
  assert (Hext8 : extends o7 (line :: o7)) by apply extends_cons.
  op H skip0 o9 Hext9 Hskip. op H frequency0 o10 Hext10 Hfreq.
  op H seconds0 o11 Hext11 Hsec.
  apply ret_Continue in H. destruct H as [-> ->].
  assert (Hext6 : extends o5 o6 /\
            exists node,
              get task_capabilities "action" = inr node
              /\ ((defined node = false /\ actions0 = ∅)
                  \/ (defined node = true
                      /\ exists actions,
                           as_strings node = inr actions
                           /\ actions0
                              = fold_left
                                  (fun m action => <[action := consider_all]> m)
                                  actions (∅ : gmap string ConsiderRequest)))).
  { destruct (defined action_node) eqn:Hd.
    - tr Hact action_node' Hactn'. tr Hact actions Hacts.
      apply ret_Continue in Hact. destruct Hact as [-> ->].
      split; [apply extends_refl|]. exists action_node.
      split; [exact Hactn|]. right. split; [exact Hd|].
      rewrite Hactn in Hactn'. injection Hactn' as <-. now exists actions.
    - apply ret_Continue in Hact. destruct Hact as [-> ->].
      split; [apply extends_refl|]. exists action_node. auto. }
  destruct Hext6 as [Hext6 Hactions]. clear Hact.
  exists fleet_config, rmf_fleet, task_capabilities.
  cbn [tool_sink ambient_sink device_battery battery_system motion_sink
       motion_battery server_uri traits reversible account_for_battery_drain
       recharge_threshold recharge_soc skip_rotation_commands update_interval
       max_delay finishing_request task_consideration action_consideration].
  split; [exact Hload|]. split; [now inversion Hreq0|].
  split; [exact Hfleet|]. split.
  { unfold required.
    repeat match goal with
           | Hr : Forall (given rmf_fleet) _ |- _ =>
               inversion Hr; subst; clear Hr
           end.
    repeat (constructor; [assumption|]). constructor. }
  split; [exact Htc|]. split.
  { rewrite Hambn in Htooln. injection Htooln as <-.
    rewrite Hambd in Htoold. injection Htoold as <-.
    rewrite Emake1 in Emake2. now injection Emake2 as <-. }
  split; [reflexivity|]. split; [reflexivity|]. split; [reflexivity|].
  split; [apply Hrev; chain|]. split; [apply Hacc; chain|].
  split; [apply Hthr; chain|]. split; [apply Hsoc; chain|].
  split; [apply Hskip; chain|].
  split; [exists frequency0; split; [apply Hfreq; chain|reflexivity]|].
  split; [exists seconds0; split; [apply Hsec; chain|reflexivity]|].
  split; [exists name0; split; [apply Hfin; chain|reflexivity]|].
  split.
  { intros task.
    rewrite (parse_consideration_keys _ _ _ _ _ Ht4 task).
    rewrite (parse_consideration_keys _ _ _ _ _ Ht3 task).
    rewrite (parse_consideration_keys _ _ _ _ _ Ht2 task).
    rewrite (parse_consideration_keys _ _ _ _ _ Ht1 task).
    rewrite lookup_empty. split.
    - intros [H|[H|[H|[H|H]]]]; [tauto|tauto|tauto|tauto|].
      now destruct H.
    - tauto. }
  destruct Hactions as (node & Hnode & [[Hd ->]|(Hd & actions & Has & ->)]);
    exists node; (split; [exact Hnode|]); [now left|].
  right. split; [exact Hd|]. exists actions. split; [exact Has|].
  intros action. rewrite fold_insert_keys, lookup_empty. split.
  - intros [H|H]; [exact H|now destruct H].
  - now left.
Qed.

Lemma explains_bind {A B} (m : loading A) (k : A -> loading B) :
  explains m -> (forall a, explains (k a)) -> explains (bind m k).
Proof.
  intros Hm Hk out r out'. unfold Configuration.bind.
  destruct (m out) as [[a| |e] o1] eqn:E.
  - intros H. pose proof (Hm _ _ _ E) as Hext. cbn in Hext.
    pose proof (Hk a _ _ _ H) as Hr. destruct r as [b| |e].
    + eapply extends_trans; eassumption.
    + destruct Hr as (line & rest & -> & Hin & Hrest).
      exists line, rest. split; [reflexivity|]. split; [exact Hin|].
      eapply extends_trans; eassumption.
    + eapply extends_trans; eassumption.
  - intros [= <- <-]. exact (Hm _ _ _ E).
  - intros [= <- <-]. exact (Hm _ _ _ E).
Qed.

Lemma explains_ret {A} (x : A) : explains (ret x).
Proof. intros out r out' [= <- <-]. apply extends_refl. Qed.

Lemma explains_print line : explains (print line).
Proof. intros out r out' [= <- <-]. apply extends_cons. Qed.

Lemma explains_try {A} (x : Exception + A) : explains (try x).
Proof.
  intros out r out'. unfold Configuration.try.
  destruct x; intros [= <- <-]; apply extends_refl.
Qed.

Lemma explains_null {A} line :
  In line null_lines ->
  explains (bind (print line) (fun _ => (return_null : loading A))).
Proof.
  intros Hin out r out' [= <- <-]. exists line, out.
  split; [reflexivity|]. split; [exact Hin|apply extends_refl].
Qed.

Lemma explains_lookup_path path : forall node, explains (lookup_path node path).
Proof.
  induction path as [|key rest IH]; intros node; cbn [Configuration.lookup_path].
  - apply explains_ret.
  - apply explains_bind; [apply explains_try|]. intros child. apply IH.
Qed.

Lemma explains_any_missing node paths : explains (any_missing node paths).
Proof.
  induction paths as [|path rest IH]; cbn [Configuration.any_missing].
  - apply explains_ret.
  - apply explains_bind; [apply explains_lookup_path|]. intros child.
    destruct (defined child); [exact IH|apply explains_ret].
Qed.

Lemma explains_require node paths line :
  In line null_lines -> explains (require node paths line).
Proof.
  intros Hin. unfold Configuration.require.
  apply explains_bind; [apply explains_any_missing|]. intros [|].
  - now apply explains_null.
  - apply explains_ret.
Qed.

Lemma explains_optional {A} node key (convert : Node -> Exception + A)
    default line :
  explains (optional node key convert default line).
Proof.
  unfold Configuration.optional.
  apply explains_bind; [apply explains_any_missing|]. intros [|].
  - destruct line as [l|]; [|apply explains_ret].
    apply explains_bind; [apply explains_print|]. intros _. apply explains_ret.
  - apply explains_bind; [apply explains_try|]. intros child.
    apply explains_try.
Qed.

Lemma explains_parse_consideration tc capability task tasks :
  explains (parse_consideration tc capability task tasks).
Proof.
  unfold Configuration.parse_consideration.
  apply explains_bind; [apply explains_try|]. intros c.
  destruct (defined c); [|apply explains_ret].
  apply explains_bind; [apply explains_try|]. intros [|]; apply explains_ret.
Qed.

Lemma explains_parse_finishing_request name :
  explains (parse_finishing_request name).
Proof.
  unfold Configuration.parse_finishing_request.
  repeat match goal with
         | |- context [if ?b then _ else _] => destruct b
         end;
    (apply explains_bind; [apply explains_print|]; intros _;
     apply explains_ret).
Qed.

Lemma explains_from_config_files config_file nav_graph_path uri :
  explains (from_config_files config_file nav_graph_path uri).
Proof.
  assert (Hin : forall line, existsb (String.eqb line) null_lines = true ->
                             In line null_lines).
  { intros line H. apply existsb_exists in H. destruct H as (l & Hl & E).
    apply String.eqb_eq in E. now subst. }
  unfold Configuration.from_config_files.
  repeat first
    [ apply explains_ret
    | apply explains_try
    | apply explains_print
    | apply explains_optional
    | apply explains_parse_consideration
    | apply explains_parse_finishing_request
    | apply explains_require; apply Hin; reflexivity
    | apply explains_null; apply Hin; reflexivity
    | apply explains_bind; [|intro]
    | match goal with
      | |- explains (match ?x with _ => _ end) => destruct x
      end ].
Qed.

(** X16. The configuration loaded from a file has the power sink of the
    ambient system as its tool sink: the drain of the tool is read from
    [ambient_system.power], whatever the file gives as [tool_system.power].
    The sinks share the battery system. *)
Theorem from_config_files_tool_sink config_file nav_graph_path uri out cfg
    out' :
  from_config_files config_file nav_graph_path uri out = (Continue cfg, out') ->
  tool_sink cfg = ambient_sink cfg
  /\ device_battery (tool_sink cfg) = battery_system cfg
  /\ motion_battery (motion_sink cfg) = battery_system cfg.
Proof.
  intros H. apply from_config_files_loaded in H.
  destruct H as (fc & rf & tc & _ & _ & _ & _ & _ & Ht & Ha & Hm & _).
  split; [exact Ht|]. split; [now rewrite Ht|exact Hm].
Qed.

(** X17. A file from which a configuration is loaded gives [rmf_fleet] and,
    below it, every key of [required]: the name, the profile with both
    radii, both limits, the battery, mechanical, ambient and tool systems
    with their parameters, and the task capabilities [loop], [delivery] and
    [clean]. *)
Theorem from_config_files_needs_keys config_file nav_graph_path uri out cfg
    out' :
  from_config_files config_file nav_graph_path uri out = (Continue cfg, out') ->
  exists fleet_config rmf_fleet,
    LoadFile config_file = inr fleet_config
    /\ get fleet_config "rmf_fleet" = inr rmf_fleet
    /\ defined rmf_fleet = true
    /\ Forall (given rmf_fleet) required.
Proof.
  intros H. apply from_config_files_loaded in H.
  destruct H as (fc & rf & tc & Hl & (c & Hc & Hd) & Hg & Hr & _).
  exists fc, rf. split; [exact Hl|]. split; [exact Hg|]. split; [|exact Hr].
  cbn [Configuration.resolve] in Hc. rewrite Hg in Hc. now injection Hc as ->.
Qed.

(** X18. The optional keys of a file from which a configuration is loaded.
    Each is read from the file when given; otherwise the value is the
    default and, but for [skip_rotation_commands], a line is printed: not
    reversible, battery drain accounted for, a recharge threshold of 0.2, a
    recharge state of charge of 0.2 under a line that says 1.0, rotation
    commands skipped, an update interval of 1/2.0 seconds and a maximum
    delay of 10 seconds. The server URI is the one passed. *)
Theorem from_config_files_defaults config_file nav_graph_path uri out cfg
    out' :
  from_config_files config_file nav_graph_path uri out = (Continue cfg, out') ->
  exists fleet_config rmf_fleet,
    LoadFile config_file = inr fleet_config
    /\ get fleet_config "rmf_fleet" = inr rmf_fleet
    /\ server_uri cfg = uri
    /\ read_or_default rmf_fleet "reversible" as_bool false
         (Some "Fleet reversibility is not provided, default to False")
         (reversible (traits cfg)) out'
    /\ read_or_default rmf_fleet "account_for_battery_drain" as_bool true
         (Some "Account for battery drain is not provided, default to True")
         (account_for_battery_drain cfg) out'
    /\ read_or_default rmf_fleet "recharge_threshold" as_double one_fifth
         (Some "Recharge threshold is not provided, default to 0.2")
         (recharge_threshold cfg) out'
    /\ read_or_default rmf_fleet "recharge_soc" as_double one_fifth
         (Some "Recharge state of charge is not provided, default to 1.0")
         (recharge_soc cfg) out'
    /\ read_or_default rmf_fleet "skip_rotation_commands" as_bool true None
         (skip_rotation_commands cfg) out'
    /\ (exists frequency,
          read_or_default rmf_fleet "publish_fleet_state" as_double 2%float
            (Some "Fleet state publish frequency is not provided, default to 2.0")
            frequency out'
          /\ update_interval cfg = from_seconds (PrimFloat.div 1 frequency))
    /\ (exists seconds,
          read_or_default rmf_fleet "max_delay" as_double 10%float
            (Some "Maximum delay is not provided, default to 10.0")
            seconds out'
          /\ max_delay cfg = from_seconds seconds).
Proof.
  intros H. apply from_config_files_loaded in H.
  destruct H as (fc & rf & tc & Hl & _ & Hg & _ & _ & _ & _ & _ & Hu & H1 & H2
                 & H3 & H4 & H5 & H6 & H7 & _).
  exists fc, rf. repeat (split; [assumption|]). exact H7.
Qed.

(** X19. The tasks of a file from which a configuration is loaded: [patrol]
    is considered exactly when the file accepts [loop] or [patrol], [clean]
    and [delivery] when it accepts them, and no other task; the actions
    considered are those listed under [action]; and the finishing request is
    the one that the Python binding makes of the same name, [charge] or
    [park] and otherwise none. *)
Theorem from_config_files_capabilities config_file nav_graph_path uri out cfg
    out' :
  from_config_files config_file nav_graph_path uri out = (Continue cfg, out') ->
  exists fleet_config rmf_fleet task_capabilities,
    LoadFile config_file = inr fleet_config
    /\ get fleet_config "rmf_fleet" = inr rmf_fleet
    /\ get rmf_fleet "task_capabilities" = inr task_capabilities
    /\ (forall task,
          is_Some (task_consideration cfg !! task)
          <-> (task = "patrol"
               /\ (accepted task_capabilities "loop"
                   \/ accepted task_capabilities "patrol"))
              \/ (task = "clean" /\ accepted task_capabilities "clean")
              \/ (task = "delivery"
                  /\ accepted task_capabilities "delivery"))
    /\ (exists node,
          get task_capabilities "action" = inr node
          /\ ((defined node = false /\ action_consideration cfg = ∅)
              \/ (defined node = true
                  /\ exists actions,
                       as_strings node = inr actions
                       /\ forall action,
                            is_Some (action_consideration cfg !! action)
                            <-> In action actions)))
    /\ (exists name,
          read_or_default task_capabilities "finishing_request" as_string
            EmptyString
            (Some ("Finishing request is not provided. The valid finishing requests "
                   ++ "are [charge, park, nothing]. The task planner will default to [nothing].")%string)
            name out'
          /\ finishing_request cfg = finishing_request_of name).
Proof.
  intros H. apply from_config_files_loaded in H.
  destruct H as (fc & rf & tc & Hl & _ & Hg & _ & Htc & _ & _ & _ & _ & _ & _
                 & _ & _ & _ & _ & _ & Hf & Ht & Ha).
  exists fc, rf, tc. repeat (split; [assumption|]). exact Hf.
Qed.

(** X20. When the loader returns [nullptr], the last line it wrote says why:
    it is one of the thirteen lines of [null_lines], written after whatever
    was on the output before and the lines about defaults. *)
Theorem from_config_files_null_is_explained config_file nav_graph_path uri
    out out' :
  from_config_files config_file nav_graph_path uri out = (ReturnNull, out') ->
  exists line rest,
    out' = line :: rest /\ In line null_lines /\ extends out rest.
Proof.
  intros H. exact (explains_from_config_files config_file nav_graph_path uri
                     out ReturnNull out' H).
Qed.

End ConfigurationFacts.


(* ================================================================== *)
(** ** The theorems at concrete inputs *)

Module Witness.
Import Scenario.

Lemma update_location_uses_one_category_at_waypoint :
  exists ctx' c,
    update_location compute_plan_starts from_seconds to_seconds context1
      data_at_waypoint "L1" (V3 0 0 0) = Ok ctx'
    /\ category_applies planner1 data_at_waypoint (V2 0 0) c
    /\ (forall c', category_applies planner1 data_at_waypoint (V2 0 0) c' ->
                   same_category c c' = true)
    /\ location ctx' =
         match c with
         | HintedWaypoint wp _ => starts_on_waypoint planner1 100 (V3 0 0 0) wp
         | HintedLane lane _ => starts_on_lane planner1 100 (V3 0 0 0) lane
         | WholeGraph => [found_start]
         end.
Proof.
  apply (update_location_uses_one_category compute_plan_starts from_seconds
           to_seconds context1 planner1 data_at_waypoint "L1" (V3 0 0 0)).
  - reflexivity.
  - reflexivity.
  - reflexivity.
  - repeat constructor.
  - repeat constructor.
Defined.

Lemma far_waypoint_does_not_match :
  none_matches
    (waypoint_matches graph1 (max_merge_waypoint_distance nav1)
       (V2 5 0.5)) [1%nat].
Proof.
  intros c d [<-|[]] (w & Hw & -> & Hle).
  injection Hw as <-. vm_compute in Hle. discriminate.
Defined.

Lemma update_location_on_hinted_lane_witness :
  let length_of := fun x0 y0 x1 y1 : float =>
    (sqrt ((x1 - x0) * (x1 - x0) + (y1 - y0) * (y1 - y0)))%float in
  let projection_of := fun x y x0 y0 x1 y1 : float =>
    ((x - x0) * ((x1 - x0) / length_of x0 y0 x1 y1)
     + (y - y0) * ((y1 - y0) / length_of x0 y0 x1 y1))%float in
  let lateral_of := fun x y x0 y0 x1 y1 : float =>
    let proj := projection_of x y x0 y0 x1 y1 in
    let ex := (x - x0 - proj * ((x1 - x0) / length_of x0 y0 x1 y1))%float in
    let ey := (y - y0 - proj * ((y1 - y0) / length_of x0 y0 x1 y1))%float in
    (sqrt (ex * ex + ey * ey))%float in
  let accepts := fun (lane : nat) (dist : float) =>
    In lane [0%nat; 2%nat]
    /\ is_closed [1%nat] lane = false
    /\ exists ln w0 w1,
         graph_lanes graph1 !! lane = Some ln
         /\ graph_waypoints graph1 !! entry_waypoint_index ln = Some w0
         /\ graph_waypoints graph1 !! exit_waypoint_index ln = Some w1
         /\ let x0 := vx (get_location w0) in
            let y0 := vy (get_location w0) in
            let x1 := vx (get_location w1) in
            let y1 := vy (get_location w1) in
            PrimFloat.leb 0 (projection_of 5 0.5 x0 y0 x1 y1)%float = true
            /\ PrimFloat.leb (projection_of 5 0.5 x0 y0 x1 y1)%float
                 (length_of x0 y0 x1 y1) = true
            /\ dist = (lateral_of 5 0.5 x0 y0 x1 y1)%float
            /\ PrimFloat.leb dist 1 = true in
  exists ctx',
    update_location compute_plan_starts from_seconds to_seconds context1
      data_on_lane "L1" (V3 5 0.5 0) = Ok ctx'
    /\ ((exists lane dist,
           accepts lane dist
           /\ (forall lane' dist', accepts lane' dist' ->
                                   PrimFloat.leb dist dist' = true)
           /\ location ctx' =
                mkStart 100 (lane_exit graph1 lane) 0 (Some (V2 5 0.5))
                  (Some lane)
                :: match lane_from graph1 (lane_exit graph1 lane)
                           (lane_entry graph1 lane) with
                   | Some reverse_lane =>
                       [mkStart 100 (lane_entry graph1 lane) 0
                          (Some (V2 5 0.5)) (Some reverse_lane)]
                   | None => []
                   end)
        \/ ((forall lane dist, ~ accepts lane dist)
            /\ location ctx' = [found_start])).
Proof.
  apply (update_location_on_hinted_lane compute_plan_starts from_seconds
           to_seconds context1 planner1 data_on_lane "L1" (V3 5 0.5 0)).
  - reflexivity.
  - reflexivity.
  - reflexivity.
  - repeat constructor.
  - repeat constructor.
  - exact far_waypoint_does_not_match.
Defined.

Lemma update_location_drops_outside_hints_witness :
  exists e,
    update_location compute_plan_starts from_seconds to_seconds context1
      data_stale_waypoint "L1" (V3 0 0 0) = Ok (log e context1)
    /\ ((exists wp, In wp [5%nat] /\ e = ErrWaypointOutsideGraph wp 3)
        \/ (exists lane, In lane [0%nat] /\ e = ErrLaneOutsideGraph lane 3)).
Proof.
  apply (update_location_drops_outside_hints compute_plan_starts
           from_seconds to_seconds context1 planner1 data_stale_waypoint
           "L1" (V3 0 0 0)).
  - reflexivity.
  - reflexivity.
  - left. apply Exists_cons_hd. vm_compute. lia.
Defined.

(** C9, the claim as stated fails: the command hints at lane 7, which
    the graph of three lanes does not have, and at waypoint 0, where the
    robot is. The waypoint matches, the lane hints are not looked at, and
    the update is carried out: the location is written, the arrival
    estimate reported, and nothing is logged. *)
Lemma stale_lane_hint_is_not_dropped :
  exists ctx',
    update_location compute_plan_starts from_seconds to_seconds context1
      data_stale_lane "L1" (V3 0 0 0) = Ok ctx'
    /\ Exists (fun lane => (num_lanes graph1 <= lane)%nat)
         (lanes data_stale_lane)
    /\ location context1 = []
    /\ location ctx'
       = [mkStart 100 0 0 (Some (V2 0 0)) None;
          mkStart 100 1 0 (Some (V2 0 0)) (Some 0%nat)]
    /\ arrival_estimates ctx' = [(1, 0)]
    /\ logger ctx' = [].
Proof.
  eexists. split; [vm_compute; reflexivity|].
  split; [apply Exists_cons_hd; vm_compute; lia|].
  repeat split.
Qed.



Lemma stop_leaves_the_override_stubborn_witness :
  is_stubborn Samples.world_overriding = true
  /\ forall es,
       Forall (finishing (wired 0 command0)) es ->
       exists w',
         steps compute_plan_starts from_seconds to_seconds
           interpolate_positions es (stop Samples.world_overriding) = Ok w'
         /\ okay w' (wired 0 command0) = false
         /\ datas w' = datas Samples.world_overriding
         /\ stubborn_overrides w' = stubborn_overrides Samples.world_overriding
         /\ is_stubborn w' = true
         /\ context w' = context Samples.world_overriding.
Proof.
  eapply (stop_leaves_the_override_stubborn compute_plan_starts from_seconds
            to_seconds interpolate_positions (wired 0 command0)
            Samples.world_overriding).
  - reflexivity.
  - reflexivity.
  - reflexivity.
  - reflexivity.
  - reflexivity.
  - reflexivity.
  - reflexivity.
  - constructor.
Defined.

Lemma finish_releases_stubbornness_witness :
  is_stubborn world_installed = true
  /\ exists w1,
       run_finish 0 0 (Some 0%nat) world_installed = Ok w1
       /\ is_stubborn w1 = false
       /\ release_stubbornness
            (with_schedule_override
               (mkOverride
                  (mkRoute "L1"
                     [mkSample (V3 0 0 0) 100; mkSample (V3 10 0 0) 100])
                  0 0) data_at_waypoint) w1 = w1
       /\ is_stubborn (release 0 w1) = false.
Proof.
  split; [reflexivity|].
  destruct (finish_releases_stubbornness 0 0 (Some 0%nat) world_installed 0
              (with_schedule_override
                 (mkOverride
                    (mkRoute "L1"
                       [mkSample (V3 0 0 0) 100; mkSample (V3 10 0 0) 100])
                    0 0) data_at_waypoint)
              (mkOverride
                 (mkRoute "L1"
                    [mkSample (V3 0 0 0) 100; mkSample (V3 10 0 0) 100])
                 0 0) eq_refl eq_refl eq_refl)
    as (w1 & Hrun & _ & Hnot & _ & Hagain & Hrel & _).
  exists w1. split; [exact Hrun|].
  assert (Hfree : is_stubborn w1 = false).
  { apply Hnot. intros [|sid] so Hne Hso; [now destruct Hne|].
    destruct sid; discriminate Hso. }
  split; [exact Hfree|]. split; [exact Hagain|]. now apply Hrel.
Defined.

Lemma follow_new_path_single_waypoint_witness :
  follow_new_path [single_waypoint] true true world_at_0
  = Throw (out_of_bounds_read (2 ^ 64 - 1)).
Proof.
  apply (follow_new_path_single_waypoint_reads_outside world_at_0
           single_waypoint planner1 0 (mkGraphWaypoint (V2 0 0) "L1"));
    reflexivity.
Defined.

Lemma tracker_begins_each_command_in_turn_witness :
  exists n w,
    drain compute_plan_starts from_seconds to_seconds interpolate_positions
      n (next (make_tracker queue2 world0)) = Ok w
    /\ worker w = []
    /\ observed w = [PathFinished 0; BeginInvoked 1; BeginInvoked 0].
Proof.
  refine (proj1 (proj2 (tracker_begins_each_command_in_turn
                          compute_plan_starts from_seconds to_seconds
                          interpolate_positions queue2 world0 eq_refl
                          _ _ _ _)) eq_refl _).
  - constructor.
  - apply (bool_decide_unpack _). vm_compute. exact I.
  - repeat constructor; try discriminate.
    + exists data_at_waypoint. now split.
    + eexists. split; [reflexivity|]. repeat constructor.
    + exists data_on_lane. now split.
    + eexists. split; [reflexivity|]. repeat constructor.
  - repeat constructor; intros [].
  - repeat constructor; eexists; (split; [reflexivity|discriminate]).
Defined.

(** C3, the claim as stated fails: a queue of two commands is handed to
    a tracker; the integrator overrides the schedule of the first and
    then calls [finished()]. The command finishes, a replan is requested,
    and the tracker is not advanced: the worker is idle with one begin
    observed, the second command never begun and no completion. *)
Lemma override_stalls_the_tracker :
  exists w,
    drain compute_plan_starts from_seconds to_seconds interpolate_positions
      10 (next (make_tracker queue2 world_override)) = Ok w
    /\ length queue2 = 2%nat
    /\ worker w = []
    /\ update_fn w 0 = None
    /\ observed w = [BeginInvoked 0]
    /\ replan_requests (context w) = 1%nat.
Proof.
  eexists. split; [vm_compute; reflexivity|]. repeat split.
Qed.

End Witness.

(* ================================================================== *)
(** ** The scenarios of section 8, evaluated *)

Module Examples.
Import Scenario.

(** The robot at pose (0,0,0), hinted at waypoint 0 at (0,0), with
    [max_merge_waypoint_distance] 0.1: a start on the waypoint and one
    through lane 0, which is open; none through lane 1, which is closed. *)
Example waypoint_match_excludes_closed_lane :
  exists ctx',
    update_location compute_plan_starts from_seconds to_seconds context1
      data_at_waypoint "L1" (V3 0 0 0) = Ok ctx'
    /\ lanes_leaving graph1 0 = [0%nat; 1%nat]
    /\ is_closed (lane_closures planner1) 1 = true
    /\ location ctx'
       = [mkStart 100 0 0 (Some (V2 0 0)) None;
          mkStart 100 1 0 (Some (V2 0 0)) (Some 0%nat)].
Proof. eexists. split; [vm_compute; reflexivity|]. repeat split. Qed.

(** A queue of two commands whose [begin] calls [finished()] at once:
    the second is begun after the first, then the completion fires. *)
Example synchronous_finish_begins_both :
  exists w,
    drain compute_plan_starts from_seconds to_seconds interpolate_positions
      10 (next (make_tracker queue2 world0)) = Ok w
    /\ worker w = []
    /\ observed w = [PathFinished 0; BeginInvoked 1; BeginInvoked 0].
Proof. eexists. split; [vm_compute; reflexivity|]. repeat split. Qed.

(** [override_schedule] on the first command, then [finished()] without
    a release: stubborn once the override is installed, not stubborn
    once the command has finished, the handle still held. *)
Example override_then_finished_releases :
  let cmd := wired 0 command0 in
  let path := [V3 0 0 0; V3 10 0 0] in
  (exists w,
     steps compute_plan_starts from_seconds to_seconds interpolate_positions
       [IntegratorCalls cmd (CallOverrideSchedule "L1" path); WorkerRuns]
       (next (make_tracker queue2 world_quiet)) = Ok w
     /\ is_stubborn w = true)
  /\ (exists w,
        steps compute_plan_starts from_seconds to_seconds
          interpolate_positions
          [IntegratorCalls cmd (CallOverrideSchedule "L1" path); WorkerRuns;
           IntegratorCalls cmd CallFinished; WorkerRuns]
          (next (make_tracker queue2 world_quiet)) = Ok w
        /\ is_stubborn w = false
        /\ stubborn_overrides w = [Some (mkStubborn false true false)]
        /\ replan_requests (context w) = 1%nat).
Proof.
  cbv zeta. split; eexists; (split; [vm_compute; reflexivity|]); repeat split.
Qed.

(** A position reported for a command that has finished, or that was
    stopped, makes the worker's task throw. *)
Example update_after_finished_throws :
  let cmd := wired 0 command0 in
  steps compute_plan_starts from_seconds to_seconds interpolate_positions
    [IntegratorCalls cmd CallFinished; WorkerRuns;
     IntegratorUpdates "L1" (V3 0 0 0) (Some 0%nat); WorkerRuns]
    (next (make_tracker [command0] world_quiet))
  = Throw bad_function_call.
Proof. vm_compute. reflexivity. Qed.

Example update_after_stop_throws :
  steps compute_plan_starts from_seconds to_seconds interpolate_positions
    [AdapterStops; IntegratorUpdates "L1" (V3 0 0 0) (Some 0%nat); WorkerRuns]
    (next (make_tracker queue2 world_quiet))
  = Throw bad_function_call.
Proof. vm_compute. reflexivity. Qed.

(** A position reported without a current activity: the whole-graph
    search finds a start, and the location stays empty. *)
Example update_without_activity_is_discarded :
  exists w,
    steps compute_plan_starts from_seconds to_seconds interpolate_positions
      [IntegratorUpdates "L1" (V3 0 0 0) None; WorkerRuns] world_quiet = Ok w
    /\ compute_plan_starts graph1 "L1" (V3 0 0 0) 100
         (max_merge_waypoint_distance nav1) (max_merge_lane_distance nav1)
         (min_lane_length nav1) = [found_start]
    /\ location (context w) = [].
Proof. eexists. split; [vm_compute; reflexivity|]. repeat split. Qed.

(** A plan of two waypoints from the robot's location, along lane 0:
    one command is made, hinted at waypoints 0 and 1 and at lane 0, and
    begun. *)
Example follow_new_path_two_waypoints :
  exists w,
    follow_new_path
      [mkPlanWaypoint (V3 0 0 0) (Some 0%nat) [];
       mkPlanWaypoint (V3 10 0 0) (Some 1%nat) [0%nat]] true true world_at_0
    = Ok w
    /\ datas w
       = [mkData [0%nat; 1%nat] [0%nat] (Some 0%float) None nav1
            (EstimateForTarget 1)]
    /\ identifiers w = [Some 0%nat]
    /\ observed w = [BeginInvoked 0].
Proof. eexists. split; [vm_compute; reflexivity|]. repeat split. Qed.

End Examples.

(* ================================================================== *)
(** ** Paths, docks, fleets and files at concrete inputs *)

Module Checks.
Import Scenario Samples.

(** [stop()] while [command0] of [world_started] is in progress. *)
Lemma stop_ends_the_path_witness :
  okay world_started command0 = true
  /\ observed (stop world_started)
     = StopRequested 0 :: observed world_started
  /\ stop (stop world_started) = stop world_started
  /\ (forall es w',
        steps compute_plan_starts from_seconds to_seconds
          interpolate_positions es (stop world_started) = Ok w' ->
        okay w' command0 = false)
  /\ (forall es w',
        forallb keeps_tracker es = true ->
        steps compute_plan_starts from_seconds to_seconds
          interpolate_positions es (stop world_started) = Ok w' ->
        current_progress w' = None
        /\ observed w' = observed (stop world_started)).
Proof.
  eapply (stop_ends_the_path compute_plan_starts from_seconds to_seconds
            interpolate_positions world_started _ command0 0).
  - reflexivity.
  - reflexivity.
  - reflexivity.
Defined.

(** Tracker 0 of [world_started], once stopped or replaced. *)
Lemma finished_of_replaced_path_witness :
  (forall queue es w' d i dk dt,
     steps compute_plan_starts from_seconds to_seconds interpolate_positions
       es (next (make_tracker queue world_started)) = Ok w' ->
     update_fn w' i = Some dk ->
     datas w' !! d = Some dt ->
     schedule_override dt = None ->
     run_finish d i (Some 0%nat) w' = Ok (clear_update_fn i w'))
  /\ (forall es w' d i dk dt,
        steps compute_plan_starts from_seconds to_seconds
          interpolate_positions es (stop world_started) = Ok w' ->
        (forall tr, current_progress world_started = Some tr ->
                    current_identifier tr <> None) ->
        update_fn w' i = Some dk ->
        datas w' !! d = Some dt ->
        schedule_override dt = None ->
        run_finish d i (Some 0%nat) w' = Ok (clear_update_fn i w')).
Proof.
  apply (finished_of_replaced_path compute_plan_starts from_seconds
           to_seconds interpolate_positions 0 world_started).
  vm_compute. lia.
Defined.

(** An override asked of a command that is not live. *)
Lemma override_schedule_refused_witness :
  exists w2,
    run_worker compute_plan_starts from_seconds to_seconds
      interpolate_positions
      (snd (override_schedule command_gone "L1" [V3 0 0 0; V3 10 0 0]
              world0)) = Ok w2
    /\ fst (override_schedule command_gone "L1" [V3 0 0 0; V3 10 0 0] world0)
       = 0%nat
    /\ stubborn_overrides w2 = [Some (mkStubborn false true false)]
    /\ is_stubborn w2 = false
    /\ datas w2 = datas world0
    /\ itinerary (context w2) = itinerary (context world0)
    /\ worker w2 = []
    /\ logger (context w2) = [].
Proof.
  apply (override_schedule_refused compute_plan_starts from_seconds
           to_seconds interpolate_positions command_gone "L1"
           [V3 0 0 0; V3 10 0 0] world0).
  - reflexivity.
  - left. reflexivity.
Defined.

(** An override of [command0] in [world0]. *)
Lemma override_schedule_installs_witness :
  let r := mkRoute "L1"
             (interpolate_positions (vehicle_traits planner1) 100
                [V3 0 0 0; V3 10 0 0]) in
  let ov := mkOverride r 0 0 in
  exists w2,
    run_worker compute_plan_starts from_seconds to_seconds
      interpolate_positions
      (snd (override_schedule command0 "L1" [V3 0 0 0; V3 10 0 0] world0))
    = Ok w2
    /\ fst (override_schedule command0 "L1" [V3 0 0 0; V3 10 0 0] world0)
       = 0%nat
    /\ datas w2
       = <[0%nat := with_schedule_override ov data_at_waypoint]> (datas world0)
    /\ itinerary (context w2) = mkItinerary 1 [(0%nat, [r])] []
    /\ stubborn_overrides w2 !! 0%nat
       = Some (Some (mkStubborn true true false))
    /\ is_stubborn w2 = true
    /\ (forall ov0 so,
          schedule_override data_at_waypoint = Some ov0 ->
          stubborn_overrides w2 !! stubborn ov0 = Some (Some so) ->
          stubborn ov0 <> 0%nat ->
          stubbornness so = false)
    /\ (forall m l,
          exists w3,
            run_update_position compute_plan_starts from_seconds to_seconds
              m l (Some 0%nat) w2 = Ok w3
            /\ location (context w3)
               = compute_plan_starts graph1 m l 100
                   (max_merge_waypoint_distance nav1)
                   (max_merge_lane_distance nav1)
                   (min_lane_length nav1)
            /\ (itinerary (context w3) = itinerary (context w2)
                \/ exists delay,
                     itinerary (context w3)
                     = mkItinerary 1 [(0%nat, [r])]
                         [mkDelay 0 delay one_second])).
Proof.
  apply (override_schedule_installs compute_plan_starts from_seconds
           to_seconds interpolate_positions command0 "L1"
           [V3 0 0 0; V3 10 0 0] world0 planner1 data_at_waypoint).
  - reflexivity.
  - reflexivity.
  - reflexivity.
  - reflexivity.
  - reflexivity.
Defined.

Lemma plan_0_1_on_graph : plan_on_graph graph1 plan_0_1.
Proof.
  unfold plan_on_graph, plan_0_1.
  unfold plan_on_graph, plan_0_1.
  constructor; [|constructor; [|constructor]]; cbn.
  - split; [constructor|]. intros gi [= <-]. lia.
  - split; [repeat constructor; lia|]. intros gi [= <-]. lia.
Defined.

(** The plan from waypoint 0 to waypoint 1, for the robot at waypoint
    0. *)
Lemma follow_new_path_decomposes_witness :
  exists queue w1 tis,
    follow_new_path plan_0_1 true true world_at_0
    = Ok (next (make_tracker queue w1))
    /\ queue <> []
    /\ newly_made world_at_0 w1 queue
    /\ (forall c, In c queue ->
          okay w1 c = true /\ update_fn w1 (identifier c) = Some (data c))
    /\ Forall2 (targets plan_0_1 w1) queue tis
    /\ covers true plan_0_1 1 tis 2.
Proof.
  apply (follow_new_path_decomposes plan_0_1 world_at_0 planner1 0).
  - reflexivity.
  - reflexivity.
  - exact plan_0_1_on_graph.
  - vm_compute. discriminate.
  - vm_compute. reflexivity.
  - apply Exists_cons_hd. discriminate.
  - reflexivity.
Defined.

Lemma accepted_path_runs_to_completion_witness :
  exists queue w1 tis n w',
    follow_new_path plan_0_1 true true world_at_0
    = Ok (next (make_tracker queue w1))
    /\ queue <> []
    /\ newly_made world_at_0 w1 queue
    /\ Forall2 (targets plan_0_1 w1) queue tis
    /\ covers true plan_0_1 1 tis 2
    /\ drain compute_plan_starts from_seconds to_seconds
         interpolate_positions n (next (make_tracker queue w1)) = Ok w'
    /\ worker w' = []
    /\ observed w' = PathFinished 0 :: rev (map begin_of queue) ++ [].
Proof.
  apply (accepted_path_runs_to_completion compute_plan_starts from_seconds
           to_seconds interpolate_positions plan_0_1 world_at_0 planner1 0).
  - reflexivity.
  - reflexivity.
  - reflexivity.
  - exact plan_0_1_on_graph.
  - vm_compute. discriminate.
  - vm_compute. reflexivity.
  - apply Exists_cons_hd. discriminate.
  - reflexivity.
  - intros dest. split; [discriminate|repeat constructor].
Defined.

(** An update of the robot at waypoint 0. *)
Lemma update_location_is_contained_witness :
  exists ctx',
    update_location compute_plan_starts from_seconds to_seconds context1
      data_at_waypoint "L1" (V3 0 0 0) = Ok ctx'
    /\ steady context1 ctx'
    /\ at_most_one_more (logger context1) (logger ctx')
    /\ at_most_one_more (delays (itinerary context1))
         (delays (itinerary ctx')).
Proof.
  apply (update_location_is_contained compute_plan_starts from_seconds
           to_seconds context1 data_at_waypoint "L1" (V3 0 0 0)).
  intros pl [= <-]. reflexivity.
Defined.

Lemma override_0_1_has_no_nan :
  forall j dd,
    segment_matches (trajectory (route override_0_1)) (V2 5 0) j dd ->
    ~ is_nan dd.
Proof.
  intros j dd (s0 & s1 & H0 & H1 & _ & ->).
  destruct j as [|[|j]]; try discriminate H1.
  injection H0 as <-. injection H1 as <-.
  unfold is_nan. vm_compute. discriminate.
Defined.

(** The robot half way along the override from waypoint 0 to waypoint
    1. *)
Lemma override_delay_uses_nearest_witness :
  let samples := trajectory (route override_0_1) in
  let segments := seq 0 (length samples - 1) in
  exists ctx',
    override_delay from_seconds to_seconds context1 (V2 5 0) override_0_1
    = Ok ctx'
    /\ ((exists i dist s0 s1,
           segment_matches samples (V2 5 0) i dist
           /\ nearest (segment_matches samples (V2 5 0)) segments dist
           /\ samples !! i = Some s0 /\ samples !! S i = Some s1
           /\ ctx' = cumulative_delay 3
                       (100 - expected_time from_seconds to_seconds (V2 5 0)
                                s0 s1)
                       one_second context1)
        \/ (none_matches (segment_matches samples (V2 5 0)) segments
            /\ exists s,
                 closest_sample (V2 5 0) samples s
                 /\ ctx' = cumulative_delay 3 (100 - time s) one_second
                             context1)
        \/ (samples = [] /\ ctx' = context1)).
Proof.
  exact (override_delay_uses_nearest from_seconds to_seconds context1
           (V2 5 0) override_0_1 override_0_1_has_no_nan).
Defined.

(** Docking at the charger of [graph1], which lane 2 leads to. *)
Lemma dock_makes_one_command_witness :
  exists msg w1 dt,
    dock from_seconds current_plan_id entry_event exit_event "charger" world0
    = Ok (msg, w1)
    /\ identifiers w1 = identifiers world0 ++ [Some 2%nat]
    /\ datas w1 = datas world0 ++ [dt]
    /\ observed w1 = BeginInvoked 2 :: observed world0
    /\ (exists tr, current_progress w1 = Some tr
                   /\ tracker_id tr = 0%nat
                   /\ reverse_queue tr = []
                   /\ current_identifier tr = Some 2%nat)
    /\ schedule_override dt = None /\ final_orientation dt = None
    /\ ((msg = Some WarnDockNotFound
         /\ (forall lane, (lane < num_lanes graph1)%nat ->
                          ~ docks_at entry_event exit_event graph1 "charger"
                              lane)
         /\ waypoints dt = [] /\ lanes dt = []
         /\ arrival_estimator dt = EstimateIgnored)
        \/ (exists lane w0 w1',
              msg = None
              /\ (lane < num_lanes graph1)%nat
              /\ docks_at entry_event exit_event graph1 "charger" lane
              /\ (forall j, (j < lane)%nat ->
                            ~ docks_at entry_event exit_event graph1
                                "charger" j)
              /\ waypoints dt = [lane_entry graph1 lane; lane_exit graph1 lane]
              /\ lanes dt = [lane]
              /\ graph_waypoints graph1 !! lane_entry graph1 lane = Some w0
              /\ graph_waypoints graph1 !! lane_exit graph1 lane = Some w1'
              /\ arrival_estimator dt
                 = EstimateForDock
                     (100
                      + from_seconds
                          (PrimFloat.div
                             (norm (sub (get_location w1') (get_location w0)))
                             (fmax (linear_nominal_velocity
                                      (vehicle_traits planner1))
                                min_velocity)))
                     (current_plan_id (itinerary context1)))).
Proof.
  apply (dock_makes_one_command from_seconds current_plan_id entry_event
           exit_event "charger" world0 planner1).
  - reflexivity.
  - reflexivity.
  - reflexivity.
Defined.

(** A position update half way along the docking lane. *)
Lemma docking_position_updates_witness :
  let v := fmax (linear_nominal_velocity (vehicle_traits planner1))
             min_velocity in
  let w_rot := fmax (rotational_nominal_velocity (vehicle_traits planner1))
                 min_velocity in
  exists msg w1 w2,
    dock from_seconds current_plan_id entry_event exit_event "charger" world0
    = Ok (msg, w1)
    /\ run_update_position compute_plan_starts from_seconds to_seconds
         "L1" (V3 5 0 0) (Some 2%nat) w1 = Ok w2
    /\ ((msg = Some WarnDockNotFound
         /\ context w2
            = set_location
                (compute_plan_starts graph1 "L1" (V3 5 0 0) 100
                   (max_merge_waypoint_distance nav1)
                   (max_merge_lane_distance nav1)
                   (min_lane_length nav1))
                context1)
        \/ (exists lane w0 w1',
              msg = None
              /\ docks_at entry_event exit_event graph1 "charger" lane
              /\ graph_waypoints graph1 !! lane_entry graph1 lane = Some w0
              /\ graph_waypoints graph1 !! lane_exit graph1 lane = Some w1'
              /\ itinerary (context w2)
                 = mkItinerary 0 []
                     [mkDelay (current_plan_id (itinerary context1))
                        (100
                         + from_seconds
                             (PrimFloat.add
                                (PrimFloat.div
                                   (norm (sub (get_location w1')
                                            (xy (V3 5 0 0)))) v)
                                (PrimFloat.div 0 w_rot))
                         - (100
                            + from_seconds
                                (PrimFloat.div
                                   (norm (sub (get_location w1')
                                            (get_location w0))) v)))
                        one_second])).
Proof.
  apply (docking_position_updates compute_plan_starts from_seconds
           to_seconds current_plan_id entry_event exit_event "charger"
           world0 planner1 "L1" (V3 5 0 0)).
  - reflexivity.
  - reflexivity.
  - reflexivity.
Defined.

Lemma docking_runs_to_completion_witness :
  exists msg w1 n w',
    dock from_seconds current_plan_id entry_event exit_event "charger" world0
    = Ok (msg, w1)
    /\ drain compute_plan_starts from_seconds to_seconds
         interpolate_positions n w1 = Ok w'
    /\ worker w' = []
    /\ observed w' = [PathFinished 0; BeginInvoked 2].
Proof.
  apply (docking_runs_to_completion compute_plan_starts from_seconds
           to_seconds interpolate_positions current_plan_id entry_event
           exit_event "charger" world0 planner1).
  - reflexivity.
  - reflexivity.
  - reflexivity.
  - reflexivity.
  - discriminate.
  - repeat constructor.
Defined.

(** [robot1] added to the empty fleet, with its three callbacks. *)
Lemma add_robot_registers_witness :
  exists f1 r,
    add_robot compute_plan_starts robot1 (Some "navigate"%string)
      (Some "stop"%string) (Some "dock"%string) "teleop"%string fleet0
    = (Some 0%nat, f1)
    /\ added_robots f1 = [r]
    /\ added_name r = "robot1"%string /\ added_start r = [found_start]
    /\ cmd_handles f1 !! "robot1"%string
       = Some (Some (mkCommandHandle nav1 "navigate"%string "stop"%string
                       "dock"%string None))
    /\ more 0 f1 = None
    /\ (forall soc, update_battery_soc 0 soc f1 = f1)
    /\ (forall handle context soc,
          let f2 := run_fleet_worker (handle_cb r handle context f1) in
          more 0 f2 = Some handle
          /\ battery_updates (update_battery_soc 0 soc f2) = [(handle, soc)]
          /\ action_executors f2 = [(handle, "teleop"%string)]
          /\ cmd_handles f2 !! "robot1"%string
             = Some (Some (mkCommandHandle nav1 "navigate"%string
                             "stop"%string "dock"%string (Some context)))
          /\ messages f2
             = [InfoRobotAdded "robot1" "fleet"; InfoAddingRobot "robot1"]).
Proof.
  apply (add_robot_registers compute_plan_starts robot1 "navigate"%string
           "stop"%string "dock"%string "teleop"%string fleet0 found_start []).
  - reflexivity.
  - reflexivity.
  - reflexivity.
Defined.

(** [robot1] offered to the empty fleet without a dock callback. *)
Lemma add_robot_turned_down_witness :
  exists f1,
    add_robot compute_plan_starts robot1 (Some "navigate"%string)
      (Some "stop"%string) None "teleop"%string fleet0
    = (None, f1)
    /\ cmd_handles f1 = <["robot1"%string := None]> (cmd_handles fleet0)
    /\ added_robots f1 = []
    /\ updaters f1 = []
    /\ fleet_worker f1 = []
    /\ messages f1
       = [ErrNullCallbacks "robot1" "fleet"; InfoAddingRobot "robot1"].
Proof.
  apply (add_robot_turned_down compute_plan_starts robot1
           (Some "navigate"%string) (Some "stop"%string) None
           "teleop"%string fleet0).
  - reflexivity.
  - right. right. right. reflexivity.
Defined.

(** [config.yaml] loads. *)
Lemma config_yaml_loads :
  exists cfg out', load "config.yaml" [] = (Configuration.Continue cfg, out').
Proof. eexists. eexists. vm_compute. reflexivity. Defined.

Lemma from_config_files_tool_sink_witness :
  exists cfg out',
    load "config.yaml" [] = (Configuration.Continue cfg, out')
    /\ Configuration.tool_sink cfg = Configuration.ambient_sink cfg
    /\ Configuration.device_battery (Configuration.tool_sink cfg)
       = Configuration.battery_system cfg
    /\ Configuration.motion_battery (Configuration.motion_sink cfg)
       = Configuration.battery_system cfg.
Proof.
  destruct config_yaml_loads as (cfg & out' & E). exists cfg, out'.
  split; [exact E|].
  exact (from_config_files_tool_sink LoadFile defined get at_index as_double
           as_bool as_string as_strings BatterySystem_make
           MechanicalSystem_make PowerSystem_make from_seconds parse_graph
           "config.yaml" "nav.yaml" None [] cfg out' E).
Defined.

Lemma from_config_files_needs_keys_witness :
  exists fleet_config rmf_fleet,
    LoadFile "config.yaml" = inr fleet_config
    /\ get fleet_config "rmf_fleet" = inr rmf_fleet
    /\ defined rmf_fleet = true
    /\ Forall (Configuration.given defined get rmf_fleet)
         Configuration.required.
Proof.
  destruct config_yaml_loads as (cfg & out' & E).
  exact (from_config_files_needs_keys LoadFile defined get at_index as_double
           as_bool as_string as_strings BatterySystem_make
           MechanicalSystem_make PowerSystem_make from_seconds parse_graph
           "config.yaml" "nav.yaml" None [] cfg out' E).
Defined.

Lemma from_config_files_defaults_witness :
  exists cfg out' fleet_config rmf_fleet,
    load "config.yaml" [] = (Configuration.Continue cfg, out')
    /\ LoadFile "config.yaml" = inr fleet_config
    /\ get fleet_config "rmf_fleet" = inr rmf_fleet
    /\ Configuration.server_uri cfg = None
    /\ Configuration.read_or_default defined get rmf_fleet "reversible"
         as_bool false
         (Some "Fleet reversibility is not provided, default to False"%string)
         (Configuration.reversible (Configuration.traits cfg)) out'
    /\ Configuration.read_or_default defined get rmf_fleet
         "account_for_battery_drain" as_bool true
         (Some "Account for battery drain is not provided, default to True"%string)
         (Configuration.account_for_battery_drain cfg) out'
    /\ Configuration.read_or_default defined get rmf_fleet
         "recharge_threshold" as_double Configuration.one_fifth
         (Some "Recharge threshold is not provided, default to 0.2"%string)
         (Configuration.recharge_threshold cfg) out'
    /\ Configuration.read_or_default defined get rmf_fleet "recharge_soc"
         as_double Configuration.one_fifth
         (Some "Recharge state of charge is not provided, default to 1.0"%string)
         (Configuration.recharge_soc cfg) out'
    /\ Configuration.read_or_default defined get rmf_fleet
         "skip_rotation_commands" as_bool true None
         (Configuration.skip_rotation_commands cfg) out'
    /\ (exists frequency,
          Configuration.read_or_default defined get rmf_fleet
            "publish_fleet_state" as_double 2%float
            (Some "Fleet state publish frequency is not provided, default to 2.0"%string)
            frequency out'
          /\ Configuration.update_interval cfg
             = from_seconds (PrimFloat.div 1 frequency))
    /\ (exists seconds,
          Configuration.read_or_default defined get rmf_fleet "max_delay"
            as_double 10%float
            (Some "Maximum delay is not provided, default to 10.0"%string)
            seconds out'
          /\ Configuration.max_delay cfg = from_seconds seconds).
Proof.
  destruct config_yaml_loads as (cfg & out' & E).
  destruct (from_config_files_defaults LoadFile defined get at_index
              as_double as_bool as_string as_strings BatterySystem_make
              MechanicalSystem_make PowerSystem_make from_seconds parse_graph
              "config.yaml" "nav.yaml" None [] cfg out' E)
    as (fleet_config & rmf_fleet & H).
  exists cfg, out', fleet_config, rmf_fleet. split; [exact E|exact H].
Defined.

Lemma from_config_files_capabilities_witness :
  exists cfg out' fleet_config rmf_fleet task_capabilities,
    load "config.yaml" [] = (Configuration.Continue cfg, out')
    /\ LoadFile "config.yaml" = inr fleet_config
    /\ get fleet_config "rmf_fleet" = inr rmf_fleet
    /\ get rmf_fleet "task_capabilities" = inr task_capabilities
    /\ (forall task,
          is_Some (Configuration.task_consideration cfg !! task)
          <-> (task = "patrol"%string
               /\ (Configuration.accepted defined get as_bool
                     task_capabilities "loop"
                   \/ Configuration.accepted defined get as_bool
                        task_capabilities "patrol"))
              \/ (task = "clean"%string
                  /\ Configuration.accepted defined get as_bool
                       task_capabilities "clean")
              \/ (task = "delivery"%string
                  /\ Configuration.accepted defined get as_bool
                       task_capabilities "delivery"))
    /\ (exists node,
          get task_capabilities "action" = inr node
          /\ ((defined node = false
               /\ Configuration.action_consideration cfg = ∅)
              \/ (defined node = true
                  /\ exists actions,
                       as_strings node = inr actions
                       /\ forall action,
                            is_Some (Configuration.action_consideration cfg
                                     !! action)
                            <-> In action actions)))
    /\ (exists name,
          Configuration.read_or_default defined get task_capabilities
            "finishing_request" as_string EmptyString
            (Some ("Finishing request is not provided. The valid finishing requests "
                   ++ "are [charge, park, nothing]. The task planner will default to [nothing].")%string)
            name out'
          /\ Configuration.finishing_request cfg
             = Configuration.finishing_request_of name).
Proof.
  destruct config_yaml_loads as (cfg & out' & E).
  destruct (from_config_files_capabilities LoadFile defined get at_index
              as_double as_bool as_string as_strings BatterySystem_make
              MechanicalSystem_make PowerSystem_make from_seconds parse_graph
              "config.yaml" "nav.yaml" None [] cfg out' E)
    as (fleet_config & rmf_fleet & task_capabilities & H).
  exists cfg, out', fleet_config, rmf_fleet, task_capabilities.
  split; [exact E|exact H].
Defined.

(** [nameless.yaml] is turned down for its missing name. *)
Lemma from_config_files_null_is_explained_witness :
  exists line rest,
    ["Fleet name is not provided"%string] = line :: rest
    /\ In line Configuration.null_lines
    /\ Configuration.extends [] rest.
Proof.
  apply (from_config_files_null_is_explained LoadFile defined get at_index
           as_double as_bool as_string as_strings BatterySystem_make
           MechanicalSystem_make PowerSystem_make from_seconds parse_graph
           "nameless.yaml" "nav.yaml" None []).
  vm_compute. reflexivity.
Defined.

End Checks.
